(** * The lille compiler: symbol table, semantic analyzer, scanner, parser
      helpers, emitter and driver, embedded from the C++ sources.

    Every definition below follows one function of the sources
    (id_table.cpp, semantics.cpp, scanner.cpp, parser.cpp, code_gen.cpp,
    compiler.cpp) and keeps its name.  Objects that the C++ code shares
    through pointers (the error handler, the symbol table, the emitter)
    are threaded explicitly through the functions that touch them. *)

From Stdlib Require Import ZArith Ascii String.
From stdpp Require Import base option list gmap strings pretty.

Local Open Scope string_scope.
Local Open Scope list_scope.
Local Open Scope Z_scope.

(** ** Text helpers *)

(** The character written by "\n" and by std::endl. *)
Definition nl : string := String "010"%char EmptyString.

Definition concat_strings (l : list string) : string :=
  foldr String.append EmptyString l.

(** ** Enumerations of the kit headers *)

(** Modelled from the spec: lille_type.h is not part of the sources; the
    enumeration has the seven semantic types the spec lists, under the
    enumerator names the sources use (lille_type::type_real, ...).  The
    class lille_type only wraps one enumerator, so Ty and get_type are the
    identity. *)
Module lille_type.
Inductive lille_ty : Set :=
  | type_integer | type_real | type_string | type_boolean
  | type_prog | type_func | type_unknown.
End lille_type.
Export lille_type.

Global Instance lille_ty_eq_dec : EqDecision lille_ty.
Proof. solve_decision. Defined.

(** Modelled from the spec: lille_kind.h is not part of the sources; the
    kinds are the six the spec lists. *)
Module lille_kind.
Inductive lille_kind : Set :=
  | variable | constant | procedure | function | program | unknown.

Definition is_kind (k k' : lille_kind) : bool :=
    match k, k' with
    | variable, variable | constant, constant | procedure, procedure
    | function, function | program, program | unknown, unknown => true
    | _, _ => false
    end.
End lille_kind.

(** Modelled from the spec: symbol.h is not part of the sources either.
    The closed enumeration of symbol tags has the enumerators of the switch
    in error_message (scanner.cpp) and [nul], which the scanner produces
    for an illegal character. *)
Module symbol.
Inductive symbol_type : Set :=
  | nul
  | identifier | strng | real_num | integer | end_of_program
  | semicolon_sym | colon_sym | comma_sym | equals_sym | not_equals_sym
  | less_than_sym | greater_than_sym | less_or_equal_sym
  | greater_or_equal_sym | plus_sym | minus_sym | slash_sym | asterisk_sym
  | power_sym | ampersand_sym | left_paren_sym | right_paren_sym
  | range_sym | becomes_sym
  | and_sym | begin_sym | boolean_sym | constant_sym | else_sym | elsif_sym
  | end_sym | eof_sym | exit_sym | false_sym | for_sym | function_sym
  | if_sym | in_sym | integer_sym | is_sym | loop_sym | not_sym | null_sym
  | odd_sym | or_sym | pragma_sym | procedure_sym | program_sym | read_sym
  | real_sym | ref_sym | return_sym | reverse_sym | string_sym | then_sym
  | true_sym | value_sym | when_sym | while_sym | write_sym | writeln_sym.
End symbol.
Module ST := symbol.

(** error_message (scanner.cpp): the diagnostic code of "this symbol was
    expected".  The default case of the switch throws; it is [None] here. *)
Definition error_message (s : symbol.symbol_type) : option Z :=
  match s with
  | symbol.identifier => Some 0
  | symbol.strng => Some 1
  | symbol.real_num => Some 2
  | symbol.integer => Some 3
  | symbol.end_of_program => Some 4
  | symbol.semicolon_sym => Some 5
  | symbol.colon_sym => Some 6
  | symbol.comma_sym => Some 7
  | symbol.equals_sym => Some 8
  | symbol.not_equals_sym => Some 9
  | symbol.less_than_sym => Some 10
  | symbol.greater_than_sym => Some 11
  | symbol.less_or_equal_sym => Some 12
  | symbol.greater_or_equal_sym => Some 13
  | symbol.plus_sym => Some 14
  | symbol.minus_sym => Some 15
  | symbol.slash_sym => Some 16
  | symbol.asterisk_sym => Some 17
  | symbol.power_sym => Some 18
  | symbol.ampersand_sym => Some 19
  | symbol.left_paren_sym => Some 20
  | symbol.right_paren_sym => Some 21
  | symbol.range_sym => Some 22
  | symbol.becomes_sym => Some 23
  | symbol.and_sym => Some 24
  | symbol.begin_sym => Some 25
  | symbol.boolean_sym => Some 26
  | symbol.constant_sym => Some 27
  | symbol.else_sym => Some 28
  | symbol.elsif_sym => Some 29
  | symbol.end_sym => Some 30
  | symbol.eof_sym => Some 31
  | symbol.exit_sym => Some 32
  | symbol.false_sym => Some 33
  | symbol.for_sym => Some 34
  | symbol.function_sym => Some 35
  | symbol.if_sym => Some 36
  | symbol.in_sym => Some 37
  | symbol.integer_sym => Some 38
  | symbol.is_sym => Some 39
  | symbol.loop_sym => Some 40
  | symbol.not_sym => Some 41
  | symbol.null_sym => Some 42
  | symbol.odd_sym => Some 43
  | symbol.or_sym => Some 44
  | symbol.pragma_sym => Some 45
  | symbol.procedure_sym => Some 46
  | symbol.program_sym => Some 47
  | symbol.read_sym => Some 48
  | symbol.real_sym => Some 49
  | symbol.ref_sym => Some 50
  | symbol.return_sym => Some 51
  | symbol.reverse_sym => Some 52
  | symbol.string_sym => Some 53
  | symbol.then_sym => Some 54
  | symbol.true_sym => Some 55
  | symbol.value_sym => Some 56
  | symbol.when_sym => Some 57
  | symbol.while_sym => Some 58
  | symbol.write_sym => Some 59
  | symbol.writeln_sym => Some 60
  | symbol.nul => None
  end.

(** Equality of symbols ([==] on the enumeration).  The numbering only
    serves the comparison: [nul] takes the one number error_message leaves
    free. *)
Definition symbol_index (s : symbol.symbol_type) : Z :=
  match error_message s with Some n => n | None => -1 end.

Definition symbol_eqb (a b : symbol.symbol_type) : bool :=
  symbol_index a =? symbol_index b.

(** The code of a symbol the switch of error_message lists; every call in
    the sources passes such a symbol, so the throwing default case is never
    taken there. *)
Definition error_code (s : symbol.symbol_type) : Z :=
  match error_message s with Some n => n | None => 0 end.

(** ** Floating point

    The scanner converts a real literal with std::stod and a cast to
    float, and the emitter prints a float through an output stream.  Both
    are floating-point operations of the C++ library; the development takes
    them as an interface. *)
Class Floats := {
  float : Type;
  (** 0.0f *)
  float_zero : float;
  (** static_cast<float>(std::stod(s)); [None] when std::stod throws *)
  stod : string -> option float;
  (** the characters that [ss << val] appends *)
  float_out : float -> string
}.

(** An instance that keeps a real literal as its text, to run the
    definitions on concrete inputs. *)
Definition lexeme_floats : Floats :=
  {| float := string; float_zero := "0.0"; stod := Some; float_out := id |}.

(** What a call returns: a value, or the exception it throws. *)
Inductive outcome (A : Type) : Type :=
| Returned (a : A)
| Thrown (what : string).
Arguments Returned {A} a.
Arguments Thrown {A} what.

Section Compiler.
Context `{Floats}.

(** ** Tokens *)

(** Modelled from the spec: token.h is not part of the sources.  A token
    carries its symbol, the line and column of its first character, and a
    payload for each kind of literal and for identifiers; the fields are
    named after the accessors the sources call. *)
Record token := mk_token {
  get_sym : symbol.symbol_type;
  get_line_number : Z;
  get_pos_on_line : Z;
  get_integer_value : Z;
  get_real_value : float;
  get_string_value : string;
  get_identifier_value : string
}.

(** token(sym, line, pos): a token without payload. *)
Definition new_token (s : symbol.symbol_type) (line pos : Z) : token :=
  mk_token s line pos 0 float_zero EmptyString EmptyString.

Definition set_identifier_value (v : string) (t : token) : token :=
  mk_token (get_sym t) (get_line_number t) (get_pos_on_line t)
    (get_integer_value t) (get_real_value t) (get_string_value t) v.
Definition set_string_value (v : string) (t : token) : token :=
  mk_token (get_sym t) (get_line_number t) (get_pos_on_line t)
    (get_integer_value t) (get_real_value t) v (get_identifier_value t).
Definition set_integer_value (v : Z) (t : token) : token :=
  mk_token (get_sym t) (get_line_number t) (get_pos_on_line t)
    v (get_real_value t) (get_string_value t) (get_identifier_value t).
Definition set_real_value (v : float) (t : token) : token :=
  mk_token (get_sym t) (get_line_number t) (get_pos_on_line t)
    (get_integer_value t) v (get_string_value t) (get_identifier_value t).

(** ** Error sink *)

(** A diagnostic: a place in the source and a numeric code. *)
Record diagnostic := mk_diagnostic {
  diag_line : Z;
  diag_col : Z;
  diag_code : Z
}.

(** Modelled from the spec: error_handler.h and error_handler.cpp are not
    part of the sources.  The sink accepts a diagnostic by (line, column,
    code) or by (token, code), and exposes the count of the diagnostics it
    accepted; it is the list of those diagnostics, oldest first. *)
Definition error_handler : Type := list diagnostic.

Definition flag (line col code : Z) (e : error_handler) : error_handler :=
  e ++ [mk_diagnostic line col code].

Definition flag_token (t : token) (code : Z) (e : error_handler)
  : error_handler :=
  flag (get_line_number t) (get_pos_on_line t) code e.

Definition error_count (e : error_handler) : Z := Z.of_nat (length e).

(** ** Symbol table (id_table.h, id_table.cpp) *)

Record record := mk_record {
  get_name : string;
  get_type : lille_ty;
  get_kind : lille_kind.lille_kind
}.

(** record(n) *)
Definition new_record (n : string) : record :=
  mk_record n type_unknown lille_kind.unknown.

Definition set_type (t : lille_ty) (r : record) : record :=
  mk_record (get_name r) t (get_kind r).
Definition set_kind (k : lille_kind.lille_kind) (r : record) : record :=
  mk_record (get_name r) (get_type r) k.

(** The table owns its records through pointers: [store] holds the live
    records by address, and a frame of [scopes] maps a name to the address
    of its record.  scopes[0] is the outermost frame and the last frame is
    the current one.  (The field [error] is stored by the constructor and
    never used.) *)
Record id_table := mk_id_table {
  store : gmap N record;
  scopes : list (gmap string N)
}.

(** id_table::id_table *)
Definition id_table_new : id_table := mk_id_table ∅ [∅].

(** scopes.back(); the methods that call it on an empty vector have no
    defined behaviour, and the table never gets there (see
    [scopes_never_empty]). *)
Definition back (t : id_table) : option (gmap string N) := last (scopes t).

Definition open_scope (t : id_table) : id_table :=
  mk_id_table (store t) (scopes t ++ [∅]).

(** [delete kv.second] for every entry of a frame. *)
Definition delete_records (frame : gmap string N) (st : gmap N record)
  : gmap N record :=
  foldr (fun kv acc => delete kv.2 acc) st (map_to_list frame).

Definition close_scope (t : id_table) : id_table :=
  if bool_decide (length (scopes t) <= 1)%nat then t
  else
    match back t with
    | Some top => mk_id_table (delete_records top (store t))
                              (removelast (scopes t))
    | None => t
    end.

(** enter returns the address of the record and the updated table.  [new]
    returns an address that no live record has. *)
Definition enter (name : string) (t : id_table) : N * id_table :=
  match back t with
  | Some cur =>
      match cur !! name with
      | Some r => (r, t)
      | None =>
          let r := fresh (dom (store t)) in
          (r, mk_id_table (<[r := new_record name]> (store t))
                          (removelast (scopes t) ++ [<[name := r]> cur]))
      end
  | None => (0%N, t)
  end.

Definition lookup_local (name : string) (t : id_table) : option N :=
  match back t with
  | Some cur => cur !! name
  | None => None
  end.

(** The loop of lookup, from the frame at index size-1 down to index 0. *)
Fixpoint lookup_frames (inner_first : list (gmap string N)) (name : string)
  : option N :=
  match inner_first with
  | [] => None
  | frame :: outer =>
      match frame !! name with
      | Some r => Some r
      | None => lookup_frames outer name
      end
  end.

Definition lookup (name : string) (t : id_table) : option N :=
  lookup_frames (reverse (scopes t)) name.

(** rec->set_type(ty) and rec->set_kind(k), through the pointer. *)
Definition rec_set_type (r : N) (ty : lille_ty) (t : id_table) : id_table :=
  mk_id_table (alter (set_type ty) r (store t)) (scopes t).
Definition rec_set_kind (r : N) (k : lille_kind.lille_kind) (t : id_table)
  : id_table :=
  mk_id_table (alter (set_kind k) r (store t)) (scopes t).

Definition ty_name (t : lille_ty) : string :=
  match t with
  | type_integer => "INTEGER"
  | type_real => "REAL"
  | type_string => "STRING"
  | type_boolean => "BOOLEAN"
  | type_prog => "PROG"
  | _ => "UNKNOWN"
  end.

Definition kind_name (k : Z) : string :=
  match k with
  | 1 => "VARIABLE"
  | 2 => "CONSTANT"
  | 3 => "PROCEDURE"
  | 4 => "FUNCTION"
  | 5 => "PROG"
  | _ => "UNKNOWN"
  end.

(** The body of the inner loop of dump: the line printed for one record. *)
Definition dump_record (lvl : nat) (r : record) : string :=
  let line := 0 in
  let pos := 0 in
  let offset := 0 in
  let trace := 0 in
  let params := 0 in
  let kindLabel := kind_name 0 in
  let typeLabel := ty_name (get_type r) in
  concat_strings
    [ "Token Name: "; get_name r;
      " Line No: "; pretty line;
      " Position: "; pretty pos;
      "  Type: "; typeLabel;
      "  Kind: "; kindLabel;
      "  Level: "; pretty (Z.of_nat lvl);
      "  Offset: "; pretty offset;
      "  Trace?: "; pretty trace;
      "  #params: "; pretty params;
      nl ].

(** The body of the outer loop of dump.  The entries of a frame are
    visited in the order of the map's iterator, which the unordered_map
    leaves unspecified; here it is the order of [map_to_list]. *)
Definition dump_scope (st : gmap N record) (lvl : nat)
    (scope : gmap string N) : string :=
  concat_strings
    [ "~~~~~~~~~~~~~~~~~~~~~~~~~~~~~~~~~~~~~"; nl;
      "scope level "; pretty (Z.of_nat lvl); nl;
      "---------------------"; nl;
      concat_strings
        (map (fun kv => match st !! kv.2 with
                        | Some r => dump_record lvl r
                        | None => EmptyString
                        end)
             (map_to_list scope)) ].

(** dump(out): the text appended to [out]. *)
Definition dump (t : id_table) : string :=
  concat_strings (imap (dump_scope (store t)) (scopes t)).

(** ** Semantic analyzer (semantics.h, semantics.cpp)

    The analyzer holds pointers to the symbol table and to the error
    handler; both are in the state its methods transform. *)
Record semantics := mk_semantics {
  id_tab : id_table;
  err : error_handler
}.

Definition sem_flag (w : token) (code : Z) (s : semantics) : semantics :=
  mk_semantics (id_tab s) (flag_token w code (err s)).

Definition is_num (t : lille_ty) : bool :=
  bool_decide (t = type_integer) || bool_decide (t = type_real).
Definition is_bool (t : lille_ty) : bool := bool_decide (t = type_boolean).
Definition is_str (t : lille_ty) : bool := bool_decide (t = type_string).

Definition declare_var (name : string) (ty : lille_ty) (w : token)
    (s : semantics) : semantics :=
  match lookup_local name (id_tab s) with
  | Some _ => sem_flag w 82 s
  | None =>
      let '(rec, t) := enter name (id_tab s) in
      let t := rec_set_kind rec lille_kind.variable t in
      let t := rec_set_type rec ty t in
      mk_semantics t (err s)
  end.

Definition declare_const (name : string) (ty : lille_ty) (w : token)
    (s : semantics) : semantics :=
  match lookup_local name (id_tab s) with
  | Some _ => sem_flag w 82 s
  | None =>
      let '(rec, t) := enter name (id_tab s) in
      let t := rec_set_kind rec lille_kind.constant t in
      let t := rec_set_type rec ty t in
      mk_semantics t (err s)
  end.

(** A record read through a pointer.  Reading a record that was deleted
    has no defined behaviour in C++; the functions below then leave the
    state as it is, and no theorem speaks about that case. *)
Definition deref (r : N) (s : semantics) : option record :=
  store (id_tab s) !! r.

Definition lookup_type (name : string) (w : token) (s : semantics)
  : lille_ty * semantics :=
  if String.eqb name "INT2REAL" then (type_real, s)
  else if String.eqb name "REAL2INT" then (type_integer, s)
  else if String.eqb name "INT2STRING" then (type_string, s)
  else if String.eqb name "REAL2STRING" then (type_string, s)
  else
    match lookup name (id_tab s) with
    | None => (type_unknown, sem_flag w 81 s)
    | Some rec =>
        match deref rec s with
        | Some r => (get_type r, s)
        | None => (type_unknown, s)
        end
    end.

Definition check_assignment (lhs_name : string) (rhs : lille_ty) (w : token)
    (s : semantics) : semantics :=
  match lookup lhs_name (id_tab s) with
  | None => sem_flag w 81 s
  | Some rec =>
      match deref rec s with
      | None => s
      | Some r =>
          let kind := get_kind r in
          if lille_kind.is_kind kind lille_kind.constant then sem_flag w 85 s
          else
            let LT := get_type r in
            let RT := rhs in
            if bool_decide (LT = RT) then s
            else if bool_decide (LT = type_real)
                    && bool_decide (RT = type_integer) then s
            else if bool_decide (LT = type_unknown)
                    || bool_decide (RT = type_unknown) then s
            else sem_flag w 93 s
      end
  end.

Definition sem_open_scope (s : semantics) : semantics :=
  mk_semantics (open_scope (id_tab s)) (err s).

(** dump_all_scopes and close_scope_and_dump return the text written to
    the stream next to the new state. *)
Definition dump_all_scopes (s : semantics) : string := dump (id_tab s).

Definition close_scope_and_dump (s : semantics) : string * semantics :=
  (dump_all_scopes s, mk_semantics (close_scope (id_tab s)) (err s)).

Definition install_builtin (name : string) (s : semantics) : semantics :=
  let '(rec, t) := enter name (id_tab s) in
  mk_semantics (rec_set_type rec type_func t) (err s).

Definition install_builtins (s : semantics) : semantics :=
  let s := install_builtin "INT2REAL" s in
  let s := install_builtin "INT2STRING" s in
  let s := install_builtin "REAL2INT" s in
  install_builtin "REAL2STRING" s.

(** The lambda is_promotable of the concatenation case. *)
Definition is_promotable (t : lille_ty) : bool :=
  bool_decide (t = type_integer) || bool_decide (t = type_real)
  || bool_decide (t = type_boolean).

Definition is_arithmetic_op (op : symbol.symbol_type) : bool :=
  symbol_eqb op symbol.plus_sym || symbol_eqb op symbol.minus_sym
  || symbol_eqb op symbol.asterisk_sym || symbol_eqb op symbol.slash_sym
  || symbol_eqb op symbol.power_sym.

Definition is_logical_op (op : symbol.symbol_type) : bool :=
  symbol_eqb op symbol.and_sym || symbol_eqb op symbol.or_sym.

Definition is_comparison_op (op : symbol.symbol_type) : bool :=
  symbol_eqb op symbol.equals_sym || symbol_eqb op symbol.not_equals_sym
  || symbol_eqb op symbol.less_than_sym
  || symbol_eqb op symbol.less_or_equal_sym
  || symbol_eqb op symbol.greater_than_sym
  || symbol_eqb op symbol.greater_or_equal_sym.

Definition check_binary (L : lille_ty) (op : symbol.symbol_type)
    (R : lille_ty) (w : token) (s : semantics) : lille_ty * semantics :=
  if is_arithmetic_op op then
    if negb (is_num L && is_num R) then (type_unknown, sem_flag w 116 s)
    else if bool_decide (L = type_real) || bool_decide (R = type_real)
    then (type_real, s)
    else (type_integer, s)
  else if is_logical_op op then
    if is_bool L && is_bool R then (type_boolean, s)
    else (type_unknown, sem_flag w 120 s)
  else if symbol_eqb op symbol.ampersand_sym then
    let lt := L in
    let rt := R in
    if bool_decide (lt = type_unknown) || bool_decide (rt = type_unknown)
    then (type_string, s)
    else if bool_decide (lt = type_string) && bool_decide (rt = type_string)
    then (type_string, s)
    else if (bool_decide (lt = type_string) && is_promotable rt)
            || (bool_decide (rt = type_string) && is_promotable lt)
            || (is_promotable lt && is_promotable rt)
    then (type_string, s)
    else (type_unknown, sem_flag w 115 s)
  else if is_comparison_op op then
    let ok := false in
    let ok := if is_num L && is_num R then true else ok in
    let ok := if is_str L && is_str R
                 && (symbol_eqb op symbol.equals_sym
                     || symbol_eqb op symbol.not_equals_sym)
              then true else ok in
    let ok := if is_bool L && is_bool R
                 && (symbol_eqb op symbol.equals_sym
                     || symbol_eqb op symbol.not_equals_sym)
              then true else ok in
    if ok then (type_boolean, s)
    else (type_unknown, sem_flag w 114 s)
  else (type_unknown, s).

Definition check_unary (op : symbol.symbol_type) (T : lille_ty) (w : token)
    (s : semantics) : lille_ty * semantics :=
  if symbol_eqb op symbol.not_sym then
    if is_bool T then (type_boolean, s)
    else (type_unknown, sem_flag w 120 s)
  else if symbol_eqb op symbol.plus_sym || symbol_eqb op symbol.minus_sym then
    if is_num T then (T, s)
    else (type_unknown, sem_flag w 116 s)
  else (type_unknown, s).

Definition require_boolean (T : lille_ty) (w : token) (s : semantics)
  : semantics :=
  if negb (is_bool T) then
    if negb (bool_decide (T = type_unknown)) then sem_flag w 120 s
    else s
  else s.

(** ** Scanner (scanner.h, scanner.cpp)

    [source_file] is the input stream: the lines that the calls of
    std::getline still to come will return, the last of which sets the
    end-of-file bit, so that source_file.eof() holds exactly when the list
    is empty.  [error] is the pointer to the error handler, [None] for the
    null pointer. *)
Record scanner := mk_scanner {
  source_file : list string;
  pos_on_line : Z;
  line_number : Z;
  eoln_flag : bool;
  eof_flag : bool;
  input_buffer : string;
  next_char : ascii;
  current_symbol : symbol.symbol_type;
  current_line_number : Z;
  current_pos_on_line : Z;
  current_integer_value : Z;
  current_real_value : float;
  current_string_value : string;
  current_identifier_name : string;
  current_token : token;
  error : option error_handler
}.

Definition set_source_file (v : list string) (s : scanner) : scanner :=
  mk_scanner v (pos_on_line s) (line_number s) (eoln_flag s) (eof_flag s) (input_buffer s) (next_char s) (current_symbol s) (current_line_number s) (current_pos_on_line s) (current_integer_value s) (current_real_value s) (current_string_value s) (current_identifier_name s) (current_token s) (error s).

Definition set_pos_on_line (v : Z) (s : scanner) : scanner :=
  mk_scanner (source_file s) v (line_number s) (eoln_flag s) (eof_flag s) (input_buffer s) (next_char s) (current_symbol s) (current_line_number s) (current_pos_on_line s) (current_integer_value s) (current_real_value s) (current_string_value s) (current_identifier_name s) (current_token s) (error s).

Definition set_line_number (v : Z) (s : scanner) : scanner :=
  mk_scanner (source_file s) (pos_on_line s) v (eoln_flag s) (eof_flag s) (input_buffer s) (next_char s) (current_symbol s) (current_line_number s) (current_pos_on_line s) (current_integer_value s) (current_real_value s) (current_string_value s) (current_identifier_name s) (current_token s) (error s).

Definition set_eoln_flag (v : bool) (s : scanner) : scanner :=
  mk_scanner (source_file s) (pos_on_line s) (line_number s) v (eof_flag s) (input_buffer s) (next_char s) (current_symbol s) (current_line_number s) (current_pos_on_line s) (current_integer_value s) (current_real_value s) (current_string_value s) (current_identifier_name s) (current_token s) (error s).

Definition set_eof_flag (v : bool) (s : scanner) : scanner :=
  mk_scanner (source_file s) (pos_on_line s) (line_number s) (eoln_flag s) v (input_buffer s) (next_char s) (current_symbol s) (current_line_number s) (current_pos_on_line s) (current_integer_value s) (current_real_value s) (current_string_value s) (current_identifier_name s) (current_token s) (error s).

Definition set_input_buffer (v : string) (s : scanner) : scanner :=
  mk_scanner (source_file s) (pos_on_line s) (line_number s) (eoln_flag s) (eof_flag s) v (next_char s) (current_symbol s) (current_line_number s) (current_pos_on_line s) (current_integer_value s) (current_real_value s) (current_string_value s) (current_identifier_name s) (current_token s) (error s).

Definition set_next_char (v : ascii) (s : scanner) : scanner :=
  mk_scanner (source_file s) (pos_on_line s) (line_number s) (eoln_flag s) (eof_flag s) (input_buffer s) v (current_symbol s) (current_line_number s) (current_pos_on_line s) (current_integer_value s) (current_real_value s) (current_string_value s) (current_identifier_name s) (current_token s) (error s).

Definition set_current_symbol (v : symbol.symbol_type) (s : scanner) : scanner :=
  mk_scanner (source_file s) (pos_on_line s) (line_number s) (eoln_flag s) (eof_flag s) (input_buffer s) (next_char s) v (current_line_number s) (current_pos_on_line s) (current_integer_value s) (current_real_value s) (current_string_value s) (current_identifier_name s) (current_token s) (error s).

Definition set_current_line_number (v : Z) (s : scanner) : scanner :=
  mk_scanner (source_file s) (pos_on_line s) (line_number s) (eoln_flag s) (eof_flag s) (input_buffer s) (next_char s) (current_symbol s) v (current_pos_on_line s) (current_integer_value s) (current_real_value s) (current_string_value s) (current_identifier_name s) (current_token s) (error s).

Definition set_current_pos_on_line (v : Z) (s : scanner) : scanner :=
  mk_scanner (source_file s) (pos_on_line s) (line_number s) (eoln_flag s) (eof_flag s) (input_buffer s) (next_char s) (current_symbol s) (current_line_number s) v (current_integer_value s) (current_real_value s) (current_string_value s) (current_identifier_name s) (current_token s) (error s).

Definition set_current_integer_value (v : Z) (s : scanner) : scanner :=
  mk_scanner (source_file s) (pos_on_line s) (line_number s) (eoln_flag s) (eof_flag s) (input_buffer s) (next_char s) (current_symbol s) (current_line_number s) (current_pos_on_line s) v (current_real_value s) (current_string_value s) (current_identifier_name s) (current_token s) (error s).

Definition set_current_real_value (v : float) (s : scanner) : scanner :=
  mk_scanner (source_file s) (pos_on_line s) (line_number s) (eoln_flag s) (eof_flag s) (input_buffer s) (next_char s) (current_symbol s) (current_line_number s) (current_pos_on_line s) (current_integer_value s) v (current_string_value s) (current_identifier_name s) (current_token s) (error s).

Definition set_current_string_value (v : string) (s : scanner) : scanner :=
  mk_scanner (source_file s) (pos_on_line s) (line_number s) (eoln_flag s) (eof_flag s) (input_buffer s) (next_char s) (current_symbol s) (current_line_number s) (current_pos_on_line s) (current_integer_value s) (current_real_value s) v (current_identifier_name s) (current_token s) (error s).

Definition set_current_identifier_name (v : string) (s : scanner) : scanner :=
  mk_scanner (source_file s) (pos_on_line s) (line_number s) (eoln_flag s) (eof_flag s) (input_buffer s) (next_char s) (current_symbol s) (current_line_number s) (current_pos_on_line s) (current_integer_value s) (current_real_value s) (current_string_value s) v (current_token s) (error s).

Definition set_current_token (v : token) (s : scanner) : scanner :=
  mk_scanner (source_file s) (pos_on_line s) (line_number s) (eoln_flag s) (eof_flag s) (input_buffer s) (next_char s) (current_symbol s) (current_line_number s) (current_pos_on_line s) (current_integer_value s) (current_real_value s) (current_string_value s) (current_identifier_name s) v (error s).

Definition set_error (v : option error_handler) (s : scanner) : scanner :=
  mk_scanner (source_file s) (pos_on_line s) (line_number s) (eoln_flag s) (eof_flag s) (input_buffer s) (next_char s) (current_symbol s) (current_line_number s) (current_pos_on_line s) (current_integer_value s) (current_real_value s) (current_string_value s) (current_identifier_name s) (current_token s) v.

(** The lines a source text is read as: the text between newlines.  A text
    that ends in a newline gives an empty last line, the read on which
    std::getline meets the end of the file. *)
Fixpoint getlines_from (cur : string) (text : string) : list string :=
  match text with
  | EmptyString => [cur]
  | String c rest =>
      if Ascii.eqb c "010" then cur :: getlines_from EmptyString rest
      else getlines_from (cur +:+ String c EmptyString) rest
  end.
Definition getlines (text : string) : list string :=
  getlines_from EmptyString text.

(** *** Characters *)

Definition end_marker : ascii := ascii_of_nat 7.
Definition dquote : ascii := ascii_of_nat 34.

Definition char_code (c : ascii) : Z := Z.of_N (N_of_ascii c).

(** The value of a [char] in a comparison; [char] is signed, as with g++ on
    x86. *)
Definition char_value (c : ascii) : Z :=
  if 128 <=? char_code c then char_code c - 256 else char_code c.

(** next_char <= ' ' *)
Definition le_space (c : ascii) : bool := char_value c <=? 32.

(** isalpha, isdigit and toupper of <cctype> on an unsigned char, in the
    C locale. *)
Definition isalpha (c : ascii) : bool :=
  ((65 <=? char_code c) && (char_code c <=? 90))
  || ((97 <=? char_code c) && (char_code c <=? 122)).
Definition isdigit (c : ascii) : bool :=
  (48 <=? char_code c) && (char_code c <=? 57).
Definition toupper (c : ascii) : ascii :=
  if (97 <=? char_code c) && (char_code c <=? 122)
  then ascii_of_N (N_of_ascii c - 32) else c.

Definition push_back (s : string) (c : ascii) : string :=
  s +:+ String c EmptyString.

(** *** Loops

    A while loop runs under a bound on its iterations; [None] says that
    the bound was reached before the condition became false. *)
Fixpoint while {S : Type} (fuel : nat) (cond : S -> bool)
    (body : S -> option S) (s : S) : option S :=
  if cond s then
    match fuel with
    | O => None
    | Datatypes.S n => s' ← body s; while n cond body s'
    end
  else Some s.

(** *** Buffer and character plumbing *)

Definition get_line (s : scanner) : scanner :=
  match source_file s with
  | line :: rest =>
      let s := set_source_file rest s in
      let s := set_input_buffer line s in
      set_line_number (line_number s + 1) s
  | [] =>
      let s := set_eof_flag true s in
      set_input_buffer EmptyString s
  end.

Definition fill_buffer (s : scanner) : scanner :=
  let s := set_pos_on_line (-1) s in
  let s := get_line s in
  let s := set_eoln_flag true s in
  set_next_char end_marker s.

Definition buffer_length (s : scanner) : Z :=
  Z.of_nat (String.length (input_buffer s)).

(** input_buffer.at(i); every call is guarded by i < length, and i is
    never negative. *)
Definition buffer_at (i : Z) (s : scanner) : ascii :=
  match String.get (Z.to_nat i) (input_buffer s) with
  | Some c => c
  | None => end_marker
  end.

Definition get_char (s : scanner) : scanner :=
  if pos_on_line s + 1 <? buffer_length s then
    let s := set_pos_on_line (pos_on_line s + 1) s in
    let s := set_next_char (buffer_at (pos_on_line s) s) s in
    set_eoln_flag false s
  else fill_buffer s.

Definition following_char (s : scanner) : ascii :=
  if negb (eof_flag s) && (pos_on_line s + 1 <? buffer_length s)
  then buffer_at (pos_on_line s + 1) s
  else end_marker.

(** if (error) error->flag(current_line_number, current_pos_on_line, code) *)
Definition scan_flag (code : Z) (s : scanner) : scanner :=
  match error s with
  | Some e =>
      set_error
        (Some (flag (current_line_number s) (current_pos_on_line s) code e)) s
  | None => s
  end.

Definition next_is (c : ascii) (s : scanner) : bool :=
  Ascii.eqb (next_char s) c.

(** *** Strings *)

(** The loop of scan_string; the boolean is [terminated], and the break
    is the exit through [terminated]. *)
Definition scan_string_step (st : bool * scanner) : option (bool * scanner) :=
  let s := st.2 in
  if next_is dquote s then
    if Ascii.eqb (following_char s) dquote then
      let s := get_char s in
      let s := get_char s in
      let s := set_current_string_value
                 (push_back (current_string_value s) dquote) s in
      Some (false, s)
    else
      let s := get_char s in
      Some (true, s)
  else
    let s := set_current_string_value
               (push_back (current_string_value s) (next_char s)) s in
    let s := get_char s in
    Some (false, s).

Definition scan_string (fuel : nat) (s : scanner) : option scanner :=
  let s := set_current_string_value EmptyString s in
  let s := get_char s in
  st ← while fuel
         (fun st => negb st.1 && negb (eof_flag st.2) && negb (eoln_flag st.2))
         scan_string_step (false, s);
  let terminated := st.1 in
  let s := st.2 in
  let s := if negb terminated
           then scan_flag (error_code symbol.strng) s else s in
  Some (set_current_symbol symbol.strng s).

(** *** Identifiers and reserved words *)

Definition reserved_words : list (string * symbol.symbol_type) :=
  [ ("AND", symbol.and_sym); ("BEGIN", symbol.begin_sym);
    ("BOOLEAN", symbol.boolean_sym); ("CONSTANT", symbol.constant_sym);
    ("ELSE", symbol.else_sym); ("ELSIF", symbol.elsif_sym);
    ("END", symbol.end_sym); ("EOF", symbol.eof_sym);
    ("EXIT", symbol.exit_sym); ("FALSE", symbol.false_sym);
    ("FOR", symbol.for_sym); ("FUNCTION", symbol.function_sym);
    ("IF", symbol.if_sym); ("IN", symbol.in_sym);
    ("INTEGER", symbol.integer_sym); ("IS", symbol.is_sym);
    ("LOOP", symbol.loop_sym); ("NOT", symbol.not_sym);
    ("NULL", symbol.null_sym); ("ODD", symbol.odd_sym);
    ("OR", symbol.or_sym); ("PRAGMA", symbol.pragma_sym);
    ("PROCEDURE", symbol.procedure_sym); ("PROGRAM", symbol.program_sym);
    ("READ", symbol.read_sym); ("REAL", symbol.real_sym);
    ("REF", symbol.ref_sym); ("RETURN", symbol.return_sym);
    ("REVERSE", symbol.reverse_sym); ("STRING", symbol.string_sym);
    ("THEN", symbol.then_sym); ("TRUE", symbol.true_sym);
    ("VALUE", symbol.value_sym); ("WHEN", symbol.when_sym);
    ("WRITE", symbol.write_sym); ("WRITELN", symbol.writeln_sym);
    ("WHILE", symbol.while_sym) ].

(** The chain of comparisons at the end of scan_alpha. *)
Fixpoint reserved_word (words : list (string * symbol.symbol_type))
    (name : string) : symbol.symbol_type :=
  match words with
  | [] => symbol.identifier
  | (w, sym) :: rest =>
      if String.eqb name w then sym else reserved_word rest name
  end.

(** current_identifier_name.back() == '_' on a string that is not empty *)
Fixpoint ends_in_underscore (s : string) : bool :=
  match s with
  | EmptyString => false
  | String c EmptyString => Ascii.eqb c "_"
  | String _ rest => ends_in_underscore rest
  end.

(** The loop of scan_alpha; the boolean is [malformed_ident]. *)
Definition scan_alpha_step (st : bool * scanner) : option (bool * scanner) :=
  let s := st.2 in
  let malformed_ident :=
    if next_is "_" s && Ascii.eqb (following_char s) "_" then true
    else st.1 in
  let s := set_current_identifier_name
             (push_back (current_identifier_name s) (toupper (next_char s)))
             s in
  let s := get_char s in
  Some (malformed_ident, s).

Definition scan_alpha (fuel : nat) (s : scanner) : option scanner :=
  let s := set_current_identifier_name EmptyString s in
  let s := set_current_identifier_name
             (push_back (current_identifier_name s) (toupper (next_char s)))
             s in
  let s := get_char s in
  st ← while fuel
         (fun st => isalpha (next_char st.2) || isdigit (next_char st.2)
                    || next_is "_" st.2)
         scan_alpha_step (false, s);
  let s := st.2 in
  let malformed_ident :=
    if ends_in_underscore (current_identifier_name s) then true else st.1 in
  let s := if malformed_ident then scan_flag 61 s else s in
  Some (set_current_symbol
          (reserved_word reserved_words (current_identifier_name s)) s).

(** *** Numbers *)

Fixpoint decimal_value (acc : Z) (digits : string) : Z :=
  match digits with
  | EmptyString => acc
  | String c rest => decimal_value (10 * acc + (char_code c - 48)) rest
  end.

(** std::stoi on the text of scan_digit, which holds decimal digits only
    when the number is not real; [None] when std::stoi throws
    std::out_of_range, the value not fitting an int. *)
Definition stoi (number_text : string) : option Z :=
  let v := decimal_value 0 number_text in
  if v <=? 2147483647 then Some v else None.

(** while (isdigit(next_char)) { number_text += next_char; get_char(); } *)
Definition scan_digits (fuel : nat) (st : string * scanner)
  : option (string * scanner) :=
  while fuel (fun st => isdigit (next_char st.2))
    (fun st => Some (push_back st.1 (next_char st.2), get_char st.2)) st.

Definition scan_digit (fuel : nat) (s : scanner) : option scanner :=
  let number_text := EmptyString in
  let is_real := false in
  (* integer part *)
  '(number_text, s) ← scan_digits fuel (number_text, s);
  (* optional fractional part, but not if it starts a range *)
  '(is_real, (number_text, s)) ←
       ((if next_is "." s && negb (Ascii.eqb (following_char s) ".") then
          let number_text := push_back number_text (next_char s) in
          let s := get_char s in
          let s := if negb (isdigit (next_char s)) then scan_flag 77 s
                   else s in
          st ← scan_digits fuel (number_text, s);
          Some (true, st)
        else Some (is_real, (number_text, s)))
       : option (bool * (string * scanner)));
  (* optional exponent *)
  '(is_real, (number_text, s)) ←
       ((if next_is "E" s || next_is "e" s then
          let number_text := push_back number_text (next_char s) in
          let s := get_char s in
          let '(number_text, s) :=
            if next_is "+" s || next_is "-" s
            then (push_back number_text (next_char s), get_char s)
            else (number_text, s) in
          let s := if negb (isdigit (next_char s)) then scan_flag 77 s
                   else s in
          st ← scan_digits fuel (number_text, s);
          Some (true, st)
        else Some (is_real, (number_text, s)))
       : option (bool * (string * scanner)));
  (* a letter right after the number *)
  let s := if isalpha (next_char s) then scan_flag 77 s else s in
  (* conversion, under try / catch (...) *)
  Some
    (if (is_real : bool) then
       match stod number_text with
       | Some v =>
           set_current_symbol symbol.real_num (set_current_real_value v s)
       | None =>
           let s := scan_flag 77 s in
           set_current_symbol symbol.real_num
             (set_current_real_value float_zero s)
       end
     else
       match stoi number_text with
       | Some v =>
           set_current_symbol symbol.integer (set_current_integer_value v s)
       | None =>
           let s := scan_flag 77 s in
           set_current_symbol symbol.integer (set_current_integer_value 0 s)
       end).

(** *** Punctuation and operators *)

(** The cases of the switch that look at the following character. *)
Definition scan_two_chars (second : ascii) (both single : symbol.symbol_type)
    (s : scanner) : scanner :=
  if Ascii.eqb (following_char s) second
  then get_char (set_current_symbol both s)
  else set_current_symbol single s.

Definition scan_special_symbol (fuel : nat) (s : scanner) : option scanner :=
  match next_char s with
  | "034"%char => scan_string fuel s
  | c =>
      let s :=
        match c with
        | ":"%char =>
            scan_two_chars "=" symbol.becomes_sym symbol.colon_sym s
        | "<"%char =>
            if Ascii.eqb (following_char s) "=" then
              get_char (set_current_symbol symbol.less_or_equal_sym s)
            else if Ascii.eqb (following_char s) ">" then
              get_char (set_current_symbol symbol.not_equals_sym s)
            else set_current_symbol symbol.less_than_sym s
        | ">"%char =>
            scan_two_chars "=" symbol.greater_or_equal_sym
              symbol.greater_than_sym s
        | "*"%char =>
            scan_two_chars "*" symbol.power_sym symbol.asterisk_sym s
        | "."%char =>
            if Ascii.eqb (following_char s) "." then
              get_char (set_current_symbol symbol.range_sym s)
            else
              let s := set_current_symbol symbol.nul s in
              scan_flag (error_code symbol.range_sym) s
        | "&"%char => set_current_symbol symbol.ampersand_sym s
        | "/"%char => set_current_symbol symbol.slash_sym s
        | ";"%char => set_current_symbol symbol.semicolon_sym s
        | "("%char => set_current_symbol symbol.left_paren_sym s
        | ")"%char => set_current_symbol symbol.right_paren_sym s
        | ","%char => set_current_symbol symbol.comma_sym s
        | "+"%char => set_current_symbol symbol.plus_sym s
        | "-"%char => set_current_symbol symbol.minus_sym s
        | "="%char => set_current_symbol symbol.equals_sym s
        | _ =>
            let s := set_current_symbol symbol.nul s in
            scan_flag 74 s
        end in
      Some (get_char s)
  end.

(** *** Tokens *)

Definition at_comment (s : scanner) : bool :=
  next_is "-" s && Ascii.eqb (following_char s) "-".

(** Step 1 of get_token: whitespace and comments. *)
Definition skip_blanks (fuel : nat) (s : scanner) : option scanner :=
  while fuel
    (fun s => negb (eof_flag s) && (le_space (next_char s) || at_comment s))
    (fun s =>
       s ← while fuel
             (fun s => negb (eof_flag s) && le_space (next_char s))
             (fun s => Some (get_char s)) s;
       while fuel (fun s => negb (eof_flag s) && at_comment s)
         (fun s => Some (fill_buffer s)) s)
    s.

(** The do-while loop of parse_pragma. *)
Fixpoint pragma_skip (fuel : nat)
    (get_token : scanner -> option (token * scanner)) (s : scanner)
  : option scanner :=
  ts ← get_token s;
  let s := ts.2 in
  if symbol_eqb (current_symbol s) symbol.end_of_program then Some s
  else if negb (symbol_eqb (current_symbol s) symbol.right_paren_sym) then
    match fuel with
    | O => None
    | S n => pragma_skip n get_token s
    end
  else Some s.

(** parse_pragma calls get_token, which called it. *)
Definition parse_pragma (fuel : nat)
    (get_token : scanner -> option (token * scanner)) (s : scanner)
  : option scanner :=
  ts ← get_token s;
  let s := ts.2 in
  let s := if negb (symbol_eqb (current_symbol s) symbol.identifier)
           then scan_flag 69 s else s in
  ts ← get_token s;
  let s := ts.2 in
  let s := if negb (symbol_eqb (current_symbol s) symbol.left_paren_sym)
           then scan_flag (error_code symbol.left_paren_sym) s else s in
  s ← pragma_skip fuel get_token s;
  if negb (symbol_eqb (current_symbol s) symbol.semicolon_sym)
  then Some (scan_flag (error_code symbol.semicolon_sym) s)
  else ts ← get_token s; Some ts.2.

(** Step 4 of get_token, for the symbols that do not start a pragma. *)
Definition build_token (s : scanner) : scanner :=
  let plain sym :=
    new_token sym (current_line_number s) (current_pos_on_line s) in
  match current_symbol s with
  | symbol.identifier =>
      set_current_token
        (set_identifier_value (current_identifier_name s)
           (plain symbol.identifier)) s
  | symbol.strng =>
      set_current_token
        (set_string_value (current_string_value s) (plain symbol.strng)) s
  | symbol.integer =>
      set_current_token
        (set_integer_value (current_integer_value s) (plain symbol.integer)) s
  | symbol.real_num =>
      set_current_token
        (set_real_value (current_real_value s) (plain symbol.real_num)) s
  | sym => set_current_token (plain sym) s
  end.

(** Step 2 of get_token: the token starts as end_of_program, at the
    cursor. *)
Definition begin_token (s : scanner) : scanner :=
  let s := set_current_symbol symbol.end_of_program s in
  let s := set_current_line_number (line_number s) s in
  set_current_pos_on_line (pos_on_line s) s.

Fixpoint get_token (fuel : nat) (s : scanner) : option (token * scanner) :=
  s ← skip_blanks fuel s;
  let s := begin_token s in
  if negb (eof_flag s) then
    s ← (if isalpha (next_char s) then scan_alpha fuel s
         else if isdigit (next_char s) then scan_digit fuel s
         else scan_special_symbol fuel s);
    s ← match current_symbol s with
        | symbol.pragma_sym =>
            match fuel with
            | O => None
            | S n => parse_pragma n (get_token n) s
            end
        | _ => Some (build_token s)
        end;
    Some (current_token s, s)
  else
    let s := set_current_token
               (new_token symbol.end_of_program (line_number s)
                  (pos_on_line s)) s in
    Some (current_token s, s).

(** scanner::scanner(), then the public constructor on a file that
    exists, whose stream is [file]. *)
Definition scanner_default : scanner :=
  mk_scanner [] (-1) 0 true false EmptyString end_marker symbol.nul 0 0 0
    float_zero EmptyString EmptyString (new_token symbol.nul 0 0) None.

Definition scanner_new (file : list string) (e : error_handler) : scanner :=
  let s := scanner_default in
  let s := set_error (Some e) s in
  let s := set_source_file file s in
  get_line s.

(** The tokens of a source, up to the first end_of_program and at most
    [n] of them, with the scanner as the last call left it. *)
Fixpoint get_tokens (n fuel : nat) (s : scanner)
  : option (list token * scanner) :=
  match n with
  | O => Some ([], s)
  | S n =>
      '(t, s) ← get_token fuel s;
      if symbol_eqb (get_sym t) symbol.end_of_program then Some ([t], s)
      else '(rest, s) ← get_tokens n fuel s; Some (t :: rest, s)
  end.

(** ** Emitter (code_gen.h, code_gen.cpp) *)

Record Instruction := mk_Instruction {
  opcode : string;
  operand1 : Z;
  operand2 : string;
  comment : string
}.

(** The output stream [code_file] is not part of the state: finalize opens
    it, writes it and closes it.  The vector [forward_refs] is declared and
    never used. *)
Record code_gen := mk_code_gen {
  output_filename : string;
  instruction_count : Z;
  label_counter : Z;
  label_addresses : gmap string Z;
  var_info : gmap string (Z * Z);
  level_offsets : list Z;
  instructions : list Instruction
}.

Definition set_output_filename (v : string) (c : code_gen) : code_gen :=
  mk_code_gen v (instruction_count c) (label_counter c) (label_addresses c) (var_info c) (level_offsets c) (instructions c).

Definition set_instruction_count (v : Z) (c : code_gen) : code_gen :=
  mk_code_gen (output_filename c) v (label_counter c) (label_addresses c) (var_info c) (level_offsets c) (instructions c).

Definition set_label_counter (v : Z) (c : code_gen) : code_gen :=
  mk_code_gen (output_filename c) (instruction_count c) v (label_addresses c) (var_info c) (level_offsets c) (instructions c).

Definition set_label_addresses (v : gmap string Z) (c : code_gen) : code_gen :=
  mk_code_gen (output_filename c) (instruction_count c) (label_counter c) v (var_info c) (level_offsets c) (instructions c).

Definition set_var_info (v : gmap string (Z * Z)) (c : code_gen) : code_gen :=
  mk_code_gen (output_filename c) (instruction_count c) (label_counter c) (label_addresses c) v (level_offsets c) (instructions c).

Definition set_level_offsets (v : list Z) (c : code_gen) : code_gen :=
  mk_code_gen (output_filename c) (instruction_count c) (label_counter c) (label_addresses c) (var_info c) v (instructions c).

Definition set_instructions (v : list Instruction) (c : code_gen) : code_gen :=
  mk_code_gen (output_filename c) (instruction_count c) (label_counter c) (label_addresses c) (var_info c) (level_offsets c) v.

(** std::to_string on an int, and [<<] on an int. *)
Definition to_string (a : Z) : string := pretty a.

Definition code_gen_new (filename : string) : code_gen :=
  mk_code_gen filename 1 0 ∅ ∅ [0; 0] [].

(** instructions.push_back(instr); instruction_count++ *)
Definition push_instruction (instr : Instruction) (c : code_gen) : code_gen :=
  let c := set_instructions (instructions c ++ [instr]) c in
  set_instruction_count (instruction_count c + 1) c.

(** emit(op, l, int a, comment) *)
Definition emit (op : string) (l : Z) (a : Z) (comment : string)
    (c : code_gen) : code_gen :=
  push_instruction (mk_Instruction op l (to_string a) comment) c.

(** emit(op, l, label, comment) *)
Definition emit_label (op : string) (l : Z) (label : string)
    (comment : string) (c : code_gen) : code_gen :=
  push_instruction (mk_Instruction op l label comment) c.

Definition emit_string (op : string) (l : Z) (str : string)
    (comment : string) (c : code_gen) : code_gen :=
  push_instruction (mk_Instruction op l ("'" +:+ str +:+ "'") comment) c.

Definition emit_real (op : string) (l : Z) (val : float) (comment : string)
    (c : code_gen) : code_gen :=
  push_instruction (mk_Instruction op l (float_out val) comment) c.

(** label_counter is an int.  The definition is the code as long as the
    counter is below 2147483647, the largest int, so that the increment
    does not overflow; [new_labels_are_distinct] assumes it. *)
Definition gen_new_label (c : code_gen) : string * code_gen :=
  let label := "L" +:+ to_string (label_counter c) in
  (label, set_label_counter (label_counter c + 1) c).

Definition gen_label (label : string) (c : code_gen) : code_gen :=
  set_label_addresses (<[label := instruction_count c]> (label_addresses c)) c.

(** *** Program, procedure and function structure *)

Definition gen_program_start (name : string) (c : code_gen) : code_gen :=
  let c := emit "JMP" 0 14 "Jump over the predefined functions." c in
  let c := emit "LDV" 0 0 "Load argument." c in
  let c := emit "OPR" 0 25 "Convert an integer to a real." c in
  let c := emit "OPR" 0 1 "Function value return." c in
  let c := emit "LDV" 0 0 "Load argument." c in
  let c := emit "OPR" 0 26 "Convert a real to an integer." c in
  let c := emit "OPR" 0 1 "Function value return." c in
  let c := emit "LDV" 0 0 "Load argument." c in
  let c := emit "OPR" 0 27 "Convert an integer to a string." c in
  let c := emit "OPR" 0 1 "Function value return." c in
  let c := emit "LDV" 0 0 "Load argument." c in
  let c := emit "OPR" 0 28 "Convert a real to a string." c in
  emit "OPR" 0 1 "Function value return." c.

(** level_offsets.back(); the vector is never empty. *)
Definition level_offsets_back (c : code_gen) : Z :=
  default 0 (last (level_offsets c)).

Definition gen_program_body_start (c : code_gen) : code_gen :=
  let var_count :=
    if bool_decide (1 < length (level_offsets c))%nat
    then default 0 (level_offsets c !! 1%nat) else 0 in
  let c := if 0 <? var_count
           then emit "INC" 0 var_count "Reserve space for local variables" c
           else c in
  let '(body_label, c) := gen_new_label c in
  let c := emit_label "JMP" 0 body_label
             "Jump to start of statements or block." c in
  let c := emit "INC" 0 var_count
             "Reserve space for declared variables and constants." c in
  gen_label body_label c.

Definition gen_program_end (c : code_gen) : code_gen :=
  emit "JMP" 0 0 "Halt program." c.

Definition gen_procedure_start (name : string) (c : code_gen)
  : string * code_gen :=
  let '(end_label, c) := gen_new_label c in
  (* while (level_offsets.size() <= 2) level_offsets.push_back(0) *)
  let c := set_level_offsets
             (level_offsets c
              ++ replicate (3 - length (level_offsets c))%nat 0) c in
  (end_label, c).

Definition gen_procedure_body_start (c : code_gen) : code_gen :=
  let var_count := level_offsets_back c in
  emit "INC" 0 var_count "Reserve space for local variables" c.

Definition gen_procedure_end (end_label : string) (c : code_gen) : code_gen :=
  let c := emit "OPR" 0 0 "Procedure return." c in
  gen_label end_label c.

Definition gen_procedure_return (c : code_gen) : code_gen :=
  emit "OPR" 0 0 "Procedure return." c.

Definition gen_function_start (name : string) (c : code_gen)
  : string * code_gen :=
  gen_new_label c.

Definition gen_function_body_start (c : code_gen) : code_gen :=
  let var_count := level_offsets_back c in
  emit "INC" 0 var_count "Reserve space for local variables" c.

Definition gen_function_end (end_label : string) (c : code_gen) : code_gen :=
  let c := emit "OPR" 0 1 "Function value return." c in
  gen_label end_label c.

Definition gen_function_return (c : code_gen) : code_gen :=
  emit "OPR" 0 1 "Function value return." c.

(** *** Calls *)

Definition gen_call_start (c : code_gen) : code_gen :=
  emit "MST" 1 0 "Mark stack." c.

Definition gen_call (name : string) (arg_count current_level : Z)
    (c : code_gen) : code_gen :=
  emit "CAL" 1 0 ("Call procedure: " +:+ name) c.

Definition gen_function_call (name : string) (arg_count current_level : Z)
    (c : code_gen) : code_gen :=
  if String.eqb name "INT2REAL" then
    emit "CAL" 1 2 "Function call: int2real" c
  else if String.eqb name "REAL2INT" then
    emit "CAL" 1 5 "Function call: real2int" c
  else if String.eqb name "INT2STRING" then
    emit "CAL" 1 8 "Function call: int2string" c
  else if String.eqb name "REAL2STRING" then
    emit "CAL" 1 11 "Function call: real2string" c
  else emit "CAL" 1 0 ("Function call: " +:+ name) c.

(** *** Variables *)

(** [level] is a lexical level, never negative: the parser passes its
    current_level, which is 1 or more where variables are declared.  The
    definition is the code for 0 <= level; a negative int, cast to
    size_t, would keep the padding loop of the code running until the
    vector cannot grow, which [Z.to_nat] does not show.  The properties
    of gen_variable assume 0 <= level. *)
Definition gen_variable (name : string) (level : Z) (c : code_gen)
  : code_gen :=
  let lv := Z.to_nat level in
  (* while (level_offsets.size() <= (size_t)level) push_back(0) *)
  let c := set_level_offsets
             (level_offsets c
              ++ replicate (S lv - length (level_offsets c))%nat 0) c in
  let offset := default 0 (level_offsets c !! lv) in
  let c := set_var_info (<[name := (level, offset)]> (var_info c)) c in
  set_level_offsets (<[lv := offset + 1]> (level_offsets c)) c.

(** The shape shared by gen_load, gen_store and gen_load_address. *)
Definition gen_access (op found missing : string) (name : string)
    (current_level : Z) (c : code_gen) : code_gen :=
  match var_info c !! name with
  | Some (var_level, offset) =>
      let level_diff := current_level - var_level in
      emit op level_diff offset found c
  | None => emit op 0 0 (missing +:+ name) c
  end.

Definition gen_load : string -> Z -> code_gen -> code_gen :=
  gen_access "LDV" "Load variable or constant." "Load variable: ".
Definition gen_store : string -> Z -> code_gen -> code_gen :=
  gen_access "STO" "Store result." "Store to: ".
Definition gen_load_address : string -> Z -> code_gen -> code_gen :=
  gen_access "LDA" "Load address of variable." "Load address: ".

(** *** Literals *)

Definition gen_load_int (value : Z) (c : code_gen) : code_gen :=
  emit "LCI" 0 value "Load integer constant." c.
Definition gen_load_real (value : float) (c : code_gen) : code_gen :=
  emit_real "LCR" 0 value "Load real constant." c.
Definition gen_load_string (value : string) (c : code_gen) : code_gen :=
  emit_string "LCS" 0 value "Load string value." c.
Definition gen_load_bool (value : bool) (c : code_gen) : code_gen :=
  if value then emit "OPR" 0 17 "Load true." c
  else emit "OPR" 0 18 "Load false." c.

(** *** Operations *)

Definition gen_add := emit "OPR" 0 3 "Add arithmetic expressions together.".
Definition gen_subtract := emit "OPR" 0 4 "Subtract arithmetic expressions.".
Definition gen_multiply := emit "OPR" 0 5 "Multiply arithmetic expressions.".
Definition gen_divide := emit "OPR" 0 6 "Divide arithmetic expressions.".
Definition gen_power := emit "OPR" 0 7 "Exponentiation.".
Definition gen_negate := emit "OPR" 0 2 "Negate.".
Definition gen_odd := emit "OPR" 0 9 "Test if odd.".
Definition gen_and := emit "OPR" 0 29 "Logical and.".
Definition gen_or := emit "OPR" 0 30 "Logical or.".
Definition gen_not := emit "OPR" 0 16 "Logical complement (not).".
Definition gen_concat := emit "OPR" 0 8 "String concatenation.".

Definition gen_comparison (op : symbol.symbol_type) (c : code_gen)
  : code_gen :=
  match op with
  | symbol.equals_sym => emit "OPR" 0 10 "Test for equality." c
  | symbol.not_equals_sym => emit "OPR" 0 11 "Test for inequality." c
  | symbol.less_than_sym => emit "OPR" 0 12 "Test less than." c
  | symbol.greater_or_equal_sym =>
      emit "OPR" 0 13 "Test greater than or equal." c
  | symbol.greater_than_sym => emit "OPR" 0 14 "Test greater than." c
  | symbol.less_or_equal_sym => emit "OPR" 0 15 "Test less than or equal." c
  | _ => c
  end.

(** *** Control flow *)

Definition gen_jump (label : string) (c : code_gen) : code_gen :=
  emit_label "JMP" 0 label "Jump." c.
Definition gen_jump_false (label : string) (c : code_gen) : code_gen :=
  emit_label "JIF" 0 label "Jump if false." c.
Definition gen_jump_true (label : string) (c : code_gen) : code_gen :=
  let c := emit "OPR" 0 16 "Logical complement (not)." c in
  emit_label "JIF" 0 label "Jump if true (via not + jif)." c.

Definition gen_for_init (var : string) (reverse : bool) (level : Z)
    (c : code_gen) : code_gen :=
  let c := if reverse
           then emit "OPR" 0 22 "Swap (get high value on top)." c else c in
  gen_store var level c.

Definition gen_for_test (var : string) (reverse : bool) (end_label : string)
    (level : Z) (c : code_gen) : code_gen :=
  let c := gen_load var level c in
  let c := if reverse
           then emit "OPR" 0 13 "Test greater than or equal." c
           else emit "OPR" 0 15 "Test less than or equal." c in
  emit_label "JIF" 0 end_label "Exit loop if test fails." c.

Definition gen_for_step (var : string) (reverse : bool) (level : Z)
    (c : code_gen) : code_gen :=
  let c := gen_load var level c in
  let c := emit "LCI" 0 1 "Load 1 for increment/decrement." c in
  let c := if reverse then emit "OPR" 0 4 "Subtract (decrement)." c
           else emit "OPR" 0 3 "Add (increment)." c in
  gen_store var level c.

(** *** Input and output *)

Definition gen_read (var : string) (type : lille_ty) (level : Z)
    (c : code_gen) : code_gen :=
  let '(var_level, offset) := default (0, 0) (var_info c !! var) in
  let level_diff := level - var_level in
  if bool_decide (type = type_real)
  then emit "RDR" level_diff offset "Read real value." c
  else emit "RDI" level_diff offset "Read integer value." c.

Definition gen_write (type : lille_ty) (c : code_gen) : code_gen :=
  emit "OPR" 0 20 "Write value." c.
Definition gen_writeln (c : code_gen) : code_gen :=
  emit "OPR" 0 21 "Terminate output to the current line." c.

(** *** Finalization *)

Fixpoint all_digits (s : string) : bool :=
  match s with
  | EmptyString => true
  | String c rest => isdigit c && all_digits rest
  end.

(** The test of finalize for "op2 is a label": it starts with 'L' and the
    rest is digits. *)
Definition is_label (op2 : string) : bool :=
  match op2 with
  | EmptyString => false
  | String c rest => Ascii.eqb c "L" && all_digits rest
  end.

(** The second operand as finalize writes it. *)
Definition resolve_operand (labels : gmap string Z) (op2 : string) : string :=
  if is_label op2 then
    match labels !! op2 with
    | Some address => to_string address
    | None => op2
    end
  else op2.

(** [left << setw(n) << s]: the text, then spaces up to the width. *)
Definition setw_left (n : nat) (s : string) : string :=
  s +:+ concat_strings (replicate (n - String.length s) " ").

(** One record of the output file, without its end of line, for the
    second operand [op2]. *)
Definition format_record (instr_num : Z) (instr : Instruction)
    (op2 : string) : string :=
  concat_strings
    [ setw_left 5 (opcode instr);
      setw_left 6 (to_string (operand1 instr));
      setw_left 13 op2;
      "("; to_string instr_num; ") "; comment instr ].

(** The body of the loop of finalize. *)
Definition write_record (labels : gmap string Z) (instr_num : Z)
    (instr : Instruction) : string :=
  format_record instr_num instr (resolve_operand labels (operand2 instr)).

(** The loop of finalize, from instruction number [instr_num] on. *)
Fixpoint write_records (labels : gmap string Z) (instr_num : Z)
    (instrs : list Instruction) : list string :=
  match instrs with
  | [] => []
  | instr :: rest =>
      write_record labels instr_num instr
      :: write_records labels (instr_num + 1) rest
  end.

(** finalize returns the records it wrote to the file [output_filename];
    [can_open] says whether the file could be opened for writing. *)
Definition finalize (can_open : bool) (c : code_gen)
  : outcome (list string) :=
  if negb can_open then
    Thrown ("Unable to open code file: " +:+ output_filename c)
  else Returned (write_records (label_addresses c) 1 (instructions c)).

(** ** Parser (parser.h, parser.cpp)

    The parser sees the scanner through get_token only.  On a file, which
    is finite, get_token delivers finitely many tokens and then, at and
    after the end of the file, an end_of_program token at the last line and
    column; [sc] holds the tokens still to come, [sc_end_line] and
    [sc_end_pos] that last position.

    The driver hands the parser and the analyzer the same error handler:
    the parser's [err] is the handler of [sem].  [cg] is [None] for the
    null pointer, as is [prev]. *)
Record Parser := mk_Parser {
  sc : list token;
  sc_end_line : Z;
  sc_end_pos : Z;
  sem : semantics;
  cg : option code_gen;
  look : token;
  prev : option token;
  recovering : bool;
  loop_exit_labels : list string;
  current_level : Z
}.

Definition set_sc (v : list token) (p : Parser) : Parser :=
  mk_Parser v (sc_end_line p) (sc_end_pos p) (sem p) (cg p) (look p) (prev p) (recovering p) (loop_exit_labels p) (current_level p).

Definition set_sc_end_line (v : Z) (p : Parser) : Parser :=
  mk_Parser (sc p) v (sc_end_pos p) (sem p) (cg p) (look p) (prev p) (recovering p) (loop_exit_labels p) (current_level p).

Definition set_sc_end_pos (v : Z) (p : Parser) : Parser :=
  mk_Parser (sc p) (sc_end_line p) v (sem p) (cg p) (look p) (prev p) (recovering p) (loop_exit_labels p) (current_level p).

Definition set_sem (v : semantics) (p : Parser) : Parser :=
  mk_Parser (sc p) (sc_end_line p) (sc_end_pos p) v (cg p) (look p) (prev p) (recovering p) (loop_exit_labels p) (current_level p).

Definition set_cg (v : option code_gen) (p : Parser) : Parser :=
  mk_Parser (sc p) (sc_end_line p) (sc_end_pos p) (sem p) v (look p) (prev p) (recovering p) (loop_exit_labels p) (current_level p).

Definition set_look (v : token) (p : Parser) : Parser :=
  mk_Parser (sc p) (sc_end_line p) (sc_end_pos p) (sem p) (cg p) v (prev p) (recovering p) (loop_exit_labels p) (current_level p).

Definition set_prev (v : option token) (p : Parser) : Parser :=
  mk_Parser (sc p) (sc_end_line p) (sc_end_pos p) (sem p) (cg p) (look p) v (recovering p) (loop_exit_labels p) (current_level p).

Definition set_recovering (v : bool) (p : Parser) : Parser :=
  mk_Parser (sc p) (sc_end_line p) (sc_end_pos p) (sem p) (cg p) (look p) (prev p) v (loop_exit_labels p) (current_level p).

Definition set_loop_exit_labels (v : list string) (p : Parser) : Parser :=
  mk_Parser (sc p) (sc_end_line p) (sc_end_pos p) (sem p) (cg p) (look p) (prev p) (recovering p) v (current_level p).

Definition set_current_level (v : Z) (p : Parser) : Parser :=
  mk_Parser (sc p) (sc_end_line p) (sc_end_pos p) (sem p) (cg p) (look p) (prev p) (recovering p) (loop_exit_labels p) v.

(** sc->get_token() *)
Definition sc_get_token (p : Parser) : token * Parser :=
  match sc p with
  | t :: rest => (t, set_sc rest p)
  | [] => (new_token symbol.end_of_program (sc_end_line p) (sc_end_pos p), p)
  end.

(** Parser::Parser, on the tokens of a source. *)
Definition Parser_new (tokens : list token) (end_line end_pos : Z)
    (sm : semantics) (c : option code_gen) : Parser :=
  let p := mk_Parser tokens end_line end_pos sm c
             (new_token symbol.nul 0 0) None false [] 0 in
  let '(t, p) := sc_get_token p in
  set_prev None (set_look t p).

Definition S (p : Parser) : symbol.symbol_type := get_sym (look p).

Definition advance (p : Parser) : Parser :=
  let p := set_prev (Some (look p)) p in
  let '(t, p) := sc_get_token p in
  set_look t p.

Definition accept (s : symbol.symbol_type) (p : Parser) : bool * Parser :=
  if symbol_eqb (S p) s then (true, advance p) else (false, p).

(** err->flag(tok, code) and err->flag(line, col, code) *)
Definition err_flag_token (tok : token) (code : Z) (p : Parser) : Parser :=
  set_sem (sem_flag tok code (sem p)) p.
Definition err_flag (line col code : Z) (p : Parser) : Parser :=
  set_sem (mk_semantics (id_tab (sem p)) (flag line col code (err (sem p)))) p.

(** The number of iterations a loop that advances on every turn can make
    before it meets end_of_program: one per token still to come, one more
    to reach the token of the end of the file, and the turn that leaves
    the loop. *)
Definition skip_bound (p : Parser) : nat := Datatypes.S (Datatypes.S (length (sc p))).

(** while (S() != expected && S() != end_of_program) advance(); *)
Fixpoint expect_skip (n : nat) (expected : symbol.symbol_type) (p : Parser)
  : Parser :=
  match n with
  | O => p
  | Datatypes.S n =>
      if negb (symbol_eqb (S p) expected)
         && negb (symbol_eqb (S p) symbol.end_of_program)
      then expect_skip n expected (advance p)
      else p
  end.

Definition expect (expected : symbol.symbol_type) (err_no : Z) (p : Parser)
  : Parser :=
  if recovering p then
    let p := expect_skip (skip_bound p) expected p in
    if symbol_eqb (S p) expected then
      let p := advance p in
      set_recovering false p
    else p
  else if symbol_eqb (S p) expected then advance p
  else
    let p := err_flag_token (look p) err_no p in
    set_recovering true p.

(** What is left of the input for a loop that skips tokens. *)
Definition tokens_left (p : Parser) : nat :=
  if symbol_eqb (S p) symbol.end_of_program then 1%nat
  else Datatypes.S (Datatypes.S (length (sc p))).

(** The loop of synchronize, with the two places that leave it: the
    return from inside the for loop, and the statement after the loop. *)
Fixpoint synchronize_loop (n : nat) (follow : list symbol.symbol_type)
    (p : Parser) : Parser :=
  match n with
  | O => p
  | Datatypes.S n =>
      if negb (symbol_eqb (S p) symbol.end_of_program) then
        if existsb (fun f => symbol_eqb (S p) f) follow
        then set_recovering false p
        else synchronize_loop n follow (advance p)
      else set_recovering false p
  end.

Definition synchronize (follow : list symbol.symbol_type) (p : Parser)
  : Parser :=
  synchronize_loop (skip_bound p) follow p.

Definition flag_here (code : Z) (p : Parser) : Parser :=
  if negb (recovering p) then
    let p := err_flag_token (look p) code p in
    set_recovering true p
  else p.

Definition flag_prev (code : Z) (p : Parser) : Parser :=
  if negb (recovering p) then
    let p :=
      match prev p with
      | Some t => err_flag (get_line_number t) (get_pos_on_line t + 1) code p
      | None => err_flag_token (look p) code p
      end in
    set_recovering true p
  else p.

Definition starts_decl (p : Parser) : bool :=
  match S p with
  | symbol.identifier | symbol.constant_sym | symbol.procedure_sym
  | symbol.function_sym => true
  | _ => false
  end.

Definition starts_stmt (p : Parser) : bool :=
  match S p with
  | symbol.identifier | symbol.null_sym | symbol.if_sym | symbol.while_sym
  | symbol.for_sym | symbol.loop_sym | symbol.begin_sym | symbol.exit_sym
  | symbol.write_sym | symbol.writeln_sym | symbol.read_sym
  | symbol.return_sym => true
  | _ => false
  end.

(** if (cg) cg->f() *)
Definition with_cg (f : code_gen -> code_gen) (p : Parser) : Parser :=
  set_cg (f <$> cg p) p.

(** A call of the analyzer that returns a type. *)
Definition with_sem (f : semantics -> lille_ty * semantics) (p : Parser)
  : lille_ty * Parser :=
  let '(t, s) := f (sem p) in (t, set_sem s p).

(** [prev] where the parser passes it as the place of a diagnostic; it has
    advanced at least once by then, so the pointer is not null. *)
Definition prev_token (p : Parser) : token :=
  match prev p with Some t => t | None => look p end.

Definition parse_type (p : Parser) : lille_ty * Parser :=
  let '(b, p) := accept symbol.integer_sym p in
  if b then (type_integer, p) else
  let '(b, p) := accept symbol.real_sym p in
  if b then (type_real, p) else
  let '(b, p) := accept symbol.string_sym p in
  if b then (type_string, p) else
  let '(b, p) := accept symbol.boolean_sym p in
  if b then (type_boolean, p) else
  let p := flag_here 96 p in
  let p := advance p in
  (type_unknown, p).

(** *** Expressions

    The five expression functions call each other; each is written over
    the function it calls, and [expr] closes the cycle under a bound
    [fuel] on the depth of the calls and on the turns of each loop. *)
Definition parse_result : Type := option (lille_ty * Parser).

(** The loop over the further arguments of a call:
    while (accept(comma)) { expr(); arg_count++; } *)
Definition call_arguments (fuel : nat) (expr : Parser -> parse_result)
    (st : Z * Parser) : option (Z * Parser) :=
  while fuel
    (fun st => (accept symbol.comma_sym st.2).1)
    (fun st =>
       let p := (accept symbol.comma_sym st.2).2 in
       '(_, p) ← expr p;
       Some (st.1 + 1, p))
    st.

Definition primary_with (fuel : nat) (expr : Parser -> parse_result)
    (p : Parser) : parse_result :=
  match S p with
  | symbol.identifier =>
      let name := get_identifier_value (look p) in
      let id_tok := look p in
      let p := advance p in
      let '(b, p) := accept symbol.left_paren_sym p in
      if b then
        let p := with_cg gen_call_start p in
        let arg_count := 0 in
        '(arg_count, p) ←
           (if negb (symbol_eqb (S p) symbol.right_paren_sym) then
              r ← expr p;
              call_arguments fuel expr (arg_count + 1, r.2)
            else Some (arg_count, p));
        let p := expect symbol.right_paren_sym
                   (error_code symbol.right_paren_sym) p in
        let p := with_cg (gen_function_call name arg_count (current_level p))
                   p in
        Some (with_sem (lookup_type name id_tok) p)
      else
        let p := with_cg (gen_load name (current_level p)) p in
        Some (with_sem (lookup_type name id_tok) p)
  | symbol.integer =>
      let val := get_integer_value (look p) in
      let p := advance p in
      let p := with_cg (gen_load_int val) p in
      Some (type_integer, p)
  | symbol.real_num =>
      let val := get_real_value (look p) in
      let p := advance p in
      let p := with_cg (gen_load_real val) p in
      Some (type_real, p)
  | symbol.strng =>
      let val := get_string_value (look p) in
      let p := advance p in
      let p := with_cg (gen_load_string val) p in
      Some (type_string, p)
  | symbol.true_sym =>
      let p := advance p in
      let p := with_cg (gen_load_bool true) p in
      Some (type_boolean, p)
  | symbol.false_sym =>
      let p := advance p in
      let p := with_cg (gen_load_bool false) p in
      Some (type_boolean, p)
  | symbol.left_paren_sym =>
      let p := advance p in
      '(result, p) ← expr p;
      let p := expect symbol.right_paren_sym
                 (error_code symbol.right_paren_sym) p in
      Some (result, p)
  | symbol.semicolon_sym | symbol.right_paren_sym | symbol.end_sym
  | symbol.else_sym | symbol.elsif_sym | symbol.then_sym
  | symbol.end_of_program => Some (type_unknown, p)
  | _ =>
      let p := flag_here (error_code symbol.identifier) p in
      let p := advance p in
      Some (type_unknown, p)
  end.

Definition factor_with (primary : Parser -> parse_result) (p : Parser)
  : parse_result :=
  if symbol_eqb (S p) symbol.plus_sym || symbol_eqb (S p) symbol.minus_sym
     || symbol_eqb (S p) symbol.not_sym || symbol_eqb (S p) symbol.odd_sym
  then
    let op := S p in
    let p := advance p in
    '(base, p) ← primary p;
    if symbol_eqb op symbol.odd_sym then
      let p := with_cg gen_odd p in
      Some (type_boolean, p)
    else if symbol_eqb op symbol.not_sym then
      let p := with_cg gen_not p in
      Some (with_sem (check_unary op base (prev_token p)) p)
    else
      let p := if symbol_eqb op symbol.minus_sym
               then with_cg gen_negate p else p in
      Some (with_sem (check_unary op base (prev_token p)) p)
  else
    '(base, p) ← primary p;
    if symbol_eqb (S p) symbol.power_sym then
      let op_tok := look p in
      let p := advance p in
      '(exp, p) ← primary p;
      let p := with_cg gen_power p in
      Some (with_sem (check_binary base symbol.power_sym exp op_tok) p)
    else Some (base, p).

Definition term_with (fuel : nat) (factor : Parser -> parse_result)
    (p : Parser) : parse_result :=
  r ← factor p;
  while fuel
    (fun r => symbol_eqb (S r.2) symbol.asterisk_sym
              || symbol_eqb (S r.2) symbol.slash_sym
              || symbol_eqb (S r.2) symbol.and_sym)
    (fun r =>
       let '(result, p) := r in
       let op_tok := look p in
       let op := S p in
       let p := advance p in
       '(right_, p) ← factor p;
       let p :=
         match op with
         | symbol.asterisk_sym => with_cg gen_multiply p
         | symbol.slash_sym => with_cg gen_divide p
         | symbol.and_sym => with_cg gen_and p
         | _ => p
         end in
       Some (with_sem (check_binary result op right_ op_tok) p))
    r.

Definition simple_expr_with (fuel : nat) (term : Parser -> parse_result)
    (p : Parser) : parse_result :=
  let had_unary := false in
  let unary_op := symbol.nul in
  let '(had_unary, unary_op, p) :=
    if symbol_eqb (S p) symbol.plus_sym || symbol_eqb (S p) symbol.minus_sym
    then (true, S p, advance p)
    else (had_unary, unary_op, p) in
  '(result, p) ← term p;
  let '(result, p) :=
    if (had_unary : bool) then
      let '(result, p) :=
        with_sem (check_unary unary_op result (prev_token p)) p in
      let p := if symbol_eqb unary_op symbol.minus_sym
               then with_cg gen_negate p else p in
      (result, p)
    else (result, p) in
  while fuel
    (fun r => symbol_eqb (S r.2) symbol.plus_sym
              || symbol_eqb (S r.2) symbol.minus_sym
              || symbol_eqb (S r.2) symbol.or_sym
              || symbol_eqb (S r.2) symbol.ampersand_sym)
    (fun r =>
       let '(result, p) := r in
       let op_tok := look p in
       let op := S p in
       let p := advance p in
       '(right_, p) ← term p;
       let p :=
         match op with
         | symbol.plus_sym => with_cg gen_add p
         | symbol.minus_sym => with_cg gen_subtract p
         | symbol.or_sym => with_cg gen_or p
         | symbol.ampersand_sym => with_cg gen_concat p
         | _ => p
         end in
       Some (with_sem (check_binary result op right_ op_tok) p))
    (result, p).

Definition expr_with (simple_expr : Parser -> parse_result) (p : Parser)
  : parse_result :=
  '(left_, p) ← simple_expr p;
  if is_comparison_op (S p) then
    let op_tok := look p in
    let op := S p in
    let p := advance p in
    '(right_, p) ← simple_expr p;
    let p := with_cg (gen_comparison op) p in
    Some (with_sem (check_binary left_ op right_ op_tok) p)
  else Some (left_, p).

Fixpoint expr (fuel : nat) (p : Parser) : parse_result :=
  match fuel with
  | O => None
  | Datatypes.S n =>
      expr_with
        (simple_expr_with n
           (term_with n (factor_with (primary_with n (expr n))))) p
  end.

Definition primary (fuel : nat) : Parser -> parse_result :=
  primary_with fuel (expr fuel).
Definition factor (fuel : nat) : Parser -> parse_result :=
  factor_with (primary fuel).
Definition term (fuel : nat) : Parser -> parse_result :=
  term_with fuel (factor fuel).
Definition simple_expr (fuel : nat) : Parser -> parse_result :=
  simple_expr_with fuel (term fuel).

(** A function of the expression grammar returns on every input that has
    at most [k] tokens left, and leaves no more input than it found. *)
Definition returns_within (k : nat) (f : Parser -> parse_result) : Prop :=
  forall p,
    (tokens_left p <= k)%nat ->
    exists t q, f p = Some (t, q) /\ (tokens_left q <= tokens_left p)%nat.

(** *** Runs of the parser

    The grammar functions of parser.cpp read and write [recovering], and
    reach the error handler, only through the helpers above; what else
    they do is calls of the analyzer and of the emitter.  A parse is
    therefore a sequence of such calls. *)
Inductive parser_call : Type :=
| call_advance
| call_accept (s : symbol.symbol_type)
| call_expect (expected : symbol.symbol_type) (err_no : Z)
| call_synchronize (follow : list symbol.symbol_type)
| call_flag_here (code : Z)
| call_flag_prev (code : Z)
| call_analyzer (f : semantics -> semantics)
| call_emitter (f : code_gen -> code_gen).

Definition run_call (c : parser_call) (p : Parser) : Parser :=
  match c with
  | call_advance => advance p
  | call_accept s => (accept s p).2
  | call_expect expected err_no => expect expected err_no p
  | call_synchronize follow => synchronize follow p
  | call_flag_here code => flag_here code p
  | call_flag_prev code => flag_prev code p
  | call_analyzer f => set_sem (f (sem p)) p
  | call_emitter f => with_cg f p
  end.

(** The diagnostics that the parser itself reports during a call: what
    the call appended to the handler, unless the call is the analyzer's. *)
Definition parser_reports (c : parser_call) (p : Parser) : list diagnostic :=
  match c with
  | call_analyzer _ | call_emitter _ => []
  | _ => drop (length (err (sem p))) (err (sem (run_call c p)))
  end.

(** The number of diagnostics that the parser reports, over a run, in
    calls that begin while [recovering] is true. *)
Fixpoint reports_while_recovering (calls : list parser_call) (p : Parser)
  : nat :=
  match calls with
  | [] => 0
  | c :: rest =>
      ((if recovering p then length (parser_reports c p) else 0)
       + reports_while_recovering rest (run_call c p))%nat
  end.

(** ** Driver (compiler.cpp)

    The part of main that follows p.parse_program(): [e] is the error
    handler and [code] the emitter as the parse left them.  [exit_status]
    is the value main returns, 1 from a catch clause.  The listing, which
    the error handler writes on request before this part, and the timing
    report after it are left out: neither changes the error count or the
    code file. *)
Record run := mk_run {
  finalize_result : option (outcome (list string));
  console : list string;
  exit_status : Z
}.

Definition main_after_parse (can_open : bool) (code_filename : string)
    (e : error_handler) (code : code_gen) : run :=
  if error_count e =? 0 then
    match finalize can_open code with
    | Returned records =>
        mk_run (Some (Returned records))
          ["Code generation successful: " +:+ code_filename] 0
    | Thrown what =>
        mk_run (Some (Thrown what)) ["Lille Exception: " +:+ what] 1
    end
  else mk_run None ["Code generation skipped due to errors."] 0.

(** The driver completes when no exception leaves the try block. *)
Definition completes (r : run) : Prop := exit_status r = 0.

(** The output instruction file that a run leaves, if any. *)
Definition code_file (r : run) : option (list string) :=
  match finalize_result r with
  | Some (Returned records) => Some records
  | _ => None
  end.

(** ** Runs of the symbol table *)
Inductive scope_call : Type := call_open_scope | call_close_scope.

Definition run_scope_call (c : scope_call) (t : id_table) : id_table :=
  match c with
  | call_open_scope => open_scope t
  | call_close_scope => close_scope t
  end.

Definition run_scope_calls (calls : list scope_call) (t : id_table)
  : id_table :=
  foldl (fun t c => run_scope_call c t) t calls.

(** The addresses of the records of a frame. *)
Definition frame_records (frame : gmap string N) : list N :=
  (map_to_list frame).*2.
(** ** Sample inputs *)

(** The place of a diagnostic in the samples. *)
Definition sample_token : token := new_token symbol.identifier 1 0.

(** The analyzer after [x : integer; constant k : integer] in the frame of
    a program, under the global frame with the builtins. *)
Definition sample_semantics : semantics :=
  declare_const "K" type_integer sample_token
    (declare_var "X" type_integer sample_token
       (sem_open_scope (install_builtins (mk_semantics id_table_new [])))).

(** The parser at the start of a unary operator and its one-token
    operand, and of the two tokens of [odd "x"]. *)
Definition sample_unary_parser (op : symbol.symbol_type) (operand : token)
  : Parser :=
  Parser_new [new_token op 1 0; operand] 1 6
    (mk_semantics id_table_new []) None.

Definition sample_odd_parser : Parser :=
  sample_unary_parser symbol.odd_sym
    (set_string_value "x" (new_token symbol.strng 1 4)).

(** The emitter after one jump to a label that is never placed, and
    after the label is placed behind the jump. *)
Definition sample_jump : code_gen := gen_jump "L0" (code_gen_new "out.pal").
Definition sample_placed_jump : code_gen := gen_label "L0" sample_jump.

(** The scanner on the first character of a source. *)
Definition scanner_at_start (text : string) : scanner :=
  get_char (scanner_new (getlines text) []).

(** ** The pointers of the symbol table

    A frame holds raw pointers to records that the table allocates in
    enter and deletes in close_scope.  [table_ok] says that the pointers
    and the records agree: the stack has a frame, every pointer of a
    frame is to a live record that carries the key as its name, no record
    is pointed to from two places, and every live record is pointed to by
    some frame. *)
Definition table_ok (t : id_table) : Prop :=
  scopes t <> []
  /\ (forall i frame name r,
        scopes t !! i = Some frame -> frame !! name = Some r ->
        exists rec, store t !! r = Some rec /\ get_name rec = name)
  /\ (forall i j f g n m r,
        scopes t !! i = Some f -> scopes t !! j = Some g ->
        f !! n = Some r -> g !! m = Some r -> i = j /\ n = m)
  /\ (forall r,
        is_Some (store t !! r) ->
        exists i frame name,
          scopes t !! i = Some frame /\ frame !! name = Some r).

(** A call of a public method of the analyzer. *)
Inductive sem_call : Type :=
| call_declare_var (name : string) (ty : lille_ty) (w : token)
| call_declare_const (name : string) (ty : lille_ty) (w : token)
| call_lookup_type (name : string) (w : token)
| call_check_assignment (lhs_name : string) (rhs : lille_ty) (w : token)
| call_sem_open_scope
| call_close_scope_and_dump
| call_check_binary (L : lille_ty) (op : symbol.symbol_type) (R : lille_ty)
    (w : token)
| call_check_unary (op : symbol.symbol_type) (T : lille_ty) (w : token)
| call_require_boolean (T : lille_ty) (w : token)
| call_install_builtins.

Definition run_sem_call (c : sem_call) (s : semantics) : semantics :=
  match c with
  | call_declare_var name ty w => declare_var name ty w s
  | call_declare_const name ty w => declare_const name ty w s
  | call_lookup_type name w => (lookup_type name w s).2
  | call_check_assignment lhs_name rhs w => check_assignment lhs_name rhs w s
  | call_sem_open_scope => sem_open_scope s
  | call_close_scope_and_dump => (close_scope_and_dump s).2
  | call_check_binary L op R w => (check_binary L op R w s).2
  | call_check_unary op T w => (check_unary op T w s).2
  | call_require_boolean T w => require_boolean T w s
  | call_install_builtins => install_builtins s
  end.

Definition run_sem_calls (calls : list sem_call) (s : semantics) : semantics :=
  foldl (fun s c => run_sem_call c s) s calls.

(** The calls that open or close a scope. *)
Definition is_scope_call (c : sem_call) : bool :=
  match c with
  | call_sem_open_scope | call_close_scope_and_dump => true
  | _ => false
  end.

(** The names lookup_type answers before it asks the table. *)
Definition is_builtin_name (name : string) : bool :=
  String.eqb name "INT2REAL" || String.eqb name "REAL2INT"
  || String.eqb name "INT2STRING" || String.eqb name "REAL2STRING".

(** [inner_frame t t1]: the table [t1] is [t] with one more frame on top,
    whose records are all younger than [t]; the records of [t] are as
    they were. *)
Definition inner_frame (t t1 : id_table) : Prop :=
  exists f,
    scopes t1 = scopes t ++ [f]
    /\ (forall a, is_Some (store t !! a) -> store t1 !! a = store t !! a)
    /\ (forall a, is_Some (store t1 !! a) ->
          is_Some (store t !! a) \/ exists n, f !! n = Some a)
    /\ (forall n a, f !! n = Some a -> store t !! a = None).

(** ** Calls of the emitter

    A call of a public method of code_gen, finalize apart; the label that
    gen_new_label, gen_procedure_start and gen_function_start return is
    dropped by [run_cg_call], which keeps the state. *)
Inductive cg_call : Type :=
| call_gen_new_label
| call_gen_label (label : string)
| call_gen_program_start (name : string)
| call_gen_program_body_start
| call_gen_program_end
| call_gen_procedure_start (name : string)
| call_gen_procedure_body_start
| call_gen_procedure_end (end_label : string)
| call_gen_procedure_return
| call_gen_function_start (name : string)
| call_gen_function_body_start
| call_gen_function_end (end_label : string)
| call_gen_function_return
| call_gen_call_start
| call_gen_call (name : string) (arg_count current_level : Z)
| call_gen_function_call (name : string) (arg_count current_level : Z)
| call_gen_variable (name : string) (level : Z)
| call_gen_load (name : string) (current_level : Z)
| call_gen_store (name : string) (current_level : Z)
| call_gen_load_address (name : string) (current_level : Z)
| call_gen_load_int (value : Z)
| call_gen_load_real (value : float)
| call_gen_load_string (value : string)
| call_gen_load_bool (value : bool)
| call_gen_add | call_gen_subtract | call_gen_multiply | call_gen_divide
| call_gen_power | call_gen_negate | call_gen_odd
| call_gen_comparison (op : symbol.symbol_type)
| call_gen_and | call_gen_or | call_gen_not | call_gen_concat
| call_gen_jump (label : string)
| call_gen_jump_false (label : string)
| call_gen_jump_true (label : string)
| call_gen_for_init (var : string) (reverse : bool) (level : Z)
| call_gen_for_test (var : string) (reverse : bool) (end_label : string)
    (level : Z)
| call_gen_for_step (var : string) (reverse : bool) (level : Z)
| call_gen_read (var : string) (type : lille_ty) (level : Z)
| call_gen_write (type : lille_ty)
| call_gen_writeln.

Definition run_cg_call (call : cg_call) (c : code_gen) : code_gen :=
  match call with
  | call_gen_new_label => (gen_new_label c).2
  | call_gen_label label => gen_label label c
  | call_gen_program_start name => gen_program_start name c
  | call_gen_program_body_start => gen_program_body_start c
  | call_gen_program_end => gen_program_end c
  | call_gen_procedure_start name => (gen_procedure_start name c).2
  | call_gen_procedure_body_start => gen_procedure_body_start c
  | call_gen_procedure_end end_label => gen_procedure_end end_label c
  | call_gen_procedure_return => gen_procedure_return c
  | call_gen_function_start name => (gen_function_start name c).2
  | call_gen_function_body_start => gen_function_body_start c
  | call_gen_function_end end_label => gen_function_end end_label c
  | call_gen_function_return => gen_function_return c
  | call_gen_call_start => gen_call_start c
  | call_gen_call name arg_count current_level =>
      gen_call name arg_count current_level c
  | call_gen_function_call name arg_count current_level =>
      gen_function_call name arg_count current_level c
  | call_gen_variable name level => gen_variable name level c
  | call_gen_load name current_level => gen_load name current_level c
  | call_gen_store name current_level => gen_store name current_level c
  | call_gen_load_address name current_level =>
      gen_load_address name current_level c
  | call_gen_load_int value => gen_load_int value c
  | call_gen_load_real value => gen_load_real value c
  | call_gen_load_string value => gen_load_string value c
  | call_gen_load_bool value => gen_load_bool value c
  | call_gen_add => gen_add c
  | call_gen_subtract => gen_subtract c
  | call_gen_multiply => gen_multiply c
  | call_gen_divide => gen_divide c
  | call_gen_power => gen_power c
  | call_gen_negate => gen_negate c
  | call_gen_odd => gen_odd c
  | call_gen_comparison op => gen_comparison op c
  | call_gen_and => gen_and c
  | call_gen_or => gen_or c
  | call_gen_not => gen_not c
  | call_gen_concat => gen_concat c
  | call_gen_jump label => gen_jump label c
  | call_gen_jump_false label => gen_jump_false label c
  | call_gen_jump_true label => gen_jump_true label c
  | call_gen_for_init var reverse level => gen_for_init var reverse level c
  | call_gen_for_test var reverse end_label level =>
      gen_for_test var reverse end_label level c
  | call_gen_for_step var reverse level => gen_for_step var reverse level c
  | call_gen_read var type level => gen_read var type level c
  | call_gen_write type => gen_write type c
  | call_gen_writeln => gen_writeln c
  end.

Definition run_cg_calls (calls : list cg_call) (c : code_gen) : code_gen :=
  foldl (fun c call => run_cg_call call c) c calls.

(** The instruction counter is the number of the instruction that comes
    next, the instructions being numbered from 1. *)
Definition counter_ok (c : code_gen) : Prop :=
  instruction_count c = Z.of_nat (length (instructions c)) + 1.

(** The call declares the variable [x]. *)
Definition declares (x : string) (call : cg_call) : bool :=
  match call with
  | call_gen_variable name _ => String.eqb name x
  | _ => false
  end.

(** The operation code of the conversion that a predefined function
    performs (the comments of gen_program_start name them). *)
Definition conversion_of (name : string) : option Z :=
  if String.eqb name "INT2REAL" then Some 25
  else if String.eqb name "REAL2INT" then Some 26
  else if String.eqb name "INT2STRING" then Some 27
  else if String.eqb name "REAL2STRING" then Some 28
  else None.

(** level_offsets[level], the offset that the next variable of a level
    gets; 0 when the vector is shorter (gen_variable pads it with
    zeros). *)
Definition next_offset (level : Z) (c : code_gen) : Z :=
  default 0 (level_offsets c !! Z.to_nat level).

(** gen_variable for each name of a list, at one level. *)
Definition gen_variables (names : list string) (level : Z) (c : code_gen)
  : code_gen :=
  foldl (fun c name => gen_variable name level c) c names.

(** *** Declarations and statements

    The functions of the grammar above the expressions.  Two of them
    print: close_scope_and_dump writes the symbol table to the standard
    output.  A function of this part returns the text it printed next to
    the state it leaves; [None] says that the bound [fuel] on the depth of
    the calls and on the turns of a loop was reached. *)
Definition printing : Type := option (string * Parser).

(** A part that prints nothing. *)
Definition quiet (p : Parser) : printing := Some (EmptyString, p).

(** One part after the other. *)
Definition and_then (m : printing) (k : Parser -> printing) : printing :=
  '(out1, p) ← m; '(out2, p) ← k p; Some (out1 +:+ out2, p).

(** sem->f(...) for a method that returns nothing *)
Definition on_sem (f : semantics -> semantics) (p : Parser) : Parser :=
  set_sem (f (sem p)) p.

(** sem->close_scope_and_dump() *)
Definition close_and_dump (p : Parser) : printing :=
  let '(out, s) := close_scope_and_dump (sem p) in Some (out, set_sem s p).

(** string l = ""; if (cg) l = cg->f(); for the three methods that
    return a label *)
Definition with_cg_label (f : code_gen -> string * code_gen) (p : Parser)
  : string * Parser :=
  match cg p with
  | Some c => let '(l, c) := f c in (l, set_cg (Some c) p)
  | None => (EmptyString, p)
  end.

(** while (accept(semicolon_sym)) { } *)
Definition drain_semicolons (fuel : nat) (p : Parser) : option Parser :=
  while fuel (fun p => (accept symbol.semicolon_sym p).1)
    (fun p => Some (accept symbol.semicolon_sym p).2) p.

(** if (S() == identifier) names.push_back({ value, look });
    expect(identifier) *)
Definition name_step (st : list (string * token) * Parser)
  : list (string * token) * Parser :=
  let '(names, p) := st in
  let names :=
    if symbol_eqb (S p) symbol.identifier
    then names ++ [(get_identifier_value (look p), look p)] else names in
  (names, expect symbol.identifier (error_code symbol.identifier) p).

(** The list of names at the head of a declaration: one name, and one
    more after every comma. *)
Definition name_list (fuel : nat) (p : Parser)
  : option (list (string * token) * Parser) :=
  while fuel (fun st => (accept symbol.comma_sym st.2).1)
    (fun st => Some (name_step (st.1, (accept symbol.comma_sym st.2).2)))
    (name_step ([], p)).

(** The end of decl_vars and const_decl. *)
Definition end_of_declaration (p : Parser) : Parser :=
  let '(b, p) := accept symbol.semicolon_sym p in
  if negb b then
    let p := flag_prev (error_code symbol.semicolon_sym) p in
    synchronize [symbol.identifier; symbol.constant_sym;
                 symbol.procedure_sym; symbol.function_sym;
                 symbol.begin_sym] p
  else p.

Definition is_empty_name (name : string) : bool :=
  match name with EmptyString => true | _ => false end.

Definition decl_vars (fuel : nat) (p : Parser) : printing :=
  '(names, p) ← name_list fuel p;
  let p := expect symbol.colon_sym (error_code symbol.colon_sym) p in
  let '(var_type, p) := parse_type p in
  let p :=
    foldl (fun p nt =>
             if negb (is_empty_name nt.1) then
               let p := on_sem (declare_var nt.1 var_type nt.2) p in
               with_cg (gen_variable nt.1 (current_level p)) p
             else p)
          p names in
  let '(b, p) := accept symbol.becomes_sym p in
  p ← (if b then
         '(init_type, p) ← expr fuel p;
         let p :=
           match names with
           | nt :: _ =>
               let p := on_sem (check_assignment nt.1 init_type
                                  (prev_token p)) p in
               with_cg (gen_store nt.1 (current_level p)) p
           | [] => p
           end in
         let idx := 1%nat in
         st ← while fuel (fun st => (accept symbol.comma_sym st.2).1)
                (fun st =>
                   let idx := st.1 in
                   let p := (accept symbol.comma_sym st.2).2 in
                   '(next_init, p) ← expr fuel p;
                   let p :=
                     match names !! idx with
                     | Some nt =>
                         let p := on_sem (check_assignment nt.1 next_init
                                            (prev_token p)) p in
                         with_cg (gen_store nt.1 (current_level p)) p
                     | None => p
                     end in
                   Some (Datatypes.S idx, p))
                (idx, p);
         Some st.2
       else Some p);
  quiet (end_of_declaration p).

Definition const_decl (fuel : nat) (p : Parser) : printing :=
  let p := expect symbol.constant_sym (error_code symbol.constant_sym) p in
  '(names, p) ← name_list fuel p;
  let const_type := type_unknown in
  let '(const_type, p) :=
    let '(b, p) := accept symbol.colon_sym p in
    if b then
      let '(const_type, p) := parse_type p in
      (const_type,
       expect symbol.becomes_sym (error_code symbol.becomes_sym) p)
    else
      let '(b, p) := accept symbol.becomes_sym p in
      if b then (const_type, p) else
      let '(b, p) := accept symbol.is_sym p in
      if b then (const_type, p) else
      (const_type, flag_here (error_code symbol.becomes_sym) p) in
  '(init_types, p) ←
     (if negb (symbol_eqb (S p) symbol.semicolon_sym) then
        '(first, p) ← expr fuel p;
        while fuel (fun st => (accept symbol.comma_sym st.2).1)
          (fun st =>
             let p := (accept symbol.comma_sym st.2).2 in
             '(next, p) ← expr fuel p;
             Some (st.1 ++ [next], p))
          ([first], p)
      else Some ([], p));
  let const_type :=
    match init_types with
    | first :: _ =>
        if bool_decide (const_type = type_unknown) then first
        else const_type
    | [] => const_type
    end in
  let p :=
    foldl (fun p nt =>
             if negb (is_empty_name nt.1)
             then on_sem (declare_const nt.1 const_type nt.2) p
             else p)
          p names in
  quiet (end_of_declaration p).

(** The body of the loop of param_list; the boolean says that the loop
    was left by its break. *)
Definition param_step (fuel : nat) (p : Parser) : option (bool * Parser) :=
  '(param_names, p) ← name_list fuel p;
  let p := expect symbol.colon_sym (error_code symbol.colon_sym) p in
  let p :=
    let '(b, p) := accept symbol.value_sym p in
    if b then p else
    let '(b, p) := accept symbol.ref_sym p in
    if b then p else flag_here 94 p in
  let '(param_type, p) := parse_type p in
  let p :=
    foldl (fun p name => on_sem (declare_var name param_type (look p)) p)
          p param_names.*1 in
  let '(b, p) := accept symbol.semicolon_sym p in
  Some (negb b, p).

Definition param_list (fuel : nat) (p : Parser) : option Parser :=
  st ← while fuel
         (fun st => negb st.1
                    && negb (symbol_eqb (S st.2) symbol.right_paren_sym)
                    && negb (symbol_eqb (S st.2) symbol.end_of_program))
         (fun st => param_step fuel st.2)
         (false, p);
  Some st.2.

(** if (accept(left_paren_sym)) { param_list(); expect(right_paren_sym) } *)
Definition parameters (fuel : nat) (p : Parser) : option Parser :=
  let '(b, p) := accept symbol.left_paren_sym p in
  if b then
    p ← param_list fuel p;
    Some (expect symbol.right_paren_sym
            (error_code symbol.right_paren_sym) p)
  else Some p.

(** if (S() == identifier) advance(); *)
Definition optional (s : symbol.symbol_type) (p : Parser) : Parser :=
  if symbol_eqb (S p) s then advance p else p.

Definition proc_decl_with (fuel : nat) (decls : Parser -> printing)
    (stmt_list : list symbol.symbol_type -> Parser -> printing)
    (p : Parser) : printing :=
  let p := expect symbol.procedure_sym (error_code symbol.procedure_sym) p in
  let proc_name :=
    if symbol_eqb (S p) symbol.identifier
    then get_identifier_value (look p) else EmptyString in
  let p := expect symbol.identifier (error_code symbol.identifier) p in
  let '(proc_end_label, p) :=
    with_cg_label (gen_procedure_start proc_name) p in
  let p := on_sem sem_open_scope p in
  let p := set_current_level (current_level p + 1) p in
  p ← parameters fuel p;
  let p := expect symbol.is_sym (error_code symbol.is_sym) p in
  and_then (decls p) (fun p =>
  let p := with_cg gen_procedure_body_start p in
  let p := expect symbol.begin_sym (error_code symbol.begin_sym) p in
  and_then (stmt_list [symbol.end_sym] p) (fun p =>
  let p := expect symbol.end_sym (error_code symbol.end_sym) p in
  let p := optional symbol.identifier p in
  let p := expect symbol.semicolon_sym (error_code symbol.semicolon_sym) p in
  let p := with_cg (gen_procedure_end proc_end_label) p in
  and_then (close_and_dump p) (fun p =>
  quiet (set_current_level (current_level p - 1) p)))).

Definition func_decl_with (fuel : nat) (decls : Parser -> printing)
    (stmt_list : list symbol.symbol_type -> Parser -> printing)
    (p : Parser) : printing :=
  let p := expect symbol.function_sym (error_code symbol.function_sym) p in
  let func_name :=
    if symbol_eqb (S p) symbol.identifier
    then get_identifier_value (look p) else EmptyString in
  let p := expect symbol.identifier (error_code symbol.identifier) p in
  let '(func_end_label, p) :=
    with_cg_label (gen_function_start func_name) p in
  let p := on_sem sem_open_scope p in
  let p := set_current_level (current_level p + 1) p in
  p ← parameters fuel p;
  let p := expect symbol.return_sym (error_code symbol.return_sym) p in
  let '(ret_type, p) := parse_type p in
  let p := expect symbol.is_sym (error_code symbol.is_sym) p in
  and_then (decls p) (fun p =>
  let p := with_cg gen_function_body_start p in
  let p := expect symbol.begin_sym (error_code symbol.begin_sym) p in
  and_then (stmt_list [symbol.end_sym] p) (fun p =>
  let p := expect symbol.end_sym (error_code symbol.end_sym) p in
  let p := optional symbol.identifier p in
  let p := expect symbol.semicolon_sym (error_code symbol.semicolon_sym) p in
  let p := with_cg (gen_function_end func_end_label) p in
  and_then (close_and_dump p) (fun p =>
  quiet (set_current_level (current_level p - 1) p)))).

(** The loop of decls over the four kinds of declaration. *)
Definition decls_with (fuel : nat) (decls : Parser -> printing)
    (stmt_list : list symbol.symbol_type -> Parser -> printing)
    (p : Parser) : printing :=
  while fuel (fun st => starts_decl st.2)
    (fun st =>
       let '(out, p) := st in
       '(out', p) ←
          (if symbol_eqb (S p) symbol.constant_sym then const_decl fuel p
           else if symbol_eqb (S p) symbol.procedure_sym
           then proc_decl_with fuel decls stmt_list p
           else if symbol_eqb (S p) symbol.function_sym
           then func_decl_with fuel decls stmt_list p
           else decl_vars fuel p);
       Some (out +:+ out', p))
    (EmptyString, p).

(** isFollower, the lambda of stmt_list *)
Definition is_follower (followers : list symbol.symbol_type)
    (s : symbol.symbol_type) : bool :=
  existsb (fun f => symbol_eqb s f) followers.

(** while (S() == semicolon_sym) { advance(); if (isFollower(S())) break; }
    The boolean says that the loop was left by its break. *)
Definition skip_semicolons (fuel : nat)
    (followers : list symbol.symbol_type) (p : Parser)
  : option (bool * Parser) :=
  while fuel
    (fun st => negb st.1 && symbol_eqb (S st.2) symbol.semicolon_sym)
    (fun st => let p := advance st.2 in
               Some (is_follower followers (S p), p))
    (false, p).

(** The body of the first loop of stmt_list; the boolean says that the
    loop was left by one of its three breaks. *)
Definition stmt_list_step (fuel : nat) (stmt : Parser -> printing)
    (followers : list symbol.symbol_type) (st : bool * (string * Parser))
  : option (bool * (string * Parser)) :=
  let '(out, p) := st.2 in
  if is_follower followers (S p) then Some (true, (out, p)) else
  '(_, p) ← skip_semicolons fuel followers p;
  if is_follower followers (S p) then Some (true, (out, p)) else
  if negb (starts_stmt p) then Some (true, (out, p)) else
  '(out', p) ← stmt p;
  let p := (accept symbol.semicolon_sym p).2 in
  Some (false, (out +:+ out', p)).

Definition stmt_list_with (fuel : nat) (stmt : Parser -> printing)
    (followers : list symbol.symbol_type) (p : Parser) : printing :=
  '(_, (out, p)) ←
     while fuel (fun st => negb st.1) (stmt_list_step fuel stmt followers)
       (false, (EmptyString, p));
  '(_, p) ←
     while fuel
       (fun st => negb st.1 && symbol_eqb (S st.2) symbol.semicolon_sym)
       (fun st => let p := advance st.2 in
                  Some (is_follower followers (S p) || starts_stmt p, p))
       (false, p);
  Some (out, p).

Definition stmt_part_with
    (stmt_list : list symbol.symbol_type -> Parser -> printing)
    (p : Parser) : printing :=
  let p := expect symbol.begin_sym (error_code symbol.begin_sym) p in
  let p := on_sem sem_open_scope p in
  let p := set_current_level (current_level p + 1) p in
  and_then (stmt_list [symbol.end_sym] p) (fun p =>
  and_then (close_and_dump p) (fun p =>
  let p := set_current_level (current_level p - 1) p in
  quiet (expect symbol.end_sym (error_code symbol.end_sym) p))).

(** An assignment, or the call of a procedure, with its arguments read
    as primary reads those of a function. *)
Definition assign_or_call (fuel : nat) (p : Parser) : printing :=
  let var_name := get_identifier_value (look p) in
  let id_tok := look p in
  let p := expect symbol.identifier (error_code symbol.identifier) p in
  if symbol_eqb (S p) symbol.becomes_sym then
    let becomes_tok := look p in
    let p := advance p in
    '(rhs_type, p) ← expr fuel p;
    let p := on_sem (check_assignment var_name rhs_type becomes_tok) p in
    let p := with_cg (gen_store var_name (current_level p)) p in
    quiet (expect symbol.semicolon_sym (error_code symbol.semicolon_sym) p)
  else if symbol_eqb (S p) symbol.left_paren_sym then
    let p := advance p in
    let p := with_cg gen_call_start p in
    let arg_count := 0 in
    '(arg_count, p) ←
       (if negb (symbol_eqb (S p) symbol.right_paren_sym) then
          r ← expr fuel p;
          call_arguments fuel (expr fuel) (arg_count + 1, r.2)
        else Some (arg_count, p));
    let p := expect symbol.right_paren_sym
               (error_code symbol.right_paren_sym) p in
    let p := with_cg (gen_call var_name arg_count (current_level p)) p in
    quiet (expect symbol.semicolon_sym (error_code symbol.semicolon_sym) p)
  else
    let p := with_cg gen_call_start p in
    let p := with_cg (gen_call var_name 0 (current_level p)) p in
    quiet (expect symbol.semicolon_sym (error_code symbol.semicolon_sym) p).

Definition then_followers : list symbol.symbol_type :=
  [symbol.elsif_sym; symbol.else_sym; symbol.end_sym].

(** The body of the loop over the elsif parts. *)
Definition elsif_part (fuel : nat)
    (stmt_list : list symbol.symbol_type -> Parser -> printing)
    (end_label : string) (st : string * Parser) : option (string * Parser) :=
  let '(out, p) := st in
  let p := (accept symbol.elsif_sym p).2 in
  let '(next_else, p) := with_cg_label gen_new_label p in
  let econd_tok := look p in
  '(econd_type, p) ← expr fuel p;
  let p := on_sem (require_boolean econd_type econd_tok) p in
  let p := with_cg (gen_jump_false next_else) p in
  let p := expect symbol.then_sym (error_code symbol.then_sym) p in
  '(out', p) ← stmt_list then_followers p;
  let p := with_cg (gen_jump end_label) p in
  let p := with_cg (gen_label next_else) p in
  Some (out +:+ out', p).

Definition if_stmt_with (fuel : nat)
    (stmt_list : list symbol.symbol_type -> Parser -> printing)
    (p : Parser) : printing :=
  let p := expect symbol.if_sym (error_code symbol.if_sym) p in
  let '(else_label, p) := with_cg_label gen_new_label p in
  let '(end_label, p) := with_cg_label gen_new_label p in
  let cond_tok := look p in
  '(cond_type, p) ← expr fuel p;
  let p := on_sem (require_boolean cond_type cond_tok) p in
  let p := with_cg (gen_jump_false else_label) p in
  let p := expect symbol.then_sym (error_code symbol.then_sym) p in
  '(out, p) ← stmt_list then_followers p;
  let p := with_cg (gen_jump end_label) p in
  let p := with_cg (gen_label else_label) p in
  '(out, p) ← while fuel (fun st => (accept symbol.elsif_sym st.2).1)
                (elsif_part fuel stmt_list end_label) (out, p);
  '(out, p) ←
     (let '(b, p) := accept symbol.else_sym p in
      if b then '(out', p) ← stmt_list [symbol.end_sym] p;
                Some (out +:+ out', p)
      else Some (out, p));
  p ← drain_semicolons fuel p;
  let p := with_cg (gen_label end_label) p in
  let p := expect symbol.end_sym (error_code symbol.end_sym) p in
  let p := optional symbol.if_sym p in
  Some (out, expect symbol.semicolon_sym (error_code symbol.semicolon_sym) p).

(** loop_exit_labels.push(l) and loop_exit_labels.pop() *)
Definition push_exit_label (l : string) (p : Parser) : Parser :=
  set_loop_exit_labels (l :: loop_exit_labels p) p.
Definition pop_exit_label (p : Parser) : Parser :=
  set_loop_exit_labels (tail (loop_exit_labels p)) p.

(** The end of the three loop statements:
    while (accept(semicolon_sym)) { }  expect(end_sym);
    if (S() == loop_sym) advance();  expect(semicolon_sym) *)
Definition end_of_loop (fuel : nat) (p : Parser) : option Parser :=
  p ← drain_semicolons fuel p;
  let p := expect symbol.end_sym (error_code symbol.end_sym) p in
  let p := optional symbol.loop_sym p in
  Some (expect symbol.semicolon_sym (error_code symbol.semicolon_sym) p).

Definition while_stmt_with (fuel : nat)
    (stmt_list : list symbol.symbol_type -> Parser -> printing)
    (p : Parser) : printing :=
  let p := expect symbol.while_sym (error_code symbol.while_sym) p in
  let '(loop_start, p) := with_cg_label gen_new_label p in
  let '(loop_end, p) := with_cg_label gen_new_label p in
  let p := with_cg (gen_label loop_start) p in
  let p := push_exit_label loop_end p in
  let cond_tok := look p in
  '(cond_type, p) ← expr fuel p;
  let p := on_sem (require_boolean cond_type cond_tok) p in
  let p := with_cg (gen_jump_false loop_end) p in
  let p := expect symbol.loop_sym (error_code symbol.loop_sym) p in
  '(out, p) ← stmt_list [symbol.end_sym] p;
  let p := with_cg (gen_jump loop_start) p in
  let p := with_cg (gen_label loop_end) p in
  let p := pop_exit_label p in
  p ← end_of_loop fuel p;
  Some (out, p).

Definition for_stmt_with (fuel : nat)
    (stmt_list : list symbol.symbol_type -> Parser -> printing)
    (p : Parser) : printing :=
  let p := expect symbol.for_sym (error_code symbol.for_sym) p in
  let var_tok := look p in
  let loop_var :=
    if symbol_eqb (S p) symbol.identifier
    then get_identifier_value (look p) else EmptyString in
  let p := expect symbol.identifier (error_code symbol.identifier) p in
  let p := on_sem sem_open_scope p in
  let p := set_current_level (current_level p + 1) p in
  let p := on_sem (declare_var loop_var type_integer var_tok) p in
  let p := expect symbol.in_sym (error_code symbol.in_sym) p in
  let '(is_reverse, p) := accept symbol.reverse_sym p in
  '(low_type, p) ← simple_expr fuel p;
  let p := expect symbol.range_sym (error_code symbol.range_sym) p in
  '(high_type, p) ← simple_expr fuel p;
  let '(loop_start, p) := with_cg_label gen_new_label p in
  let '(loop_end, p) := with_cg_label gen_new_label p in
  let p := with_cg (gen_for_init loop_var is_reverse (current_level p)) p in
  let p := with_cg (gen_label loop_start) p in
  let p := with_cg (gen_for_test loop_var is_reverse loop_end
                      (current_level p)) p in
  let p := push_exit_label loop_end p in
  let p := expect symbol.loop_sym (error_code symbol.loop_sym) p in
  '(out, p) ← stmt_list [symbol.end_sym] p;
  let p := with_cg (gen_for_step loop_var is_reverse (current_level p)) p in
  let p := with_cg (gen_jump loop_start) p in
  let p := with_cg (gen_label loop_end) p in
  let p := pop_exit_label p in
  '(out', p) ← close_and_dump p;
  let p := set_current_level (current_level p - 1) p in
  p ← end_of_loop fuel p;
  Some (out +:+ out', p).

Definition loop_block_with (fuel : nat)
    (stmt_list : list symbol.symbol_type -> Parser -> printing)
    (p : Parser) : printing :=
  let p := expect symbol.loop_sym (error_code symbol.loop_sym) p in
  let '(loop_start, p) := with_cg_label gen_new_label p in
  let '(loop_end, p) := with_cg_label gen_new_label p in
  let p := with_cg (gen_label loop_start) p in
  let p := push_exit_label loop_end p in
  '(out, p) ← stmt_list [symbol.end_sym] p;
  let p := with_cg (gen_jump loop_start) p in
  let p := with_cg (gen_label loop_end) p in
  let p := pop_exit_label p in
  p ← end_of_loop fuel p;
  Some (out, p).

Definition exit_stmt (fuel : nat) (p : Parser) : printing :=
  let p := expect symbol.exit_sym (error_code symbol.exit_sym) p in
  let p := match loop_exit_labels p with
           | [] => flag_here 89 p
           | _ => p
           end in
  let exit_label := match loop_exit_labels p with
                    | [] => EmptyString
                    | top :: _ => top
                    end in
  let '(b, p) := accept symbol.when_sym p in
  p ← (if b then
         let cond_tok := look p in
         '(cond_type, p) ← expr fuel p;
         let p := on_sem (require_boolean cond_type cond_tok) p in
         Some (if negb (is_empty_name exit_label)
               then with_cg (gen_jump_true exit_label) p else p)
       else
         Some (if negb (is_empty_name exit_label)
               then with_cg (gen_jump exit_label) p else p));
  quiet (expect symbol.semicolon_sym (error_code symbol.semicolon_sym) p).

(** The expressions of write and writeln:
    t = expr(); gen_write(t); while (accept(comma)) { the same } *)
Definition write_items (fuel : nat) (p : Parser) : option Parser :=
  if negb (symbol_eqb (S p) symbol.right_paren_sym)
     && negb (symbol_eqb (S p) symbol.semicolon_sym)
  then
    '(t, p) ← expr fuel p;
    let p := with_cg (gen_write t) p in
    while fuel (fun p => (accept symbol.comma_sym p).1)
      (fun p =>
         let p := (accept symbol.comma_sym p).2 in
         '(t, p) ← expr fuel p;
         Some (with_cg (gen_write t) p))
      p
  else Some p.

Definition write_stmt (fuel : nat) (p : Parser) : printing :=
  let p := expect symbol.write_sym (error_code symbol.write_sym) p in
  let '(had_paren, p) := accept symbol.left_paren_sym p in
  p ← write_items fuel p;
  let p := if had_paren
           then expect symbol.right_paren_sym
                  (error_code symbol.right_paren_sym) p
           else p in
  quiet (expect symbol.semicolon_sym (error_code symbol.semicolon_sym) p).

Definition writeln_stmt (fuel : nat) (p : Parser) : printing :=
  let p := expect symbol.writeln_sym (error_code symbol.writeln_sym) p in
  if symbol_eqb (S p) symbol.semicolon_sym then
    let p := with_cg gen_writeln p in
    quiet (expect symbol.semicolon_sym (error_code symbol.semicolon_sym) p)
  else
    let '(had_paren, p) := accept symbol.left_paren_sym p in
    p ← write_items fuel p;
    let p := if had_paren
             then expect symbol.right_paren_sym
                    (error_code symbol.right_paren_sym) p
             else p in
    let p := with_cg gen_writeln p in
    quiet (expect symbol.semicolon_sym (error_code symbol.semicolon_sym) p).

(** One variable of read:
    if (S() == identifier) { lookup_type; gen_read }  expect(identifier) *)
Definition read_item (p : Parser) : Parser :=
  let p :=
    if symbol_eqb (S p) symbol.identifier then
      let var_name := get_identifier_value (look p) in
      let '(var_type, p) := with_sem (lookup_type var_name (look p)) p in
      with_cg (gen_read var_name var_type (current_level p)) p
    else p in
  expect symbol.identifier (error_code symbol.identifier) p.

Definition read_stmt (fuel : nat) (p : Parser) : printing :=
  let p := expect symbol.read_sym (error_code symbol.read_sym) p in
  let '(had_paren, p) := accept symbol.left_paren_sym p in
  let p := read_item p in
  p ← while fuel (fun p => (accept symbol.comma_sym p).1)
        (fun p => Some (read_item (accept symbol.comma_sym p).2)) p;
  let p := if had_paren
           then expect symbol.right_paren_sym
                  (error_code symbol.right_paren_sym) p
           else p in
  quiet (expect symbol.semicolon_sym (error_code symbol.semicolon_sym) p).

Definition return_stmt (fuel : nat) (p : Parser) : printing :=
  let p := expect symbol.return_sym (error_code symbol.return_sym) p in
  p ← (if negb (symbol_eqb (S p) symbol.semicolon_sym) then
         '(ret_type, p) ← expr fuel p;
         Some (with_cg gen_function_return p)
       else Some (with_cg gen_procedure_return p));
  quiet (expect symbol.semicolon_sym (error_code symbol.semicolon_sym) p).

Definition stmt_with (fuel : nat)
    (stmt_list : list symbol.symbol_type -> Parser -> printing)
    (p : Parser) : printing :=
  match S p with
  | symbol.identifier => assign_or_call fuel p
  | symbol.null_sym =>
      let p := advance p in
      quiet (expect symbol.semicolon_sym
               (error_code symbol.semicolon_sym) p)
  | symbol.if_sym => if_stmt_with fuel stmt_list p
  | symbol.while_sym => while_stmt_with fuel stmt_list p
  | symbol.for_sym => for_stmt_with fuel stmt_list p
  | symbol.loop_sym => loop_block_with fuel stmt_list p
  | symbol.begin_sym =>
      and_then (stmt_part_with stmt_list p) (fun p =>
      quiet (expect symbol.semicolon_sym
               (error_code symbol.semicolon_sym) p))
  | symbol.exit_sym => exit_stmt fuel p
  | symbol.write_sym => write_stmt fuel p
  | symbol.writeln_sym => writeln_stmt fuel p
  | symbol.read_sym => read_stmt fuel p
  | symbol.return_sym => return_stmt fuel p
  | _ =>
      let p := flag_here 79 p in
      quiet (synchronize [symbol.semicolon_sym; symbol.end_sym;
                          symbol.else_sym; symbol.elsif_sym;
                          symbol.loop_sym] p)
  end.

(** stmt and stmt_list call each other, through the statements that hold
    statements. *)
Fixpoint stmt (fuel : nat) (p : Parser) : printing :=
  match fuel with
  | O => None
  | Datatypes.S n => stmt_with n (stmt_list_with n (stmt n)) p
  end.

Definition stmt_list (fuel : nat)
  : list symbol.symbol_type -> Parser -> printing :=
  stmt_list_with fuel (stmt fuel).

(** decls calls the declarations of procedures and functions, which call
    decls. *)
Fixpoint decls (fuel : nat) (p : Parser) : printing :=
  match fuel with
  | O => None
  | Datatypes.S n => decls_with n (decls n) (stmt_list n) p
  end.

Definition prog (fuel : nat) (p : Parser) : printing :=
  let p := expect symbol.program_sym (error_code symbol.program_sym) p in
  let prog_name :=
    if symbol_eqb (S p) symbol.identifier
    then get_identifier_value (look p) else EmptyString in
  let p := expect symbol.identifier (error_code symbol.identifier) p in
  let p :=
    let '(b, p) := accept symbol.is_sym p in
    if negb b then
      let p := flag_here (error_code symbol.is_sym) p in
      synchronize [symbol.identifier; symbol.constant_sym;
                   symbol.procedure_sym; symbol.function_sym;
                   symbol.begin_sym] p
    else p in
  let p := with_cg (gen_program_start prog_name) p in
  let p := on_sem sem_open_scope p in
  let p := set_current_level 1 p in
  and_then (decls fuel p) (fun p =>
  let p := with_cg gen_program_body_start p in
  let p := expect symbol.begin_sym (error_code symbol.begin_sym) p in
  and_then (stmt_list fuel [symbol.end_sym] p) (fun p =>
  let p := expect symbol.end_sym (error_code symbol.end_sym) p in
  let p :=
    if symbol_eqb (S p) symbol.identifier then
      let end_name := get_identifier_value (look p) in
      let p := if negb (String.eqb end_name prog_name)
               then flag_here 75 p else p in
      advance p
    else p in
  let p := expect symbol.semicolon_sym (error_code symbol.semicolon_sym) p in
  p ← drain_semicolons fuel p;
  let p := if negb (symbol_eqb (S p) symbol.end_of_program)
           then flag_here 77 p else p in
  let p := with_cg gen_program_end p in
  and_then (close_and_dump p) (fun p =>
  quiet (set_current_level 0 p)))).

Definition parse_program (fuel : nat) (p : Parser) : printing := prog fuel p.

(** ** What a part of a parse leaves behind

    The second operand of an instruction is the text of a number, a
    string literal between quotes, the text of a real, or a label; a
    label is either placed or one of those still to be placed,
    [pending]. *)
Definition operand_ok (pending : string -> Prop) (labels : gmap string Z)
    (op2 : string) : Prop :=
  (exists a : Z, op2 = to_string a)
  \/ (exists str, op2 = "'" +:+ str +:+ "'")
  \/ (exists v, op2 = float_out v)
  \/ pending op2
  \/ is_Some (labels !! op2).

Definition operands_ok (pending : string -> Prop) (c : code_gen) : Prop :=
  forall instr,
    instr ∈ instructions c ->
    operand_ok pending (label_addresses c) (operand2 instr).

(** The emitter went from [c] to [c'] and used no label but those of
    [X] and the placed ones: instructions were added at the end, the
    counter kept pace, no placed label was lost. *)
Definition cg_step (X : list string) (c c' : code_gen) : Prop :=
  instructions c `prefix_of` instructions c'
  /\ (counter_ok c -> counter_ok c')
  /\ (forall l, is_Some (label_addresses c !! l) ->
                is_Some (label_addresses c' !! l))
  /\ (forall pending : string -> Prop,
        (forall l, l ∈ X -> pending l) ->
        operands_ok pending c -> operands_ok pending c').

(** The same for the emitter of a parser, which may be absent; the
    labels of [placed] are placed in the end. *)
Definition cg_rel (X placed : list string) (c c' : option code_gen) : Prop :=
  match c, c' with
  | Some c, Some c' =>
      cg_step X c c'
      /\ forall l, l ∈ placed -> is_Some (label_addresses c' !! l)
  | None, None => True
  | _, _ => False
  end.

(** What became of the symbol table: it is as it was; it has one more
    frame, the scope that was opened; or its current frame has more
    declarations. *)
Inductive table_change : Type := table_same | table_opened | table_declared.

Definition tab_rel (M : table_change) (t t' : id_table) : Prop :=
  match M with
  | table_same => scopes t <> [] -> t' = t
  | table_opened => scopes t <> [] -> inner_frame t t'
  | table_declared => forall t0, inner_frame t0 t -> inner_frame t0 t'
  end.

(** The input that is left: the tokens still to come, and the current
    one unless it is end_of_program.  advance never makes it more, and
    makes it less unless the current token is end_of_program. *)
Definition input_left (p : Parser) : nat :=
  (length (sc p)
   + if symbol_eqb (S p) symbol.end_of_program then 0 else 1)%nat.

(** A step of a helper of the parser: it may consume input and add
    diagnostics, and leaves the rest as it is. *)
Definition helper_step (x y : Parser) : Prop :=
  (input_left y <= input_left x)%nat
  /\ current_level y = current_level x
  /\ loop_exit_labels y = loop_exit_labels x
  /\ id_tab (sem y) = id_tab (sem x)
  /\ err (sem x) `prefix_of` err (sem y)
  /\ cg y = cg x.

(** [parsed locals dl ls placed M strict p q]: the parser went from [p]
    to [q].  It consumed input (at least a token when [strict]); the
    level rose by [dl]; the exit labels [ls] were pushed; diagnostics
    were only added; the table changed as [M] says; and the emitter used
    the labels [locals] and those of the loops around [p] only, and has
    placed the labels [placed]. *)
Definition parsed (locals : list string) (dl : Z) (ls placed : list string)
    (M : table_change) (strict : bool) (p q : Parser) : Prop :=
  (if strict then (input_left q < input_left p)%nat
   else (input_left q <= input_left p)%nat)
  /\ current_level q = current_level p + dl
  /\ loop_exit_labels q = ls ++ loop_exit_labels p
  /\ err (sem p) `prefix_of` err (sem q)
  /\ tab_rel M (id_tab (sem p)) (id_tab (sem q))
  /\ cg_rel (locals ++ loop_exit_labels p) placed (cg p) (cg q).

(** A function of the grammar returns on every input of less than [k]
    tokens, having consumed a token where [start] holds, and leaves the
    level and the exit labels as they were and every label it used
    placed. *)
Definition parses (k : nat) (start : Parser -> bool) (M : table_change)
    (f : Parser -> printing) : Prop :=
  forall p,
    (input_left p < k)%nat ->
    exists out q,
      f p = Some (out, q)
      /\ parsed [] 0 [] [] M false p q
      /\ (start p = true -> (input_left q < input_left p)%nat).

(** The same for a function of the expression grammar, which declares
    nothing and uses no label. *)
Definition eparses (k : nat) (f : Parser -> parse_result) : Prop :=
  forall p,
    (input_left p < k)%nat ->
    exists t q,
      f p = Some (t, q) /\ parsed [] 0 [] [] table_same false p q.

(** A statement returns on every input of at most [k] tokens that
    starts with its first symbol [s], and consumes input. *)
Definition parses_at (k : nat) (s : symbol.symbol_type)
    (f : Parser -> printing) : Prop :=
  forall p,
    (input_left p < Datatypes.S k)%nat ->
    symbol_eqb (S p) s = true ->
    exists out q,
      f p = Some (out, q) /\ parsed [] 0 [] [] table_same true p q.

(** A declaration returns on every input of at most [k] tokens that
    starts with [s], consumes input, and may add names to the current
    scope. *)
Definition declares_at (k : nat) (s : symbol.symbol_type)
    (f : Parser -> printing) : Prop :=
  forall p,
    (input_left p < Datatypes.S k)%nat ->
    symbol_eqb (S p) s = true ->
    exists out q,
      f p = Some (out, q) /\ parsed [] 0 [] [] table_declared true p q.

(** ** Sample inputs of the parser *)

(** The parser on the tokens of [program p is begin null; end;], with an
    emitter that has emitted nothing. *)
Definition sample_program_parser : Parser :=
  Parser_new
    [new_token symbol.program_sym 1 0;
     set_identifier_value "P" (new_token symbol.identifier 1 8);
     new_token symbol.is_sym 1 10;
     new_token symbol.begin_sym 1 13;
     new_token symbol.null_sym 1 19;
     new_token symbol.semicolon_sym 1 23;
     new_token symbol.end_sym 1 25;
     new_token symbol.semicolon_sym 1 28]
    1 29 (mk_semantics id_table_new []) (Some (code_gen_new "out.pal")).

(** The parser on the tokens of [null;]. *)
Definition sample_statement_parser : Parser :=
  Parser_new
    [new_token symbol.null_sym 1 0; new_token symbol.semicolon_sym 1 4]
    1 5 (mk_semantics id_table_new []) None.

(** The parser on the tokens of [x : integer; begin], in the scope of a
    program. *)
Definition sample_declaration_parser : Parser :=
  Parser_new
    [set_identifier_value "X" (new_token symbol.identifier 1 0);
     new_token symbol.colon_sym 1 2;
     new_token symbol.integer_sym 1 4;
     new_token symbol.semicolon_sym 1 11;
     new_token symbol.begin_sym 1 13]
    1 18 (sem_open_scope (mk_semantics id_table_new [])) None.

(** The analyzer in the scope of a program, and two calls in it. *)
Definition sample_scope : semantics :=
  sem_open_scope (mk_semantics id_table_new []).

Definition sample_calls : list sem_call :=
  [call_declare_var "X" type_integer sample_token;
   call_lookup_type "X" sample_token].

(** ** The input the scanner has left

    The characters of the buffer after the cursor, the lines still to
    be read, each with its end, and the end of the file until it is
    met.  get_char and fill_buffer never make it more. *)
Definition chars_left (s : scanner) : nat :=
  (Datatypes.S (Z.to_nat (buffer_length s - 1 - pos_on_line s))
   + foldr (fun line n => Datatypes.S (String.length line) + n) 0
       (source_file s)
   + (if eof_flag s then 0 else 1))%nat.

(** The same, and one more while the cursor is on a character: the
    loops of scan_alpha and scan_digit stop at the end of a line, where
    next_char is the end marker. *)
Definition chars_ahead (s : scanner) : nat :=
  (chars_left s + if Ascii.eqb (next_char s) end_marker then 0 else 1)%nat.

(** Two states of the scanner that differ in what was scanned only: the
    file, the buffer, the cursor and the flags are the same. *)
Definition same_input (s s' : scanner) : Prop :=
  source_file s' = source_file s
  /\ input_buffer s' = input_buffer s
  /\ pos_on_line s' = pos_on_line s
  /\ line_number s' = line_number s
  /\ eof_flag s' = eof_flag s
  /\ eoln_flag s' = eoln_flag s
  /\ next_char s' = next_char s.

(** What get_token owes its callers, on the states that have at most
    [bound] left: it returns, it gives no input back, and unless it
    answers end_of_program it has consumed some. *)
Definition token_spec (g : scanner -> option (token * scanner))
    (bound : nat) : Prop :=
  forall s,
    (chars_left s <= bound)%nat ->
    exists t s',
      g s = Some (t, s')
      /\ (chars_left s' <= chars_left s)%nat
      /\ ((current_symbol s' = symbol.end_of_program
           /\ get_sym t = symbol.end_of_program)
          \/ (chars_left s' < chars_left s)%nat).

(** No letter of the name is a lower-case letter: toupper leaves every
    character as it is. *)
Fixpoint all_upper (name : string) : bool :=
  match name with
  | EmptyString => true
  | String c rest => Ascii.eqb (toupper c) c && all_upper rest
  end.

(** The current token, when it is an identifier, has an upper-case
    name. *)
Definition upper_case_token (s : scanner) : Prop :=
  get_sym (current_token s) = symbol.identifier ->
  all_upper (get_identifier_value (current_token s)) = true.
(** The call passes gen_variable a level that is not negative (see
    [gen_variable]); the other calls make no such demand. *)
Definition level_in_range (call : cg_call) : bool :=
  match call with
  | call_gen_variable _ level => 0 <=? level
  | _ => true
  end.
(** * Properties *)

(** ** Symbols *)

Lemma symbol_eqb_eq a b : symbol_eqb a b = true <-> a = b.
Proof.
  unfold symbol_eqb. rewrite Z.eqb_eq. split; [|by intros ->].
  destruct a; destruct b; cbv; intros E; first [reflexivity | discriminate E].
Qed.

Lemma symbol_eqb_neq a b : a <> b -> symbol_eqb a b = false.
Proof.
  intros Hne. destruct (symbol_eqb a b) eqn:E; [|done].
  by apply symbol_eqb_eq in E.
Qed.

(** ** The error sink *)

Lemma sem_flag_changes (w : token) code s : sem_flag w code s <> s.
Proof.
  intros E. apply (f_equal (fun s => length (err s))) in E.
  unfold sem_flag, flag_token, flag in E. simpl in E.
  rewrite length_app in E. simpl in E. lia.
Qed.

(** ** C1: binary operators on an unknown operand *)

(** C1.  What check_binary does when an operand type is unknown: only the
    concatenation operator accepts silently, with result string.  An
    arithmetic operator reports 116 (arithmetic expression expected), a
    logical operator 120 (boolean expression expected), a comparison 114
    (types must match), each with result unknown; any other symbol gives
    unknown without a report. *)
Theorem check_binary_unknown_operand (L R : lille_ty)
    (op : symbol.symbol_type) (w : token) (s : semantics) :
  L = type_unknown \/ R = type_unknown ->
  check_binary L op R w s =
    if is_arithmetic_op op then (type_unknown, sem_flag w 116 s)
    else if is_logical_op op then (type_unknown, sem_flag w 120 s)
    else if symbol_eqb op symbol.ampersand_sym then (type_string, s)
    else if is_comparison_op op then (type_unknown, sem_flag w 114 s)
    else (type_unknown, s).
Proof.
  intros Hunknown. unfold check_binary.
  destruct (is_arithmetic_op op).
  { destruct Hunknown as [-> | ->]; [reflexivity|].
    destruct L; reflexivity. }
  destruct (is_logical_op op).
  { destruct Hunknown as [-> | ->]; [reflexivity|].
    destruct L; reflexivity. }
  destruct (symbol_eqb op symbol.ampersand_sym).
  { destruct Hunknown as [-> | ->]; [reflexivity|].
    destruct L; reflexivity. }
  destruct (is_comparison_op op); [|reflexivity].
  destruct Hunknown as [-> | ->].
  - cbn. by rewrite !andb_false_l.
  - destruct L; cbn; by rewrite ?andb_false_l.
Qed.

(** ** C4: assignment *)

(** C4.  check_assignment on a declared name whose record is [r]: a
    constant gets the one diagnostic 85 (not assignable) and nothing else
    changes; otherwise the state is left as it is exactly when the types
    are equal, or the left is real and the right integer, or either is
    unknown, and in every other case the one diagnostic 93 (type mismatch)
    is added.  On a name that is not declared the one diagnostic 81 is
    added. *)
Theorem check_assignment_rules (lhs_name : string) (rhs : lille_ty)
    (w : token) (s : semantics) :
  (lookup lhs_name (id_tab s) = None ->
   check_assignment lhs_name rhs w s = sem_flag w 81 s)
  /\ (forall rec r,
        lookup lhs_name (id_tab s) = Some rec ->
        deref rec s = Some r ->
        (get_kind r = lille_kind.constant ->
         check_assignment lhs_name rhs w s = sem_flag w 85 s)
        /\ (get_kind r <> lille_kind.constant ->
            let accepted :=
              get_type r = rhs
              \/ (get_type r = type_real /\ rhs = type_integer)
              \/ get_type r = type_unknown \/ rhs = type_unknown in
            (check_assignment lhs_name rhs w s = s <-> accepted)
            /\ (~ accepted ->
                check_assignment lhs_name rhs w s = sem_flag w 93 s))).
Proof.
  split.
  - intros Hmiss. unfold check_assignment. by rewrite Hmiss.
  - intros rec r Hfound Hrec. unfold check_assignment.
    rewrite Hfound, Hrec. split.
    + intros ->. reflexivity.
    + intros Hkind.
      assert (lille_kind.is_kind (get_kind r) lille_kind.constant = false)
        as -> by (destruct (get_kind r); done).
      destruct (get_type r) eqn:Hty; destruct rhs; cbn;
        first
          [ (* an accepted pair of types *)
            assert (sem_flag w 93 s <> s) by apply sem_flag_changes;
            split; [split; [intros _; tauto | reflexivity]
                   | intros Hn; exfalso; apply Hn; tauto]
          | (* a rejected pair of types *)
            split; [split; [intros Hs; by apply sem_flag_changes in Hs
                           | intros [?|[[? ?]|[?|?]]]; discriminate]
                   | reflexivity] ].
Qed.

(** ** C5: the scope stack *)

Lemma delete_records_lookup (frame : gmap string N) (st : gmap N record)
    (a : N) :
  delete_records frame st !! a =
    if bool_decide (a ∈ frame_records frame) then None else st !! a.
Proof.
  unfold delete_records, frame_records.
  induction (map_to_list frame) as [|kv l IH].
  - case_bool_decide as Hin; [by apply elem_of_nil in Hin|done].
  - rewrite fmap_cons. cbn [foldr].
    destruct (decide (a = kv.2)) as [->|Hne].
    + rewrite lookup_delete_eq.
      rewrite bool_decide_eq_true_2; [done|apply list_elem_of_here].
    + rewrite lookup_delete_ne by done. rewrite IH. clear IH.
      destruct (decide (a ∈ l.*2)) as [Hin|Hout].
      * rewrite (bool_decide_eq_true_2 (a ∈ l.*2)) by done.
        rewrite (bool_decide_eq_true_2 (a ∈ kv.2 :: l.*2)); [done|].
        by apply list_elem_of_further.
      * rewrite (bool_decide_eq_false_2 (a ∈ l.*2)) by done.
        rewrite (bool_decide_eq_false_2 (a ∈ kv.2 :: l.*2)); [done|].
        intros [Heq|Hin]%elem_of_cons; [by apply Hne|by apply Hout].
Qed.

Lemma head_snoc {A} (l : list A) (x : A) : l <> [] -> head (l ++ [x]) = head l.
Proof. by destruct l. Qed.

Lemma head_removelast {A} (l : list A) :
  (2 <= length l)%nat -> head (removelast l) = head l.
Proof. destruct l as [|a [|b l]]; simpl; [lia|lia|done]. Qed.

Lemma removelast_not_nil {A} (l : list A) :
  (2 <= length l)%nat -> removelast l <> [].
Proof. destruct l as [|a [|b l]]; simpl; [lia|lia|done]. Qed.

Lemma close_scope_global (t : id_table) :
  (length (scopes t) <= 1)%nat -> close_scope t = t.
Proof.
  intros Hlen. unfold close_scope. by rewrite bool_decide_eq_true_2.
Qed.

Lemma close_scope_pop (t : id_table) (top : gmap string N) :
  (2 <= length (scopes t))%nat ->
  last (scopes t) = Some top ->
  close_scope t =
    mk_id_table (delete_records top (store t)) (removelast (scopes t)).
Proof.
  intros Hlen Htop. unfold close_scope, back.
  rewrite bool_decide_eq_false_2 by lia. by rewrite Htop.
Qed.

Lemma last_is_Some {A} (l : list A) : l <> [] -> is_Some (last l).
Proof.
  intros Hne. destruct (last l) eqn:E; [eauto|].
  by apply last_None in E.
Qed.

Lemma run_scope_call_keeps_global (c : scope_call) (t : id_table) :
  scopes t <> [] ->
  scopes (run_scope_call c t) <> []
  /\ head (scopes (run_scope_call c t)) = head (scopes t).
Proof.
  intros Hne. destruct c; simpl.
  - split; [by destruct (scopes t)|by apply head_snoc].
  - destruct (decide (length (scopes t) <= 1)%nat) as [Hle|Hgt].
    + by rewrite close_scope_global.
    + destruct (last_is_Some (scopes t) Hne) as [top Htop].
      rewrite (close_scope_pop t top) by (done || lia). simpl.
      split; [apply removelast_not_nil; lia|apply head_removelast; lia].
Qed.

(** C5.  Over every sequence of open_scope and close_scope calls on a
    table that has its global frame, the scope stack is never empty and
    its outermost frame stays the one it was.  close_scope on a table with
    the outermost frame only changes nothing; on a table with more frames
    it pops exactly the last frame and deletes exactly the records of that
    frame from the store. *)
Theorem scopes_never_empty (calls : list scope_call) (t : id_table) :
  scopes t <> [] ->
  (scopes (run_scope_calls calls t) <> []
   /\ head (scopes (run_scope_calls calls t)) = head (scopes t))
  /\ (length (scopes t) = 1%nat -> close_scope t = t)
  /\ (forall top,
        (2 <= length (scopes t))%nat ->
        last (scopes t) = Some top ->
        scopes (close_scope t) = removelast (scopes t)
        /\ scopes (close_scope t) ++ [top] = scopes t
        /\ forall a,
             store (close_scope t) !! a =
               if bool_decide (a ∈ frame_records top) then None
               else store t !! a).
Proof.
  intros Hne. split; [|split].
  - revert t Hne. induction calls as [|c calls IH]; intros t Hne; [done|].
    simpl. destruct (run_scope_call_keeps_global c t Hne) as [Hne' Hhead].
    destruct (IH _ Hne') as [? ?]. split; [done|congruence].
  - intros Hlen. apply close_scope_global. lia.
  - intros top Hlen Htop. rewrite (close_scope_pop t top) by done. simpl.
    split; [done|]. split; [|intros a; apply delete_records_lookup].
    rewrite last_lookup in Htop.
    destruct (scopes t) as [|f l] using rev_ind; [done|].
    rewrite removelast_last. f_equal. f_equal.
    rewrite length_app in Htop. simpl in Htop.
    rewrite lookup_app_r in Htop by lia.
    replace (Nat.pred (length l + 1) - length l)%nat with 0%nat in Htop by lia.
    simpl in Htop. congruence.
Qed.

(** ** C9: the dump of the symbol table *)

(** C9.  dump prints the frames from the outermost to the innermost, and
    one line for each record with its name and its type label; the kind
    label of every line is "UNKNOWN", whatever the kind of the record: the
    line of a record does not depend on its kind, and the variable X of
    type integer, declared in the frame under the global one, is printed
    with "Kind: UNKNOWN". *)
Theorem dump_prints_unknown_kind (w : token) :
  (forall lvl r k, dump_record lvl (set_kind k r) = dump_record lvl r)
  /\ let s := declare_var "X" type_integer w
                (sem_open_scope (mk_semantics id_table_new [])) in
     (exists rec,
        lookup "X" (id_tab s) = Some rec
        /\ deref rec s
           = Some (mk_record "X" type_integer lille_kind.variable))
     /\ dump_all_scopes s =
          concat_strings
            [ "~~~~~~~~~~~~~~~~~~~~~~~~~~~~~~~~~~~~~"; nl;
              "scope level 0"; nl;
              "---------------------"; nl;
              "~~~~~~~~~~~~~~~~~~~~~~~~~~~~~~~~~~~~~"; nl;
              "scope level 1"; nl;
              "---------------------"; nl;
              "Token Name: X Line No: 0 Position: 0  Type: INTEGER"
              +:+ "  Kind: UNKNOWN  Level: 1  Offset: 0  Trace?: 0"
              +:+ "  #params: 0"; nl ].
Proof.
  split; [reflexivity|].
  split; [exists 0%N; split; reflexivity|].
  vm_compute. reflexivity.
Qed.

(** ** C2: finalization and labels *)

Lemma write_records_length labels n instrs :
  length (write_records labels n instrs) = length instrs.
Proof.
  revert n. induction instrs as [|instr rest IH]; intros n; simpl; [done|].
  by rewrite IH.
Qed.

Lemma write_records_lookup labels n instrs (i : nat) :
  write_records labels n instrs !! i =
    write_record labels (n + Z.of_nat i) <$> instrs !! i.
Proof.
  revert n i. induction instrs as [|instr rest IH]; intros n i; [done|].
  destruct i as [|i]; simpl.
  - by rewrite Z.add_0_r.
  - rewrite IH. do 2 f_equal. lia.
Qed.

(** C2 (as the code has it).  finalize fails only when the output file
    cannot be opened.  Once the file is open it writes one record for each
    instruction, numbered from 1: a second operand that is a label is
    written as the index the label was placed at, and a label that was
    never placed is written as it stands, the text of the label. *)
Theorem finalize_writes_unplaced_label_as_is (c : code_gen) :
  finalize false c = Thrown ("Unable to open code file: " +:+ output_filename c)
  /\ exists records,
       finalize true c = Returned records
       /\ length records = length (instructions c)
       /\ forall (i : nat) instr,
            instructions c !! i = Some instr ->
            is_label (operand2 instr) = true ->
            (label_addresses c !! operand2 instr = None ->
             records !! i =
               Some (format_record (Z.of_nat i + 1) instr (operand2 instr)))
            /\ (forall address,
                  label_addresses c !! operand2 instr = Some address ->
                  records !! i =
                    Some (format_record (Z.of_nat i + 1) instr
                            (to_string address))).
Proof.
  split; [reflexivity|].
  exists (write_records (label_addresses c) 1 (instructions c)).
  split; [reflexivity|]. split; [apply write_records_length|].
  intros i instr Hi Hlabel.
  rewrite write_records_lookup, Hi. simpl.
  unfold write_record, resolve_operand. rewrite Hlabel.
  replace (1 + Z.of_nat i) with (Z.of_nat i + 1) by lia.
  split.
  - by intros ->.
  - by intros address ->.
Qed.

(** ** C8: the driver and finalization *)

(** C8.  After the parse the driver calls finalize exactly when the error
    count is zero.  In a run that the driver completes, the output
    instruction file is produced exactly when the error count is zero, and
    it then holds the records of finalize; with a nonzero error count
    finalize is not called, no file is produced and the driver completes. *)
Theorem finalize_iff_no_errors (can_open : bool) (code_filename : string)
    (e : error_handler) (code : code_gen) :
  let r := main_after_parse can_open code_filename e code in
  (is_Some (finalize_result r) <-> error_count e = 0)
  /\ (completes r ->
      (is_Some (code_file r) <-> error_count e = 0)
      /\ (error_count e = 0 ->
          code_file r
          = Some (write_records (label_addresses code) 1
                    (instructions code))))
  /\ (error_count e <> 0 ->
      finalize_result r = None /\ code_file r = None /\ completes r).
Proof.
  unfold main_after_parse, completes, code_file, finalize.
  destruct (Z.eqb_spec (error_count e) 0) as [Hzero|Hnonzero].
  - destruct can_open; simpl; repeat split; eauto; done.
  - simpl. repeat split; try done; by intros [? ?].
Qed.

(** ** The parser's helpers *)

Lemma advance_sem p : sem (advance p) = sem p.
Proof. unfold advance, sc_get_token. simpl. destruct (sc p); reflexivity. Qed.

Lemma advance_sc p : sc (advance p) = tail (sc p).
Proof.
  unfold advance, sc_get_token. simpl.
  destruct (sc p) eqn:E; simpl; [exact E|reflexivity].
Qed.

Lemma advance_look p :
  look (advance p) =
    match sc p with
    | t :: _ => t
    | [] => new_token symbol.end_of_program (sc_end_line p) (sc_end_pos p)
    end.
Proof. unfold advance, sc_get_token. simpl. destruct (sc p); reflexivity. Qed.

(** A skipped token leaves less input. *)
Lemma tokens_left_advance p (n : nat) :
  symbol_eqb (S p) symbol.end_of_program = false ->
  (tokens_left p <= Datatypes.S n)%nat ->
  (tokens_left (advance p) <= n)%nat.
Proof.
  unfold tokens_left at 1. intros -> Hle.
  unfold tokens_left, S. rewrite advance_look, advance_sc.
  destruct (sc p) as [|t rest]; simpl in *.
  - lia.
  - destruct (symbol_eqb (get_sym t) symbol.end_of_program); lia.
Qed.

Lemma tokens_left_pos p : (1 <= tokens_left p)%nat.
Proof.
  unfold tokens_left.
  destruct (symbol_eqb (S p) symbol.end_of_program); lia.
Qed.

Lemma tokens_left_bound p : (tokens_left p <= skip_bound p)%nat.
Proof.
  unfold tokens_left, skip_bound.
  destruct (symbol_eqb (S p) symbol.end_of_program); lia.
Qed.

Lemma expect_skip_sem n expected p : sem (expect_skip n expected p) = sem p.
Proof.
  revert p. induction n as [|n IH]; intros p; simpl; [done|].
  destruct (_ && _); [|done]. by rewrite IH, advance_sem.
Qed.

Lemma synchronize_loop_sem n follow p :
  sem (synchronize_loop n follow p) = sem p.
Proof.
  revert p. induction n as [|n IH]; intros p; simpl; [done|].
  destruct (negb _); [|done].
  destruct (existsb _ _); [done|]. by rewrite IH, advance_sem.
Qed.

(** The loop of synchronize leaves through one of its two exits before
    its bound is reached, and both clear [recovering]. *)
Lemma synchronize_loop_exits (n : nat) follow p :
  (tokens_left p <= n)%nat ->
  let q := synchronize_loop n follow p in
  recovering q = false
  /\ (S q = symbol.end_of_program
      \/ existsb (fun f => symbol_eqb (S q) f) follow = true).
Proof.
  revert p. induction n as [|n IH]; intros p Hle.
  - pose proof (tokens_left_pos p). lia.
  - simpl. destruct (symbol_eqb (S p) symbol.end_of_program) eqn:Heop; simpl.
    + split; [done|]. left. by apply symbol_eqb_eq.
    + destruct (existsb _ follow) eqn:Hfollow.
      * split; [done|]. by right.
      * apply IH. by apply tokens_left_advance.
Qed.

(** Where the loop of synchronize stops: on a token of the input, or on
    end_of_program. *)
Lemma synchronize_loop_look (n : nat) follow p :
  let q := synchronize_loop n follow p in
  look q ∈ look p :: sc p \/ S q = symbol.end_of_program.
Proof.
  revert p. induction n as [|n IH]; intros p; simpl.
  - left. apply list_elem_of_here.
  - destruct (symbol_eqb (S p) symbol.end_of_program) eqn:Heop; simpl.
    + left. apply list_elem_of_here.
    + destruct (existsb _ follow) eqn:Hfollow.
      * left. apply list_elem_of_here.
      * destruct (IH (advance p)) as [Hin|Hend]; [|by right].
        rewrite advance_look, advance_sc in Hin.
        destruct (sc p) as [|t rest]; simpl in Hin.
        -- right. apply list_elem_of_singleton in Hin.
           unfold S. by rewrite Hin.
        -- left. by apply list_elem_of_further.
Qed.

(** ** C10: synchronize clears the recovery flag *)

(** C10.  When synchronize returns, [recovering] is false, and the
    current token is end_of_program or a token of the follow set; when no
    token of the input is in the follow set, the current token is
    end_of_program, and [recovering] is false all the same. *)
Theorem synchronize_clears_recovering
    (follow : list symbol.symbol_type) (p : Parser) :
  let q := synchronize follow p in
  recovering q = false
  /\ (S q = symbol.end_of_program
      \/ existsb (fun f => symbol_eqb (S q) f) follow = true)
  /\ ((forall t, t ∈ look p :: sc p ->
         existsb (fun f => symbol_eqb (get_sym t) f) follow = false) ->
      S q = symbol.end_of_program /\ recovering q = false).
Proof.
  unfold synchronize.
  destruct (synchronize_loop_exits (skip_bound p) follow p
              (tokens_left_bound p)) as [Hrec Hstop].
  split; [done|]. split; [done|].
  intros Hnone. split; [|done].
  destruct Hstop as [Hend|Hfollow]; [done|].
  destruct (synchronize_loop_look (skip_bound p) follow p) as [Hin|Hend];
    [|done].
  apply Hnone in Hin. unfold S in Hfollow. congruence.
Qed.

(** ** C3: the parser reports only outside recovery *)

Lemma drop_own_length {A} (l : list A) : drop (length l) l = [].
Proof. by apply drop_all. Qed.

Lemma drop_flagged line col code (e : error_handler) :
  drop (length e) (flag line col code e) = [mk_diagnostic line col code].
Proof. unfold flag. by rewrite drop_app_length. Qed.

Lemma set_recovering_sem b p : sem (set_recovering b p) = sem p.
Proof. reflexivity. Qed.

Lemma expect_in_recovery expected err_no p :
  recovering p = true -> sem (expect expected err_no p) = sem p.
Proof.
  intros Hrec. unfold expect. rewrite Hrec.
  destruct (symbol_eqb _ expected).
  - by rewrite set_recovering_sem, advance_sem, expect_skip_sem.
  - apply expect_skip_sem.
Qed.

Lemma expect_outside_recovery expected err_no p :
  recovering p = false ->
  expect expected err_no p =
    if symbol_eqb (S p) expected then advance p
    else set_recovering true (err_flag_token (look p) err_no p).
Proof. intros Hrec. unfold expect. by rewrite Hrec. Qed.

(** What one call of the parser reports, by the state it starts in. *)
Lemma parser_reports_cases (c : parser_call) (p : Parser) :
  parser_reports c p = []
  \/ (recovering p = false /\ recovering (run_call c p) = true
      /\ exists d, parser_reports c p = [d]).
Proof.
  destruct c as [|s|expected err_no|follow|code|code|f|f];
    unfold parser_reports, run_call.
  - left. by rewrite advance_sem, drop_own_length.
  - left. unfold accept. destruct (symbol_eqb (S p) s); cbn [snd];
      by rewrite ?advance_sem, drop_own_length.
  - destruct (recovering p) eqn:Hrec.
    + left. by rewrite expect_in_recovery, drop_own_length.
    + rewrite expect_outside_recovery by done.
      destruct (symbol_eqb (S p) expected).
      * left. by rewrite advance_sem, drop_own_length.
      * right. split; [done|]. split; [reflexivity|].
        rewrite set_recovering_sem. cbn [err_flag_token sem set_sem].
        cbn [sem_flag err]. unfold flag_token. rewrite drop_flagged. eauto.
  - left. unfold synchronize.
    by rewrite synchronize_loop_sem, drop_own_length.
  - unfold flag_here. destruct (recovering p) eqn:Hrec; cbn [negb].
    + left. by rewrite drop_own_length.
    + right. split; [done|]. split; [reflexivity|].
      rewrite set_recovering_sem. cbn [err_flag_token sem set_sem].
      cbn [sem_flag err]. unfold flag_token. rewrite drop_flagged. eauto.
  - unfold flag_prev. destruct (recovering p) eqn:Hrec; cbn [negb].
    + left. by rewrite drop_own_length.
    + right. split; [done|]. split; [reflexivity|].
      rewrite set_recovering_sem.
      destruct (prev p); cbn [err_flag err_flag_token sem set_sem];
        cbn [sem_flag err]; unfold flag_token; rewrite drop_flagged; eauto.
  - by left.
  - by left.
Qed.


(** ** C6: the scanner and the dot *)

(** get_char and fill_buffer move the cursor only: the fields of the token
    being built and the error handler stay as they are. *)
Lemma fill_buffer_token_fields s :
  current_symbol (fill_buffer s) = current_symbol s
  /\ current_line_number (fill_buffer s) = current_line_number s
  /\ current_pos_on_line (fill_buffer s) = current_pos_on_line s
  /\ error (fill_buffer s) = error s.
Proof.
  unfold fill_buffer, get_line. simpl. by destruct (source_file s).
Qed.

Lemma get_char_token_fields s :
  current_symbol (get_char s) = current_symbol s
  /\ current_line_number (get_char s) = current_line_number s
  /\ current_pos_on_line (get_char s) = current_pos_on_line s
  /\ error (get_char s) = error s.
Proof.
  unfold get_char. destruct (_ <? _); [done|].
  apply fill_buffer_token_fields.
Qed.

Lemma scan_flag_token_fields code s :
  current_symbol (scan_flag code s) = current_symbol s
  /\ current_line_number (scan_flag code s) = current_line_number s
  /\ current_pos_on_line (scan_flag code s) = current_pos_on_line s
  /\ error (scan_flag code s) =
       flag (current_line_number s) (current_pos_on_line s) code <$> error s.
Proof.
  unfold scan_flag. destruct (error s) eqn:E; simpl; by rewrite ?E.
Qed.

Lemma skip_blanks_at_token fuel s :
  le_space (next_char s) = false ->
  at_comment s = false ->
  skip_blanks fuel s = Some s.
Proof.
  intros Hspace Hcomment. unfold skip_blanks.
  destruct fuel; simpl; by rewrite Hspace, Hcomment, andb_false_r.
Qed.

Lemma scan_special_symbol_dot fuel s :
  next_char s = "."%char ->
  scan_special_symbol fuel s =
    Some (get_char
            (if Ascii.eqb (following_char s) "."
             then get_char (set_current_symbol symbol.range_sym s)
             else scan_flag (error_code symbol.range_sym)
                    (set_current_symbol symbol.nul s))).
Proof. intros Hdot. unfold scan_special_symbol. by rewrite Hdot. Qed.

Lemma get_token_unfold fuel s :
  get_token fuel s =
    s ← skip_blanks fuel s;
    let s := begin_token s in
    if negb (eof_flag s) then
      s ← (if isalpha (next_char s) then scan_alpha fuel s
           else if isdigit (next_char s) then scan_digit fuel s
           else scan_special_symbol fuel s);
      s ← match current_symbol s with
          | symbol.pragma_sym =>
              match fuel with
              | O => None
              | Datatypes.S n => parse_pragma n (get_token n) s
              end
          | _ => Some (build_token s)
          end;
      Some (current_token s, s)
    else
      let s := set_current_token
                 (new_token symbol.end_of_program (line_number s)
                    (pos_on_line s)) s in
      Some (current_token s, s).
Proof. destruct fuel; reflexivity. Qed.

(** get_token on a dot: the range operator when a second dot follows, and
    otherwise the null token with the diagnostic 22. *)
Lemma get_token_dot fuel s :
  eof_flag s = false ->
  next_char s = "."%char ->
  exists s',
    get_token fuel s =
      Some (new_token
              (if Ascii.eqb (following_char s) "."
               then symbol.range_sym else symbol.nul)
              (line_number s) (pos_on_line s), s')
    /\ error s' =
         if Ascii.eqb (following_char s) "." then error s
         else flag (line_number s) (pos_on_line s) 22 <$> error s.
Proof.
  intros Heof Hdot.
  assert (skip_blanks fuel s = Some s) as Hskip.
  { apply skip_blanks_at_token; unfold at_comment, next_is;
      by rewrite Hdot. }
  rewrite get_token_unfold, Hskip. cbn [mbind option_bind].
  change (eof_flag (begin_token s)) with (eof_flag s).
  change (next_char (begin_token s)) with (next_char s).
  rewrite Heof, Hdot. cbn [negb].
  change (isalpha ".") with false. change (isdigit ".") with false.
  cbn iota. rewrite scan_special_symbol_dot by exact Hdot.
  change (following_char (begin_token s)) with (following_char s).
  cbn [mbind option_bind].
  destruct (Ascii.eqb (following_char s) ".").
  - set (q := get_char (get_char _)).
    assert (current_symbol q = symbol.range_sym
            /\ current_line_number q = line_number s
            /\ current_pos_on_line q = pos_on_line s
            /\ error q = error s) as (Hsym & Hline & Hpos & Herr).
    { subst q.
      destruct (get_char_token_fields
                  (get_char (set_current_symbol symbol.range_sym
                               (begin_token s)))) as (-> & -> & -> & ->).
      destruct (get_char_token_fields
                  (set_current_symbol symbol.range_sym (begin_token s)))
        as (-> & -> & -> & ->).
      done. }
    rewrite Hsym. cbn [mbind option_bind].
    exists (build_token q). unfold build_token. rewrite Hsym, Hline, Hpos.
    split; [reflexivity|exact Herr].
  - set (q := get_char _).
    assert (current_symbol q = symbol.nul
            /\ current_line_number q = line_number s
            /\ current_pos_on_line q = pos_on_line s
            /\ error q = flag (line_number s) (pos_on_line s) 22 <$> error s)
      as (Hsym & Hline & Hpos & Herr).
    { subst q.
      destruct (get_char_token_fields
                  (scan_flag (error_code symbol.range_sym)
                     (set_current_symbol symbol.nul (begin_token s))))
        as (-> & -> & -> & ->).
      destruct (scan_flag_token_fields (error_code symbol.range_sym)
                  (set_current_symbol symbol.nul (begin_token s)))
        as (-> & -> & -> & ->).
      done. }
    rewrite Hsym. cbn [mbind option_bind].
    exists (build_token q). unfold build_token. rewrite Hsym, Hline, Hpos.
    split; [reflexivity|exact Herr].
Qed.

(** scan_digit before a range: when the digits are followed by two dots,
    the number is an integer and the first dot is left for the next
    token. *)
Lemma scan_digit_before_range fuel s text s1 :
  scan_digits fuel (EmptyString, s) = Some (text, s1) ->
  next_char s1 = "."%char ->
  following_char s1 = "."%char ->
  exists s2,
    scan_digit fuel s = Some s2
    /\ current_symbol s2 = symbol.integer
    /\ next_char s2 = "."%char
    /\ following_char s2 = "."%char.
Proof.
  intros Hdigits Hdot Hnext. unfold scan_digit.
  rewrite Hdigits. cbn [mbind option_bind].
  unfold next_is. rewrite !Hdot, Hnext.
  change (Ascii.eqb "." ".") with true.
  change (Ascii.eqb "." "E") with false.
  change (Ascii.eqb "." "e") with false.
  change (isalpha ".") with false.
  cbn [andb orb negb mbind option_bind].
  rewrite !Hdot.
  change (Ascii.eqb "." "E") with false.
  change (Ascii.eqb "." "e") with false.
  cbn [andb orb negb mbind option_bind].
  rewrite Hdot. change (isalpha ".") with false. cbn iota.
  assert (forall code, next_char (scan_flag code s1) = "."%char
                       /\ following_char (scan_flag code s1) = "."%char)
    as Hflag.
  { intros code. unfold scan_flag.
    destruct (error s1); split; first [exact Hdot | exact Hnext]. }
  destruct (stoi text); eexists; (split; [reflexivity|]);
    (split; [reflexivity|]).
  - split; [exact Hdot|exact Hnext].
  - apply (Hflag 77).
Qed.

(** C6.  The source 1..10 scans as the integer 1, the range operator and
    the integer 10, then end_of_program, without a diagnostic.  Digits
    followed by two dots are an integer, and the first dot is left for the
    next token.  Wherever the scanner meets a dot at the start of a token,
    it delivers the range operator when a second dot follows at once, and
    otherwise the null token, and then reports a diagnostic (code 22) at
    the dot to its error handler; no symbol of the enumeration stands for
    a single dot. *)
Theorem lone_dot_never_a_token :
  (forall e : error_handler,
     get_tokens 4 8 (scanner_new (getlines "1..10") e) ≫=
       (fun r => Some (r.1, error r.2))
     = Some ([ set_integer_value 1 (new_token symbol.integer 1 0);
               new_token symbol.range_sym 1 1;
               set_integer_value 10 (new_token symbol.integer 1 3);
               new_token symbol.end_of_program 1 (-1) ],
             Some e))
  /\ (forall fuel s text s1,
        scan_digits fuel (EmptyString, s) = Some (text, s1) ->
        next_char s1 = "."%char ->
        following_char s1 = "."%char ->
        exists s2,
          scan_digit fuel s = Some s2
          /\ current_symbol s2 = symbol.integer
          /\ next_char s2 = "."%char
          /\ following_char s2 = "."%char)
  /\ (forall fuel s,
        eof_flag s = false ->
        next_char s = "."%char ->
        exists s',
          get_token fuel s =
            Some (new_token
                    (if Ascii.eqb (following_char s) "."
                     then symbol.range_sym else symbol.nul)
                    (line_number s) (pos_on_line s), s')
          /\ error s' =
               if Ascii.eqb (following_char s) "." then error s
               else flag (line_number s) (pos_on_line s) 22 <$> error s).
Proof.
  split; [|split].
  - intros e. vm_compute. reflexivity.
  - apply scan_digit_before_range.
  - apply get_token_dot.
Qed.

(** ** The expression grammar returns *)

Lemma tokens_left_advance_lt p :
  symbol_eqb (S p) symbol.end_of_program = false ->
  (tokens_left (advance p) < tokens_left p)%nat.
Proof.
  intros Hne. pose proof (tokens_left_pos p).
  pose proof (tokens_left_advance p (Nat.pred (tokens_left p)) Hne). lia.
Qed.

Lemma tokens_left_with_cg f p : tokens_left (with_cg f p) = tokens_left p.
Proof. reflexivity. Qed.

Lemma tokens_left_with_sem f p :
  tokens_left (with_sem f p).2 = tokens_left p.
Proof. unfold with_sem. by destruct (f (sem p)). Qed.

Lemma tokens_left_flag_here code p :
  tokens_left (flag_here code p) = tokens_left p.
Proof. unfold flag_here. by destruct (negb _). Qed.

Lemma S_flag_here code p : S (flag_here code p) = S p.
Proof. unfold flag_here. by destruct (negb _). Qed.

Lemma tokens_left_expect_skip n expected p :
  (tokens_left (expect_skip n expected p) <= tokens_left p)%nat.
Proof.
  revert p. induction n as [|n IH]; intros p; simpl; [done|].
  destruct (negb (symbol_eqb (S p) expected)); simpl; [|done].
  destruct (symbol_eqb (S p) symbol.end_of_program) eqn:Heop; simpl; [done|].
  pose proof (tokens_left_advance_lt p Heop). specialize (IH (advance p)).
  lia.
Qed.

Lemma tokens_left_advance_at (s : symbol.symbol_type) p :
  symbol_eqb (S p) s = true ->
  s <> symbol.end_of_program ->
  (tokens_left (advance p) < tokens_left p)%nat.
Proof.
  intros Hs Hne. apply tokens_left_advance_lt.
  apply symbol_eqb_eq in Hs. rewrite Hs. by apply symbol_eqb_neq.
Qed.

Lemma tokens_left_expect expected err_no p :
  expected <> symbol.end_of_program ->
  (tokens_left (expect expected err_no p) <= tokens_left p)%nat.
Proof.
  intros Hne. unfold expect. destruct (recovering p).
  - pose proof (tokens_left_expect_skip (skip_bound p) expected p) as Hskip.
    destruct (symbol_eqb _ expected) eqn:Hs; [|done].
    pose proof (tokens_left_advance_at _ _ Hs Hne) as Hlt.
    change (tokens_left (set_recovering false ?q)) with (tokens_left q).
    lia.
  - destruct (symbol_eqb (S p) expected) eqn:Hs; [|done].
    pose proof (tokens_left_advance_at _ _ Hs Hne). lia.
Qed.

(** A loop whose every turn returns with less input makes no more turns
    than there are tokens. *)
Lemma while_returns {A : Type} (size : A -> nat) (cond : A -> bool)
    (body : A -> option A) (bound fuel : nat) (st : A) :
  (forall st, cond st = true -> (2 <= size st)%nat) ->
  (forall st, cond st = true -> (size st <= bound)%nat ->
     exists st', body st = Some st' /\ (size st' < size st)%nat) ->
  (size st <= bound)%nat ->
  (size st <= Datatypes.S fuel)%nat ->
  exists st', while fuel cond body st = Some st'
              /\ (size st' <= size st)%nat.
Proof.
  intros Hcond Hbody. revert st.
  induction fuel as [|fuel IH]; intros st Hbound Hle.
  - simpl. destruct (cond st) eqn:Hc; [|eauto].
    apply Hcond in Hc. lia.
  - simpl. destruct (cond st) eqn:Hc; [|eauto].
    destruct (Hbody st Hc Hbound) as (st' & -> & Hlt). simpl.
    destruct (IH st') as (st'' & Hw & Hle''); [lia|lia|].
    exists st''. split; [done|lia].
Qed.

Lemma tokens_left_advance_flag_here code p :
  symbol_eqb (S p) symbol.end_of_program = false ->
  (tokens_left (advance (flag_here code p)) < tokens_left p)%nat.
Proof.
  intros Hne. rewrite <- (tokens_left_flag_here code p).
  apply tokens_left_advance_lt. by rewrite S_flag_here.
Qed.

Lemma call_arguments_returns fuel expr k st :
  returns_within k expr ->
  (tokens_left st.2 <= Datatypes.S k)%nat ->
  (k <= fuel)%nat ->
  exists st', call_arguments fuel expr st = Some st'
              /\ (tokens_left st'.2 <= tokens_left st.2)%nat.
Proof.
  intros Hexpr Hle Hfuel. unfold call_arguments.
  apply (while_returns (fun st => tokens_left st.2) _ _ (Datatypes.S k));
    [| |done|simpl; lia].
  - intros [n p]. unfold accept. simpl.
    destruct (symbol_eqb (S p) symbol.comma_sym) eqn:Hs; [|done].
    intros _. pose proof (tokens_left_advance_at _ _ Hs) as Hlt.
    pose proof (tokens_left_pos (advance p)).
    assert (symbol.comma_sym <> symbol.end_of_program) as Hne by done.
    specialize (Hlt Hne). lia.
  - intros [n p]. unfold accept. simpl.
    destruct (symbol_eqb (S p) symbol.comma_sym) eqn:Hs; [|done].
    intros _ Hp. simpl.
    assert (tokens_left (advance p) < tokens_left p)%nat as Hlt.
    { by apply (tokens_left_advance_at symbol.comma_sym). }
    destruct (Hexpr (advance p)) as (t & q & -> & Hq); [lia|].
    simpl. eexists. split; [reflexivity|]. simpl. lia.
Qed.

Lemma with_sem_returns f p (k : nat) :
  (tokens_left p <= k)%nat ->
  exists t q, Some (with_sem f p) = Some (t, q) /\ (tokens_left q <= k)%nat.
Proof.
  intros Hle. exists (with_sem f p).1, (with_sem f p).2.
  split; [by destruct (with_sem f p)|by rewrite tokens_left_with_sem].
Qed.

Lemma primary_with_returns fuel expr k :
  returns_within k expr ->
  (k <= fuel)%nat ->
  returns_within (Datatypes.S k) (primary_with fuel expr).
Proof.
  intros Hexpr Hfuel p Hp. unfold primary_with.
  destruct (S p) eqn:HS;
    (* the symbols that are no start of a primary *)
    try (eexists _, _; split; [reflexivity|];
         apply Nat.lt_le_incl, tokens_left_advance_flag_here;
         by rewrite HS);
    (* the symbols at which primary returns at once *)
    try (eexists _, _; split; [reflexivity|]; done);
    (* the literals *)
    try (eexists _, _; split; [reflexivity|];
         rewrite tokens_left_with_cg;
         apply Nat.lt_le_incl, tokens_left_advance_lt; by rewrite HS).
  - (* an identifier, and a call when a parenthesis follows *)
    assert (tokens_left (advance p) < tokens_left p)%nat as Hadv.
    { apply tokens_left_advance_lt. by rewrite HS. }
    unfold accept.
    destruct (symbol_eqb (S (advance p)) symbol.left_paren_sym) eqn:Hparen.
    + set (p2 := with_cg gen_call_start (advance (advance p))).
      assert (tokens_left p2 < tokens_left (advance p))%nat as Hp2.
      { by apply (tokens_left_advance_at symbol.left_paren_sym). }
      assert (exists st,
                (if negb (symbol_eqb (S p2) symbol.right_paren_sym)
                 then expr p2 ≫=
                        (fun r => call_arguments fuel expr (0 + 1, r.2))
                 else Some (0, p2)) = Some st
                /\ (tokens_left st.2 <= tokens_left p2)%nat)
        as (st & -> & Hst).
      { destruct (negb _); [|eauto].
        destruct (Hexpr p2) as (t & r & -> & Hr); [lia|]. simpl.
        destruct (call_arguments_returns fuel expr k (0 + 1, r) Hexpr)
          as (st & -> & Hst); [simpl; lia|done|].
        exists st. split; [done|]. simpl in Hst. lia. }
      destruct st as [arg_count p3]. simpl in Hst. simpl.
      apply with_sem_returns. rewrite tokens_left_with_cg.
      pose proof (tokens_left_expect symbol.right_paren_sym
                    (error_code symbol.right_paren_sym) p3) as Hexp.
      assert (symbol.right_paren_sym <> symbol.end_of_program) as Hne
        by done.
      specialize (Hexp Hne). lia.
    + apply with_sem_returns. rewrite tokens_left_with_cg. lia.
  - (* an expression in parentheses *)
    assert (tokens_left (advance p) < tokens_left p)%nat as Hadv.
    { apply tokens_left_advance_lt. by rewrite HS. }
    destruct (Hexpr (advance p)) as (t & q & -> & Hq); [lia|]. simpl.
    eexists _, _. split; [reflexivity|].
    pose proof (tokens_left_expect symbol.right_paren_sym
                  (error_code symbol.right_paren_sym) q) as Hexp.
    assert (symbol.right_paren_sym <> symbol.end_of_program) as Hne by done.
    specialize (Hexp Hne). lia.
Qed.

Lemma tokens_left_at (s : symbol.symbol_type) p :
  symbol_eqb (S p) s = true ->
  s <> symbol.end_of_program ->
  (2 <= tokens_left p)%nat.
Proof.
  intros Hs Hne. pose proof (tokens_left_advance_at s p Hs Hne).
  pose proof (tokens_left_pos (advance p)). lia.
Qed.

Lemma factor_with_returns primary k :
  returns_within k primary -> returns_within k (factor_with primary).
Proof.
  intros Hprimary p Hp. unfold factor_with.
  destruct (symbol_eqb (S p) symbol.plus_sym
            || symbol_eqb (S p) symbol.minus_sym
            || symbol_eqb (S p) symbol.not_sym
            || symbol_eqb (S p) symbol.odd_sym) eqn:Hunary.
  - assert (tokens_left (advance p) < tokens_left p)%nat as Hadv.
    { apply tokens_left_advance_lt.
      destruct (S p); try discriminate Hunary; reflexivity. }
    destruct (Hprimary (advance p)) as (base & q & -> & Hq); [lia|]. simpl.
    destruct (symbol_eqb (S p) symbol.odd_sym).
    { eexists _, _. split; [reflexivity|]. rewrite tokens_left_with_cg. lia. }
    destruct (symbol_eqb (S p) symbol.not_sym).
    { apply with_sem_returns. rewrite tokens_left_with_cg. lia. }
    apply with_sem_returns.
    destruct (symbol_eqb (S p) symbol.minus_sym);
      rewrite ?tokens_left_with_cg; lia.
  - destruct (Hprimary p Hp) as (base & q & -> & Hq). simpl.
    destruct (symbol_eqb (S q) symbol.power_sym) eqn:Hpower; [|eauto].
    assert (tokens_left (advance q) < tokens_left q)%nat as Hadv.
    { by apply (tokens_left_advance_at symbol.power_sym). }
    destruct (Hprimary (advance q)) as (exp & q' & -> & Hq'); [lia|]. simpl.
    apply with_sem_returns. rewrite tokens_left_with_cg. lia.
Qed.

(** One turn of the loops of term and simple_expr: an operator, an
    operand, the instruction of the operator and its check. *)
Lemma operator_turn_returns (operand : Parser -> parse_result)
    (emit_op : symbol.symbol_type -> Parser -> Parser) k
    (result : lille_ty) (p : Parser) :
  returns_within k operand ->
  (forall op q, tokens_left (emit_op op q) = tokens_left q) ->
  symbol_eqb (S p) symbol.end_of_program = false ->
  (tokens_left p <= k)%nat ->
  exists st',
    (let op_tok := look p in
     let op := S p in
     let p := advance p in
     '(right_, p) ← operand p;
     let p := emit_op op p in
     Some (with_sem (check_binary result op right_ op_tok) p)) = Some st'
    /\ (tokens_left st'.2 < tokens_left p)%nat.
Proof.
  intros Hoperand Hemit Hop Hp. cbv zeta.
  pose proof (tokens_left_advance_lt p Hop) as Hadv.
  destruct (Hoperand (advance p)) as (t & q & -> & Hq); [lia|]. simpl.
  eexists. split; [reflexivity|].
  rewrite tokens_left_with_sem, Hemit. lia.
Qed.

Lemma term_with_returns fuel factor k :
  returns_within k factor ->
  (k <= Datatypes.S fuel)%nat ->
  returns_within k (term_with fuel factor).
Proof.
  intros Hfactor Hfuel p Hp. unfold term_with.
  destruct (Hfactor p Hp) as (t & q & -> & Hq). cbn [mbind option_bind].
  match goal with
  | |- context [while fuel ?cond ?body ?st] =>
      destruct (while_returns (fun r : lille_ty * Parser => tokens_left r.2)
                  cond body k fuel st) as ([t' q'] & Hloop & Hq')
  end; [| |simpl; lia|simpl; lia|].
  - intros [result r]. cbn [snd]. intros Hop.
    apply orb_true_iff in Hop as [Hop|Hop];
      [apply orb_true_iff in Hop as [Hop|Hop]|];
      (eapply tokens_left_at; [exact Hop|done]).
  - intros [result r]. cbn [snd]. intros Hop Hr.
    apply (operator_turn_returns factor
             (fun op q =>
                match op with
                | symbol.asterisk_sym => with_cg gen_multiply q
                | symbol.slash_sym => with_cg gen_divide q
                | symbol.and_sym => with_cg gen_and q
                | _ => q
                end) k); [done| |destruct (S r); done|done].
    intros op q0. by destruct op.
  - rewrite Hloop. exists t', q'. split; [done|]. simpl in Hq'. lia.
Qed.

Lemma simple_expr_with_returns fuel term k :
  returns_within k term ->
  (k <= Datatypes.S fuel)%nat ->
  returns_within k (simple_expr_with fuel term).
Proof.
  intros Hterm Hfuel p Hp. unfold simple_expr_with.
  (* the loop, from a state with no more input than [p] *)
  assert (forall st : lille_ty * Parser,
            (tokens_left st.2 <= tokens_left p)%nat ->
            exists t q,
              while fuel
                (fun r => symbol_eqb (S r.2) symbol.plus_sym
                          || symbol_eqb (S r.2) symbol.minus_sym
                          || symbol_eqb (S r.2) symbol.or_sym
                          || symbol_eqb (S r.2) symbol.ampersand_sym)
                (fun r =>
                   let '(result, p) := r in
                   let op_tok := look p in
                   let op := S p in
                   let p := advance p in
                   '(right_, p) ← term p;
                   let p :=
                     match op with
                     | symbol.plus_sym => with_cg gen_add p
                     | symbol.minus_sym => with_cg gen_subtract p
                     | symbol.or_sym => with_cg gen_or p
                     | symbol.ampersand_sym => with_cg gen_concat p
                     | _ => p
                     end in
                   Some (with_sem (check_binary result op right_ op_tok) p))
                st = Some (t, q)
              /\ (tokens_left q <= tokens_left p)%nat) as Hloop.
  { intros st Hst.
    match goal with
    | |- context [while fuel ?cond ?body ?st] =>
        destruct (while_returns
                    (fun r : lille_ty * Parser => tokens_left r.2)
                    cond body k fuel st) as ([t' q'] & Hloop & Hq')
    end; [| |lia|lia|].
    - intros [result r]. cbn [snd]. intros Hop.
      repeat (apply orb_true_iff in Hop as [Hop|Hop]);
        (eapply tokens_left_at; [exact Hop|done]).
    - intros [result r]. cbn [snd]. intros Hop Hr.
      apply (operator_turn_returns term
               (fun op q =>
                  match op with
                  | symbol.plus_sym => with_cg gen_add q
                  | symbol.minus_sym => with_cg gen_subtract q
                  | symbol.or_sym => with_cg gen_or q
                  | symbol.ampersand_sym => with_cg gen_concat q
                  | _ => q
                  end) k); [done| |destruct (S r); done|done].
      intros op q0. by destruct op.
    - exists t', q'. split; [done|]. simpl in Hq'. lia. }
  destruct (symbol_eqb (S p) symbol.plus_sym
            || symbol_eqb (S p) symbol.minus_sym) eqn:Hunary;
    lazy beta iota zeta.
  - assert (tokens_left (advance p) < tokens_left p)%nat as Hadv.
    { apply tokens_left_advance_lt.
      destruct (S p); try discriminate Hunary; reflexivity. }
    destruct (Hterm (advance p)) as (t & q & -> & Hq); [lia|].
    cbn [mbind option_bind]. lazy beta iota zeta.
    pose proof (tokens_left_with_sem
                  (check_unary (S p) t (prev_token q)) q) as Hsem.
    destruct (with_sem _ q) as [t' q']. simpl in Hsem.
    lazy beta iota zeta. apply Hloop. cbn [snd].
    destruct (symbol_eqb (S p) symbol.minus_sym);
      rewrite ?tokens_left_with_cg; lia.
  - destruct (Hterm p Hp) as (t & q & -> & Hq).
    cbn [mbind option_bind]. lazy beta iota zeta. by apply Hloop.
Qed.

Lemma expr_with_returns simple_expr k :
  returns_within k simple_expr -> returns_within k (expr_with simple_expr).
Proof.
  intros Hsimple p Hp. unfold expr_with.
  destruct (Hsimple p Hp) as (t & q & -> & Hq).
  cbn [mbind option_bind]. lazy beta iota zeta.
  destruct (is_comparison_op (S q)) eqn:Hop; [|eauto].
  assert (tokens_left (advance q) < tokens_left q)%nat as Hadv.
  { apply tokens_left_advance_lt.
    destruct (S q); try discriminate Hop; reflexivity. }
  destruct (Hsimple (advance q)) as (t' & q' & -> & Hq'); [lia|].
  cbn [mbind option_bind]. lazy beta iota zeta.
  apply with_sem_returns. rewrite tokens_left_with_cg. lia.
Qed.

(** The expression functions return, given fuel for the tokens left. *)
Lemma expr_returns (fuel : nat) : returns_within fuel (expr fuel).
Proof.
  induction fuel as [|fuel IH].
  - intros p Hp. pose proof (tokens_left_pos p). lia.
  - cbn [expr]. apply expr_with_returns.
    apply simple_expr_with_returns; [|lia].
    apply term_with_returns; [|lia].
    apply factor_with_returns.
    by apply primary_with_returns.
Qed.

Lemma primary_returns (fuel : nat) :
  returns_within (Datatypes.S fuel) (primary fuel).
Proof. apply primary_with_returns; [apply expr_returns|done]. Qed.

(** ** C7: unary operators *)

Lemma factor_unary_operand fuel p :
  symbol_eqb (S p) symbol.end_of_program = false ->
  (tokens_left p <= Datatypes.S fuel)%nat ->
  exists base q, primary fuel (advance p) = Some (base, q).
Proof.
  intros Hne Hp. pose proof (tokens_left_advance_lt p Hne).
  destruct (primary_returns fuel (advance p)) as (base & q & Hq & _); [lia|].
  eauto.
Qed.

(** C7 (as the code has it).  In a factor, with fuel for the tokens left:
    odd applied to an operand gives boolean whatever the type of the
    operand, and adds nothing to the error handler after the operand is
    parsed; not and the unary signs hand the type of the operand to
    check_unary.  check_unary gives boolean for not on a boolean, and the
    type of the operand for a sign on an integer or a real; on any other
    operand it reports 120 (boolean expected), respectively 116 (arithmetic
    expected), and gives unknown. *)
Theorem unary_operator_typing :
  (forall fuel p,
     S p = symbol.odd_sym ->
     (tokens_left p <= Datatypes.S fuel)%nat ->
     exists base q,
       primary fuel (advance p) = Some (base, q)
       /\ factor fuel p = Some (type_boolean, with_cg gen_odd q)
       /\ sem (with_cg gen_odd q) = sem q)
  /\ (forall fuel p,
        S p = symbol.not_sym ->
        (tokens_left p <= Datatypes.S fuel)%nat ->
        exists base q,
          primary fuel (advance p) = Some (base, q)
          /\ factor fuel p =
               Some (with_sem (check_unary symbol.not_sym base (prev_token q))
                       (with_cg gen_not q)))
  /\ (forall fuel p,
        S p = symbol.plus_sym \/ S p = symbol.minus_sym ->
        (tokens_left p <= Datatypes.S fuel)%nat ->
        exists base q,
          primary fuel (advance p) = Some (base, q)
          /\ factor fuel p =
               Some (with_sem (check_unary (S p) base (prev_token q))
                       (if symbol_eqb (S p) symbol.minus_sym
                        then with_cg gen_negate q else q)))
  /\ (forall T w s,
        check_unary symbol.not_sym T w s =
          if bool_decide (T = type_boolean) then (type_boolean, s)
          else (type_unknown, sem_flag w 120 s))
  /\ (forall op T w s,
        op = symbol.plus_sym \/ op = symbol.minus_sym ->
        check_unary op T w s =
          if bool_decide (T = type_integer) || bool_decide (T = type_real)
          then (T, s)
          else (type_unknown, sem_flag w 116 s)).
Proof.
  split; [|split; [|split; [|split]]].
  - intros fuel p HS Hp.
    destruct (factor_unary_operand fuel p) as (base & q & Hq);
      [by rewrite HS|done|].
    exists base, q. split; [done|]. split; [|reflexivity].
    unfold factor, factor_with. rewrite HS, Hq. reflexivity.
  - intros fuel p HS Hp.
    destruct (factor_unary_operand fuel p) as (base & q & Hq);
      [by rewrite HS|done|].
    exists base, q. split; [done|].
    unfold factor, factor_with. rewrite HS, Hq. reflexivity.
  - intros fuel p HS Hp.
    destruct (factor_unary_operand fuel p) as (base & q & Hq);
      [by destruct HS as [-> | ->]|done|].
    exists base, q. split; [done|].
    unfold factor, factor_with. rewrite Hq.
    destruct HS as [-> | ->]; reflexivity.
  - intros T w s. reflexivity.
  - intros op T w s [-> | ->]; reflexivity.
Qed.

(** ** The symbol table and its records *)

Ltac case_if :=
  match goal with |- context [if ?b then _ else _] => destruct b end.

Lemma scopes_snoc (t : id_table) cur :
  back t = Some cur -> scopes t = removelast (scopes t) ++ [cur].
Proof.
  unfold back. intros [l' ->]%last_Some.
  by rewrite removelast_last.
Qed.

Lemma lookup_snoc_cases {A} (l : list A) (x y : A) (i : nat) :
  (l ++ [x]) !! i = Some y ->
  (l !! i = Some y /\ (i < length l)%nat) \/ (i = length l /\ y = x).
Proof.
  intros Hl. apply lookup_app_Some in Hl as [Hl|[Hlen Hl]].
  - left. split; [done|by apply lookup_lt_Some in Hl].
  - apply list_lookup_singleton_Some in Hl as [Hi ->].
    right. split; [lia|done].
Qed.

Lemma table_ok_new : table_ok id_table_new.
Proof.
  unfold table_ok, id_table_new. cbn [scopes store].
  split; [done|]. split; [|split].
  - intros i frame name r Hi Hf.
    apply list_lookup_singleton_Some in Hi as [_ <-]. by rewrite lookup_empty in Hf.
  - intros i j f g n m r Hi _ Hf.
    apply list_lookup_singleton_Some in Hi as [_ <-]. by rewrite lookup_empty in Hf.
  - intros r [x Hx]. by rewrite lookup_empty in Hx.
Qed.

Lemma table_ok_open_scope t : table_ok t -> table_ok (open_scope t).
Proof.
  intros (Hne & Hlive & Hinj & Hreach). unfold table_ok, open_scope.
  cbn [scopes store]. split; [by destruct (scopes t)|]. split; [|split].
  - intros i frame name r Hi Hf.
    apply lookup_snoc_cases in Hi as [[Hi _]|[_ ->]]; [by eapply Hlive|].
    by rewrite lookup_empty in Hf.
  - intros i j f g n m r Hi Hj Hf Hg.
    apply lookup_snoc_cases in Hi as [[Hi _]|[_ ->]];
      [|by rewrite lookup_empty in Hf].
    apply lookup_snoc_cases in Hj as [[Hj _]|[_ ->]];
      [|by rewrite lookup_empty in Hg].
    by eapply Hinj.
  - intros r Hr. destruct (Hreach r Hr) as (i & frame & name & Hi & Hf).
    exists i, frame, name. split; [|done].
    by apply lookup_app_l_Some.
Qed.

Lemma elem_of_frame_records (frame : gmap string N) (r : N) :
  r ∈ frame_records frame <-> exists name, frame !! name = Some r.
Proof.
  unfold frame_records. rewrite list_elem_of_fmap. split.
  - intros [[name r'] [-> Hin]]. exists name. by apply elem_of_map_to_list.
  - intros [name Hf]. exists (name, r). split; [done|].
    by apply elem_of_map_to_list.
Qed.

Lemma table_ok_close_scope t : table_ok t -> table_ok (close_scope t).
Proof.
  intros Hok. destruct (decide (length (scopes t) <= 1)%nat) as [Hle|Hgt].
  { by rewrite close_scope_global. }
  destruct Hok as (Hne & Hlive & Hinj & Hreach).
  destruct (last_is_Some (scopes t) Hne) as [top Htop].
  rewrite (close_scope_pop t top) by (done || lia).
  pose proof (scopes_snoc t top Htop) as Hsc.
  set (init := removelast (scopes t)) in *.
  assert (Hlast : scopes t !! length init = Some top).
  { rewrite Hsc. by rewrite list_lookup_middle. }
  assert (Hinit : forall i frame, init !! i = Some frame ->
            scopes t !! i = Some frame /\ i <> length init).
  { intros i frame Hi. split.
    - rewrite Hsc. by apply lookup_app_l_Some.
    - apply lookup_lt_Some in Hi. lia. }
  unfold table_ok. cbn [scopes store]. split.
  { apply removelast_not_nil. lia. }
  split; [|split].
  - intros i frame name r Hi Hf. destruct (Hinit i frame Hi) as [Hi' Hne'].
    destruct (Hlive i frame name r Hi' Hf) as (rec & Hrec & Hname).
    exists rec. split; [|done]. rewrite delete_records_lookup.
    rewrite bool_decide_eq_false_2; [done|].
    intros [m Hm]%elem_of_frame_records.
    destruct (Hinj _ _ _ _ _ _ _ Hi' Hlast Hf Hm) as [Hij _]. by apply Hne'.
  - intros i j f g n m r Hi Hj Hf Hg.
    destruct (Hinit i f Hi) as [Hi' _]. destruct (Hinit j g Hj) as [Hj' _].
    by eapply Hinj.
  - intros r [x Hx]. rewrite delete_records_lookup in Hx.
    case_bool_decide as Hin; [done|].
    destruct (Hreach r (ltac:(eauto))) as (i & frame & name & Hi & Hf).
    rewrite Hsc in Hi. apply lookup_snoc_cases in Hi as [[Hi _]|[_ ->]].
    + by exists i, frame, name.
    + exfalso. apply Hin. apply elem_of_frame_records. by exists name.
Qed.

Lemma fresh_not_live (st : gmap N record) : st !! fresh (dom st) = None.
Proof. apply not_elem_of_dom. apply is_fresh. Qed.

(** enter on a name the current frame lacks. *)
Lemma enter_new name t cur :
  back t = Some cur -> cur !! name = None ->
  enter name t =
    (fresh (dom (store t)),
     mk_id_table (<[fresh (dom (store t)) := new_record name]> (store t))
                 (removelast (scopes t) ++ [<[name := fresh (dom (store t))]> cur])).
Proof. intros Hb Hc. unfold enter. by rewrite Hb, Hc. Qed.

Lemma enter_old name t cur r :
  back t = Some cur -> cur !! name = Some r -> enter name t = (r, t).
Proof. intros Hb Hc. unfold enter. by rewrite Hb, Hc. Qed.

Lemma table_ok_enter name t : table_ok t -> table_ok (enter name t).2.
Proof.
  intros Hok. pose proof Hok as (Hne & Hlive & Hinj & Hreach).
  destruct (last_is_Some (scopes t) Hne) as [cur Hcur].
  destruct (cur !! name) as [r|] eqn:Hc.
  { by rewrite (enter_old name t cur r). }
  rewrite (enter_new name t cur) by done. cbn [snd].
  pose proof (scopes_snoc t cur Hcur) as Hsc.
  set (init := removelast (scopes t)) in *.
  set (a := fresh (dom (store t))).
  assert (Ha : store t !! a = None) by apply fresh_not_live.
  assert (Hlast : scopes t !! length init = Some cur).
  { rewrite Hsc. by rewrite list_lookup_middle. }
  assert (Hinit : forall i frame, init !! i = Some frame ->
            scopes t !! i = Some frame).
  { intros i frame Hi. rewrite Hsc. by apply lookup_app_l_Some. }
  assert (Hold : forall i frame n r, scopes t !! i = Some frame ->
            frame !! n = Some r -> r <> a).
  { intros i frame n r Hi Hf ->.
    destruct (Hlive i frame n a Hi Hf) as (rec & Hrec & _). congruence. }
  unfold table_ok. cbn [scopes store].
  split; [by destruct init|]. split; [|split].
  - intros i frame n r Hi Hf.
    apply lookup_snoc_cases in Hi as [[Hi _]|[_ ->]].
    + destruct (Hlive i frame n r (Hinit _ _ Hi) Hf) as (rec & Hrec & Hname).
      exists rec. split; [|done].
      rewrite lookup_insert_ne; [done|]. intros <-. congruence.
    + destruct (decide (n = name)) as [->|Hn].
      * rewrite lookup_insert_eq in Hf. injection Hf as <-.
        exists (new_record name). by rewrite lookup_insert_eq.
      * rewrite lookup_insert_ne in Hf by done.
        destruct (Hlive _ cur n r Hlast Hf) as (rec & Hrec & Hname).
        exists rec. split; [|done].
        rewrite lookup_insert_ne; [done|]. intros <-. congruence.
  - assert (Hcase : forall i f n r,
              (init ++ [<[name := a]> cur]) !! i = Some f -> f !! n = Some r ->
              (r = a /\ i = length init /\ n = name)
              \/ (r <> a /\ exists f', scopes t !! i = Some f' /\ f' !! n = Some r)).
    { intros i f n r Hi Hf.
      apply lookup_snoc_cases in Hi as [[Hi _]|[-> ->]].
      - right. split; [by eapply Hold; [apply Hinit|]|].
        exists f. split; [by apply Hinit|done].
      - destruct (decide (n = name)) as [->|Hn].
        + rewrite lookup_insert_eq in Hf. injection Hf as <-. by left.
        + rewrite lookup_insert_ne in Hf by done. right.
          split; [by eapply Hold|]. by exists cur. }
    intros i j f g n m r Hi Hj Hf Hg.
    destruct (Hcase i f n r Hi Hf) as [(-> & -> & ->)|(Hr & f' & Hi' & Hf')];
      destruct (Hcase j g m _ Hj Hg) as [(Hr2 & -> & ->)|(Hr2 & g' & Hj' & Hg')];
      try done.
    by eapply Hinj.
  - intros r [x Hx]. destruct (decide (r = a)) as [->|Hr].
    + exists (length init), (<[name := a]> cur), name.
      split; [by rewrite list_lookup_middle|by rewrite lookup_insert_eq].
    + rewrite lookup_insert_ne in Hx by done.
      destruct (Hreach r (ltac:(eauto))) as (i & frame & n & Hi & Hf).
      rewrite Hsc in Hi. apply lookup_snoc_cases in Hi as [[Hi Hlt]|[-> ->]].
      * exists i, frame, n. split; [by apply lookup_app_l_Some|done].
      * exists (length init), (<[name := a]> cur), n.
        split; [by rewrite list_lookup_middle|].
        rewrite lookup_insert_ne; [done|]. intros <-. congruence.
Qed.

Lemma table_ok_alter (f : record -> record) (a : N) t :
  (forall r, get_name (f r) = get_name r) ->
  table_ok t -> table_ok (mk_id_table (alter f a (store t)) (scopes t)).
Proof.
  intros Hf (Hne & Hlive & Hinj & Hreach). unfold table_ok.
  cbn [scopes store]. split; [done|]. split; [|split].
  - intros i frame name r Hi Hfr.
    destruct (Hlive i frame name r Hi Hfr) as (rec & Hrec & Hname).
    destruct (decide (r = a)) as [->|Hr].
    + exists (f rec). rewrite lookup_alter_eq, Hrec. by rewrite Hf.
    + exists rec. by rewrite lookup_alter_ne.
  - done.
  - intros r [x Hx]. apply Hreach.
    destruct (decide (r = a)) as [->|Hr].
    + rewrite lookup_alter_eq in Hx. destruct (store t !! a); [eauto|done].
    + rewrite lookup_alter_ne in Hx by done. eauto.
Qed.

Lemma table_ok_rec_set_type a ty t : table_ok t -> table_ok (rec_set_type a ty t).
Proof. by apply table_ok_alter. Qed.

Lemma table_ok_rec_set_kind a k t : table_ok t -> table_ok (rec_set_kind a k t).
Proof. by apply table_ok_alter. Qed.

Lemma lookup_frames_Some (frames : list (gmap string N)) name r :
  lookup_frames frames name = Some r ->
  exists i frame, frames !! i = Some frame /\ frame !! name = Some r.
Proof.
  induction frames as [|f frames IH]; [done|]. cbn [lookup_frames].
  destruct (f !! name) as [r'|] eqn:Hf.
  - intros [= ->]. by exists 0%nat, f.
  - intros Hr. destruct (IH Hr) as (i & frame & Hi & Hfr).
    by exists (Datatypes.S i), frame.
Qed.

Lemma lookup_scopes name t r :
  lookup name t = Some r ->
  exists i frame, scopes t !! i = Some frame /\ frame !! name = Some r.
Proof.
  unfold lookup. intros (i & frame & Hi & Hf)%lookup_frames_Some.
  apply reverse_lookup_Some in Hi as [Hi _]. eauto.
Qed.

(** Looking up after the current frame was replaced: the current frame is
    asked first. *)
Lemma lookup_snoc (init : list (gmap string N)) cur name sc' :
  lookup name (mk_id_table sc' (init ++ [cur])) =
    match cur !! name with
    | Some r => Some r
    | None => lookup_frames (reverse init) name
    end.
Proof. unfold lookup. cbn [scopes]. by rewrite reverse_snoc. Qed.

Lemma lookup_local_snoc (init : list (gmap string N)) cur name sc' :
  lookup_local name (mk_id_table sc' (init ++ [cur])) = cur !! name.
Proof. unfold lookup_local, back. cbn [scopes]. by rewrite last_snoc. Qed.

Lemma table_ok_declare (k : lille_kind.lille_kind) name ty t :
  table_ok t ->
  table_ok
    (rec_set_type (enter name t).1 ty
       (rec_set_kind (enter name t).1 k (enter name t).2)).
Proof.
  intros Hok. apply table_ok_rec_set_type, table_ok_rec_set_kind.
  by apply table_ok_enter.
Qed.

Lemma sem_flag_id_tab w code s : id_tab (sem_flag w code s) = id_tab s.
Proof. done. Qed.

Lemma declare_var_id_tab name ty w s :
  id_tab (declare_var name ty w s) =
    match lookup_local name (id_tab s) with
    | Some _ => id_tab s
    | None =>
        rec_set_type (enter name (id_tab s)).1 ty
          (rec_set_kind (enter name (id_tab s)).1 lille_kind.variable
             (enter name (id_tab s)).2)
    end.
Proof.
  unfold declare_var. destruct (lookup_local name (id_tab s)); [done|].
  by destruct (enter name (id_tab s)).
Qed.

Lemma declare_const_id_tab name ty w s :
  id_tab (declare_const name ty w s) =
    match lookup_local name (id_tab s) with
    | Some _ => id_tab s
    | None =>
        rec_set_type (enter name (id_tab s)).1 ty
          (rec_set_kind (enter name (id_tab s)).1 lille_kind.constant
             (enter name (id_tab s)).2)
    end.
Proof.
  unfold declare_const. destruct (lookup_local name (id_tab s)); [done|].
  by destruct (enter name (id_tab s)).
Qed.

Lemma install_builtin_id_tab name s :
  id_tab (install_builtin name s) =
    rec_set_type (enter name (id_tab s)).1 type_func (enter name (id_tab s)).2.
Proof. unfold install_builtin. by destruct (enter name (id_tab s)). Qed.

(** The calls that only consult the table leave it as it is. *)
Lemma lookup_type_id_tab name w s : id_tab (lookup_type name w s).2 = id_tab s.
Proof.
  unfold lookup_type. repeat (destruct (String.eqb _ _); [done|]).
  destruct (lookup name (id_tab s)); [|done]. by destruct (deref _ s).
Qed.

Lemma check_assignment_id_tab name rhs w s :
  id_tab (check_assignment name rhs w s) = id_tab s.
Proof.
  unfold check_assignment. destruct (lookup name (id_tab s)); [|done].
  destruct (deref _ s); [|done].
  repeat (match goal with |- context [if ?b then _ else _] => destruct b end);
    done.
Qed.

Lemma check_binary_id_tab L op R w s :
  id_tab (check_binary L op R w s).2 = id_tab s.
Proof.
  unfold check_binary.
  repeat (match goal with |- context [if ?b then _ else _] => destruct b end);
    done.
Qed.

Lemma check_unary_id_tab op T w s : id_tab (check_unary op T w s).2 = id_tab s.
Proof.
  unfold check_unary.
  repeat (match goal with |- context [if ?b then _ else _] => destruct b end);
    done.
Qed.

Lemma require_boolean_id_tab T w s : id_tab (require_boolean T w s) = id_tab s.
Proof.
  unfold require_boolean.
  repeat (match goal with |- context [if ?b then _ else _] => destruct b end);
    done.
Qed.

Lemma table_ok_install_builtins s :
  table_ok (id_tab s) -> table_ok (id_tab (install_builtins s)).
Proof.
  intros Hok. unfold install_builtins.
  repeat (rewrite install_builtin_id_tab;
          apply table_ok_rec_set_type, table_ok_enter).
  done.
Qed.

Lemma table_ok_run_sem_call c s :
  table_ok (id_tab s) -> table_ok (id_tab (run_sem_call c s)).
Proof.
  intros Hok. destruct c; cbn [run_sem_call].
  - rewrite declare_var_id_tab. destruct (lookup_local _ _); [done|].
    by apply table_ok_declare.
  - rewrite declare_const_id_tab. destruct (lookup_local _ _); [done|].
    by apply table_ok_declare.
  - by rewrite lookup_type_id_tab.
  - by rewrite check_assignment_id_tab.
  - by apply table_ok_open_scope.
  - by apply table_ok_close_scope.
  - by rewrite check_binary_id_tab.
  - by rewrite check_unary_id_tab.
  - by rewrite require_boolean_id_tab.
  - by apply table_ok_install_builtins.
Qed.

Lemma table_ok_run_sem_calls calls s :
  table_ok (id_tab s) -> table_ok (id_tab (run_sem_calls calls s)).
Proof.
  revert s. induction calls as [|c calls IH]; intros s Hok; [done|].
  cbn [run_sem_calls foldl]. apply IH. by apply table_ok_run_sem_call.
Qed.

(** X1.  The analyzer never leaves a dangling, mislabelled or leaked
    record.  After every sequence of calls of its public methods on a
    fresh table (declarations, lookups, checks, scopes opened and closed,
    the builtins installed), a name that lookup finds is found at a live
    record that carries the name, so that lookup_type and check_assignment
    never read a deleted record; and every live record is still pointed to
    by a frame, under its own name. *)
Theorem analyzer_pointers_stay_valid (e : error_handler)
    (calls : list sem_call) :
  (forall name r,
     lookup name (id_tab (run_sem_calls calls (mk_semantics id_table_new e)))
       = Some r ->
     exists rec,
       deref r (run_sem_calls calls (mk_semantics id_table_new e)) = Some rec
       /\ get_name rec = name)
  /\ (forall a rec,
        deref a (run_sem_calls calls (mk_semantics id_table_new e)) = Some rec ->
        exists i frame,
          scopes (id_tab (run_sem_calls calls (mk_semantics id_table_new e)))
            !! i = Some frame
          /\ frame !! get_name rec = Some a).
Proof.
  assert (Hok : table_ok
            (id_tab (run_sem_calls calls (mk_semantics id_table_new e)))).
  { apply table_ok_run_sem_calls. apply table_ok_new. }
  destruct Hok as (_ & Hlive & _ & Hreach). split.
  - intros name r Hl. apply lookup_scopes in Hl as (i & frame & Hi & Hf).
    exact (Hlive i frame name r Hi Hf).
  - intros a rec Ha. unfold deref in Ha.
    destruct (Hreach a (ltac:(eauto))) as (i & frame & name & Hi & Hf).
    exists i, frame. split; [done|].
    destruct (Hlive i frame name a Hi Hf) as (rec' & Hrec' & Hname).
    rewrite Ha in Hrec'. injection Hrec' as <-. by rewrite Hname.
Qed.

Lemma lookup_cur name t cur :
  back t = Some cur ->
  lookup name t =
    match cur !! name with
    | Some r => Some r
    | None => lookup_frames (reverse (removelast (scopes t))) name
    end.
Proof.
  unfold back, lookup. intros [l' ->]%last_Some.
  by rewrite removelast_last, reverse_snoc.
Qed.

(** X2.  enter and the lookups agree.  On a table that has a frame, the
    record enter returns for a name is the one lookup_local and lookup
    find afterwards; the other names are found where they were; the frames
    under the current one are untouched; and a second enter of the name
    returns the same record and changes nothing. *)
Theorem enter_then_lookup (name : string) (t : id_table) :
  scopes t <> [] ->
  lookup_local name (enter name t).2 = Some (enter name t).1
  /\ lookup name (enter name t).2 = Some (enter name t).1
  /\ (forall other,
        other <> name ->
        lookup_local other (enter name t).2 = lookup_local other t
        /\ lookup other (enter name t).2 = lookup other t)
  /\ removelast (scopes (enter name t).2) = removelast (scopes t)
  /\ enter name (enter name t).2 = enter name t.
Proof.
  intros Hne. destruct (last_is_Some (scopes t) Hne) as [cur Hcur].
  destruct (cur !! name) as [r|] eqn:Hc.
  - rewrite (enter_old name t cur r) by done. cbn [fst snd].
    assert (Hloc : lookup_local name t = Some r).
    { unfold lookup_local, back. by rewrite Hcur. }
    split; [done|]. split; [by rewrite (lookup_cur name t cur), Hc|].
    split; [done|]. split; [done|]. by apply enter_old with cur.
  - rewrite (enter_new name t cur) by done. cbn [fst snd].
    set (a := fresh (dom (store t))).
    split; [by rewrite lookup_local_snoc, lookup_insert_eq|].
    split; [by rewrite lookup_snoc, lookup_insert_eq|].
    split; [|split].
    + intros other Hother.
      rewrite lookup_local_snoc, lookup_snoc.
      rewrite lookup_insert_ne by done.
      rewrite (lookup_cur other t cur) by done.
      unfold lookup_local, back. by rewrite Hcur.
    + cbn [scopes]. by rewrite removelast_last.
    + apply enter_old with (<[name := a]> cur).
      * unfold back. cbn [scopes]. by rewrite last_snoc.
      * by rewrite lookup_insert_eq.
Qed.

(** What a declaration leaves at its name, on a frame that lacked it. *)
Lemma declare_record (k : lille_kind.lille_kind) name ty (t : id_table) :
  scopes t <> [] -> lookup_local name t = None ->
  let t' := rec_set_type (enter name t).1 ty
              (rec_set_kind (enter name t).1 k (enter name t).2) in
  lookup_local name t' = Some (enter name t).1
  /\ lookup name t' = Some (enter name t).1
  /\ store t' !! (enter name t).1 = Some (mk_record name ty k).
Proof.
  intros Hne Hloc. destruct (last_is_Some (scopes t) Hne) as [cur Hcur].
  assert (Hc : cur !! name = None).
  { unfold lookup_local, back in Hloc. by rewrite Hcur in Hloc. }
  rewrite (enter_new name t cur) by done. cbn [fst snd].
  unfold rec_set_type, rec_set_kind. cbn [scopes store].
  split; [by rewrite lookup_local_snoc, lookup_insert_eq|].
  split; [by rewrite lookup_snoc, lookup_insert_eq|].
  by rewrite !lookup_alter_eq, lookup_insert_eq.
Qed.

Lemma lookup_type_found name w s a rec :
  is_builtin_name name = false ->
  lookup name (id_tab s) = Some a -> deref a s = Some rec ->
  lookup_type name w s = (get_type rec, s).
Proof.
  unfold is_builtin_name, lookup_type. intros Hb Hl Hd.
  repeat (destruct (String.eqb name _); [done|]). by rewrite Hl, Hd.
Qed.

Lemma inner_frame_open t : inner_frame t (open_scope t).
Proof.
  exists ∅. unfold open_scope. cbn [scopes store].
  split; [done|]. split; [done|]. split; [by left|].
  intros n a Hf. by rewrite lookup_empty in Hf.
Qed.

Lemma inner_frame_enter t t1 name :
  inner_frame t t1 ->
  inner_frame t (enter name t1).2 /\ store t !! (enter name t1).1 = None.
Proof.
  intros (f & Hsc & Hold & Hdom & Hyoung).
  assert (Hcur : back t1 = Some f).
  { unfold back. by rewrite Hsc, last_snoc. }
  destruct (f !! name) as [r|] eqn:Hf.
  - rewrite (enter_old name t1 f r) by done. cbn [fst snd].
    split; [by exists f|by eapply Hyoung].
  - rewrite (enter_new name t1 f) by done. cbn [fst snd].
    set (a := fresh (dom (store t1))).
    assert (Ha1 : store t1 !! a = None) by apply fresh_not_live.
    assert (Ha : store t !! a = None).
    { destruct (store t !! a) as [rec|] eqn:E; [|done].
      rewrite <- (Hold a) in E by (rewrite E; eauto). congruence. }
    split; [|done].
    exists (<[name := a]> f). cbn [scopes store].
    split; [by rewrite Hsc, removelast_last|]. split; [|split].
    + intros b Hb. rewrite lookup_insert_ne; [by apply Hold|].
      intros <-. rewrite Ha in Hb. by destruct Hb.
    + intros b Hb. destruct (decide (b = a)) as [->|Hne].
      * right. exists name. by rewrite lookup_insert_eq.
      * rewrite lookup_insert_ne in Hb by done.
        destruct (Hdom b Hb) as [?|[n Hn]]; [by left|].
        right. exists n. rewrite lookup_insert_ne; [done|].
        intros <-. congruence.
    + intros n b Hn. destruct (decide (n = name)) as [->|Hne].
      * rewrite lookup_insert_eq in Hn. by injection Hn as <-.
      * rewrite lookup_insert_ne in Hn by done. by eapply Hyoung.
Qed.

Lemma inner_frame_alter t t1 (g : record -> record) a :
  store t !! a = None -> inner_frame t t1 ->
  inner_frame t (mk_id_table (alter g a (store t1)) (scopes t1)).
Proof.
  intros Ha (f & Hsc & Hold & Hdom & Hyoung). exists f. cbn [scopes store].
  split; [done|]. split; [|split; [|done]].
  - intros b Hb. rewrite lookup_alter_ne; [by apply Hold|].
    intros <-. rewrite Ha in Hb. by destruct Hb.
  - intros b [x Hb]. apply Hdom. destruct (decide (b = a)) as [->|Hne].
    + rewrite lookup_alter_eq in Hb. destruct (store t1 !! a); [eauto|done].
    + rewrite lookup_alter_ne in Hb by done. eauto.
Qed.

Lemma inner_frame_close t t1 :
  scopes t <> [] -> inner_frame t t1 -> close_scope t1 = t.
Proof.
  intros Hne (f & Hsc & Hold & Hdom & Hyoung).
  rewrite (close_scope_pop t1 f).
  - rewrite Hsc, removelast_last. destruct t as [st sc]. cbn [store scopes] in *.
    f_equal. apply map_eq. intros a. rewrite delete_records_lookup.
    case_bool_decide as Hin.
    + apply elem_of_frame_records in Hin as [n Hn]. symmetry. by eapply Hyoung.
    + destruct (st !! a) as [rec|] eqn:E.
      * rewrite <- E. apply Hold. rewrite E. eauto.
      * destruct (store t1 !! a) as [rec|] eqn:E1; [|done].
        destruct (Hdom a (ltac:(eauto))) as [[x Hx]|[n Hn]]; [congruence|].
        exfalso. apply Hin. apply elem_of_frame_records. eauto.
  - rewrite Hsc, length_app. cbn. destruct (scopes t); [done|cbn; lia].
  - by rewrite Hsc, last_snoc.
Qed.

Lemma inner_frame_declare (k : lille_kind.lille_kind) t t1 name ty :
  inner_frame t t1 ->
  inner_frame t
    (rec_set_type (enter name t1).1 ty
       (rec_set_kind (enter name t1).1 k (enter name t1).2)).
Proof.
  intros Hin. destruct (inner_frame_enter t t1 name Hin) as [Hin' Ha].
  unfold rec_set_type, rec_set_kind. cbn [scopes store].
  apply (inner_frame_alter t (mk_id_table _ _) (set_type ty) _ Ha).
  by apply (inner_frame_alter t _ (set_kind k) _ Ha).
Qed.

Lemma inner_frame_install_builtin t name s :
  inner_frame t (id_tab s) -> inner_frame t (id_tab (install_builtin name s)).
Proof.
  intros Hin. rewrite install_builtin_id_tab.
  destruct (inner_frame_enter t _ name Hin) as [Hin' Ha].
  by apply (inner_frame_alter t _ (set_type type_func) _ Ha).
Qed.

Lemma inner_frame_run_sem_call t c s :
  is_scope_call c = false ->
  inner_frame t (id_tab s) -> inner_frame t (id_tab (run_sem_call c s)).
Proof.
  intros Hc Hin. destruct c; try discriminate Hc; cbn [run_sem_call].
  - rewrite declare_var_id_tab. destruct (lookup_local _ _); [done|].
    by apply inner_frame_declare.
  - rewrite declare_const_id_tab. destruct (lookup_local _ _); [done|].
    by apply inner_frame_declare.
  - by rewrite lookup_type_id_tab.
  - by rewrite check_assignment_id_tab.
  - by rewrite check_binary_id_tab.
  - by rewrite check_unary_id_tab.
  - by rewrite require_boolean_id_tab.
  - unfold install_builtins. by repeat apply inner_frame_install_builtin.
Qed.

(** X3.  A scope that is opened, used and closed leaves the table as it
    was.  After open_scope, any sequence of declarations, lookups and
    checks (every call of the analyzer but the two scope calls), and
    close_scope_and_dump, the frames and the record store are those from
    before open_scope: the records of the inner scope are deleted and no
    other record is touched, whatever the inner scope declared or
    shadowed. *)
Theorem scope_round_trip (calls : list sem_call) (s : semantics) :
  scopes (id_tab s) <> [] ->
  forallb (fun c => negb (is_scope_call c)) calls = true ->
  id_tab (close_scope_and_dump (run_sem_calls calls (sem_open_scope s))).2
    = id_tab s.
Proof.
  intros Hne Hcalls. unfold close_scope_and_dump. cbn [snd id_tab].
  apply inner_frame_close; [done|].
  assert (Hin : inner_frame (id_tab s) (id_tab (sem_open_scope s)))
    by apply inner_frame_open.
  revert Hcalls Hin. generalize (sem_open_scope s) as s1.
  induction calls as [|c calls IH]; intros s1 Hcalls Hin; [done|].
  cbn [forallb] in Hcalls. apply andb_prop in Hcalls as [Hc Hcalls].
  cbn [run_sem_calls foldl]. apply IH; [done|].
  apply inner_frame_run_sem_call; [|done].
  by destruct (is_scope_call c).
Qed.

Lemma declare_var_new name ty w s :
  lookup_local name (id_tab s) = None ->
  declare_var name ty w s =
    mk_semantics
      (rec_set_type (enter name (id_tab s)).1 ty
         (rec_set_kind (enter name (id_tab s)).1 lille_kind.variable
            (enter name (id_tab s)).2))
      (err s).
Proof.
  intros Hl. unfold declare_var. rewrite Hl.
  by destruct (enter name (id_tab s)).
Qed.

Lemma declare_const_new name ty w s :
  lookup_local name (id_tab s) = None ->
  declare_const name ty w s =
    mk_semantics
      (rec_set_type (enter name (id_tab s)).1 ty
         (rec_set_kind (enter name (id_tab s)).1 lille_kind.constant
            (enter name (id_tab s)).2))
      (err s).
Proof.
  intros Hl. unfold declare_const. rewrite Hl.
  by destruct (enter name (id_tab s)).
Qed.

(** X4.  A declaration is what the uses of the name see.  After
    declare_var of a name the current frame lacked (whatever the outer
    frames hold under that name), lookup_type gives the declared type
    without a diagnostic and an assignment of a value of that type is
    accepted; after declare_const, lookup_type gives the declared type and
    every assignment to the name is refused with diagnostic 85. *)
Theorem declaration_then_use (name : string) (ty rhs : lille_ty)
    (w w' : token) (s : semantics) :
  scopes (id_tab s) <> [] ->
  lookup_local name (id_tab s) = None ->
  is_builtin_name name = false ->
  (lookup_type name w' (declare_var name ty w s)
     = (ty, declare_var name ty w s)
   /\ check_assignment name ty w' (declare_var name ty w s)
        = declare_var name ty w s)
  /\ (lookup_type name w' (declare_const name ty w s)
        = (ty, declare_const name ty w s)
      /\ check_assignment name rhs w' (declare_const name ty w s)
           = sem_flag w' 85 (declare_const name ty w s)).
Proof.
  intros Hne Hloc Hb. split.
  - rewrite declare_var_new by done.
    destruct (declare_record lille_kind.variable name ty (id_tab s) Hne Hloc)
      as (_ & Hl & Hst).
    split.
    + by rewrite (lookup_type_found name w' _ (enter name (id_tab s)).1
                   (mk_record name ty lille_kind.variable)).
    + unfold check_assignment, deref. cbn [id_tab]. rewrite Hl, Hst.
      cbn [get_kind get_type]. by rewrite bool_decide_eq_true_2.
  - rewrite declare_const_new by done.
    destruct (declare_record lille_kind.constant name ty (id_tab s) Hne Hloc)
      as (_ & Hl & Hst).
    split.
    + by rewrite (lookup_type_found name w' _ (enter name (id_tab s)).1
                   (mk_record name ty lille_kind.constant)).
    + unfold check_assignment, deref. cbn [id_tab]. by rewrite Hl, Hst.
Qed.

Lemma lookup_local_declared (k : lille_kind.lille_kind) name ty t :
  scopes t <> [] ->
  is_Some (lookup_local name
             (match lookup_local name t with
              | Some _ => t
              | None =>
                  rec_set_type (enter name t).1 ty
                    (rec_set_kind (enter name t).1 k (enter name t).2)
              end)).
Proof.
  intros Hne. destruct (lookup_local name t) as [a|] eqn:Hl.
  - rewrite Hl. eauto.
  - destruct (declare_record k name ty t Hne Hl) as (Hl' & _). eauto.
Qed.

(** X5.  A name is declared once in a frame.  Whether the first
    declaration of a name in the current frame is a variable or a
    constant, and whether it succeeded or was itself a duplicate, any
    further declare_var or declare_const of that name in the same frame
    only reports diagnostic 82: the table, and so the kind and the type
    of the first declaration, stay as they are. *)
Theorem redeclaration_is_refused (first_const second_const : bool)
    (name : string) (ty1 ty2 : lille_ty) (w1 w2 : token) (s : semantics) :
  scopes (id_tab s) <> [] ->
  let declare (is_const : bool) :=
    if is_const then declare_const else declare_var in
  declare second_const name ty2 w2 (declare first_const name ty1 w1 s)
    = sem_flag w2 82 (declare first_const name ty1 w1 s).
Proof.
  intros Hne declare.
  assert (Hfirst : is_Some (lookup_local name
                      (id_tab (declare first_const name ty1 w1 s)))).
  { destruct first_const; unfold declare.
    - rewrite declare_const_id_tab. by apply lookup_local_declared.
    - rewrite declare_var_id_tab. by apply lookup_local_declared. }
  destruct Hfirst as [a Ha].
  destruct second_const; unfold declare at 1;
    [unfold declare_const at 1|unfold declare_var at 1]; by rewrite Ha.
Qed.

Lemma sem_flag_err w code s :
  err (sem_flag w code s) = err s ++ [mk_diagnostic (get_line_number w)
                                        (get_pos_on_line w) code].
Proof. done. Qed.

(** X6.  The checks of expressions only report.  check_binary and
    check_unary never change the symbol table; they add at most one
    diagnostic, at the token they were given; and whenever they add one
    the type they return is unknown. *)
Theorem checks_only_report (L R : lille_ty) (op : symbol.symbol_type)
    (w : token) (s : semantics) :
  let b := check_binary L op R w s in
  let u := check_unary op L w s in
  (id_tab b.2 = id_tab s
   /\ (err b.2 = err s
       \/ (b.1 = type_unknown
           /\ exists code, err b.2 = err s ++ [mk_diagnostic
                 (get_line_number w) (get_pos_on_line w) code])))
  /\ (id_tab u.2 = id_tab s
      /\ (err u.2 = err s
          \/ (u.1 = type_unknown
              /\ exists code, err u.2 = err s ++ [mk_diagnostic
                    (get_line_number w) (get_pos_on_line w) code]))).
Proof.
  intros b u. split.
  - split; [apply check_binary_id_tab|]. subst b. unfold check_binary.
    repeat (match goal with |- context [if ?c then _ else _] => destruct c end);
      cbn [fst snd]; first [by left | right; split; [done|]; eexists; apply sem_flag_err].
  - split; [apply check_unary_id_tab|]. subst u. unfold check_unary.
    repeat (match goal with |- context [if ?c then _ else _] => destruct c end);
      cbn [fst snd]; first [by left | right; split; [done|]; eexists; apply sem_flag_err].
Qed.

(** ** The emitter *)

(** Every method of the emitter is a sequence of five steps on the state:
    an instruction pushed, a label placed, the label counter advanced,
    and the two tables of the variables replaced. *)
Lemma run_cg_call_cases (P : code_gen -> Prop) :
  (forall instr c, P c -> P (push_instruction instr c)) ->
  (forall label c, P c -> P (gen_label label c)) ->
  (forall c, P c -> P (set_label_counter (label_counter c + 1) c)) ->
  (forall v c, P c -> P (set_level_offsets v c)) ->
  forall call c,
    (forall name level, call = call_gen_variable name level ->
                        P (gen_variable name level c)) ->
    P c -> P (run_cg_call call c).
Proof.
  intros Hpush Hlabel Hcount Hoff call c Hvar Hc.
  assert (Hemit : forall op l a cm c, P c -> P (emit op l a cm c)).
  { intros. by apply Hpush. }
  assert (Hemitl : forall op l a cm c, P c -> P (emit_label op l a cm c)).
  { intros. by apply Hpush. }
  assert (Hnew : forall c, P c -> P (gen_new_label c).2).
  { intros. by apply Hcount. }
  assert (Hacc : forall op f m n l c, P c -> P (gen_access op f m n l c)).
  { intros op f m n l c0 H0. unfold gen_access.
    destruct (var_info c0 !! n) as [[? ?]|]; by apply Hemit. }
  destruct call; cbn [run_cg_call];
    try (apply Hemit; exact Hc); try (apply Hacc; exact Hc);
    try (apply Hnew; exact Hc); try (apply Hlabel; exact Hc);
    try (apply Hemitl; exact Hc); try (apply Hpush; exact Hc).
  - unfold gen_program_start. by repeat apply Hemit.
  - unfold gen_program_body_start.
    destruct (0 <? _); cbn [gen_new_label];
      apply Hlabel, Hemit, Hemitl, Hcount; [by apply Hemit|done].
  - unfold gen_procedure_start. cbn [gen_new_label snd]. by apply Hoff, Hcount.
  - unfold gen_procedure_end. by apply Hlabel, Hemit.
  - unfold gen_function_end. by apply Hlabel, Hemit.
  - unfold gen_function_call.
    repeat (destruct (String.eqb _ _); [by apply Hemit|]). by apply Hemit.
  - by apply Hvar.
  - unfold gen_load_bool. destruct value; by apply Hemit.
  - unfold gen_comparison. destruct op; try done; by apply Hemit.
  - unfold gen_jump_true. by apply Hemitl, Hemit.
  - unfold gen_for_init. apply Hacc. case_if; [by apply Hemit|done].
  - unfold gen_for_test. apply Hemitl. case_if; by apply Hemit, Hacc.
  - unfold gen_for_step. apply Hacc. case_if; by apply Hemit, Hemit, Hacc.
  - unfold gen_read. destruct (default _ _) as [? ?].
    destruct (bool_decide _); by apply Hemit.
Qed.

Lemma run_cg_call_steps (P : code_gen -> Prop) :
  (forall instr c, P c -> P (push_instruction instr c)) ->
  (forall label c, P c -> P (gen_label label c)) ->
  (forall c, P c -> P (set_label_counter (label_counter c + 1) c)) ->
  (forall v c, P c -> P (set_level_offsets v c)) ->
  (forall v c, P c -> P (set_var_info v c)) ->
  forall call c, P c -> P (run_cg_call call c).
Proof.
  intros Hpush Hlabel Hcount Hoff Hvar call c Hc.
  apply run_cg_call_cases; try done.
  intros name level _. unfold gen_variable. by apply Hoff, Hvar, Hoff.
Qed.

Lemma run_cg_calls_steps (P : code_gen -> Prop) :
  (forall call c, P c -> P (run_cg_call call c)) ->
  forall calls c, P c -> P (run_cg_calls calls c).
Proof.
  intros Hcall calls. induction calls as [|call calls IH]; intros c Hc; [done|].
  cbn [run_cg_calls foldl]. apply IH. by apply Hcall.
Qed.

Lemma counter_ok_push instr c : counter_ok c -> counter_ok (push_instruction instr c).
Proof.
  unfold counter_ok, push_instruction. cbn. rewrite length_app. cbn. lia.
Qed.

Lemma counter_ok_run_cg_calls calls c :
  counter_ok c -> counter_ok (run_cg_calls calls c).
Proof.
  apply run_cg_calls_steps. apply run_cg_call_steps; try done.
  intros. by apply counter_ok_push.
Qed.

(** *** Numbers as text *)

Lemma isdigit_pretty_N_char (d : N) : isdigit (pretty_N_char d) = true.
Proof.
  unfold pretty_N_char.
  repeat (match goal with |- context [match ?x with _ => _ end] =>
            destruct x end); done.
Qed.

Lemma char_code_pretty_N_char (d : N) :
  (d < 10)%N -> char_code (pretty_N_char d) - 48 = Z.of_N d.
Proof.
  intros Hd.
  assert (d = 0 \/ d = 1 \/ d = 2 \/ d = 3 \/ d = 4 \/ d = 5 \/ d = 6
          \/ d = 7 \/ d = 8 \/ d = 9)%N as Hcases by lia.
  repeat (destruct Hcases as [->|Hcases]; [done|]). by subst.
Qed.

Lemma all_digits_pretty_N_go (x : N) (s : string) :
  all_digits s = true -> all_digits (pretty_N_go x s) = true.
Proof.
  revert s. induction (N.lt_wf_0 x) as [x _ IH]. intros s Hs.
  destruct (decide (x = 0)%N) as [->|Hx]; [by rewrite pretty_N_go_0|].
  rewrite pretty_N_go_step by lia. apply IH.
  - apply N.div_lt; lia.
  - cbn [all_digits]. by rewrite isdigit_pretty_N_char, Hs.
Qed.

Lemma decimal_value_pretty_N_go (x : N) (s : string) :
  decimal_value 0 (pretty_N_go x s) = decimal_value (Z.of_N x) s.
Proof.
  revert s. induction (N.lt_wf_0 x) as [x _ IH]. intros s.
  destruct (decide (x = 0)%N) as [->|Hx]; [by rewrite pretty_N_go_0|].
  rewrite pretty_N_go_step by lia. rewrite IH by (apply N.div_lt; lia).
  cbn [decimal_value]. f_equal.
  rewrite char_code_pretty_N_char by (apply N.mod_lt; lia).
  rewrite N2Z.inj_div, N2Z.inj_mod.
  change (Z.of_N 10) with 10.
  symmetry. by apply Z.div_mod.
Qed.

Lemma pretty_N_go_not_empty (x : N) (s : string) :
  (0 < x)%N -> pretty_N_go x s <> EmptyString.
Proof.
  revert s. induction (N.lt_wf_0 x) as [x _ IH]. intros s Hx.
  rewrite pretty_N_go_step by done.
  destruct (decide (x `div` 10 = 0)%N) as [E|E].
  - by rewrite E, pretty_N_go_0.
  - apply IH; [apply N.div_lt; lia|by apply N.neq_0_lt_0].
Qed.

(** to_string of a number that is not negative: decimal digits, at least
    one, that read back as the number. *)
Lemma to_string_digits (a : Z) :
  0 <= a ->
  all_digits (to_string a) = true
  /\ to_string a <> EmptyString
  /\ decimal_value 0 (to_string a) = a.
Proof.
  intros Ha. unfold to_string, pretty, pretty_Z.
  destruct a as [|p|p]; [done| |lia].
  unfold pretty, pretty_positive, pretty, pretty_N.
  rewrite decide_False by done. split; [|split].
  - by apply all_digits_pretty_N_go.
  - by apply pretty_N_go_not_empty.
  - by rewrite decimal_value_pretty_N_go.
Qed.

Lemma is_label_digits (s : string) : all_digits s = true -> is_label s = false.
Proof.
  destruct s as [|c s]; [done|]. cbn [all_digits is_label].
  intros [Hc _]%andb_prop. destruct (Ascii.eqb_spec c "L") as [->|]; done.
Qed.

Lemma is_label_to_string (a : Z) : is_label (to_string a) = false.
Proof.
  destruct (decide (0 <= a)) as [Ha|Ha].
  - apply is_label_digits. by apply to_string_digits.
  - unfold to_string, pretty, pretty_Z. destruct a as [|p|p]; [lia|lia|done].
Qed.

Lemma is_label_quoted (str : string) : is_label ("'" +:+ str +:+ "'") = false.
Proof. done. Qed.

Lemma is_label_new (n : Z) : 0 <= n -> is_label ("L" +:+ to_string n) = true.
Proof. intros Hn. cbn. by apply to_string_digits. Qed.

(** X7.  A label is bound to the instruction emitted next.  In every
    state the emitter reaches from its constructor, gen_label binds the
    label to the number that finalize gives the record of the next
    instruction pushed: the records are numbered from 1 and the counter
    is always one more than the number of instructions. *)
Theorem label_is_next_instruction (filename : string)
    (calls : list cg_call) (label : string) (instr : Instruction) :
  let c := run_cg_calls calls (code_gen_new filename) in
  let c' := push_instruction instr (gen_label label c) in
  exists a,
    label_addresses c' !! label = Some a
    /\ 1 <= a
    /\ instructions c' !! Z.to_nat (a - 1) = Some instr
    /\ forall records,
         finalize true c' = Returned records ->
         records !! Z.to_nat (a - 1)
           = Some (write_record (label_addresses c') a instr).
Proof.
  intros c c'.
  assert (Hok : counter_ok c).
  { apply counter_ok_run_cg_calls. done. }
  exists (Z.of_nat (length (instructions c)) + 1).
  replace (Z.to_nat (Z.of_nat (length (instructions c)) + 1 - 1))
    with (length (instructions c)) by lia.
  split; [|split; [lia|split]].
  - subst c'. unfold push_instruction, gen_label. cbn.
    rewrite lookup_insert_eq. by rewrite Hok.
  - subst c'. unfold push_instruction, gen_label. cbn.
    by rewrite list_lookup_middle.
  - intros records [= <-]. rewrite write_records_lookup.
    subst c'. unfold push_instruction, gen_label. cbn [instructions
      set_instruction_count set_instructions set_label_addresses].
    rewrite list_lookup_middle by done. cbn [fmap option_fmap option_map].
    by rewrite Z.add_comm.
Qed.

Lemma label_counter_run_cg_calls calls c :
  label_counter c <= label_counter (run_cg_calls calls c).
Proof.
  apply (run_cg_calls_steps (fun c' => label_counter c <= label_counter c'));
    [|lia].
  apply run_cg_call_steps; try done. intros c0 Hc0. cbn. lia.
Qed.

(** X8.  The labels of gen_new_label are new and are labels, as long as
    the counter of labels, an int, has not reached the largest int.  In
    every state the emitter reaches from its constructor, the label that
    gen_new_label returns is one that finalize recognises as a label, and
    it differs from the label of a later call of gen_new_label, whatever
    the emitter is asked in between, when the counter is below 2147483647
    at that later call: the counter never goes down, so no increment up
    to there has overflowed. *)
Theorem new_labels_are_distinct (filename : string)
    (calls between : list cg_call) :
  label_counter
    (run_cg_calls between
       (gen_new_label (run_cg_calls calls (code_gen_new filename))).2)
    < 2147483647 ->
  let c1 := run_cg_calls calls (code_gen_new filename) in
  let c2 := run_cg_calls between (gen_new_label c1).2 in
  is_label (gen_new_label c1).1 = true
  /\ (gen_new_label c1).1 <> (gen_new_label c2).1
  /\ 0 <= label_counter c1 < label_counter c2
  /\ label_counter (gen_new_label c2).2 <= 2147483647.
Proof.
  intros Hint c1 c2. fold c1 in Hint. fold c2 in Hint.
  assert (H0 : 0 <= label_counter c1).
  { apply (label_counter_run_cg_calls calls (code_gen_new filename)). }
  assert (H1 : label_counter c1 + 1 <= label_counter c2).
  { apply (label_counter_run_cg_calls between (gen_new_label c1).2). }
  cbn [label_counter gen_new_label snd set_label_counter] in H1.
  clearbody c2. clearbody c1.
  unfold gen_new_label. cbn [fst snd label_counter set_label_counter].
  split; [by apply is_label_new|].
  split; [|lia].
  intros [= Heq]. unfold to_string in Heq. apply pretty_Z_inj in Heq. lia.
Qed.

(** X9.  finalize rewrites labels only.  The operand of an instruction
    that emit pushed for a number, or emit_string for a string literal
    (whatever its text, a text that spells a placed label included),
    is written to the file as it was emitted, for every table of
    labels. *)
Theorem numbers_and_strings_are_not_labels (labels : gmap string Z)
    (op : string) (l a : Z) (str cm filename : string) (c : code_gen) :
  resolve_operand labels (to_string a) = to_string a
  /\ resolve_operand labels ("'" +:+ str +:+ "'") = "'" +:+ str +:+ "'"
  /\ (forall n instr,
        last (instructions (emit op l a cm c)) = Some instr ->
        write_record labels n instr = format_record n instr (to_string a))
  /\ (forall n instr,
        last (instructions (emit_string op l str cm c)) = Some instr ->
        write_record labels n instr
          = format_record n instr ("'" +:+ str +:+ "'")).
Proof.
  assert (Hnum : resolve_operand labels (to_string a) = to_string a).
  { unfold resolve_operand. by rewrite is_label_to_string. }
  split; [done|]. split; [done|]. split.
  - intros n instr. unfold emit, push_instruction. cbn [instructions
      set_instruction_count set_instructions]. rewrite last_snoc.
    intros [= <-]. unfold write_record. cbn [operand2]. by rewrite Hnum.
  - intros n instr. unfold emit_string, push_instruction. cbn [instructions
      set_instruction_count set_instructions]. rewrite last_snoc.
    by intros [= <-].
Qed.

(** X10.  The scanner reads back the integers the emitter prints.  For a
    number from 0 to the largest int, std::stoi as scan_digit uses it
    gives the number back from the text to_string prints; beyond the
    largest int the conversion fails, which scan_digit reports as
    diagnostic 77. *)
Theorem stoi_of_to_string (n : Z) :
  0 <= n ->
  stoi (to_string n) = if n <=? 2147483647 then Some n else None.
Proof.
  intros Hn. unfold stoi.
  destruct (to_string_digits n Hn) as (_ & _ & ->). done.
Qed.

(** *** Variables *)

Lemma lookup_padded (l : list Z) (n i : nat) :
  default 0 ((l ++ replicate n 0) !! i) = default 0 (l !! i).
Proof.
  destruct (decide (i < length l)%nat) as [Hlt|Hge].
  - by rewrite lookup_app_l.
  - rewrite lookup_app_r by lia. rewrite (lookup_ge_None_2 l) by lia.
    destruct (replicate n 0 !! (i - length l)%nat) as [z|] eqn:E; [|done].
    by apply lookup_replicate in E as [-> _].
Qed.

Lemma var_info_gen_variable name level c :
  var_info (gen_variable name level c)
    = <[name := (level, next_offset level c)]> (var_info c).
Proof.
  unfold gen_variable, next_offset. cbn [var_info set_level_offsets
    set_var_info level_offsets]. by rewrite lookup_padded.
Qed.

Lemma next_offset_gen_variable name level c l :
  next_offset l (gen_variable name level c)
    = if bool_decide (Z.to_nat l = Z.to_nat level)
      then next_offset level c + 1 else next_offset l c.
Proof.
  unfold gen_variable, next_offset. cbn [var_info set_level_offsets
    set_var_info level_offsets]. rewrite lookup_padded.
  set (padded := level_offsets c ++ _).
  assert (Hlen : (Z.to_nat level < length padded)%nat).
  { subst padded. rewrite length_app, length_replicate. lia. }
  case_bool_decide as Heq.
  - rewrite Heq. by rewrite list_lookup_insert_eq.
  - rewrite list_lookup_insert_ne by done. subst padded.
    by rewrite lookup_padded.
Qed.

Lemma var_info_gen_variables names level c x :
  x ∉ names -> var_info (gen_variables names level c) !! x = var_info c !! x.
Proof.
  revert c. induction names as [|n names IH]; intros c Hx; [done|].
  apply not_elem_of_cons in Hx as [Hn Hx]. cbn [gen_variables foldl].
  fold (gen_variables names level (gen_variable n level c)).
  rewrite IH by done. rewrite var_info_gen_variable.
  by rewrite lookup_insert_ne.
Qed.


Lemma var_info_run_cg_call call c x :
  declares x call = false ->
  var_info (run_cg_call call c) !! x = var_info c !! x.
Proof.
  intros Hd.
  apply (run_cg_call_cases (fun c' => var_info c' !! x = var_info c !! x));
    try done.
  intros name level ->. cbn [declares] in Hd.
  rewrite var_info_gen_variable. rewrite lookup_insert_ne; [done|].
  intros ->. by rewrite String.eqb_refl in Hd.
Qed.


Lemma instructions_run_cg_calls calls c :
  instructions c `prefix_of` instructions (run_cg_calls calls c).
Proof.
  apply (run_cg_calls_steps
           (fun c' => instructions c `prefix_of` instructions c')); [|done].
  apply run_cg_call_steps; try done.
  intros instr c0 Hc0. unfold push_instruction. cbn.
  by apply prefix_app_r.
Qed.

(** X13.  A call of a predefined function reaches its conversion.  After
    gen_program_start, in every state the emitter reaches, the address
    that gen_function_call puts in the CAL of INT2REAL, REAL2INT,
    INT2STRING or REAL2STRING is the number of the instruction that
    loads the argument, which the conversion of that function and a
    function return follow; and the first instruction jumps to the
    instruction after those of the predefined functions. *)
Theorem builtin_call_reaches_its_conversion (filename pname name : string)
    (calls : list cg_call) (arg_count current_level k : Z) :
  conversion_of name = Some k ->
  let c := run_cg_calls calls (gen_program_start pname (code_gen_new filename)) in
  exists a call load conv ret,
    last (instructions (gen_function_call name arg_count current_level c))
      = Some call
    /\ (opcode call, operand1 call, operand2 call) = ("CAL", 1, to_string a)
    /\ 1 <= a
    /\ instructions c !! Z.to_nat (a - 1) = Some load
    /\ (opcode load, operand1 load, operand2 load) = ("LDV", 0, to_string 0)
    /\ instructions c !! Z.to_nat a = Some conv
    /\ (opcode conv, operand1 conv, operand2 conv) = ("OPR", 0, to_string k)
    /\ instructions c !! Z.to_nat (a + 1) = Some ret
    /\ (opcode ret, operand1 ret, operand2 ret) = ("OPR", 0, to_string 1)
    /\ (opcode <$> instructions c !! 0%nat,
        operand2 <$> instructions c !! 0%nat)
       = (Some "JMP", Some (to_string
            (Z.of_nat (length (instructions
               (gen_program_start pname (code_gen_new filename)))) + 1))).
Proof.
  intros Hk c.
  assert (Hpre : forall i instr,
            instructions (gen_program_start pname (code_gen_new filename)) !! i
              = Some instr ->
            instructions c !! i = Some instr).
  { intros i instr Hi.
    by apply (prefix_lookup_Some _ _ _ _ Hi), instructions_run_cg_calls. }
  assert (Hlast : forall op l a cm c0,
            last (instructions (emit op l a cm c0))
              = Some (mk_Instruction op l (to_string a) cm)).
  { intros. unfold emit, push_instruction. cbn. by rewrite last_snoc. }
  unfold conversion_of in Hk. unfold gen_function_call.
  destruct (String.eqb name "INT2REAL");
    [|destruct (String.eqb name "REAL2INT");
      [|destruct (String.eqb name "INT2STRING");
        [|destruct (String.eqb name "REAL2STRING"); [|done]]]];
    injection Hk as <-;
    [exists 2|exists 5|exists 8|exists 11];
    eexists _, _, _, _; rewrite Hlast;
    (split; [reflexivity|]); (split; [reflexivity|]); (split; [lia|]);
    (split; [apply Hpre; reflexivity|]); (split; [reflexivity|]);
    (split; [apply Hpre; reflexivity|]); (split; [reflexivity|]);
    (split; [apply Hpre; reflexivity|]); (split; [reflexivity|]);
    rewrite (Hpre 0%nat _ eq_refl); reflexivity.
Qed.

(** ** The scanner at the end of the file *)

(** X14.  At the end of the file the scanner answers end_of_program, and
    keeps answering it.  Once eof_flag is set, get_token returns an
    end_of_program token at the cursor, on every bound of its loops, and
    leaves the cursor, the input and the diagnostics as they are; so
    every later call returns the same token. *)
Theorem get_token_at_end_of_file (fuel fuel' : nat) (s : scanner) :
  eof_flag s = true ->
  exists s',
    get_token fuel s
      = Some (new_token symbol.end_of_program (line_number s) (pos_on_line s),
              s')
    /\ eof_flag s' = true
    /\ error s' = error s
    /\ source_file s' = source_file s
    /\ exists s'',
         get_token fuel' s'
           = Some (new_token symbol.end_of_program (line_number s)
                     (pos_on_line s), s'').
Proof.
  assert (Hstep : forall fuel s, eof_flag s = true ->
            get_token fuel s
              = Some (new_token symbol.end_of_program (line_number s)
                        (pos_on_line s),
                      set_current_token
                        (new_token symbol.end_of_program (line_number s)
                           (pos_on_line s)) (begin_token s))).
  { intros n s0 Heof. rewrite get_token_unfold.
    unfold skip_blanks. destruct n; cbn [while]; rewrite Heof; cbn;
      by rewrite Heof. }
  intros Heof. eexists. split; [by apply Hstep|].
  split; [done|]. split; [done|]. split; [done|].
  eexists. by rewrite Hstep.
Qed.

(** ** The parser: what every part of a parse leaves behind *)

(** *** Steps of the emitter *)

Lemma cg_step_refl X c : cg_step X c c.
Proof. by repeat split. Qed.

Lemma cg_step_trans X c1 c2 c3 :
  cg_step X c1 c2 -> cg_step X c2 c3 -> cg_step X c1 c3.
Proof.
  intros (Hp1 & Hc1 & Hl1 & Ho1) (Hp2 & Hc2 & Hl2 & Ho2).
  split; [by etrans|]. split; [auto|]. split; [auto|].
  intros pending Hpend Hok. apply Ho2; [done|]. by apply Ho1.
Qed.

Lemma cg_step_weaken X X' c c' :
  (forall l, l ∈ X -> l ∈ X') -> cg_step X c c' -> cg_step X' c c'.
Proof.
  intros HX (Hp & Hc & Hl & Ho). repeat split; try done.
  intros pending Hpend. apply Ho. auto.
Qed.

Lemma cg_step_push X instr c x :
  cg_step X c x ->
  operand_ok (fun l => l ∈ X) ∅ (operand2 instr) ->
  cg_step X c (push_instruction instr x).
Proof.
  intros Hx Hi. apply (cg_step_trans X c x); [done|]. clear Hx.
  unfold push_instruction. split; [|split; [|split]]; cbn.
  - by apply prefix_app_r.
  - unfold counter_ok. cbn. rewrite length_app. cbn. lia.
  - done.
  - intros pending Hpend Hok i [Hin|Hin%list_elem_of_singleton]%elem_of_app.
    + by apply Hok.
    + subst i. destruct Hi as [?|[?|[?|[?|[? Hl]]]]].
      * by left.
      * by right; left.
      * by right; right; left.
      * right; right; right; left. by apply Hpend.
      * by rewrite lookup_empty in Hl.
Qed.

Lemma cg_step_gen_label X l c x :
  cg_step X c x -> cg_step X c (gen_label l x).
Proof.
  intros Hx. apply (cg_step_trans X c x); [done|]. clear Hx.
  assert (Hkeep : forall l',
            is_Some (label_addresses x !! l') ->
            is_Some (label_addresses (gen_label l x) !! l')).
  { intros l' Hl'. unfold gen_label. cbn.
    apply lookup_insert_is_Some. destruct (decide (l = l')); auto. }
  split; [done|]. split; [done|]. split; [done|].
  intros pending Hpend Hok i Hin.
  destruct (Hok i Hin) as [?|[?|[?|[?|Hl]]]].
  - by left.
  - by right; left.
  - by right; right; left.
  - by right; right; right; left.
  - right; right; right; right. by apply Hkeep.
Qed.

Lemma cg_step_set_label_counter X v c x :
  cg_step X c x -> cg_step X c (set_label_counter v x).
Proof. intros Hx. by apply (cg_step_trans X c x). Qed.

Lemma cg_step_set_level_offsets X v c x :
  cg_step X c x -> cg_step X c (set_level_offsets v x).
Proof. intros Hx. by apply (cg_step_trans X c x). Qed.

Lemma cg_step_set_var_info X v c x :
  cg_step X c x -> cg_step X c (set_var_info v x).
Proof. intros Hx. by apply (cg_step_trans X c x). Qed.

Lemma operand_ok_number (pending : string -> Prop) labels a :
  operand_ok pending labels (to_string a).
Proof. left. by exists a. Qed.

Lemma operand_ok_label (X : list string) labels l :
  l ∈ X -> operand_ok (fun l => l ∈ X) labels l.
Proof. intros Hl. by right; right; right; left. Qed.

Lemma cg_step_emit X op l a cm c x :
  cg_step X c x -> cg_step X c (emit op l a cm x).
Proof. intros Hx. apply cg_step_push; [done|]. apply operand_ok_number. Qed.

Lemma cg_step_emit_string X op l str cm c x :
  cg_step X c x -> cg_step X c (emit_string op l str cm x).
Proof.
  intros Hx. apply cg_step_push; [done|]. right; left. by exists str.
Qed.

Lemma cg_step_emit_real X op l v cm c x :
  cg_step X c x -> cg_step X c (emit_real op l v cm x).
Proof.
  intros Hx. apply cg_step_push; [done|]. right; right; left. by exists v.
Qed.

Lemma cg_step_emit_label X op l label cm c x :
  label ∈ X -> cg_step X c x -> cg_step X c (emit_label op l label cm x).
Proof.
  intros Hl Hx. apply cg_step_push; [done|]. by apply operand_ok_label.
Qed.

Lemma cg_step_gen_access X op f m n l c x :
  cg_step X c x -> cg_step X c (gen_access op f m n l x).
Proof.
  intros Hx. unfold gen_access.
  destruct (var_info x !! n) as [[? ?]|]; by apply cg_step_emit.
Qed.

(** The methods of the emitter that take no label. *)
Ltac cg_plain :=
  repeat first
    [ assumption
    | apply cg_step_emit
    | apply cg_step_emit_string
    | apply cg_step_emit_real
    | apply cg_step_gen_access
    | apply cg_step_gen_label
    | apply cg_step_set_label_counter
    | apply cg_step_set_level_offsets
    | apply cg_step_set_var_info
    | match goal with
      | |- cg_step _ _ (if ?b then _ else _) => destruct b
      | |- context [cg_step _ _ (_ (if ?b then _ else _))] => destruct b
      end ].

Lemma cg_step_plain X c x :
  cg_step X c x ->
  (forall name level, cg_step X c (gen_variable name level x))
  /\ (forall name level, cg_step X c (gen_store name level x))
  /\ (forall name level, cg_step X c (gen_load name level x))
  /\ (forall v, cg_step X c (gen_load_int v x))
  /\ (forall v, cg_step X c (gen_load_real v x))
  /\ (forall v, cg_step X c (gen_load_string v x))
  /\ (forall v, cg_step X c (gen_load_bool v x))
  /\ (forall op, cg_step X c (gen_comparison op x))
  /\ (forall name n level, cg_step X c (gen_call name n level x))
  /\ (forall name n level, cg_step X c (gen_function_call name n level x))
  /\ (forall var type level, cg_step X c (gen_read var type level x))
  /\ (forall var r level, cg_step X c (gen_for_init var r level x))
  /\ (forall var r level, cg_step X c (gen_for_step var r level x))
  /\ (forall name, cg_step X c (gen_program_start name x))
  /\ (forall l, cg_step X c (gen_procedure_end l x))
  /\ (forall l, cg_step X c (gen_function_end l x)).
Proof.
  intros Hx.
  split; [intros; unfold gen_variable; cg_plain|].
  split; [intros; unfold gen_store; cg_plain|].
  split; [intros; unfold gen_load; cg_plain|].
  split; [intros; unfold gen_load_int; cg_plain|].
  split; [intros; unfold gen_load_real; cg_plain|].
  split; [intros; unfold gen_load_string; cg_plain|].
  split; [intros; unfold gen_load_bool; cg_plain|].
  split; [intros op; unfold gen_comparison; destruct op; cg_plain|].
  split; [intros; unfold gen_call; cg_plain|].
  split; [intros; unfold gen_function_call; cg_plain|].
  split; [intros; unfold gen_read; destruct (default _ _); cg_plain|].
  split; [intros; unfold gen_for_init; cg_plain|].
  split; [intros; unfold gen_for_step; cg_plain|].
  split; [intros; unfold gen_program_start; cg_plain|].
  split; [intros; unfold gen_procedure_end; cg_plain|].
  intros; unfold gen_function_end; cg_plain.
Qed.

Lemma cg_step_gen_variable X c x name level :
  cg_step X c x -> cg_step X c (gen_variable name level x).
Proof. intros Hx. by apply (cg_step_plain X c x Hx). Qed.

Lemma cg_step_gen_store X c x name level :
  cg_step X c x -> cg_step X c (gen_store name level x).
Proof. intros Hx. by apply (cg_step_plain X c x Hx). Qed.

Lemma cg_step_gen_load X c x name level :
  cg_step X c x -> cg_step X c (gen_load name level x).
Proof. intros Hx. by apply (cg_step_plain X c x Hx). Qed.

Lemma cg_step_gen_load_int X c x v :
  cg_step X c x -> cg_step X c (gen_load_int v x).
Proof. intros Hx. by apply (cg_step_plain X c x Hx). Qed.

Lemma cg_step_gen_load_real X c x v :
  cg_step X c x -> cg_step X c (gen_load_real v x).
Proof. intros Hx. by apply (cg_step_plain X c x Hx). Qed.

Lemma cg_step_gen_load_string X c x v :
  cg_step X c x -> cg_step X c (gen_load_string v x).
Proof. intros Hx. by apply (cg_step_plain X c x Hx). Qed.

Lemma cg_step_gen_load_bool X c x v :
  cg_step X c x -> cg_step X c (gen_load_bool v x).
Proof. intros Hx. by apply (cg_step_plain X c x Hx). Qed.

Lemma cg_step_gen_comparison X c x op :
  cg_step X c x -> cg_step X c (gen_comparison op x).
Proof. intros Hx. by apply (cg_step_plain X c x Hx). Qed.

Lemma cg_step_gen_call X c x name k level :
  cg_step X c x -> cg_step X c (gen_call name k level x).
Proof. intros Hx. by apply (cg_step_plain X c x Hx). Qed.

Lemma cg_step_gen_function_call X c x name k level :
  cg_step X c x -> cg_step X c (gen_function_call name k level x).
Proof. intros Hx. by apply (cg_step_plain X c x Hx). Qed.

Lemma cg_step_gen_read X c x var type level :
  cg_step X c x -> cg_step X c (gen_read var type level x).
Proof. intros Hx. by apply (cg_step_plain X c x Hx). Qed.

Lemma cg_step_gen_for_init X c x var r level :
  cg_step X c x -> cg_step X c (gen_for_init var r level x).
Proof. intros Hx. by apply (cg_step_plain X c x Hx). Qed.

Lemma cg_step_gen_for_step X c x var r level :
  cg_step X c x -> cg_step X c (gen_for_step var r level x).
Proof. intros Hx. by apply (cg_step_plain X c x Hx). Qed.

Lemma cg_step_gen_program_start X c x name :
  cg_step X c x -> cg_step X c (gen_program_start name x).
Proof. intros Hx. by apply (cg_step_plain X c x Hx). Qed.

Lemma cg_step_gen_procedure_end X c x l :
  cg_step X c x -> cg_step X c (gen_procedure_end l x).
Proof. intros Hx. by apply (cg_step_plain X c x Hx). Qed.

Lemma cg_step_gen_function_end X c x l :
  cg_step X c x -> cg_step X c (gen_function_end l x).
Proof. intros Hx. by apply (cg_step_plain X c x Hx). Qed.

Lemma cg_step_gen_jump X c x l :
  l ∈ X -> cg_step X c x -> cg_step X c (gen_jump l x).
Proof. intros Hl Hx. unfold gen_jump. by apply cg_step_emit_label. Qed.

Lemma cg_step_gen_jump_false X c x l :
  l ∈ X -> cg_step X c x -> cg_step X c (gen_jump_false l x).
Proof. intros Hl Hx. unfold gen_jump_false. by apply cg_step_emit_label. Qed.

Lemma cg_step_gen_jump_true X c x l :
  l ∈ X -> cg_step X c x -> cg_step X c (gen_jump_true l x).
Proof.
  intros Hl Hx. unfold gen_jump_true.
  apply cg_step_emit_label; [done|]. by apply cg_step_emit.
Qed.

Lemma cg_step_gen_for_test X c x var r l level :
  l ∈ X -> cg_step X c x -> cg_step X c (gen_for_test var r l level x).
Proof.
  intros Hl Hx. unfold gen_for_test. apply cg_step_emit_label; [done|].
  destruct r; by apply cg_step_emit, cg_step_gen_load.
Qed.

Lemma cg_step_gen_new_label X c x :
  cg_step X c x -> cg_step X c (gen_new_label x).2.
Proof. intros Hx. by apply cg_step_set_label_counter. Qed.

Lemma cg_step_gen_procedure_start X c x name :
  cg_step X c x -> cg_step X c (gen_procedure_start name x).2.
Proof.
  intros Hx. unfold gen_procedure_start. cbn [gen_new_label snd].
  by apply cg_step_set_level_offsets, cg_step_set_label_counter.
Qed.

Lemma cg_step_gen_function_start X c x name :
  cg_step X c x -> cg_step X c (gen_function_start name x).2.
Proof. intros Hx. by apply cg_step_set_label_counter. Qed.

(** *** Steps of the helpers *)

Lemma tokens_left_input_left p : (tokens_left p <= Datatypes.S (input_left p))%nat.
Proof.
  unfold tokens_left, input_left.
  destruct (symbol_eqb (S p) symbol.end_of_program); lia.
Qed.

Lemma input_left_advance p : (input_left (advance p) <= input_left p)%nat.
Proof.
  unfold input_left, S. rewrite advance_look, advance_sc.
  destruct (sc p) as [|t rest]; simpl.
  - lia.
  - destruct (symbol_eqb (get_sym t) symbol.end_of_program),
      (symbol_eqb (get_sym (look p)) symbol.end_of_program); lia.
Qed.

Lemma input_left_advance_lt p :
  symbol_eqb (S p) symbol.end_of_program = false ->
  (input_left (advance p) < input_left p)%nat.
Proof.
  intros Hs. unfold input_left. rewrite Hs.
  unfold S. rewrite advance_look, advance_sc.
  destruct (sc p) as [|t rest]; simpl; [lia|].
  destruct (symbol_eqb (get_sym t) symbol.end_of_program); lia.
Qed.

Lemma input_left_advance_at (s : symbol.symbol_type) p :
  symbol_eqb (S p) s = true -> s <> symbol.end_of_program ->
  (input_left (advance p) < input_left p)%nat.
Proof.
  intros Hs Hne. apply input_left_advance_lt.
  apply symbol_eqb_eq in Hs. rewrite Hs. by apply symbol_eqb_neq.
Qed.

Lemma helper_step_refl x : helper_step x x.
Proof. by repeat split. Qed.

Lemma helper_step_trans x y z :
  helper_step x y -> helper_step y z -> helper_step x z.
Proof.
  intros (H1 & H2 & H3 & H4 & H5 & H6) (G1 & G2 & G3 & G4 & G5 & G6).
  split; [lia|]. split; [congruence|]. split; [congruence|].
  split; [congruence|]. split; [by etrans|congruence].
Qed.

Lemma helper_step_advance x : helper_step x (advance x).
Proof.
  split; [apply input_left_advance|].
  unfold advance, sc_get_token. simpl. destruct (sc x); by repeat split.
Qed.

Lemma helper_step_accept s x : helper_step x (accept s x).2.
Proof.
  unfold accept. destruct (symbol_eqb (S x) s); cbn [snd].
  - apply helper_step_advance.
  - apply helper_step_refl.
Qed.

Lemma helper_step_set_recovering b x : helper_step x (set_recovering b x).
Proof. by repeat split. Qed.

Lemma helper_step_err_flag_token tok code x :
  helper_step x (err_flag_token tok code x).
Proof.
  split; [done|]. repeat split; try done. cbn. by apply prefix_app_r.
Qed.

Lemma helper_step_err_flag line col code x :
  helper_step x (err_flag line col code x).
Proof.
  split; [done|]. repeat split; try done. cbn. by apply prefix_app_r.
Qed.

Lemma helper_step_expect_skip n s x : helper_step x (expect_skip n s x).
Proof.
  revert x. induction n as [|n IH]; intros x; cbn [expect_skip];
    [apply helper_step_refl|].
  destruct (_ && _); [|apply helper_step_refl].
  eapply helper_step_trans; [apply helper_step_advance|apply IH].
Qed.

Lemma helper_step_expect s e x : helper_step x (expect s e x).
Proof.
  unfold expect. destruct (recovering x).
  - destruct (symbol_eqb _ s).
    + eapply helper_step_trans; [apply helper_step_expect_skip|].
      eapply helper_step_trans; [apply helper_step_advance|].
      apply helper_step_set_recovering.
    + apply helper_step_expect_skip.
  - destruct (symbol_eqb _ s); [apply helper_step_advance|].
    eapply helper_step_trans; [apply helper_step_err_flag_token|].
    apply helper_step_set_recovering.
Qed.

Lemma helper_step_flag_here code x : helper_step x (flag_here code x).
Proof.
  unfold flag_here. destruct (negb _); [|apply helper_step_refl].
  eapply helper_step_trans; [apply helper_step_err_flag_token|].
  apply helper_step_set_recovering.
Qed.

Lemma helper_step_flag_prev code x : helper_step x (flag_prev code x).
Proof.
  unfold flag_prev. destruct (negb _); [|apply helper_step_refl].
  eapply helper_step_trans; [|apply helper_step_set_recovering].
  destruct (prev x);
    [apply helper_step_err_flag|apply helper_step_err_flag_token].
Qed.

Lemma helper_step_synchronize follow x : helper_step x (synchronize follow x).
Proof.
  unfold synchronize. generalize (skip_bound x) as n. intros n. revert x.
  induction n as [|n IH]; intros x; cbn [synchronize_loop];
    [apply helper_step_refl|].
  destruct (negb _); [|apply helper_step_set_recovering].
  destruct (existsb _ _); [apply helper_step_set_recovering|].
  eapply helper_step_trans; [apply helper_step_advance|apply IH].
Qed.

Lemma helper_step_optional s x : helper_step x (optional s x).
Proof.
  unfold optional. destruct (symbol_eqb _ s);
    [apply helper_step_advance|apply helper_step_refl].
Qed.

Lemma helper_step_parse_type x : helper_step x (parse_type x).2.
Proof.
  unfold parse_type, accept.
  repeat (destruct (symbol_eqb _ _); [apply helper_step_advance|]).
  cbn [snd]. eapply helper_step_trans; [apply helper_step_flag_here|].
  apply helper_step_advance.
Qed.

Lemma helper_step_end_of_declaration x :
  helper_step x (end_of_declaration x).
Proof.
  unfold end_of_declaration, accept.
  destruct (symbol_eqb _ _); cbn [negb]; [apply helper_step_advance|].
  eapply helper_step_trans; [apply helper_step_flag_prev|].
  apply helper_step_synchronize.
Qed.

(** The calls of the analyzer that only consult the table. *)
Lemma helper_step_on_sem (f : semantics -> semantics) x :
  (forall s, id_tab (f s) = id_tab s /\ err s `prefix_of` err (f s)) ->
  helper_step x (on_sem f x).
Proof.
  intros Hf. destruct (Hf (sem x)) as [Ht He].
  split; [done|]. by repeat split.
Qed.

Lemma helper_step_with_sem (f : semantics -> lille_ty * semantics) x :
  (forall s, id_tab (f s).2 = id_tab s /\ err s `prefix_of` err (f s).2) ->
  helper_step x (with_sem f x).2.
Proof.
  intros Hf. destruct (Hf (sem x)) as [Ht He]. unfold with_sem.
  destruct (f (sem x)) as [t s] eqn:E. cbn [snd] in *.
  split; [done|]. by repeat split.
Qed.

(** *** Steps of the parser *)

Lemma cg_step_discharge X X' c c' :
  cg_step X' c c' ->
  (forall l, l ∈ X' -> l ∈ X \/ is_Some (label_addresses c' !! l)) ->
  cg_step X c c'.
Proof.
  intros (Hp & Hc & Hl & Ho) HX. split; [done|]. split; [done|].
  split; [done|]. intros pending Hpend Hok.
  set (pending' := fun l => pending l \/ is_Some (label_addresses c' !! l)).
  assert (Hok' : operands_ok pending' c').
  { apply Ho.
    - intros l Hin. destruct (HX l Hin); [left; auto|by right].
    - intros i Hin. destruct (Hok i Hin) as [?|[?|[?|[?|?]]]].
      + by left.
      + by right; left.
      + by right; right; left.
      + right; right; right; left. by left.
      + by right; right; right; right. }
  intros i Hin. destruct (Hok' i Hin) as [?|[?|[?|[[?|?]|?]]]].
  - by left.
  - by right; left.
  - by right; right; left.
  - by right; right; right; left.
  - by right; right; right; right.
  - by right; right; right; right.
Qed.

(** The label of the body of the program is placed where it is made. *)
Lemma cg_step_gen_program_body_start X c x :
  cg_step X c x -> cg_step X c (gen_program_body_start x).
Proof.
  intros Hx. unfold gen_program_body_start, gen_new_label.
  cbv beta iota zeta.
  match goal with
  | |- cg_step X c (gen_label ?l _) =>
      apply (cg_step_discharge X (l :: X))
  end.
  - apply cg_step_gen_label, cg_step_emit, cg_step_emit_label;
      [apply list_elem_of_here|].
    eapply cg_step_weaken;
      [intros l0 Hl0; apply list_elem_of_further; exact Hl0|].
    apply cg_step_set_label_counter.
    destruct (0 <? _); [by apply cg_step_emit|done].
  - intros l0 [->|Hl]%elem_of_cons; [right|by left].
    unfold gen_label. cbn. apply lookup_insert_is_Some. by left.
Qed.

Lemma parsed_refl L M p : M <> table_opened -> parsed L 0 [] [] M false p p.
Proof.
  intros HM. split; [done|]. split; [lia|]. split; [done|]. split; [done|].
  split.
  - destruct M; [done|done|]. by intros t0 Ht0.
  - unfold cg_rel. destruct (cg p); [|done].
    split; [apply cg_step_refl|]. by intros l Hl%elem_of_nil.
Qed.

Lemma parsed_helper L dl ls pl M b p x y :
  parsed L dl ls pl M b p x -> helper_step x y -> parsed L dl ls pl M b p y.
Proof.
  intros (H1 & H2 & H3 & H4 & H5 & H6) (G1 & G2 & G3 & G4 & G5 & G6).
  split; [destruct b; lia|]. split; [congruence|]. split; [congruence|].
  split; [by etrans|]. split; [by rewrite G4|by rewrite G6].
Qed.

Lemma parsed_strict L dl ls pl M b p x y :
  parsed L dl ls pl M b p x -> helper_step x y ->
  (input_left y < input_left x)%nat ->
  parsed L dl ls pl M true p y.
Proof.
  intros Hx Hy Hlt. pose proof (parsed_helper _ _ _ _ _ _ _ _ _ Hx Hy) as Hp.
  destruct Hx as (H1 & _). destruct Hp as (_ & Hrest).
  split; [destruct b; lia|done].
Qed.

Lemma parsed_input L dl ls pl M b p x :
  parsed L dl ls pl M b p x ->
  (input_left x <= input_left p)%nat
  /\ (b = true -> (input_left x < input_left p)%nat).
Proof. intros (H1 & _). destruct b; split; (lia || done). Qed.

Lemma parsed_with_cg L dl ls pl M b p x (f : code_gen -> code_gen) :
  parsed L dl ls pl M b p x ->
  (forall c0 c, cg_step (L ++ loop_exit_labels p) c0 c ->
                cg_step (L ++ loop_exit_labels p) c0 (f c)) ->
  parsed L dl ls pl M b p (with_cg f x).
Proof.
  intros (H1 & H2 & H3 & H4 & H5 & H6) Hf.
  split; [done|]. split; [done|]. split; [done|]. split; [done|].
  split; [done|]. unfold with_cg, cg_rel in *. cbn [cg set_cg].
  destruct (cg p) as [c0|], (cg x) as [c|]; cbn [fmap option_fmap option_map];
    try done.
  destruct H6 as [Hstep Hpl]. split; [by apply Hf|].
  intros l Hl. destruct (Hf c c (cg_step_refl _ _)) as (_ & _ & Hmono & _).
  by apply Hmono, Hpl.
Qed.

Lemma parsed_gen_label L dl ls pl M b p x l :
  parsed L dl ls pl M b p x ->
  parsed L dl ls (l :: pl) M b p (with_cg (gen_label l) x).
Proof.
  intros Hx.
  pose proof (parsed_with_cg _ _ _ _ _ _ _ _ (gen_label l) Hx
                (fun c0 c => cg_step_gen_label _ l c0 c)) as Hy.
  destruct Hy as (H1 & H2 & H3 & H4 & H5 & H6).
  split; [done|]. split; [done|]. split; [done|]. split; [done|].
  split; [done|]. unfold with_cg, cg_rel in *. cbn [cg set_cg] in *.
  destruct (cg p) as [c0|], (cg x) as [c|];
    cbn [fmap option_fmap option_map] in *; try done.
  destruct H6 as [Hstep Hpl]. split; [done|].
  intros l' [->|Hl']%elem_of_cons; [|by apply Hpl].
  unfold gen_label. cbn. apply lookup_insert_is_Some. by left.
Qed.

Lemma parsed_with_cg_label L dl ls pl M b p x
    (f : code_gen -> string * code_gen) :
  parsed L dl ls pl M b p x ->
  (forall c0 c, cg_step (L ++ loop_exit_labels p) c0 c ->
                cg_step (L ++ loop_exit_labels p) c0 (f c).2) ->
  parsed L dl ls pl M b p (with_cg_label f x).2.
Proof.
  intros (H1 & H2 & H3 & H4 & H5 & H6) Hf.
  unfold with_cg_label. destruct (cg x) as [c|] eqn:Ecg.
  - destruct (f c) as [l c'] eqn:Ef. cbn [snd].
    split; [done|]. split; [done|]. split; [done|]. split; [done|].
    split; [done|]. unfold cg_rel in *. cbn [cg set_cg].
    destruct (cg p) as [c0|]; [|done].
    destruct H6 as [Hstep Hpl]. specialize (Hf c0 c Hstep) as Hf0.
    rewrite Ef in Hf0. split; [done|].
    intros l' Hl'. destruct (Hf c c (cg_step_refl _ _)) as (_ & _ & Hmono & _).
    rewrite Ef in Hmono. by apply Hmono, Hpl.
  - cbn [snd]. split; [done|]. split; [done|]. split; [done|].
    split; [done|]. split; [done|]. by rewrite Ecg.
Qed.

Lemma parsed_push L dl ls pl M b p x l :
  parsed L dl ls pl M b p x ->
  parsed L dl (l :: ls) pl M b p (push_exit_label l x).
Proof.
  intros (H1 & H2 & H3 & H4 & H5 & H6). split; [done|]. split; [done|].
  split; [|done]. unfold push_exit_label. cbn. by rewrite H3.
Qed.

Lemma parsed_pop L dl ls pl M b p x l :
  parsed L dl (l :: ls) pl M b p x ->
  parsed L dl ls pl M b p (pop_exit_label x).
Proof.
  intros (H1 & H2 & H3 & H4 & H5 & H6). split; [done|]. split; [done|].
  split; [|done]. unfold pop_exit_label. cbn. by rewrite H3.
Qed.

Lemma parsed_set_level L dl ls pl M b p x v :
  parsed L dl ls pl M b p x ->
  parsed L (v - current_level p) ls pl M b p (set_current_level v x).
Proof.
  intros (H1 & H2 & H3 & H4 & H5 & H6). split; [done|].
  split; [cbn; lia|done].
Qed.

Lemma parsed_level_up L dl ls pl M b p x :
  parsed L dl ls pl M b p x ->
  parsed L (dl + 1) ls pl M b p (set_current_level (current_level x + 1) x).
Proof.
  intros (H1 & H2 & H3 & H4 & H5 & H6). split; [done|].
  split; [cbn; lia|done].
Qed.

Lemma parsed_level_down L dl ls pl M b p x :
  parsed L dl ls pl M b p x ->
  parsed L (dl - 1) ls pl M b p (set_current_level (current_level x - 1) x).
Proof.
  intros (H1 & H2 & H3 & H4 & H5 & H6). split; [done|].
  split; [cbn; lia|done].
Qed.

Lemma parsed_level_eq L dl dl' ls pl M b p x :
  parsed L dl ls pl M b p x -> dl = dl' -> parsed L dl' ls pl M b p x.
Proof. by intros Hx <-. Qed.

Lemma parsed_not_strict L dl ls pl M b p x :
  parsed L dl ls pl M b p x -> parsed L dl ls pl M false p x.
Proof. intros (H1 & Hrest). split; [destruct b; lia|done]. Qed.

Lemma inner_frame_scopes t t1 : inner_frame t t1 -> scopes t1 <> [].
Proof. intros (f & -> & _). by destruct (scopes t). Qed.

Lemma parsed_open L dl ls pl b p x :
  parsed L dl ls pl table_same b p x ->
  parsed L dl ls pl table_opened b p (on_sem sem_open_scope x).
Proof.
  intros (H1 & H2 & H3 & H4 & H5 & H6). split; [done|]. split; [done|].
  split; [done|]. split; [done|]. split; [|done].
  intros Hne. cbn. rewrite (H5 Hne). apply inner_frame_open.
Qed.

Lemma err_declare_var name ty w s :
  err s `prefix_of` err (declare_var name ty w s).
Proof.
  unfold declare_var. destruct (lookup_local _ _); [by apply prefix_app_r|].
  by destruct (enter _ _).
Qed.

Lemma err_declare_const name ty w s :
  err s `prefix_of` err (declare_const name ty w s).
Proof.
  unfold declare_const. destruct (lookup_local _ _); [by apply prefix_app_r|].
  by destruct (enter _ _).
Qed.

Lemma inner_frame_declare_var t name ty w s :
  inner_frame t (id_tab s) -> inner_frame t (id_tab (declare_var name ty w s)).
Proof.
  intros Hin. rewrite declare_var_id_tab.
  destruct (lookup_local _ _); [done|]. by apply inner_frame_declare.
Qed.

Lemma inner_frame_declare_const t name ty w s :
  inner_frame t (id_tab s) ->
  inner_frame t (id_tab (declare_const name ty w s)).
Proof.
  intros Hin. rewrite declare_const_id_tab.
  destruct (lookup_local _ _); [done|]. by apply inner_frame_declare.
Qed.

(** A declaration, in a scope that was opened or among declarations. *)
Lemma parsed_declare L dl ls pl M b p x (f : semantics -> semantics) :
  M <> table_same ->
  (forall s, err s `prefix_of` err (f s)) ->
  (forall t s, inner_frame t (id_tab s) -> inner_frame t (id_tab (f s))) ->
  parsed L dl ls pl M b p x ->
  parsed L dl ls pl M b p (on_sem f x).
Proof.
  intros HM Herr Htab (H1 & H2 & H3 & H4 & H5 & H6).
  split; [done|]. split; [done|]. split; [done|].
  split; [cbn; etrans; [exact H4|apply Herr]|]. split; [|done].
  destruct M; [done| |]; cbn in *.
  - intros Hne. by apply Htab, H5.
  - intros t0 Ht0. by apply Htab, H5.
Qed.

Lemma close_and_dump_eq x :
  close_and_dump x =
    Some (dump_all_scopes (sem x),
          on_sem (fun s => (close_scope_and_dump s).2) x).
Proof. reflexivity. Qed.

Lemma parsed_close L dl ls pl b p x :
  parsed L dl ls pl table_opened b p x ->
  parsed L dl ls pl table_same b p
    (on_sem (fun s => (close_scope_and_dump s).2) x).
Proof.
  intros (H1 & H2 & H3 & H4 & H5 & H6). split; [done|]. split; [done|].
  split; [done|]. split; [done|]. split; [|done].
  intros Hne. cbn. by apply inner_frame_close, H5.
Qed.

Lemma cg_rel_sub L L' ls pl pl' (stack : list string) c cx cy :
  (forall l, l ∈ L' ++ ls -> l ∈ L) ->
  cg_rel (L ++ stack) pl c cx ->
  cg_rel (L' ++ (ls ++ stack)) pl' cx cy ->
  cg_rel (L ++ stack) pl c cy.
Proof.
  intros Hls. unfold cg_rel.
  destruct c as [c|], cx as [cx|], cy as [cy|]; try done.
  intros [Hstep Hpl] [Hstep' _]. split.
  - eapply cg_step_trans; [exact Hstep|].
    eapply cg_step_weaken; [|exact Hstep'].
    intros l Hl. rewrite app_assoc in Hl.
    apply elem_of_app in Hl as [Hl|Hl]; apply elem_of_app; auto.
  - intros l Hl. destruct Hstep' as (_ & _ & Hmono & _). by apply Hmono, Hpl.
Qed.

(** A part that leaves the table as it is, after any part. *)
Lemma parsed_sub_same L L' dl ls pl pl' M b b' p x y :
  parsed L dl ls pl M b p x ->
  parsed L' 0 [] pl' table_same b' x y ->
  (forall l, l ∈ L' ++ ls -> l ∈ L) ->
  parsed L dl ls pl M b p y.
Proof.
  intros (H1 & H2 & H3 & H4 & H5 & H6) (G1 & G2 & G3 & G4 & G5 & G6) Hls.
  split; [destruct b, b'; lia|]. split; [lia|].
  split; [by rewrite G3, H3|]. split; [by etrans|]. split.
  - cbn in G5. destruct M; cbn in *.
    + intros Hne. rewrite G5; rewrite (H5 Hne); done.
    + intros Hne. specialize (H5 Hne). rewrite G5; [done|].
      by eapply inner_frame_scopes.
    + intros t0 Ht0. specialize (H5 t0 Ht0). rewrite G5; [done|].
      by eapply inner_frame_scopes.
  - rewrite H3 in G6. by eapply cg_rel_sub.
Qed.

(** A part that declares, in a scope that was opened or among
    declarations. *)
Lemma parsed_sub_declared L L' dl ls pl pl' M b b' p x y :
  M <> table_same ->
  parsed L dl ls pl M b p x ->
  parsed L' 0 [] pl' table_declared b' x y ->
  (forall l, l ∈ L' ++ ls -> l ∈ L) ->
  parsed L dl ls pl M b p y.
Proof.
  intros HM (H1 & H2 & H3 & H4 & H5 & H6) (G1 & G2 & G3 & G4 & G5 & G6) Hls.
  split; [destruct b, b'; lia|]. split; [lia|].
  split; [by rewrite G3, H3|]. split; [by etrans|]. split.
  - cbn in G5. destruct M; [done| |]; cbn in *.
    + intros Hne. by apply G5, H5.
    + intros t0 Ht0. by apply G5, H5.
  - rewrite H3 in G6. by eapply cg_rel_sub.
Qed.

(** The labels of a part, once placed, are no longer its concern. *)
Lemma parsed_discharge L L' dl ls pl M b p q :
  parsed L dl ls pl M b p q ->
  (forall l, l ∈ L -> l ∈ pl ++ L') ->
  parsed L' dl ls [] M b p q.
Proof.
  intros (H1 & H2 & H3 & H4 & H5 & H6) HL. split; [done|]. split; [done|].
  split; [done|]. split; [done|]. split; [done|].
  unfold cg_rel in *. destruct (cg p) as [c|], (cg q) as [c'|]; try done.
  destruct H6 as [Hstep Hpl]. split; [|by intros l Hl%elem_of_nil].
  eapply cg_step_discharge; [exact Hstep|].
  intros l [Hl|Hl]%elem_of_app.
  - apply HL in Hl. apply elem_of_app in Hl as [Hl|Hl].
    + right. by apply Hpl.
    + left. apply elem_of_app. by left.
  - left. apply elem_of_app. by right.
Qed.

Lemma parsed_locals L L' dl ls pl M b p q :
  parsed L dl ls pl M b p q ->
  (forall l, l ∈ L -> l ∈ L') ->
  parsed L' dl ls pl M b p q.
Proof.
  intros (H1 & H2 & H3 & H4 & H5 & H6) HL. split; [done|]. split; [done|].
  split; [done|]. split; [done|]. split; [done|].
  unfold cg_rel in *. destruct (cg p) as [c|], (cg q) as [c'|]; try done.
  destruct H6 as [Hstep Hpl]. split; [|done].
  eapply cg_step_weaken; [|exact Hstep].
  intros l [Hl|Hl]%elem_of_app; apply elem_of_app; auto.
Qed.

Lemma parsed_same_declared L dl ls pl b p q :
  parsed L dl ls pl table_same b p q ->
  parsed L dl ls pl table_declared b p q.
Proof.
  intros (H1 & H2 & H3 & H4 & H5 & H6). split; [done|]. split; [done|].
  split; [done|]. split; [done|]. split; [|done].
  cbn in *. intros t0 Ht0. rewrite H5; [done|]. by eapply inner_frame_scopes.
Qed.

Lemma parsed_foldl {A} L dl ls pl M b p (g : Parser -> A -> Parser) l x :
  (forall y a, parsed L dl ls pl M b p y -> parsed L dl ls pl M b p (g y a)) ->
  parsed L dl ls pl M b p x ->
  parsed L dl ls pl M b p (foldl g x l).
Proof.
  intros Hg. revert x. induction l as [|a l IH]; intros x Hx; [done|].
  cbn [foldl]. apply IH. by apply Hg.
Qed.

(** The invariant of a loop holds when the loop is left, and its
    condition does not. *)
Lemma while_invariant {A : Type} (I : A -> Prop) (cond : A -> bool)
    (body : A -> option A) (fuel : nat) (st st' : A) :
  (forall a a', I a -> cond a = true -> body a = Some a' -> I a') ->
  I st ->
  while fuel cond body st = Some st' ->
  I st' /\ cond st' = false.
Proof.
  intros Hbody. revert st. induction fuel as [|fuel IH]; intros st Hst;
    cbn [while]; destruct (cond st) eqn:Hc; try done.
  - by intros [= <-].
  - destruct (body st) as [a'|] eqn:Hb; [|done]. cbn [mbind option_bind].
    apply IH. by eapply Hbody.
  - by intros [= <-].
Qed.

(** *** The analyzer as the parser calls it *)

Lemma sem_quiet_require_boolean T w s :
  id_tab (require_boolean T w s) = id_tab s
  /\ err s `prefix_of` err (require_boolean T w s).
Proof.
  split; [apply require_boolean_id_tab|]. unfold require_boolean.
  repeat case_if; first [done | by apply prefix_app_r].
Qed.

Lemma sem_quiet_check_assignment name rhs w s :
  id_tab (check_assignment name rhs w s) = id_tab s
  /\ err s `prefix_of` err (check_assignment name rhs w s).
Proof.
  split; [apply check_assignment_id_tab|]. unfold check_assignment.
  destruct (lookup _ _); [|by apply prefix_app_r].
  destruct (deref _ _); [|done].
  repeat case_if; first [done | by apply prefix_app_r].
Qed.

Lemma sem_quiet_lookup_type name w s :
  id_tab (lookup_type name w s).2 = id_tab s
  /\ err s `prefix_of` err (lookup_type name w s).2.
Proof.
  split; [apply lookup_type_id_tab|]. unfold lookup_type.
  repeat (case_if; [done|]).
  destruct (lookup _ _); [|by apply prefix_app_r]. by destruct (deref _ _).
Qed.

Lemma sem_quiet_check_binary L op R w s :
  id_tab (check_binary L op R w s).2 = id_tab s
  /\ err s `prefix_of` err (check_binary L op R w s).2.
Proof.
  split; [apply check_binary_id_tab|]. unfold check_binary.
  repeat case_if; first [done | by apply prefix_app_r].
Qed.

Lemma sem_quiet_check_unary op T w s :
  id_tab (check_unary op T w s).2 = id_tab s
  /\ err s `prefix_of` err (check_unary op T w s).2.
Proof.
  split; [apply check_unary_id_tab|]. unfold check_unary.
  repeat case_if; first [done | by apply prefix_app_r].
Qed.

(** *** Tactics for the functions of the grammar *)

Create HintDb emitter discriminated.
#[local] Hint Unfold gen_call_start gen_program_end gen_procedure_body_start
  gen_function_body_start gen_procedure_return gen_function_return gen_write
  gen_writeln gen_add gen_subtract gen_multiply gen_divide gen_power
  gen_negate gen_odd gen_and gen_or gen_not gen_concat : emitter.

(** [l ∈ L], and [l ∈ L ++ stack], for a list [L] that is written out. *)
Ltac in_list :=
  solve [ assumption
        | repeat match goal with
                 | |- ?l ∈ ?a :: _ =>
                     first [ constr_eq l a; apply list_elem_of_here
                           | apply list_elem_of_further ]
                 end ].
Ltac in_labels :=
  apply elem_of_app; first [ left; in_list | right; in_list ].
Ltac incl_list :=
  let l := fresh "l" in
  let Hl := fresh "Hl" in
  intros l Hl; cbn [app] in Hl |- *;
  repeat match goal with
         | H : _ ∈ _ :: _ |- _ => apply elem_of_cons in H as [->|H]
         | H : _ ∈ [] |- _ => by apply elem_of_nil in H
         end;
  in_list.

(** Each label of [L] is placed, or is one of those that are left. *)
Ltac discharged :=
  let l := fresh "l" in
  let Hl := fresh "Hl" in
  intros l Hl; cbn [app] in Hl |- *;
  repeat match goal with
         | H : _ ∈ _ :: _ |- _ => apply elem_of_cons in H as [->|H]
         | H : _ ∈ [] |- _ => by apply elem_of_nil in H
         end;
  first [ in_list | apply elem_of_app; first [left; in_list | right; in_list] ].

(** The condition of parsed_with_cg and parsed_with_cg_label. *)
Ltac cg_side :=
  let c0 := fresh "c0" in
  let c := fresh "c" in
  let Hc := fresh "Hc" in
  intros c0 c Hc;
  lazymatch goal with
  | |- cg_step _ _ (gen_variable _ _ _) => by apply cg_step_gen_variable
  | |- cg_step _ _ (gen_store _ _ _) => by apply cg_step_gen_store
  | |- cg_step _ _ (gen_load_int _ _) => by apply cg_step_gen_load_int
  | |- cg_step _ _ (gen_load_real _ _) => by apply cg_step_gen_load_real
  | |- cg_step _ _ (gen_load_string _ _) => by apply cg_step_gen_load_string
  | |- cg_step _ _ (gen_load_bool _ _) => by apply cg_step_gen_load_bool
  | |- cg_step _ _ (gen_load _ _ _) => by apply cg_step_gen_load
  | |- cg_step _ _ (gen_comparison _ _) => by apply cg_step_gen_comparison
  | |- cg_step _ _ (gen_call _ _ _ _) => by apply cg_step_gen_call
  | |- cg_step _ _ (gen_function_call _ _ _ _) =>
      by apply cg_step_gen_function_call
  | |- cg_step _ _ (gen_read _ _ _ _) => by apply cg_step_gen_read
  | |- cg_step _ _ (gen_for_init _ _ _ _) => by apply cg_step_gen_for_init
  | |- cg_step _ _ (gen_for_step _ _ _ _) => by apply cg_step_gen_for_step
  | |- cg_step _ _ (gen_program_start _ _) =>
      by apply cg_step_gen_program_start
  | |- cg_step _ _ (gen_program_body_start _) =>
      by apply cg_step_gen_program_body_start
  | |- cg_step _ _ (gen_procedure_end _ _) =>
      by apply cg_step_gen_procedure_end
  | |- cg_step _ _ (gen_function_end _ _) => by apply cg_step_gen_function_end
  | |- cg_step _ _ (gen_jump _ _) =>
      apply cg_step_gen_jump; [in_labels|assumption]
  | |- cg_step _ _ (gen_jump_false _ _) =>
      apply cg_step_gen_jump_false; [in_labels|assumption]
  | |- cg_step _ _ (gen_jump_true _ _) =>
      apply cg_step_gen_jump_true; [in_labels|assumption]
  | |- cg_step _ _ (gen_for_test _ _ _ _ _) =>
      apply cg_step_gen_for_test; [in_labels|assumption]
  | |- cg_step _ _ (gen_new_label _).2 => by apply cg_step_gen_new_label
  | |- cg_step _ _ (gen_procedure_start _ _).2 =>
      by apply cg_step_gen_procedure_start
  | |- cg_step _ _ (gen_function_start _ _).2 =>
      by apply cg_step_gen_function_start
  | |- _ => autounfold with emitter; by apply cg_step_emit
  end.

(** The condition of helper_step_on_sem and helper_step_with_sem. *)
Ltac sem_side :=
  intros ?;
  first [ apply sem_quiet_require_boolean
        | apply sem_quiet_check_assignment
        | apply sem_quiet_lookup_type
        | apply sem_quiet_check_binary
        | apply sem_quiet_check_unary ].

Ltac helper_side :=
  first [ apply helper_step_expect
        | apply helper_step_advance
        | apply helper_step_accept
        | apply helper_step_flag_here
        | apply helper_step_flag_prev
        | apply helper_step_synchronize
        | apply helper_step_optional
        | apply helper_step_parse_type
        | apply helper_step_end_of_declaration
        | apply helper_step_on_sem; sem_side
        | apply helper_step_with_sem; sem_side ].

(** [parsed L _ _ _ _ _ p X], from the facts on the states that [X] is
    made of. *)
Ltac chain_helper lem := eapply parsed_helper; [|apply lem].
Ltac chain_on_sem lem :=
  eapply parsed_helper; [|apply helper_step_on_sem; intros ?; apply lem].
Ltac chain_with_sem lem :=
  eapply parsed_helper; [|apply helper_step_with_sem; intros ?; apply lem].
Ltac chain :=
  lazymatch goal with
  | |- parsed _ _ _ _ _ _ ?p ?X =>
      first
        [ match goal with
          | H : parsed _ _ _ _ _ _ p X |- _ =>
              first [exact H | eapply parsed_not_strict; exact H]
          end
        | constr_eq X p;
          first [ apply (parsed_refl _ table_same); discriminate
                | apply (parsed_refl _ table_declared); discriminate ]
        | lazymatch X with
          | expect _ _ _ => chain_helper helper_step_expect; chain
          | advance _ => chain_helper helper_step_advance; chain
          | (accept _ _).2 => chain_helper helper_step_accept; chain
          | flag_here _ _ => chain_helper helper_step_flag_here; chain
          | flag_prev _ _ => chain_helper helper_step_flag_prev; chain
          | synchronize _ _ => chain_helper helper_step_synchronize; chain
          | optional _ _ => chain_helper helper_step_optional; chain
          | (parse_type _).2 => chain_helper helper_step_parse_type; chain
          | end_of_declaration _ =>
              chain_helper helper_step_end_of_declaration; chain
          | on_sem (require_boolean _ _) _ =>
              chain_on_sem sem_quiet_require_boolean; chain
          | on_sem (check_assignment _ _ _) _ =>
              chain_on_sem sem_quiet_check_assignment; chain
          | (with_sem (lookup_type _ _) _).2 =>
              chain_with_sem sem_quiet_lookup_type; chain
          | (with_sem (check_binary _ _ _ _) _).2 =>
              chain_with_sem sem_quiet_check_binary; chain
          | (with_sem (check_unary _ _ _) _).2 =>
              chain_with_sem sem_quiet_check_unary; chain
          | on_sem sem_open_scope _ => eapply parsed_open; chain
          | on_sem (fun s => (close_scope_and_dump s).2) _ =>
              eapply parsed_close; chain
          | on_sem (declare_var _ _ _) _ =>
              eapply parsed_declare; cycle 3;
              [chain|discriminate|intros ?; apply err_declare_var
              |intros ? ?; apply inner_frame_declare_var]
          | on_sem (declare_const _ _ _) _ =>
              eapply parsed_declare; cycle 3;
              [chain|discriminate|intros ?; apply err_declare_const
              |intros ? ?; apply inner_frame_declare_const]
          | with_cg (gen_label _) _ => eapply parsed_gen_label; chain
          | with_cg _ _ => eapply parsed_with_cg; [|cg_side]; chain
          | (with_cg_label _ _).2 =>
              eapply parsed_with_cg_label; [|cg_side]; chain
          | push_exit_label _ _ => eapply parsed_push; chain
          | pop_exit_label _ => eapply parsed_pop; chain
          | set_current_level (current_level _ + 1) _ =>
              eapply parsed_level_up; chain
          | set_current_level (current_level _ - 1) _ =>
              eapply parsed_level_down; chain
          | set_current_level _ _ => eapply parsed_set_level; chain
          | if ?b then _ else _ => destruct b; chain
          | match ?l with [] => _ | _ :: _ => _ end => destruct l; chain
          | match ?o with Some _ => _ | None => _ end => destruct o; chain
          end ]
  end.

(** The pairs that a helper returns, as their two parts. *)
Ltac split_pairs :=
  repeat match goal with
         | |- context [let '(_, _) := ?e in _] =>
             let a := fresh "a" in
             let b := fresh "b" in
             let E := fresh "E" in
             let Ea := fresh "Ea" in
             let Eb := fresh "Eb" in
             destruct e as [a b] eqn:E;
             pose proof (f_equal fst E) as Ea;
             pose proof (f_equal snd E) as Eb;
             cbn [fst snd] in Ea, Eb; clear E; subst a b;
             lazy beta iota zeta; cbn [fst snd]
         end.

Ltac step_goal :=
  cbn [mbind option_bind]; lazy beta iota zeta; cbn [fst snd]; split_pairs.

(** [input_left X < k], from the facts on the states that [X] is made
    of. *)
Ltac input_bound L p :=
  match goal with
  | |- (input_left ?X < _)%nat =>
      let HX := fresh "HX" in
      let Hlt := fresh "Hlt" in
      eassert (HX : parsed L _ _ _ _ _ p X) by chain;
      pose proof (proj1 HX) as Hlt; cbn beta iota in Hlt; lia
  | |- (input_left ?X <= _)%nat =>
      let HX := fresh "HX" in
      let Hlt := fresh "Hlt" in
      eassert (HX : parsed L _ _ _ _ _ p X) by chain;
      pose proof (proj1 HX) as Hlt; cbn beta iota in Hlt; lia
  end.

(** The fact [Hq0] on a part that went from [X] to [q], after what went
    from [p] to [X]. *)
Ltac compose L p Hq0 Hq :=
  lazymatch type of Hq0 with
  | parsed _ _ _ _ table_same _ ?X ?q =>
      eassert (Hq : parsed L _ _ _ _ _ p q)
        by (eapply parsed_sub_same; [|exact Hq0|]; [chain|incl_list])
  | parsed _ _ _ _ table_declared _ ?X ?q =>
      eassert (Hq : parsed L _ _ _ _ _ p q)
        by (eapply parsed_sub_declared; [| |exact Hq0|];
              [|chain|incl_list]; discriminate)
  end; clear Hq0.

(** The next call of an expression function [f], of which [Hf] says
    that it parses: the call returns [t] and [q]. *)
Ltac call_expr Hf L p t q Hq :=
  lazymatch type of Hf with
  | eparses ?k ?f =>
      match goal with
      | |- context [f ?X] =>
          let HX := fresh "HX" in
          let Hlt := fresh "Hlt" in
          let Hq0 := fresh "Hq0" in
          eassert (HX : parsed L _ _ _ _ _ p X) by chain;
          assert (Hlt : (input_left X < k)%nat)
            by (pose proof (proj1 HX) as Hlt; cbn beta iota in Hlt; lia);
          destruct (Hf X Hlt) as (t & q & -> & Hq0);
          eassert (Hq : parsed L _ _ _ _ _ p q)
            by (eapply parsed_sub_same; [exact HX|exact Hq0|incl_list]);
          clear HX Hq0 Hlt; step_goal
      end
  end.

(** The end of a proof that a function parses. *)
Ltac finish_chain L p :=
  let Hfin := fresh "Hfin" in
  match goal with
  | |- parsed _ _ _ _ _ _ _ ?X =>
      eassert (Hfin : parsed L _ _ _ _ _ p X) by chain;
      first
        [ eapply parsed_level_eq;
          [eapply (parsed_discharge L); [exact Hfin|discharged]|lia]
        | eapply parsed_not_strict; eapply parsed_level_eq;
          [eapply (parsed_discharge L); [exact Hfin|discharged]|lia] ]
  end.
Ltac finish L p :=
  match goal with
  | |- exists t q, Some ?r = Some (t, q) /\ @?P t q =>
      exists r.1, r.2;
      split; [first [reflexivity | by destruct r]|];
      cbn [fst snd]; finish_chain L p
  end.

(** *** Loops *)

(** A loop returns when each turn that does not end it consumes input:
    [w] weighs the states in which the loop has been told to stop. *)
Lemma while_parses {A : Type} (proj : A -> Parser) (w : A -> nat)
    (I : A -> Prop) (cond : A -> bool) (body : A -> option A)
    (k fuel : nat) (st : A) :
  (forall st, cond st = true -> (1 <= input_left (proj st) + w st)%nat) ->
  (forall st, I st -> cond st = true -> (input_left (proj st) < k)%nat ->
     exists st', body st = Some st' /\ I st'
       /\ (input_left (proj st') + w st' < input_left (proj st) + w st)%nat
       /\ (input_left (proj st') <= input_left (proj st))%nat) ->
  I st ->
  (input_left (proj st) < k)%nat ->
  (input_left (proj st) + w st <= fuel)%nat ->
  exists st', while fuel cond body st = Some st' /\ I st'
              /\ cond st' = false
              /\ (input_left (proj st') <= input_left (proj st))%nat.
Proof.
  intros Hcond Hbody. revert st.
  induction fuel as [|fuel IH]; intros st HI Hk Hfuel; cbn [while];
    destruct (cond st) eqn:Hc; eauto.
  - apply Hcond in Hc. lia.
  - destruct (Hbody st HI Hc Hk) as (st1 & -> & HI1 & Hlt & Hle).
    cbn [mbind option_bind].
    destruct (IH st1 HI1) as (st' & Hw & HI' & Hc' & Hle'); [lia|lia|].
    exists st'. split; [done|]. split; [done|]. split; [done|lia].
Qed.

Lemma parsed_trans M b b' x y z :
  M <> table_opened ->
  parsed [] 0 [] [] M b x y -> parsed [] 0 [] [] M b' y z ->
  parsed [] 0 [] [] M false x z.
Proof.
  intros HM Hxy Hyz. apply parsed_not_strict with b.
  destruct M; [|done|].
  - eapply parsed_sub_same; [exact Hxy|exact Hyz|].
    by intros l Hl%elem_of_nil.
  - eapply parsed_sub_declared; [done|exact Hxy|exact Hyz|].
    by intros l Hl%elem_of_nil.
Qed.

Lemma accept_true s x :
  (accept s x).1 = true -> symbol_eqb (S x) s = true.
Proof. unfold accept. by destruct (symbol_eqb (S x) s). Qed.

Lemma accept_false s x :
  (accept s x).1 = false -> (accept s x).2 = x.
Proof. unfold accept. by destruct (symbol_eqb (S x) s). Qed.

Lemma input_left_at (s : symbol.symbol_type) x :
  symbol_eqb (S x) s = true -> s <> symbol.end_of_program ->
  (1 <= input_left x)%nat.
Proof.
  intros Hs Hne. unfold input_left. apply symbol_eqb_eq in Hs. rewrite Hs.
  rewrite symbol_eqb_neq by done. lia.
Qed.

(** A token that is accepted, or expected where it stands, is
    consumed. *)
Lemma parsed_accept L dl ls pl M b p x s :
  parsed L dl ls pl M b p x ->
  (accept s x).1 = true -> s <> symbol.end_of_program ->
  parsed L dl ls pl M true p (accept s x).2.
Proof.
  intros Hx Ha Hs. eapply parsed_strict; [exact Hx|apply helper_step_accept|].
  apply accept_true in Ha. unfold accept. rewrite Ha. cbn [snd].
  by apply (input_left_advance_at s).
Qed.

Lemma parsed_advance L dl ls pl M b p x :
  parsed L dl ls pl M b p x ->
  symbol_eqb (S x) symbol.end_of_program = false ->
  parsed L dl ls pl M true p (advance x).
Proof.
  intros Hx Hs. eapply parsed_strict; [exact Hx|apply helper_step_advance|].
  by apply input_left_advance_lt.
Qed.

Lemma expect_skip_at n s x :
  symbol_eqb (S x) s = true -> expect_skip n s x = x.
Proof. intros Hs. destruct n; cbn [expect_skip]; [done|]. by rewrite Hs. Qed.

Lemma parsed_expect_at L dl ls pl M b p x s e :
  parsed L dl ls pl M b p x ->
  symbol_eqb (S x) s = true -> s <> symbol.end_of_program ->
  parsed L dl ls pl M true p (expect s e x).
Proof.
  intros Hx Ha Hs. eapply parsed_strict; [exact Hx|apply helper_step_expect|].
  unfold expect. destruct (recovering x).
  - rewrite expect_skip_at by done. rewrite Ha.
    change (input_left (set_recovering false ?q)) with (input_left q).
    by apply (input_left_advance_at s).
  - rewrite Ha. by apply (input_left_advance_at s).
Qed.

(** *** Expressions *)

Lemma call_arguments_eparses fuel expr k (st : Z * Parser) :
  eparses k expr ->
  (input_left st.2 < k)%nat -> (k <= Datatypes.S fuel)%nat ->
  exists st', call_arguments fuel expr st = Some st'
              /\ parsed [] 0 [] [] table_same false st.2 st'.2.
Proof.
  intros Hexpr Hk Hfuel. unfold call_arguments.
  match goal with
  | |- context [while fuel ?cond ?body st] =>
      destruct (while_parses snd (fun _ => 0%nat)
                  (fun st' => parsed [] 0 [] [] table_same false st.2 st'.2)
                  cond body k fuel st)
        as (st' & -> & HI & _)
  end.
  - intros [n x] Hc. cbn [snd] in *. apply accept_true in Hc.
    pose proof (input_left_at _ _ Hc ltac:(done)). lia.
  - intros [n x] HI Hc Hx. cbn [fst snd] in *.
    assert (Hs : parsed [] 0 [] [] table_same true x
                   (accept symbol.comma_sym x).2).
    { eapply parsed_accept; [by apply parsed_refl|done|done]. }
    call_expr Hexpr (@nil string) x t q Hq.
    eexists. split; [reflexivity|]. cbn [fst snd].
    pose proof (proj1 Hq) as Hlt. cbn beta iota in Hlt.
    split; [|lia]. eapply parsed_trans; [done|exact HI|exact Hq].
  - by apply parsed_refl.
  - done.
  - lia.
  - eauto.
Qed.

Lemma start_advance L M p :
  M <> table_opened ->
  symbol_eqb (S p) symbol.end_of_program = false ->
  parsed L 0 [] [] M true p (advance p).
Proof. intros HM Hs. eapply parsed_advance; [by apply parsed_refl|done]. Qed.

Lemma start_expect L M p s e :
  M <> table_opened ->
  symbol_eqb (S p) s = true -> s <> symbol.end_of_program ->
  parsed L 0 [] [] M true p (expect s e p).
Proof.
  intros HM Hs Hne. eapply parsed_expect_at; [by apply parsed_refl|done|done].
Qed.

Lemma primary_with_eparses fuel expr k :
  eparses k expr -> (k <= Datatypes.S fuel)%nat ->
  eparses (Datatypes.S k) (primary_with fuel expr).
Proof.
  intros Hexpr Hfuel p Hp. unfold primary_with.
  destruct (S p) eqn:HS; step_goal.
  all: try (finish (@nil string) p).
  - (* an identifier *)
    assert (H1 : parsed [] 0 [] [] table_same true p (advance p))
      by (apply start_advance; [done|by rewrite HS]).
    destruct (accept symbol.left_paren_sym (advance p)).1 eqn:Hb.
    + destruct (negb _) eqn:Hrp.
      * call_expr Hexpr (@nil string) p t q Hq.
        destruct (call_arguments_eparses fuel expr k (0 + 1, q) Hexpr)
          as ([n q'] & -> & Hq'0);
          [cbn [snd]; input_bound (@nil string) p|done|].
        cbn [snd] in Hq'0. compose (@nil string) p Hq'0 Hq'. step_goal.
        finish (@nil string) p.
      * step_goal. finish (@nil string) p.
    + finish (@nil string) p.
  - (* a parenthesis *)
    assert (H1 : parsed [] 0 [] [] table_same true p (advance p))
      by (apply start_advance; [done|by rewrite HS]).
    call_expr Hexpr (@nil string) p t q Hq. finish (@nil string) p.
Qed.

Lemma factor_with_eparses primary k :
  eparses k primary -> eparses k (factor_with primary).
Proof.
  intros Hprimary p Hp. unfold factor_with.
  destruct (_ || _) eqn:Hop; step_goal.
  - call_expr Hprimary (@nil string) p t q Hq.
    repeat case_if; finish (@nil string) p.
  - call_expr Hprimary (@nil string) p t q Hq.
    destruct (symbol_eqb (S q) symbol.power_sym) eqn:Hpow; step_goal;
      [|finish (@nil string) p].
    assert (H1 : parsed [] 0 [] [] table_same true p (advance q)).
    { eapply parsed_advance; [exact Hq|].
      apply symbol_eqb_eq in Hpow. by rewrite Hpow. }
    call_expr Hprimary (@nil string) p t' q' Hq'. finish (@nil string) p.
Qed.

(** The loops of term and simple_expr: an operator, an operand, and the
    instruction and the check of the operator. *)
Lemma operator_loop_eparses (operand : Parser -> parse_result)
    (is_op : symbol.symbol_type -> bool)
    (emit_op : symbol.symbol_type -> Parser -> Parser)
    (k fuel : nat) (r : lille_ty * Parser) :
  eparses k operand ->
  is_op symbol.end_of_program = false ->
  (forall op x y, parsed [] 0 [] [] table_same true x y ->
                  parsed [] 0 [] [] table_same true x (emit_op op y)) ->
  (input_left r.2 < k)%nat -> (k <= Datatypes.S fuel)%nat ->
  exists r',
    while fuel (fun r => is_op (S r.2))
      (fun r =>
         let '(result, p) := r in
         let op_tok := look p in
         let op := S p in
         let p := advance p in
         '(right_, p) ← operand p;
         let p := emit_op op p in
         Some (with_sem (check_binary result op right_ op_tok) p)) r
      = Some r'
    /\ parsed [] 0 [] [] table_same false r.2 r'.2.
Proof.
  intros Hoperand Hend Hemit Hk Hfuel.
  match goal with
  | |- context [while fuel ?cond ?body r] =>
      destruct (while_parses snd (fun _ => 0%nat)
                  (fun r' => parsed [] 0 [] [] table_same false r.2 r'.2)
                  cond body k fuel r)
        as (r' & -> & HI & _)
  end.
  - intros [t x] Hc. cbn [snd] in *.
    assert (symbol_eqb (S x) symbol.end_of_program = false) as Hne.
    { destruct (symbol_eqb (S x) symbol.end_of_program) eqn:E; [|done].
      apply symbol_eqb_eq in E. rewrite E in Hc. congruence. }
    unfold input_left. rewrite Hne. lia.
  - intros [t x] HI Hc Hx. cbn [fst snd] in *. step_goal.
    assert (H1 : parsed [] 0 [] [] table_same true x (advance x)).
    { apply start_advance; [done|].
      destruct (symbol_eqb (S x) symbol.end_of_program) eqn:E; [|done].
      apply symbol_eqb_eq in E. rewrite E in Hc. congruence. }
    call_expr Hoperand (@nil string) x t' q Hq.
    eexists. split; [reflexivity|].
    assert (Hfin : parsed [] 0 [] [] table_same true x
                     (with_sem (check_binary t (S x) t' (look x))
                        (emit_op (S x) q)).2).
    { eapply parsed_helper; [|helper_side]. by apply Hemit. }
    pose proof (proj1 Hfin) as Hlt. cbn beta iota in Hlt.
    split; [|lia]. eapply parsed_trans; [done|exact HI|exact Hfin].
  - by apply parsed_refl.
  - done.
  - lia.
  - eauto.
Qed.

(** The result [Hw] of a loop lemma, put in place of the loop. *)
Ltac put_loop Hw :=
  lazymatch type of Hw with
  | _ = Some ?r' =>
      match goal with
      | |- context [while ?fuel ?cond ?body ?st] =>
          let Hw' := fresh "Hw" in
          assert (Hw' : while fuel cond body st = Some r') by exact Hw;
          rewrite Hw'; clear Hw' Hw
      end
  end.

Lemma term_with_eparses fuel factor k :
  eparses k factor -> (k <= Datatypes.S fuel)%nat ->
  eparses k (term_with fuel factor).
Proof.
  intros Hfactor Hfuel p Hp. unfold term_with.
  call_expr Hfactor (@nil string) p t q Hq.
  destruct (operator_loop_eparses factor
              (fun s => symbol_eqb s symbol.asterisk_sym
                        || symbol_eqb s symbol.slash_sym
                        || symbol_eqb s symbol.and_sym)
              (fun op p =>
                 match op with
                 | symbol.asterisk_sym => with_cg gen_multiply p
                 | symbol.slash_sym => with_cg gen_divide p
                 | symbol.and_sym => with_cg gen_and p
                 | _ => p
                 end)
              k fuel (t, q) Hfactor)
    as ([t' q'] & Hw & Hq'0); [done| | |done|].
  - intros op x y Hy. destruct op; first [exact Hy | chain].
  - cbn [snd]. input_bound (@nil string) p.
  - put_loop Hw. cbn [snd] in Hq'0. compose (@nil string) p Hq'0 Hq'.
    finish (@nil string) p.
Qed.

Lemma simple_expr_with_eparses fuel term k :
  eparses k term -> (k <= Datatypes.S fuel)%nat ->
  eparses k (simple_expr_with fuel term).
Proof.
  intros Hterm Hfuel p Hp. unfold simple_expr_with.
  assert (Hloop : forall t q,
            parsed [] 0 [] [] table_same false p q ->
            exists r',
              while fuel
                (fun r => symbol_eqb (S r.2) symbol.plus_sym
                          || symbol_eqb (S r.2) symbol.minus_sym
                          || symbol_eqb (S r.2) symbol.or_sym
                          || symbol_eqb (S r.2) symbol.ampersand_sym)
                (fun r =>
                   let '(result, p) := r in
                   let op_tok := look p in
                   let op := S p in
                   let p := advance p in
                   '(right_, p) ← term p;
                   let p :=
                     match op with
                     | symbol.plus_sym => with_cg gen_add p
                     | symbol.minus_sym => with_cg gen_subtract p
                     | symbol.or_sym => with_cg gen_or p
                     | symbol.ampersand_sym => with_cg gen_concat p
                     | _ => p
                     end in
                   Some (with_sem (check_binary result op right_ op_tok) p))
                (t, q) = Some r'
              /\ parsed [] 0 [] [] table_same false p r'.2).
  { intros t q Hq.
    destruct (operator_loop_eparses term
                (fun s => symbol_eqb s symbol.plus_sym
                          || symbol_eqb s symbol.minus_sym
                          || symbol_eqb s symbol.or_sym
                          || symbol_eqb s symbol.ampersand_sym)
                (fun op p =>
                   match op with
                   | symbol.plus_sym => with_cg gen_add p
                   | symbol.minus_sym => with_cg gen_subtract p
                   | symbol.or_sym => with_cg gen_or p
                   | symbol.ampersand_sym => with_cg gen_concat p
                   | _ => p
                   end)
                k fuel (t, q) Hterm)
      as (r' & Hw & Hq'0); [done| | |done|].
    - intros op x y Hy. destruct op; first [exact Hy | chain].
    - cbn [snd]. input_bound (@nil string) p.
    - exists r'. split; [exact Hw|]. cbn [snd] in Hq'0.
      eapply parsed_trans; [done|exact Hq|exact Hq'0]. }
  destruct (_ || _) eqn:Hop; step_goal;
    call_expr Hterm (@nil string) p t q Hq;
    match goal with
    | |- context [while fuel _ _ (?t0, ?q0)] =>
        destruct (Hloop t0 q0) as ([t' q'] & Hw & Hq'); [chain|]
    end;
    put_loop Hw; cbn [snd] in Hq'; finish (@nil string) p.
Qed.

Lemma expr_with_eparses simple_expr k :
  eparses k simple_expr -> eparses k (expr_with simple_expr).
Proof.
  intros Hsimple p Hp. unfold expr_with.
  call_expr Hsimple (@nil string) p t q Hq.
  destruct (is_comparison_op (S q)) eqn:Hop; [|finish (@nil string) p].
  assert (H1 : parsed [] 0 [] [] table_same true p (advance q)).
  { eapply parsed_advance; [exact Hq|].
    destruct (S q); try discriminate Hop; reflexivity. }
  step_goal. call_expr Hsimple (@nil string) p t' q' Hq'.
  finish (@nil string) p.
Qed.

(** The expression functions return, and leave the level, the exit
    labels and the table as they were. *)
Lemma expr_eparses (fuel : nat) : eparses fuel (expr fuel).
Proof.
  induction fuel as [|fuel IH]; [intros p Hp; lia|].
  cbn [expr]. apply expr_with_eparses.
  apply simple_expr_with_eparses; [|lia].
  apply term_with_eparses; [|lia].
  apply factor_with_eparses.
  apply primary_with_eparses; [done|lia].
Qed.

Lemma simple_expr_eparses (fuel : nat) :
  eparses (Datatypes.S fuel) (simple_expr fuel).
Proof.
  apply simple_expr_with_eparses; [|lia].
  apply term_with_eparses; [|lia].
  apply factor_with_eparses.
  apply primary_with_eparses; [apply expr_eparses|lia].
Qed.

Lemma eparses_le k k' f : (k' <= k)%nat -> eparses k f -> eparses k' f.
Proof. intros Hle Hf p Hp. apply Hf. lia. Qed.

(** *** The loops of the statements and declarations *)

Lemma drain_semicolons_parses fuel x :
  (input_left x <= fuel)%nat ->
  exists q, drain_semicolons fuel x = Some q
            /\ parsed [] 0 [] [] table_same false x q.
Proof.
  intros Hfuel. unfold drain_semicolons.
  match goal with
  | |- context [while fuel ?cond ?body x] =>
      destruct (while_parses id (fun _ => 0%nat)
                  (fun q => parsed [] 0 [] [] table_same false x q)
                  cond body (Datatypes.S fuel) fuel x)
        as (q & -> & HI & _)
  end.
  - intros y Hc. cbn in *. apply accept_true in Hc.
    pose proof (input_left_at _ _ Hc ltac:(done)). lia.
  - intros y HI Hc Hy. cbn in *. eexists. split; [reflexivity|].
    assert (Hs : parsed [] 0 [] [] table_same true y
                   (accept symbol.semicolon_sym y).2).
    { eapply parsed_accept; [by apply parsed_refl|done|done]. }
    pose proof (proj1 Hs) as Hlt. cbn beta iota in Hlt.
    split; [|lia]. eapply parsed_trans; [done|exact HI|exact Hs].
  - by apply parsed_refl.
  - cbn. lia.
  - cbn. lia.
  - eauto.
Qed.

Lemma name_step_parsed names x :
  parsed [] 0 [] [] table_same false x (name_step (names, x)).2
  /\ (symbol_eqb (S x) symbol.identifier = true ->
      (input_left (name_step (names, x)).2 < input_left x)%nat).
Proof.
  unfold name_step. cbn [snd]. split; [chain|].
  intros Hs.
  pose proof (start_expect [] table_same x symbol.identifier
                (error_code symbol.identifier) ltac:(done) Hs ltac:(done))
    as Hp.
  exact (proj1 Hp).
Qed.

Lemma name_list_parses fuel x :
  (input_left x <= fuel)%nat ->
  exists names q,
    name_list fuel x = Some (names, q)
    /\ parsed [] 0 [] [] table_same false x q
    /\ (symbol_eqb (S x) symbol.identifier = true ->
        (input_left q < input_left x)%nat).
Proof.
  intros Hfuel. unfold name_list.
  destruct (name_step_parsed [] x) as [H0 Hstrict].
  match goal with
  | |- context [while fuel ?cond ?body ?st] =>
      destruct (while_parses snd (fun _ => 0%nat)
                  (fun st' => parsed [] 0 [] [] table_same false x st'.2)
                  cond body (Datatypes.S fuel) fuel st)
        as ([names q] & -> & HI & _ & Hle)
  end.
  - intros [ns y] Hc. cbn [snd] in *. apply accept_true in Hc.
    pose proof (input_left_at _ _ Hc ltac:(done)). lia.
  - intros [ns y] HI Hc Hy. cbn [fst snd] in *.
    eexists. split; [reflexivity|].
    assert (Hs : parsed [] 0 [] [] table_same true y
                   (accept symbol.comma_sym y).2).
    { eapply parsed_accept; [by apply parsed_refl|done|done]. }
    assert (Hs' : parsed [] 0 [] [] table_same true y
                    (name_step (ns, (accept symbol.comma_sym y).2)).2).
    { unfold name_step. cbn [snd]. chain. }
    pose proof (proj1 Hs') as Hlt. cbn beta iota in Hlt.
    split; [|lia]. eapply parsed_trans; [done|exact HI|exact Hs'].
  - exact H0.
  - pose proof (proj1 H0) as Hle. cbn beta iota in Hle. lia.
  - pose proof (proj1 H0) as Hle. cbn beta iota in Hle. lia.
  - exists names, q. split; [done|]. split; [done|].
    intros Hs. specialize (Hstrict Hs). cbn [snd] in Hle. lia.
Qed.

Lemma skip_semicolons_parses fuel followers x :
  (input_left x <= fuel)%nat ->
  exists b q, skip_semicolons fuel followers x = Some (b, q)
              /\ parsed [] 0 [] [] table_same false x q.
Proof.
  intros Hfuel. unfold skip_semicolons.
  match goal with
  | |- context [while fuel ?cond ?body ?st] =>
      destruct (while_parses snd (fun _ => 0%nat)
                  (fun st' => parsed [] 0 [] [] table_same false x st'.2)
                  cond body (Datatypes.S fuel) fuel st)
        as ([b q] & -> & HI & _)
  end.
  - intros [b y] [_ Hc]%andb_prop. cbn [snd] in *.
    pose proof (input_left_at _ _ Hc ltac:(done)). lia.
  - intros [b y] HI [_ Hc]%andb_prop Hy. cbn [fst snd] in *.
    eexists. split; [reflexivity|]. cbn [snd].
    assert (Hs : parsed [] 0 [] [] table_same true y (advance y)).
    { apply start_advance; [done|].
      apply symbol_eqb_eq in Hc. by rewrite Hc. }
    pose proof (proj1 Hs) as Hlt. cbn beta iota in Hlt.
    split; [|lia]. eapply parsed_trans; [done|exact HI|exact Hs].
  - by apply parsed_refl.
  - cbn. lia.
  - cbn. lia.
  - eauto.
Qed.

Lemma end_of_loop_parses fuel x :
  (input_left x <= fuel)%nat ->
  exists q, end_of_loop fuel x = Some q
            /\ parsed [] 0 [] [] table_same false x q.
Proof.
  intros Hfuel. unfold end_of_loop.
  destruct (drain_semicolons_parses fuel x Hfuel) as (q & -> & Hq).
  step_goal. eexists. split; [reflexivity|]. chain.
Qed.

Lemma write_items_parses fuel k x :
  eparses k (expr fuel) ->
  (input_left x < k)%nat -> (k <= Datatypes.S fuel)%nat ->
  exists q, write_items fuel x = Some q
            /\ parsed [] 0 [] [] table_same false x q.
Proof.
  intros Hexpr Hk Hfuel. unfold write_items.
  destruct (_ && _); [|eexists; split; [reflexivity|by apply parsed_refl]].
  call_expr Hexpr (@nil string) x t q Hq.
  match goal with
  | |- context [while fuel ?cond ?body ?st] =>
      destruct (while_parses id (fun _ => 0%nat)
                  (fun q' => parsed [] 0 [] [] table_same false x q')
                  cond body k fuel st)
        as (q' & -> & HI & _)
  end.
  - intros y Hc. cbn in *. apply accept_true in Hc.
    pose proof (input_left_at _ _ Hc ltac:(done)). lia.
  - intros y HI Hc Hy. cbn in *.
    assert (Hs : parsed [] 0 [] [] table_same true y
                   (accept symbol.comma_sym y).2).
    { eapply parsed_accept; [by apply parsed_refl|done|done]. }
    call_expr Hexpr (@nil string) y t' q' Hq'.
    eexists. split; [reflexivity|].
    assert (Hfin : parsed [] 0 [] [] table_same true y
                     (with_cg (gen_write t') q')) by chain.
    pose proof (proj1 Hfin) as Hlt. cbn beta iota in Hlt.
    split; [|lia]. eapply parsed_trans; [done|exact HI|exact Hfin].
  - chain.
  - unfold id. input_bound (@nil string) x.
  - unfold id. assert (input_left (with_cg (gen_write t) q) < k)%nat
      by input_bound (@nil string) x. lia.
  - eauto.
Qed.

(** *** Statements *)

Lemma assign_or_call_parses n :
  parses_at n symbol.identifier (assign_or_call n).
Proof.
  intros p Hp HS. unfold assign_or_call, quiet. step_goal.
  pose proof (expr_eparses n) as Hexpr.
  assert (H1 : parsed [] 0 [] [] table_same true p
                 (expect symbol.identifier (error_code symbol.identifier) p))
    by (by apply start_expect).
  destruct (symbol_eqb _ symbol.becomes_sym) eqn:Hb; step_goal.
  { call_expr Hexpr (@nil string) p t q Hq. finish (@nil string) p. }
  destruct (symbol_eqb _ symbol.left_paren_sym) eqn:Hlp; step_goal;
    [|finish (@nil string) p].
  destruct (negb _) eqn:Hrp; step_goal; [|finish (@nil string) p].
  call_expr Hexpr (@nil string) p t q Hq.
  destruct (call_arguments_eparses n (expr n) n (0 + 1, q) Hexpr)
    as ([k q'] & -> & Hq'0);
    [cbn [snd]; input_bound (@nil string) p|lia|].
  cbn [snd] in Hq'0. compose (@nil string) p Hq'0 Hq'. step_goal.
  finish (@nil string) p.
Qed.

Lemma helper_step_stack x y :
  helper_step x y -> loop_exit_labels y = loop_exit_labels x.
Proof. by intros (_ & _ & Hs & _). Qed.

Lemma exit_stmt_parses n : parses_at n symbol.exit_sym (exit_stmt n).
Proof.
  intros p Hp HS. unfold exit_stmt, quiet. step_goal.
  pose proof (expr_eparses n) as Hexpr.
  assert (H1 : parsed [] 0 [] [] table_same true p
                 (expect symbol.exit_sym (error_code symbol.exit_sym) p))
    by (by apply start_expect).
  rewrite !(helper_step_stack _ _ (helper_step_expect _ _ p)).
  destruct (loop_exit_labels p) as [|top rest] eqn:Hstack.
  - rewrite !(helper_step_stack _ _ (helper_step_flag_here _ _)).
    rewrite !(helper_step_stack _ _ (helper_step_expect _ _ p)).
    rewrite Hstack. cbn [is_empty_name negb].
    destruct (accept _ _).1 eqn:Hw; step_goal; [|finish (@nil string) p].
    call_expr Hexpr (@nil string) p t q Hq. finish (@nil string) p.
  - rewrite !(helper_step_stack _ _ (helper_step_expect _ _ p)).
    rewrite Hstack.
    assert (Htop : top ∈ top :: rest) by apply list_elem_of_here.
    destruct (accept _ _).1 eqn:Hw; step_goal.
    + call_expr Hexpr (@nil string) p t q Hq.
      rewrite <- Hstack in Htop. finish (@nil string) p.
    + rewrite <- Hstack in Htop. finish (@nil string) p.
Qed.

Lemma write_stmt_parses n : parses_at n symbol.write_sym (write_stmt n).
Proof.
  intros p Hp HS. unfold write_stmt, quiet. step_goal.
  assert (H1 : parsed [] 0 [] [] table_same true p
                 (expect symbol.write_sym (error_code symbol.write_sym) p))
    by (by apply start_expect).
  match goal with
  | |- context [write_items n ?X] =>
      destruct (write_items_parses n n X (expr_eparses n))
        as (q & -> & Hq0); [input_bound (@nil string) p|lia|]
  end.
  compose (@nil string) p Hq0 Hq. step_goal. finish (@nil string) p.
Qed.

Lemma writeln_stmt_parses n : parses_at n symbol.writeln_sym (writeln_stmt n).
Proof.
  intros p Hp HS. unfold writeln_stmt, quiet. step_goal.
  assert (H1 : parsed [] 0 [] [] table_same true p
                 (expect symbol.writeln_sym (error_code symbol.writeln_sym) p))
    by (by apply start_expect).
  destruct (symbol_eqb _ symbol.semicolon_sym) eqn:Hsemi; step_goal;
    [finish (@nil string) p|].
  match goal with
  | |- context [write_items n ?X] =>
      destruct (write_items_parses n n X (expr_eparses n))
        as (q & -> & Hq0); [input_bound (@nil string) p|lia|]
  end.
  compose (@nil string) p Hq0 Hq. step_goal. finish (@nil string) p.
Qed.

Lemma parsed_read_item L dl ls pl M b p x :
  parsed L dl ls pl M b p x -> parsed L dl ls pl M b p (read_item x).
Proof.
  intros Hx. unfold read_item.
  eapply parsed_helper; [|apply helper_step_expect].
  destruct (symbol_eqb _ _); [|done].
  destruct (with_sem _ x) as [t y] eqn:E.
  assert (Hy : parsed L dl ls pl M b p y).
  { replace y with (with_sem (lookup_type (get_identifier_value (look x))
                                (look x)) x).2 by (by rewrite E).
    eapply parsed_helper; [exact Hx|].
    apply helper_step_with_sem. intros s. apply sem_quiet_lookup_type. }
  eapply parsed_with_cg; [exact Hy|cg_side].
Qed.

Lemma read_stmt_parses n : parses_at n symbol.read_sym (read_stmt n).
Proof.
  intros p Hp HS. unfold read_stmt, quiet. step_goal.
  assert (H1 : parsed [] 0 [] [] table_same true p
                 (expect symbol.read_sym (error_code symbol.read_sym) p))
    by (by apply start_expect).
  match goal with
  | |- context [while n ?cond ?body ?st] =>
      assert (Hst : parsed [] 0 [] [] table_same true p st)
        by (apply parsed_read_item; chain);
      destruct (while_parses id (fun _ => 0%nat)
                  (fun q => parsed [] 0 [] [] table_same true p q)
                  cond body n n st)
        as (q & -> & Hq & _)
  end.
  - intros y Hc. cbn in *. apply accept_true in Hc.
    pose proof (input_left_at _ _ Hc ltac:(done)). lia.
  - intros y HI Hc Hy. unfold id in *. eexists. split; [reflexivity|].
    assert (Hs : parsed [] 0 [] [] table_same true p
                   (accept symbol.comma_sym y).2).
    { eapply parsed_accept; [exact HI|done|done]. }
    assert (Hs' : parsed [] 0 [] [] table_same true y
                    (read_item (accept symbol.comma_sym y).2)).
    { apply parsed_read_item.
      eapply parsed_accept; [by apply parsed_refl|done|done]. }
    pose proof (proj1 Hs') as Hlt. cbn beta iota in Hlt.
    split; [by apply parsed_read_item|lia].
  - exact Hst.
  - unfold id. pose proof (proj1 Hst) as Hlt. cbn beta iota in Hlt. lia.
  - unfold id. pose proof (proj1 Hst) as Hlt. cbn beta iota in Hlt. lia.
  - step_goal. finish (@nil string) p.
Qed.

Lemma return_stmt_parses n : parses_at n symbol.return_sym (return_stmt n).
Proof.
  intros p Hp HS. unfold return_stmt, quiet. step_goal.
  pose proof (expr_eparses n) as Hexpr.
  assert (H1 : parsed [] 0 [] [] table_same true p
                 (expect symbol.return_sym (error_code symbol.return_sym) p))
    by (by apply start_expect).
  destruct (negb _) eqn:Hsemi; step_goal; [|finish (@nil string) p].
  call_expr Hexpr (@nil string) p t q Hq. finish (@nil string) p.
Qed.

(** The next call of a function [f] of which [Hf] says that it parses:
    the call prints [out] and returns [q]. *)
Ltac call_parses Hf L p out q Hq :=
  lazymatch type of Hf with
  | parses ?k _ _ ?f =>
      match goal with
      | |- context [f ?X] =>
          let Hlt := fresh "Hlt" in
          let Hq0 := fresh "Hq0" in
          assert (Hlt : (input_left X < k)%nat) by input_bound L p;
          destruct (Hf X Hlt) as (out & q & -> & Hq0 & _);
          compose L p Hq0 Hq; clear Hlt; step_goal
      end
  end.

(** The next call of end_of_loop or drain_semicolons. *)
Ltac call_end_of_loop L p q Hq :=
  match goal with
  | |- context [end_of_loop ?n ?X] =>
      let Hq0 := fresh "Hq0" in
      destruct (end_of_loop_parses n X) as (q & -> & Hq0);
      [input_bound L p|]; compose L p Hq0 Hq; step_goal
  | |- context [drain_semicolons ?n ?X] =>
      let Hq0 := fresh "Hq0" in
      destruct (drain_semicolons_parses n X) as (q & -> & Hq0);
      [input_bound L p|]; compose L p Hq0 Hq; step_goal
  end.

Section Statements.
Variable n : nat.
Variable sl : list symbol.symbol_type -> Parser -> printing.
Hypothesis Hsl : forall followers,
  parses n (fun _ => false) table_same (sl followers).

Ltac call_stmt_list Hsl L p out q Hq :=
  match goal with
  | |- context [sl ?followers _] =>
      call_parses (Hsl followers) L p out q Hq
  end.

Lemma stmt_part_with_parses : parses_at n symbol.begin_sym (stmt_part_with sl).
Proof.
  intros p Hp HS. unfold stmt_part_with, and_then, quiet. step_goal.
  assert (H1 : parsed [] 0 [] [] table_same true p
                 (expect symbol.begin_sym (error_code symbol.begin_sym) p))
    by (by apply start_expect).
  call_stmt_list Hsl (@nil string) p out q Hq.
  rewrite close_and_dump_eq. step_goal. finish (@nil string) p.
Qed.

Lemma loop_block_with_parses :
  parses_at n symbol.loop_sym (loop_block_with n sl).
Proof.
  intros p Hp HS. unfold loop_block_with. step_goal.
  assert (H1 : parsed [] 0 [] [] table_same true p
                 (expect symbol.loop_sym (error_code symbol.loop_sym) p))
    by (by apply start_expect).
  set (p1 := expect symbol.loop_sym _ p) in *.
  set (loop_start := (with_cg_label gen_new_label p1).1).
  set (loop_end := (with_cg_label gen_new_label _).1).
  apply (parsed_locals _ [loop_start; loop_end]) in H1;
    [|by intros l Hl%elem_of_nil].
  call_stmt_list Hsl [loop_start; loop_end] p out q Hq.
  call_end_of_loop [loop_start; loop_end] p q' Hq'.
  finish [loop_start; loop_end] p.
Qed.

Lemma while_stmt_with_parses :
  parses_at n symbol.while_sym (while_stmt_with n sl).
Proof.
  intros p Hp HS. unfold while_stmt_with. step_goal.
  pose proof (expr_eparses n) as Hexpr.
  assert (H1 : parsed [] 0 [] [] table_same true p
                 (expect symbol.while_sym (error_code symbol.while_sym) p))
    by (by apply start_expect).
  set (p1 := expect symbol.while_sym _ p) in *.
  set (loop_start := (with_cg_label gen_new_label p1).1).
  set (loop_end := (with_cg_label gen_new_label _).1).
  apply (parsed_locals _ [loop_start; loop_end]) in H1;
    [|by intros l Hl%elem_of_nil].
  call_expr Hexpr [loop_start; loop_end] p t q0 Hq0.
  call_stmt_list Hsl [loop_start; loop_end] p out q Hq.
  call_end_of_loop [loop_start; loop_end] p q' Hq'.
  finish [loop_start; loop_end] p.
Qed.

Lemma for_stmt_with_parses :
  parses_at n symbol.for_sym (for_stmt_with n sl).
Proof.
  intros p Hp HS. unfold for_stmt_with. step_goal.
  pose proof (simple_expr_eparses n) as Hexpr.
  assert (H1 : parsed [] 0 [] [] table_same true p
                 (expect symbol.for_sym (error_code symbol.for_sym) p))
    by (by apply start_expect).
  set (p1 := expect symbol.for_sym _ p) in *.
  call_expr Hexpr (@nil string) p t q0 Hq0.
  call_expr Hexpr (@nil string) p t' q1 Hq1.
  set (loop_start := (with_cg_label gen_new_label q1).1).
  set (loop_end := (with_cg_label gen_new_label _).1).
  apply (parsed_locals _ [loop_start; loop_end]) in Hq1;
    [|by intros l Hl%elem_of_nil].
  call_stmt_list Hsl [loop_start; loop_end] p out q Hq.
  rewrite close_and_dump_eq. step_goal.
  call_end_of_loop [loop_start; loop_end] p q' Hq'.
  finish [loop_start; loop_end] p.
Qed.

Lemma if_stmt_with_parses : parses_at n symbol.if_sym (if_stmt_with n sl).
Proof.
  intros p Hp HS. unfold if_stmt_with. step_goal.
  pose proof (expr_eparses n) as Hexpr.
  assert (H1 : parsed [] 0 [] [] table_same true p
                 (expect symbol.if_sym (error_code symbol.if_sym) p))
    by (by apply start_expect).
  set (p1 := expect symbol.if_sym _ p) in *.
  set (else_label := (with_cg_label gen_new_label p1).1).
  set (end_label := (with_cg_label gen_new_label _).1).
  apply (parsed_locals _ [else_label; end_label]) in H1;
    [|by intros l Hl%elem_of_nil].
  call_expr Hexpr [else_label; end_label] p t q0 Hq0.
  call_stmt_list Hsl [else_label; end_label] p out q Hq.
  (* the elsif parts *)
  match goal with
  | |- context [while n ?cond ?body ?st] =>
      assert (Hst : parsed [else_label; end_label] 0 [] [else_label]
                      table_same true p st.2) by (cbn [snd]; chain);
      destruct (while_parses snd (fun _ => 0%nat)
                  (fun st' => parsed [else_label; end_label] 0 []
                                [else_label] table_same true p st'.2)
                  cond body n n st)
        as ([out' q'] & -> & Hq' & _)
  end.
  - intros [o y] Hc. cbn [snd] in *. apply accept_true in Hc.
    pose proof (input_left_at _ _ Hc ltac:(done)). lia.
  - intros [o y] HI Hc Hy. cbn [fst snd] in *. unfold elsif_part. step_goal.
    set (next_else :=
           (with_cg_label gen_new_label (accept symbol.elsif_sym y).2).1).
    assert (H1' : parsed [next_else; end_label] 0 [] [] table_same true y
                    (accept symbol.elsif_sym y).2).
    { eapply parsed_accept; [by apply parsed_refl|done|done]. }
    call_expr Hexpr [next_else; end_label] y t' y1 Hy1.
    call_stmt_list Hsl [next_else; end_label] y out2 y2 Hy2.
    eexists. split; [reflexivity|]. cbn [snd].
    match goal with
    | |- parsed _ _ _ _ _ _ _ ?X /\ _ =>
        eassert (Hfin : parsed [next_else; end_label] _ _ _ _ _ y X) by chain
    end.
    apply (parsed_discharge _ [end_label]) in Hfin; [|discharged].
    pose proof (proj1 Hfin) as Hlt. cbn beta iota in Hlt.
    split; [|lia].
    eapply parsed_sub_same; [exact HI|exact Hfin|incl_list].
  - exact Hst.
  - pose proof (proj1 Hst) as Hlt. cbn beta iota in Hlt. lia.
  - pose proof (proj1 Hst) as Hlt. cbn beta iota in Hlt. lia.
  - cbn [snd] in Hq'. clear Hst. step_goal.
    destruct (accept symbol.else_sym q').1 eqn:Helse; step_goal.
    + call_stmt_list Hsl [else_label; end_label] p out3 q3 Hq3.
      call_end_of_loop [else_label; end_label] p q4 Hq4.
      finish [else_label; end_label] p.
    + call_end_of_loop [else_label; end_label] p q4 Hq4.
      finish [else_label; end_label] p.
Qed.

Lemma null_stmt_parses :
  parses_at n symbol.null_sym
    (fun p => quiet (expect symbol.semicolon_sym
                       (error_code symbol.semicolon_sym) (advance p))).
Proof.
  intros p Hp HS. unfold quiet.
  assert (H1 : parsed [] 0 [] [] table_same true p (advance p)).
  { apply start_advance; [done|].
    apply symbol_eqb_eq in HS. by rewrite HS. }
  finish (@nil string) p.
Qed.

Lemma begin_stmt_parses :
  parses_at n symbol.begin_sym
    (fun p => and_then (stmt_part_with sl p)
                (fun p => quiet (expect symbol.semicolon_sym
                                   (error_code symbol.semicolon_sym) p))).
Proof.
  intros p Hp HS. unfold and_then, quiet.
  destruct (stmt_part_with_parses p Hp HS) as (out & q & -> & Hq).
  step_goal. finish (@nil string) p.
Qed.

(** A statement is one of twelve, told by its first symbol; any other
    symbol is reported and skipped up to a follower. *)
Lemma stmt_with_parses :
  parses (Datatypes.S n) starts_stmt table_same (stmt_with n sl).
Proof.
  intros p Hp. unfold stmt_with.
  assert (Hat : forall s f,
             parses_at n s f -> symbol_eqb (S p) s = true ->
             exists out q,
               f p = Some (out, q)
               /\ parsed [] 0 [] [] table_same false p q
               /\ (starts_stmt p = true
                   -> (input_left q < input_left p)%nat)).
  { intros s f Hf Hs. destruct (Hf p Hp Hs) as (out & q & -> & Hq).
    exists out, q. split; [done|].
    split; [by eapply parsed_not_strict|]. intros _. exact (proj1 Hq). }
  destruct (S p) eqn:HS;
    try (unfold quiet; do 2 eexists; split; [reflexivity|];
         split; [chain|unfold starts_stmt; by rewrite HS]).
  all: first
    [ by apply (Hat symbol.identifier _ (assign_or_call_parses n))
    | by apply (Hat symbol.begin_sym _ begin_stmt_parses)
    | by apply (Hat symbol.if_sym _ if_stmt_with_parses)
    | by apply (Hat symbol.while_sym _ while_stmt_with_parses)
    | by apply (Hat symbol.for_sym _ for_stmt_with_parses)
    | by apply (Hat symbol.loop_sym _ loop_block_with_parses)
    | by apply (Hat symbol.exit_sym _ (exit_stmt_parses n))
    | by apply (Hat symbol.read_sym _ (read_stmt_parses n))
    | by apply (Hat symbol.write_sym _ (write_stmt_parses n))
    | by apply (Hat symbol.writeln_sym _ (writeln_stmt_parses n))
    | by apply (Hat symbol.return_sym _ (return_stmt_parses n))
    | by apply (Hat symbol.null_sym _ null_stmt_parses) ].
Qed.
End Statements.

(** *** Statement lists *)

Lemma stmt_list_with_parses n st followers :
  parses n starts_stmt table_same st ->
  parses n (fun _ => false) table_same (stmt_list_with n st followers).
Proof.
  intros Hst p Hp. unfold stmt_list_with.
  match goal with
  | |- context [while n ?cond ?body ?s0] =>
      destruct (while_parses
                  (fun st : bool * (string * Parser) => st.2.2)
                  (fun st => if st.1 then 0%nat else 1%nat)
                  (fun st' => parsed [] 0 [] [] table_same false p st'.2.2)
                  cond body n n s0)
        as ([b [out q]] & -> & Hq & _)
  end.
  - intros [[] y] Hc; [done|]. cbn [fst snd]. lia.
  - intros [[] [o y]] HI Hc Hy; [done|]. cbn [fst snd] in *.
    unfold stmt_list_step. cbn [fst snd].
    destruct (is_follower followers (S y)).
    { eexists. split; [reflexivity|]. cbn [fst snd].
      split; [done|lia]. }
    destruct (skip_semicolons_parses n followers y)
      as (b' & y1 & -> & Hy1); [lia|]. step_goal.
    pose proof (proj1 Hy1) as Hle. cbn beta iota in Hle.
    assert (HI1 : parsed [] 0 [] [] table_same false p y1)
      by (eapply parsed_trans; [done|exact HI|exact Hy1]).
    destruct (is_follower followers (S y1)).
    { eexists. split; [reflexivity|]. cbn [fst snd].
      split; [done|lia]. }
    destruct (starts_stmt y1) eqn:Hstart; cbn [negb].
    2: { eexists. split; [reflexivity|]. cbn [fst snd].
         split; [done|lia]. }
    destruct (Hst y1) as (out' & y2 & -> & Hy2 & Hlt); [lia|].
    specialize (Hlt Hstart). step_goal.
    assert (HI2 : parsed [] 0 [] [] table_same false p y2)
      by (eapply parsed_trans; [done|exact HI1|exact Hy2]).
    eexists. split; [reflexivity|]. cbn [fst snd].
    pose proof (proj1 (helper_step_accept symbol.semicolon_sym y2)) as Ha.
    split; [chain|lia].
  - by apply parsed_refl.
  - done.
  - cbn [fst snd]. lia.
  - cbn [fst snd] in Hq. step_goal.
    match goal with
    | |- context [while n ?cond ?body ?s0] =>
        destruct (while_parses snd (fun _ => 0%nat)
                    (fun st' => parsed [] 0 [] [] table_same false p st'.2)
                    cond body (Datatypes.S n) n s0)
          as ([b2 q2] & -> & Hq2 & _)
    end.
    + intros [b2 y] [_ Hc]%andb_prop. cbn [snd] in *.
      pose proof (input_left_at _ _ Hc ltac:(done)). lia.
    + intros [b2 y] HI [_ Hc]%andb_prop Hy. cbn [fst snd] in *.
      eexists. split; [reflexivity|]. cbn [snd].
      assert (Hs : parsed [] 0 [] [] table_same true y (advance y)).
      { apply start_advance; [done|].
        apply symbol_eqb_eq in Hc. by rewrite Hc. }
      pose proof (proj1 Hs) as Hlt. cbn beta iota in Hlt.
      split; [|lia]. eapply parsed_trans; [done|exact HI|exact Hs].
    + exact Hq.
    + pose proof (proj1 Hq) as Hle. cbn beta iota in Hle.
      cbn [snd]. lia.
    + pose proof (proj1 Hq) as Hle. cbn beta iota in Hle.
      cbn [snd]. lia.
    + cbn [snd] in Hq2. step_goal. exists out, q2.
      split; [done|]. split; [done|]. done.
Qed.

(** stmt returns on every input that is shorter than its fuel. *)
Lemma stmt_parses n : parses n starts_stmt table_same (stmt n).
Proof.
  induction n as [|n IH]; [intros p Hp; lia|].
  cbn [stmt]. apply stmt_with_parses.
  intros followers. by apply stmt_list_with_parses.
Qed.

Lemma stmt_list_parses n followers :
  parses n (fun _ => false) table_same (stmt_list n followers).
Proof. apply stmt_list_with_parses, stmt_parses. Qed.

(** *** Declarations *)

Lemma parsed_consumed L dl ls pl M b p x :
  parsed L dl ls pl M b p x ->
  (input_left x < input_left p)%nat ->
  parsed L dl ls pl M true p x.
Proof. intros (_ & Hrest) Hlt. by split. Qed.

Lemma decl_vars_parses n : declares_at n symbol.identifier (decl_vars n).
Proof.
  intros p Hp HS. unfold decl_vars, quiet.
  pose proof (expr_eparses n) as Hexpr.
  destruct (name_list_parses n p) as (names & q0 & -> & Hq0 & Hlt); [lia|].
  specialize (Hlt HS).
  assert (H1 : parsed [] 0 [] [] table_declared true p q0)
    by (apply parsed_same_declared; eapply parsed_consumed;
          [exact Hq0|done]).
  clear Hq0 Hlt. step_goal.
  match goal with
  | |- context [foldl ?g ?X names] =>
      assert (H2 : parsed [] 0 [] [] table_declared true p (foldl g X names))
        by (apply parsed_foldl; [intros y a Hy; chain|chain]);
      set (q1 := foldl g X names) in *
  end.
  destruct (accept symbol.becomes_sym q1).1 eqn:Hb; step_goal;
    [|finish (@nil string) p].
  call_expr Hexpr (@nil string) p t q Hq.
  match goal with
  | |- context [while n ?cond ?body ?st] =>
      assert (Hst : parsed [] 0 [] [] table_declared true p st.2)
        by (cbn [snd]; chain);
      destruct (while_parses snd (fun _ => 0%nat)
                  (fun st' => parsed [] 0 [] [] table_declared true p st'.2)
                  cond body n n st)
        as ([i q'] & -> & Hq' & _)
  end.
  - intros [i y] Hc. cbn [snd] in *. apply accept_true in Hc.
    pose proof (input_left_at _ _ Hc ltac:(done)). lia.
  - intros [i y] HI Hc Hy. cbn [fst snd] in *.
    assert (Hs : parsed [] 0 [] [] table_same true y
                   (accept symbol.comma_sym y).2).
    { eapply parsed_accept; [by apply parsed_refl|done|done]. }
    call_expr Hexpr (@nil string) y t' y' Hy'.
    eexists. split; [reflexivity|]. cbn [snd].
    match goal with
    | |- parsed _ _ _ _ _ _ _ ?X /\ _ =>
        assert (Hfin : parsed [] 0 [] [] table_same true y X) by chain
    end.
    pose proof (proj1 Hfin) as Hlt. cbn beta iota in Hlt.
    split; [|lia].
    eapply parsed_sub_same; [exact HI|exact Hfin|incl_list].
  - exact Hst.
  - pose proof (proj1 Hst) as Hlt. cbn beta iota in Hlt. lia.
  - pose proof (proj1 Hst) as Hlt. cbn beta iota in Hlt. lia.
  - cbn [snd] in Hq'. step_goal. finish (@nil string) p.
Qed.

Lemma const_decl_parses n : declares_at n symbol.constant_sym (const_decl n).
Proof.
  intros p Hp HS. unfold const_decl, quiet.
  pose proof (expr_eparses n) as Hexpr.
  assert (H1 : parsed [] 0 [] [] table_declared true p
                 (expect symbol.constant_sym
                    (error_code symbol.constant_sym) p))
    by (by apply start_expect).
  match goal with
  | |- context [name_list n ?X] =>
      destruct (name_list_parses n X) as (names & q0 & -> & Hq0 & _);
      [input_bound (@nil string) p|]
  end.
  compose (@nil string) p Hq0 H2.
  cbn [mbind option_bind]. lazy beta iota zeta.
  match goal with
  | |- context [let '(_, _) := ?e in _] =>
      lazymatch e with
      | accept _ _ => fail
      | _ => set (blk := e)
      end
  end.
  assert (Hblk : parsed [] 0 [] [] table_declared true p blk.2).
  { unfold blk. split_pairs.
    repeat match goal with
           | |- context [if ?b then _ else _] => destruct b
           end; cbn [snd]; chain. }
  destruct blk as [ct X]. cbn [snd] in Hblk.
  assert (Hend : forall tys q,
             parsed [] 0 [] [] table_declared true p q ->
             exists out q',
               (let const_type :=
                  match tys with
                  | first :: _ =>
                      if bool_decide (ct = type_unknown) then first else ct
                  | [] => ct
                  end in
                let p :=
                  foldl (fun p nt =>
                           if negb (is_empty_name nt.1)
                           then on_sem (declare_const nt.1 const_type nt.2) p
                           else p)
                        q names in
                Some (EmptyString, end_of_declaration p)) = Some (out, q')
               /\ parsed [] 0 [] [] table_declared true p q').
  { intros tys q Hq. do 2 eexists. split; [reflexivity|].
    chain_helper helper_step_end_of_declaration.
    apply parsed_foldl; [intros y a Hy; chain|exact Hq]. }
  destruct (negb _) eqn:Hsemi; step_goal; [|exact (Hend [] X Hblk)].
  call_expr Hexpr (@nil string) p t q Hq.
  match goal with
  | |- context [while n ?cond ?body ?st] =>
      assert (Hst : parsed [] 0 [] [] table_declared true p st.2)
        by (cbn [snd]; chain);
      destruct (while_parses snd (fun _ => 0%nat)
                  (fun st' => parsed [] 0 [] [] table_declared true p st'.2)
                  cond body n n st)
        as ([tys q'] & -> & Hq' & _)
  end.
  - intros [i y] Hc. cbn [snd] in *. apply accept_true in Hc.
    pose proof (input_left_at _ _ Hc ltac:(done)). lia.
  - intros [i y] HI Hc Hy. cbn [fst snd] in *.
    assert (Hs : parsed [] 0 [] [] table_same true y
                   (accept symbol.comma_sym y).2).
    { eapply parsed_accept; [by apply parsed_refl|done|done]. }
    call_expr Hexpr (@nil string) y t' y' Hy'.
    eexists. split; [reflexivity|]. cbn [snd].
    pose proof (proj1 Hy') as Hlt. cbn beta iota in Hlt.
    split; [|lia].
    eapply parsed_sub_same; [exact HI|exact Hy'|incl_list].
  - exact Hst.
  - pose proof (proj1 Hst) as Hlt. cbn beta iota in Hlt. lia.
  - pose proof (proj1 Hst) as Hlt. cbn beta iota in Hlt. lia.
  - cbn [snd] in Hq'. step_goal. exact (Hend tys q' Hq').
Qed.

Lemma param_step_parses n x :
  (input_left x <= n)%nat ->
  exists b q,
    param_step n x = Some (b, q)
    /\ parsed [] 0 [] [] table_declared false x q
    /\ (b = false -> (input_left q < input_left x)%nat).
Proof.
  intros Hx. unfold param_step.
  assert (H0 : parsed [] 0 [] [] table_declared false x x)
    by (by apply parsed_refl).
  destruct (name_list_parses n x) as (names & q0 & -> & Hq0 & _); [lia|].
  compose (@nil string) x Hq0 H1. step_goal.
  match goal with
  | |- context [foldl ?g ?X ?l] =>
      assert (H2 : parsed [] 0 [] [] table_declared false x (foldl g X l))
        by (apply parsed_foldl; [intros y a Hy; chain|chain]);
      set (q1 := foldl g X l) in *
  end.
  do 2 eexists. split; [reflexivity|]. split; [chain|].
  intros Hb%negb_false_iff.
  assert (H3 : parsed [] 0 [] [] table_declared true x
                 (accept symbol.semicolon_sym q1).2)
    by (eapply parsed_accept; [exact H2|done|done]).
  exact (proj1 H3).
Qed.

Lemma param_list_parses n x :
  (input_left x < n)%nat ->
  exists q,
    param_list n x = Some q /\ parsed [] 0 [] [] table_declared false x q.
Proof.
  intros Hx. unfold param_list.
  match goal with
  | |- context [while n ?cond ?body ?s0] =>
      destruct (while_parses snd
                  (fun st : bool * Parser => if st.1 then 0%nat else 1%nat)
                  (fun st' => parsed [] 0 [] [] table_declared false x st'.2)
                  cond body n n s0)
        as ([b q] & -> & Hq & _)
  end.
  - intros [[] y] Hc; [done|]. cbn [fst snd]. lia.
  - intros [[] y] HI Hc Hy; [done|]. cbn [fst snd] in *.
    destruct (param_step_parses n y) as (b' & y' & -> & Hy' & Hlt); [lia|].
    eexists. split; [reflexivity|]. cbn [fst snd].
    pose proof (proj1 Hy') as Hle. cbn beta iota in Hle.
    split; [by eapply parsed_trans; [|exact HI|exact Hy']|].
    destruct b'; [lia|]. specialize (Hlt eq_refl). lia.
  - by apply parsed_refl.
  - done.
  - cbn [fst snd]. lia.
  - cbn [snd] in Hq. step_goal. eauto.
Qed.

Lemma parameters_parses n x :
  (input_left x < n)%nat ->
  exists q,
    parameters n x = Some q /\ parsed [] 0 [] [] table_declared false x q.
Proof.
  intros Hx. unfold parameters. step_goal.
  assert (H0 : parsed [] 0 [] [] table_declared false x x)
    by (by apply parsed_refl).
  destruct (accept symbol.left_paren_sym x).1 eqn:Hb.
  - match goal with
    | |- context [param_list n ?X] =>
        destruct (param_list_parses n X) as (q0 & -> & Hq0);
        [input_bound (@nil string) x|]
    end.
    compose (@nil string) x Hq0 Hq. step_goal.
    eexists. split; [reflexivity|]. chain.
  - eexists. split; [reflexivity|]. chain.
Qed.

Section Declarations.
Variable n : nat.
Variable dcl : Parser -> printing.
Variable sl : list symbol.symbol_type -> Parser -> printing.
Hypothesis Hdcl : parses n (fun _ => false) table_declared dcl.
Hypothesis Hsl : forall followers,
  parses n (fun _ => false) table_same (sl followers).

(** A procedure opens a scope for its parameters and its declarations
    and closes it at its end. *)
Lemma proc_decl_with_parses :
  parses_at n symbol.procedure_sym (proc_decl_with n dcl sl).
Proof.
  intros p Hp HS. unfold proc_decl_with, and_then, quiet. step_goal.
  assert (H1 : parsed [] 0 [] [] table_same true p
                 (expect symbol.procedure_sym
                    (error_code symbol.procedure_sym) p))
    by (by apply start_expect).
  match goal with
  | |- context [parameters n ?X] =>
      destruct (parameters_parses n X) as (q0 & -> & Hq0);
      [input_bound (@nil string) p|]
  end.
  compose (@nil string) p Hq0 Hq1. step_goal.
  call_parses Hdcl (@nil string) p out1 q1 Hq2.
  match goal with
  | |- context [sl ?followers ?X] =>
      call_parses (Hsl followers) (@nil string) p out2 q2 Hq3
  end.
  rewrite close_and_dump_eq. step_goal. finish (@nil string) p.
Qed.

Lemma func_decl_with_parses :
  parses_at n symbol.function_sym (func_decl_with n dcl sl).
Proof.
  intros p Hp HS. unfold func_decl_with, and_then, quiet. step_goal.
  assert (H1 : parsed [] 0 [] [] table_same true p
                 (expect symbol.function_sym
                    (error_code symbol.function_sym) p))
    by (by apply start_expect).
  match goal with
  | |- context [parameters n ?X] =>
      destruct (parameters_parses n X) as (q0 & -> & Hq0);
      [input_bound (@nil string) p|]
  end.
  compose (@nil string) p Hq0 Hq1. step_goal.
  call_parses Hdcl (@nil string) p out1 q1 Hq2.
  match goal with
  | |- context [sl ?followers ?X] =>
      call_parses (Hsl followers) (@nil string) p out2 q2 Hq3
  end.
  rewrite close_and_dump_eq. step_goal. finish (@nil string) p.
Qed.

(** Every declaration consumes input, so the loop of decls ends. *)
Lemma decls_with_parses :
  parses (Datatypes.S n) (fun _ => false) table_declared
    (decls_with n dcl sl).
Proof.
  intros p Hp. unfold decls_with.
  match goal with
  | |- context [while n ?cond ?body ?s0] =>
      destruct (while_parses snd (fun _ => 0%nat)
                  (fun st' : string * Parser =>
                     parsed [] 0 [] [] table_declared false p st'.2)
                  cond body (Datatypes.S n) n s0)
        as ([out q] & -> & Hq & _)
  end.
  - intros [o y] Hc. cbn [snd] in *. unfold starts_decl in Hc.
    unfold input_left. destruct (S y); try done; cbn; lia.
  - intros [o y] HI Hc Hy. cbn [fst snd] in *.
    assert (Hone : exists out' y',
               (if symbol_eqb (S y) symbol.constant_sym
                then const_decl n y
                else if symbol_eqb (S y) symbol.procedure_sym
                then proc_decl_with n dcl sl y
                else if symbol_eqb (S y) symbol.function_sym
                then func_decl_with n dcl sl y
                else decl_vars n y) = Some (out', y')
               /\ parsed [] 0 [] [] table_declared true y y').
    { destruct (symbol_eqb (S y) symbol.constant_sym) eqn:E1;
        [by apply const_decl_parses|].
      destruct (symbol_eqb (S y) symbol.procedure_sym) eqn:E2.
      { destruct (proc_decl_with_parses y Hy E2) as (o' & y' & -> & Hy').
        exists o', y'. split; [done|]. by apply parsed_same_declared. }
      destruct (symbol_eqb (S y) symbol.function_sym) eqn:E3.
      { destruct (func_decl_with_parses y Hy E3) as (o' & y' & -> & Hy').
        exists o', y'. split; [done|]. by apply parsed_same_declared. }
      apply decl_vars_parses; [done|].
      unfold starts_decl in Hc. by destruct (S y). }
    lazy beta iota zeta.
    destruct Hone as (out' & y' & Heq & Hy').
    match goal with
    | |- context [?e ≫= _] =>
        replace e with (Some (out', y')) by (symmetry; exact Heq)
    end.
    step_goal.
    eexists. split; [reflexivity|]. cbn [snd].
    pose proof (proj1 Hy') as Hlt. cbn beta iota in Hlt.
    split; [|lia]. by eapply parsed_trans; [|exact HI|exact Hy'].
  - by apply parsed_refl.
  - done.
  - cbn [snd]. lia.
  - cbn [snd] in Hq. exists out, q. done.
Qed.

End Declarations.

(** decls returns on every input that is shorter than its fuel. *)
Lemma decls_parses n : parses n (fun _ => false) table_declared (decls n).
Proof.
  induction n as [|n IH]; [intros p Hp; lia|].
  cbn [decls]. apply decls_with_parses; [exact IH|].
  intros followers. apply stmt_list_parses.
Qed.

(** *** The program *)

Lemma prog_parses fuel p :
  (input_left p < fuel)%nat ->
  exists out q,
    prog fuel p = Some (out, q)
    /\ parsed [] (0 - current_level p) [] [] table_same false p q.
Proof.
  intros Hp. unfold prog, and_then, quiet. step_goal.
  assert (H0 : parsed [] 0 [] [] table_same false p p)
    by (by apply parsed_refl).
  call_parses (decls_parses fuel) (@nil string) p out1 q1 Hq1.
  call_parses (stmt_list_parses fuel [symbol.end_sym]) (@nil string) p
    out2 q2 Hq2.
  call_end_of_loop (@nil string) p q3 Hq3.
  rewrite close_and_dump_eq. step_goal. finish (@nil string) p.
Qed.

(** *** What a parse guarantees *)

(** X15: parse_program returns on every sequence of tokens, well formed
    or not: no loop of the parser and no recovery from an error goes on
    without consuming a token, so a fuel above the number of tokens left
    is enough.  The parse ends at level 0 and never gives tokens back. *)
Theorem parse_program_returns fuel p :
  (input_left p < fuel)%nat ->
  exists out q,
    parse_program fuel p = Some (out, q)
    /\ current_level q = 0
    /\ (input_left q <= input_left p)%nat.
Proof.
  intros Hp. destruct (prog_parses fuel p Hp) as (out & q & Hq & Hpq).
  exists out, q. split; [exact Hq|].
  destruct Hpq as (H1 & H2 & _). split; [lia|exact H1].
Qed.

(** X16: the parser closes every scope it opens and pops every exit
    label it pushes, whatever the tokens are: after parse_program the
    symbol table, records included, and the stack of exit labels are as
    they were before. *)
Theorem parse_program_closes_its_scopes fuel p :
  scopes (id_tab (sem p)) <> [] ->
  (input_left p < fuel)%nat ->
  exists out q,
    parse_program fuel p = Some (out, q)
    /\ id_tab (sem q) = id_tab (sem p)
    /\ loop_exit_labels q = loop_exit_labels p.
Proof.
  intros Hne Hp. destruct (prog_parses fuel p Hp) as (out & q & Hq & Hpq).
  exists out, q. split; [exact Hq|].
  destruct Hpq as (_ & _ & H3 & _ & H5 & _).
  split; [exact (H5 Hne)|exact H3].
Qed.

(** X17: started outside any loop on an emitter without instructions,
    parse_program leaves no jump to a label that was not placed: the
    second operand of every instruction is the text of a number, a
    string between quotes, the text of a real, or a label that has an
    address.  The emitter is kept, and so is the agreement of its
    counter with its instructions. *)
Theorem parse_program_places_every_label fuel p c :
  cg p = Some c ->
  instructions c = [] ->
  loop_exit_labels p = [] ->
  (input_left p < fuel)%nat ->
  exists out q c',
    parse_program fuel p = Some (out, q)
    /\ cg q = Some c'
    /\ (counter_ok c -> counter_ok c')
    /\ forall instr,
         instr ∈ instructions c' ->
         operand_ok (fun _ => False) (label_addresses c') (operand2 instr).
Proof.
  intros Hc Hnone Hloops Hp.
  destruct (prog_parses fuel p Hp) as (out & q & Hq & Hpq).
  destruct Hpq as (_ & _ & _ & _ & _ & H6).
  unfold cg_rel in H6. rewrite Hc, Hloops in H6.
  destruct (cg q) as [c'|] eqn:Hc'; [|done].
  destruct H6 as [(_ & Hcount & _ & Hops) _].
  exists out, q, c'. split; [exact Hq|]. split; [exact Hc'|].
  split; [exact Hcount|].
  apply (Hops (fun _ => False)).
  - by intros l Hl%elem_of_nil.
  - intros instr Hin. rewrite Hnone in Hin. by apply elem_of_nil in Hin.
Qed.

(** X18: parse_program only adds diagnostics: what the analyzer had
    reported before the parse is still there after it, in its place at
    the head of the list. *)
Theorem parse_program_keeps_diagnostics fuel p :
  (input_left p < fuel)%nat ->
  exists out q,
    parse_program fuel p = Some (out, q)
    /\ err (sem p) `prefix_of` err (sem q).
Proof.
  intros Hp. destruct (prog_parses fuel p Hp) as (out & q & Hq & Hpq).
  exists out, q. split; [exact Hq|].
  by destruct Hpq as (_ & _ & _ & H4 & _).
Qed.

(** X19: a statement, with the statements it holds, returns; when the
    current token starts a statement it consumes at least that token,
    which is why the loop of stmt_list ends.  It leaves the level, the
    stack of exit labels and the symbol table as it found them: a loop
    pops its exit label, a block closes its scope. *)
Theorem statement_consumes_and_restores n p :
  (input_left p < n)%nat ->
  exists out q,
    stmt n p = Some (out, q)
    /\ (starts_stmt p = true -> (input_left q < input_left p)%nat)
    /\ current_level q = current_level p
    /\ loop_exit_labels q = loop_exit_labels p
    /\ (scopes (id_tab (sem p)) <> [] -> id_tab (sem q) = id_tab (sem p)).
Proof.
  intros Hp. destruct (stmt_parses n p Hp) as (out & q & Hq & Hpq & Hlt).
  exists out, q. split; [exact Hq|]. split; [exact Hlt|].
  destruct Hpq as (_ & H2 & H3 & _ & H5 & _).
  split; [lia|]. split; [exact H3|exact H5].
Qed.

(** X20: declarations reach the current scope only.  When the table is
    [t0] with one frame on top, it still is after decls, nested
    procedures and functions included: their scopes are closed again,
    the frames of [t0] and its records are untouched, and every new
    record belongs to the frame on top. *)
Theorem declarations_stay_in_their_scope n p t0 :
  (input_left p < n)%nat ->
  inner_frame t0 (id_tab (sem p)) ->
  exists out q,
    decls n p = Some (out, q)
    /\ inner_frame t0 (id_tab (sem q))
    /\ current_level q = current_level p.
Proof.
  intros Hp Ht0. destruct (decls_parses n p Hp) as (out & q & Hq & Hpq & _).
  exists out, q. split; [exact Hq|].
  destruct Hpq as (_ & H2 & _ & _ & H5 & _).
  split; [exact (H5 t0 Ht0)|lia].
Qed.

(** ** The scanner returns *)

(** A loop returns when each turn makes its state smaller. *)
Lemma loop_returns {A : Type} (size : A -> nat) (I : A -> Prop)
    (cond : A -> bool) (body : A -> option A) (fuel : nat) (st : A) :
  (forall st, I st -> cond st = true ->
     exists st', body st = Some st' /\ I st' /\ (size st' < size st)%nat) ->
  I st ->
  (size st <= fuel)%nat ->
  exists st',
    while fuel cond body st = Some st'
    /\ I st' /\ cond st' = false
    /\ (size st' <= size st)%nat
    /\ (cond st = true -> (size st' < size st)%nat)
    /\ (cond st = false -> st' = st).
Proof.
  intros Hbody. revert st.
  induction fuel as [|fuel IH]; intros st HI Hfuel; cbn [while];
    destruct (cond st) eqn:Hc.
  - destruct (Hbody st HI Hc) as (st1 & _ & _ & Hlt). lia.
  - exists st. by repeat split.
  - destruct (Hbody st HI Hc) as (st1 & -> & HI1 & Hlt).
    cbn [mbind option_bind].
    destruct (IH st1 HI1) as (st' & Hw & HI' & Hc' & Hle & _); [lia|].
    exists st'. split; [done|]. split; [done|]. split; [done|].
    split; [lia|]. split; [intros _; lia|done].
  - exists st. by repeat split.
Qed.

Lemma chars_left_pos s : (1 <= chars_left s)%nat.
Proof. unfold chars_left. lia. Qed.

Lemma chars_left_not_eof s : eof_flag s = false -> (2 <= chars_left s)%nat.
Proof. unfold chars_left. intros ->. lia. Qed.

Lemma fill_buffer_chars s :
  (chars_left (fill_buffer s) <= chars_left s)%nat
  /\ (eof_flag s = false -> (chars_left (fill_buffer s) < chars_left s)%nat)
  /\ next_char (fill_buffer s) = end_marker.
Proof.
  unfold fill_buffer, get_line, chars_left, buffer_length.
  destruct s as [file pos line eoln eof buffer c sym cl cp ci cr cs cn ct e].
  cbn. destruct file as [|first rest], eof; cbn;
    repeat split; try done; try lia.
Qed.

Lemma get_char_chars s :
  (chars_left (get_char s) <= chars_left s)%nat
  /\ (eof_flag s = false -> (chars_left (get_char s) < chars_left s)%nat)
  /\ (next_char (get_char s) = end_marker
      \/ (chars_left (get_char s) < chars_left s)%nat).
Proof.
  unfold get_char. destruct (pos_on_line s + 1 <? buffer_length s) eqn:E.
  - apply Z.ltb_lt in E.
    assert (chars_left
              (set_eoln_flag false
                 (set_next_char
                    (buffer_at (pos_on_line (set_pos_on_line
                                               (pos_on_line s + 1) s))
                       (set_pos_on_line (pos_on_line s + 1) s))
                    (set_pos_on_line (pos_on_line s + 1) s)))
            < chars_left s)%nat as Hlt.
    { unfold chars_left, buffer_length in *. cbn. lia. }
    split; [lia|]. split; [done|by right].
  - destruct (fill_buffer_chars s) as (Hle & Hlt & Hm).
    split; [done|]. split; [done|by left].
Qed.

Lemma chars_ahead_get_char s :
  Ascii.eqb (next_char s) end_marker = false ->
  (chars_ahead (get_char s) < chars_ahead s)%nat.
Proof.
  intros Hs. unfold chars_ahead. rewrite Hs.
  destruct (get_char_chars s) as (Hle & _ & [Hm|Hlt]).
  - rewrite Hm. rewrite Ascii.eqb_refl. cbv iota. clear Hs Hm. lia.
  - cbv iota. clear Hs. destruct (Ascii.eqb _ _); lia.
Qed.

Lemma chars_left_ahead s : (chars_left s <= chars_ahead s <= chars_left s + 1)%nat.
Proof. unfold chars_ahead. destruct (Ascii.eqb _ _); lia. Qed.

Lemma scan_flag_chars code s :
  chars_left (scan_flag code s) = chars_left s
  /\ next_char (scan_flag code s) = next_char s
  /\ eof_flag (scan_flag code s) = eof_flag s
  /\ eoln_flag (scan_flag code s) = eoln_flag s
  /\ current_symbol (scan_flag code s) = current_symbol s.
Proof. unfold scan_flag. by destruct (error s). Qed.

(** *** What the scanned values do not touch *)

Lemma same_input_refl s : same_input s s.
Proof. by repeat split. Qed.

Lemma same_input_chars s s' :
  same_input s s' ->
  chars_left s' = chars_left s
  /\ next_char s' = next_char s
  /\ eof_flag s' = eof_flag s
  /\ eoln_flag s' = eoln_flag s
  /\ following_char s' = following_char s.
Proof.
  intros (H1 & H2 & H3 & H4 & H5 & H6 & H7).
  unfold chars_left, following_char, buffer_length, buffer_at.
  by rewrite H1, H2, H3, H5, H6, H7.
Qed.

Lemma same_input_get_char s s' :
  same_input s s' -> same_input (get_char s) (get_char s').
Proof.
  intros (H1 & H2 & H3 & H4 & H5 & H6 & H7).
  destruct s as [file pos line eoln eof buffer c sym cl cp ci cr cs cn ct e].
  destruct s' as [file' pos' line' eoln' eof' buffer' c' sym' cl' cp' ci'
                    cr' cs' cn' ct' e'].
  cbn in *. subst.
  unfold get_char, buffer_length, fill_buffer, get_line, buffer_at. cbn.
  destruct (pos + 1 <? _); [by repeat split|].
  destruct file; by repeat split.
Qed.

Lemma same_input_fill_buffer s s' :
  same_input s s' -> same_input (fill_buffer s) (fill_buffer s').
Proof.
  intros (H1 & H2 & H3 & H4 & H5 & H6 & H7).
  destruct s as [file pos line eoln eof buffer c sym cl cp ci cr cs cn ct e].
  destruct s' as [file' pos' line' eoln' eof' buffer' c' sym' cl' cp' ci'
                    cr' cs' cn' ct' e'].
  cbn in *. subst. unfold fill_buffer, get_line. cbn.
  destruct file; by repeat split.
Qed.

Lemma same_input_scan_flag code s s' :
  same_input s s' -> same_input s (scan_flag code s').
Proof. intros Hs. unfold scan_flag. by destruct (error s'). Qed.

Lemma same_input_set_current_symbol v s s' :
  same_input s s' -> same_input s (set_current_symbol v s').
Proof. done. Qed.
Lemma same_input_set_current_string_value v s s' :
  same_input s s' -> same_input s (set_current_string_value v s').
Proof. done. Qed.
Lemma same_input_set_current_identifier_name v s s' :
  same_input s s' -> same_input s (set_current_identifier_name v s').
Proof. done. Qed.
Lemma same_input_set_current_integer_value v s s' :
  same_input s s' -> same_input s (set_current_integer_value v s').
Proof. done. Qed.
Lemma same_input_set_current_real_value v s s' :
  same_input s s' -> same_input s (set_current_real_value v s').
Proof. done. Qed.
Lemma same_input_set_current_token v s s' :
  same_input s s' -> same_input s (set_current_token v s').
Proof. done. Qed.
Lemma same_input_set_current_line_number v s s' :
  same_input s s' -> same_input s (set_current_line_number v s').
Proof. done. Qed.
Lemma same_input_set_current_pos_on_line v s s' :
  same_input s s' -> same_input s (set_current_pos_on_line v s').
Proof. done. Qed.

(** [same_input ?a X], where [?a] is [X] without what was scanned. *)
Ltac same_input :=
  lazymatch goal with
  | |- same_input _ (get_char _) => apply same_input_get_char; same_input
  | |- same_input _ (fill_buffer _) => apply same_input_fill_buffer; same_input
  | |- same_input _ (scan_flag _ _) => apply same_input_scan_flag; same_input
  | |- same_input _ (set_current_symbol _ _) =>
      apply same_input_set_current_symbol; same_input
  | |- same_input _ (set_current_string_value _ _) =>
      apply same_input_set_current_string_value; same_input
  | |- same_input _ (set_current_identifier_name _ _) =>
      apply same_input_set_current_identifier_name; same_input
  | |- same_input _ (set_current_integer_value _ _) =>
      apply same_input_set_current_integer_value; same_input
  | |- same_input _ (set_current_real_value _ _) =>
      apply same_input_set_current_real_value; same_input
  | |- same_input _ (set_current_token _ _) =>
      apply same_input_set_current_token; same_input
  | |- same_input _ (set_current_line_number _ _) =>
      apply same_input_set_current_line_number; same_input
  | |- same_input _ (set_current_pos_on_line _ _) =>
      apply same_input_set_current_pos_on_line; same_input
  | |- same_input _ (if ?b then _ else _) => destruct b; same_input
  | |- same_input _ _ => apply same_input_refl
  end.

(** The state [X] of the goal, without what was scanned. *)
Ltac plain_input X :=
  let Hs := fresh "Hs" in
  eassert (Hs : same_input _ X) by same_input;
  let a := lazymatch type of Hs with same_input ?a _ => a end in
  tryif constr_eq a X then fail
  else (destruct (same_input_chars _ _ Hs) as (?Hc & ?Hn & ?He & ?Hl & ?Hf);
        clear Hs).

(** The facts on [chars_left X], for a state [X] made of get_char and
    of what was scanned. *)
Ltac get_char_facts a :=
  lazymatch a with
  | get_char ?b =>
      let Hle := fresh "Hle" in
      let Hlt := fresh "Hlt" in
      destruct (get_char_chars b) as (Hle & Hlt & _);
      try specialize (Hlt ltac:(assumption));
      get_char_facts b
  | fill_buffer ?b =>
      let Hle := fresh "Hle" in
      let Hlt := fresh "Hlt" in
      destruct (fill_buffer_chars b) as (Hle & Hlt & _);
      try specialize (Hlt ltac:(assumption));
      get_char_facts b
  | _ => idtac
  end.
Ltac chars_facts X :=
  let Hs := fresh "Hs" in
  eassert (Hs : same_input _ X) by same_input;
  lazymatch type of Hs with
  | same_input ?a _ =>
      pose proof (proj1 (same_input_chars _ _ Hs)); get_char_facts a
  end;
  clear Hs.
Ltac chars_lia :=
  repeat match goal with
         | H : _ = true |- _ => clear H
         | H : _ = false |- _ => clear H
         | H : _ = false -> _ |- _ => clear H
         end;
  lia.
(** [chars_left X < chars_left s] and the like. *)
Ltac chars :=
  lazymatch goal with
  | |- (chars_left ?X < _)%nat => chars_facts X; chars_lia
  | |- (chars_left ?X <= _)%nat => chars_facts X; chars_lia
  end.

Lemma scan_string_returns fuel s :
  eof_flag s = false ->
  (chars_left s <= fuel)%nat ->
  exists s',
    scan_string fuel s = Some s' /\ (chars_left s' < chars_left s)%nat.
Proof.
  intros Heof Hfuel. unfold scan_string.
  set (s1 := get_char (set_current_string_value EmptyString s)).
  assert (Hs1 : (chars_left s1 < chars_left s)%nat) by (unfold s1; chars).
  clearbody s1.
  destruct (loop_returns (fun st : bool * scanner => chars_left st.2)
              (fun st => (chars_left st.2 <= chars_left s1)%nat)
              (fun st => negb st.1 && negb (eof_flag st.2)
                         && negb (eoln_flag st.2))
              scan_string_step fuel (false, s1))
    as (st & -> & Hst & _).
  - intros [b x] HI Hc. cbn [fst snd] in *.
    apply andb_prop in Hc as [Hc _]. apply andb_prop in Hc as [_ Hx].
    apply negb_true_iff in Hx.
    unfold scan_string_step, next_is. cbn [fst snd].
    destruct (Ascii.eqb (next_char x) dquote);
      [destruct (Ascii.eqb (following_char x) dquote)|];
      (eexists; split; [reflexivity|]; cbn [fst snd]; split; chars).
  - cbn [snd]. lia.
  - cbn [snd]. lia.
  - cbn [mbind option_bind]. eexists. split; [reflexivity|].
    destruct (negb st.1); chars.
Qed.

Lemma not_end_marker c :
  isalpha c || isdigit c || Ascii.eqb c "_" = true ->
  Ascii.eqb c end_marker = false.
Proof.
  intros Hc. destruct (Ascii.eqb_spec c end_marker) as [->|]; [|done].
  by vm_compute in Hc.
Qed.

Lemma chars_ahead_same s s' :
  same_input s s' -> chars_ahead s' = chars_ahead s.
Proof.
  intros Hs. destruct (same_input_chars _ _ Hs) as (H1 & H2 & _).
  unfold chars_ahead. by rewrite H1, H2.
Qed.

Lemma scan_alpha_returns fuel s :
  eof_flag s = false ->
  (chars_left s <= fuel)%nat ->
  exists s',
    scan_alpha fuel s = Some s' /\ (chars_left s' < chars_left s)%nat.
Proof.
  intros Heof Hfuel. unfold scan_alpha.
  match goal with
  | |- context [while fuel ?cond ?body (false, ?x)] =>
      set (s1 := x);
      assert (Hs1 : (chars_left s1 < chars_left s)%nat)
        by (unfold s1; chars);
      clearbody s1;
      destruct (loop_returns (fun st : bool * scanner => chars_ahead st.2)
                  (fun st => (chars_left st.2 <= chars_left s1)%nat)
                  cond body fuel (false, s1))
        as (st & -> & Hst & _)
  end.
  - intros [b x] HI Hc. cbn [fst snd] in *.
    unfold next_is in Hc. apply not_end_marker in Hc.
    unfold scan_alpha_step. cbn [fst snd].
    eexists. split; [reflexivity|]. cbn [fst snd]. split; [chars|].
    match goal with
    | |- (chars_ahead (get_char ?y) < _)%nat =>
        assert (Hy : same_input x y) by same_input;
        rewrite (chars_ahead_same _ _ (same_input_get_char _ _ Hy))
    end.
    by apply chars_ahead_get_char.
  - cbn [snd]. lia.
  - cbn [snd]. pose proof (chars_left_ahead s1). lia.
  - cbn [mbind option_bind]. eexists. split; [reflexivity|].
    match goal with
    | |- context [if ?b then scan_flag _ _ else _] => destruct b
    end; chars.
Qed.

Lemma scan_digits_returns fuel st :
  (chars_ahead st.2 <= fuel)%nat ->
  exists st',
    scan_digits fuel st = Some st'
    /\ (chars_left st'.2 <= chars_left st.2)%nat.
Proof.
  intros Hfuel. unfold scan_digits.
  match goal with
  | |- context [while fuel ?cond ?body st] =>
      destruct (loop_returns (fun st : string * scanner => chars_ahead st.2)
                  (fun st' => (chars_left st'.2 <= chars_left st.2)%nat)
                  cond body fuel st)
        as (st' & -> & Hst & _)
  end.
  - intros [t x] HI Hc. cbn [fst snd] in *.
    assert (Hm : Ascii.eqb (next_char x) end_marker = false).
    { apply not_end_marker. by rewrite Hc, orb_true_r. }
    eexists. split; [reflexivity|]. cbn [fst snd]. split; [chars|].
    by apply chars_ahead_get_char.
  - lia.
  - done.
  - eauto.
Qed.

(** On a digit the loop turns at least once. *)
Lemma scan_digits_consumes fuel st :
  eof_flag st.2 = false ->
  isdigit (next_char st.2) = true ->
  (chars_ahead st.2 <= fuel)%nat ->
  exists st',
    scan_digits fuel st = Some st'
    /\ (chars_left st'.2 < chars_left st.2)%nat.
Proof.
  intros Heof Hd Hfuel. unfold scan_digits.
  destruct fuel as [|fuel].
  { pose proof (chars_left_ahead st.2). pose proof (chars_left_pos st.2).
    lia. }
  cbn [while]. rewrite Hd. cbn [mbind option_bind].
  assert (Hm : Ascii.eqb (next_char st.2) end_marker = false).
  { apply not_end_marker. by rewrite Hd, orb_true_r. }
  pose proof (chars_ahead_get_char _ Hm) as Hlt.
  destruct (scan_digits_returns fuel
              (push_back st.1 (next_char st.2), get_char st.2))
    as (st' & Hw & Hle); [cbn [snd]; lia|].
  unfold scan_digits in Hw. rewrite Hw. exists st'. split; [done|].
  cbn [snd] in Hle.
  destruct (get_char_chars st.2) as (_ & Hstrict & _).
  specialize (Hstrict Heof). clear Hm Hd Heof. lia.
Qed.

(** The next call of scan_digits, on a state that has no more input
    left than [s0]: it returns [t] and [q]. *)
Ltac call_digits s0 t q Hq :=
  match goal with
  | |- context [scan_digits ?fuel (?text, ?X)] =>
      let HX := fresh "HX" in
      let Hle := fresh "Hle" in
      assert (HX : (chars_left X <= chars_left s0)%nat) by chars;
      destruct (scan_digits_returns fuel (text, X)) as ([t q] & -> & Hle);
      [cbn [snd]; pose proof (chars_left_ahead X); chars_lia|];
      cbn [snd] in Hle;
      assert (Hq : (chars_left q <= chars_left s0)%nat) by chars_lia;
      clear HX Hle
  end.

(** The rest of scan_digit, case by case. *)
Ltac scan_digit_cases s0 :=
  repeat first
    [ progress (cbn [mbind option_bind negb]; lazy beta iota zeta)
    | match goal with
      | |- context [if ?b then _ else _] => destruct b
      | |- context [match ?o with Some _ => _ | None => _ end] => destruct o
      | |- context [scan_digits _ (_, _)] =>
          let t := fresh "t" in
          let q := fresh "q" in
          let Hq := fresh "Hq" in
          call_digits s0 t q Hq
      end ].

Lemma scan_digit_returns fuel s :
  eof_flag s = false ->
  isdigit (next_char s) = true ->
  (chars_left s + 1 <= fuel)%nat ->
  exists s',
    scan_digit fuel s = Some s' /\ (chars_left s' < chars_left s)%nat.
Proof.
  intros Heof Hd Hfuel. unfold scan_digit.
  destruct (scan_digits_consumes fuel (EmptyString, s)) as ([t1 s1] & -> & H1);
    [done|done|cbn [snd]; pose proof (chars_left_ahead s); lia|].
  cbn [snd] in H1.
  assert (Hfuel1 : (chars_left s1 + 2 <= fuel)%nat) by lia.
  clear Heof Hd.
  scan_digit_cases s1; (eexists; split; [reflexivity|]; chars).
Qed.

Lemma scan_special_symbol_returns fuel s :
  eof_flag s = false ->
  (chars_left s <= fuel)%nat ->
  exists s',
    scan_special_symbol fuel s = Some s'
    /\ (chars_left s' < chars_left s)%nat.
Proof.
  intros Heof Hfuel. unfold scan_special_symbol, scan_two_chars.
  destruct (next_char s) as [[] [] [] [] [] [] [] []];
    try (by apply scan_string_returns);
    repeat match goal with
           | |- context [if ?b then _ else _] => destruct b
           end;
    (eexists; split; [reflexivity|]; chars).
Qed.

Lemma skip_blanks_returns fuel s :
  (chars_left s <= fuel)%nat ->
  exists s',
    skip_blanks fuel s = Some s' /\ (chars_left s' <= chars_left s)%nat.
Proof.
  intros Hfuel. unfold skip_blanks.
  match goal with
  | |- context [while fuel ?cond ?body s] =>
      destruct (loop_returns chars_left
                  (fun s' => (chars_left s' <= chars_left s)%nat)
                  cond body fuel s)
        as (s' & -> & Hs' & _)
  end.
  - intros x HI Hc.
    apply andb_prop in Hc as [Heof Hc]. apply negb_true_iff in Heof.
    match goal with
    | |- context [while fuel ?cond ?body x] =>
        destruct (loop_returns chars_left
                    (fun s' => (chars_left s' <= chars_left x)%nat)
                    cond body fuel x)
          as (x1 & -> & Hx1 & _ & _ & Hlt1 & Heq1)
    end.
    + intros y Hy Hcy. apply andb_prop in Hcy as [Hey _].
      apply negb_true_iff in Hey.
      eexists. split; [reflexivity|]. split; chars.
    + lia.
    + lia.
    + cbn [mbind option_bind].
      match goal with
      | |- context [while fuel ?cond ?body x1] =>
          destruct (loop_returns chars_left
                      (fun s' => (chars_left s' <= chars_left x1)%nat)
                      cond body fuel x1)
            as (x2 & -> & Hx2 & _ & _ & Hlt2 & _)
      end.
      * intros y Hy Hcy. apply andb_prop in Hcy as [Hey _].
        apply negb_true_iff in Hey.
        eexists. split; [reflexivity|]. split; chars.
      * lia.
      * lia.
      * exists x2. split; [done|]. split; [lia|].
        rewrite Heof in Hlt1, Heq1. cbn [negb andb] in Hlt1, Heq1.
        destruct (le_space (next_char x)) eqn:Hsp.
        { specialize (Hlt1 eq_refl). lia. }
        specialize (Heq1 eq_refl). subst x1.
        rewrite Heof in Hlt2. cbn [negb andb orb] in Hlt2, Hc.
        specialize (Hlt2 Hc). lia.
  - lia.
  - lia.
  - eauto.
Qed.

(** *** Pragmas and tokens *)

Lemma pragma_skip_returns g bound fuel s :
  token_spec g bound ->
  (chars_left s <= bound)%nat ->
  (chars_left s <= fuel)%nat ->
  exists s',
    pragma_skip fuel g s = Some s' /\ (chars_left s' <= chars_left s)%nat.
Proof.
  intros Hg. revert s.
  induction fuel as [|fuel IH]; intros s Hbound Hfuel.
  { pose proof (chars_left_pos s). lia. }
  cbn [pragma_skip].
  destruct (Hg s Hbound) as (t & s1 & -> & Hle & Hend).
  cbn [mbind option_bind snd].
  destruct (symbol_eqb (current_symbol s1) symbol.end_of_program) eqn:Heop;
    [by eauto|].
  destruct (negb _); [|by eauto].
  destruct Hend as [[Hsym _]|Hlt].
  { rewrite Hsym in Heop. done. }
  destruct (IH s1) as (s' & -> & Hle'); [lia|lia|].
  exists s'. split; [done|lia].
Qed.

Lemma parse_pragma_returns g bound fuel s :
  token_spec g bound ->
  (chars_left s <= bound)%nat ->
  (chars_left s <= fuel)%nat ->
  exists s',
    parse_pragma fuel g s = Some s' /\ (chars_left s' <= chars_left s)%nat.
Proof.
  intros Hg Hbound Hfuel. unfold parse_pragma.
  destruct (Hg s Hbound) as (t1 & s1 & -> & H1 & _).
  cbn [mbind option_bind snd]. lazy zeta.
  match goal with
  | |- context [g ?X] =>
      assert (HX : (chars_left X <= chars_left s1)%nat)
        by (destruct (negb _); chars);
      destruct (Hg X) as (t2 & s2 & -> & H2 & _); [lia|]
  end.
  cbn [mbind option_bind snd].
  match goal with
  | |- context [pragma_skip fuel g ?Y] =>
      assert (HY : (chars_left Y <= chars_left s2)%nat)
        by (destruct (negb _); chars);
      destruct (pragma_skip_returns g bound fuel Y Hg)
        as (s3 & -> & H3); [lia|lia|]
  end.
  cbn [mbind option_bind].
  match goal with
  | |- context [if ?b then Some _ else _] => destruct b
  end.
  - eexists. split; [reflexivity|]. chars.
  - destruct (Hg s3) as (t4 & s4 & -> & H4 & _); [lia|].
    cbn [mbind option_bind snd]. eexists. split; [reflexivity|]. lia.
Qed.

Lemma same_input_build_token s s' :
  same_input s s' -> same_input s (build_token s').
Proof. intros Hs. unfold build_token. by destruct (current_symbol s'). Qed.

Lemma same_input_begin_token s : same_input s (begin_token s).
Proof. done. Qed.

Lemma get_token_spec fuel bound :
  (bound + 2 <= fuel)%nat -> token_spec (get_token fuel) bound.
Proof.
  revert bound. induction fuel as [|fuel IH]; intros bound Hfuel; [lia|].
  intros s Hs. rewrite get_token_unfold.
  destruct (skip_blanks_returns (Datatypes.S fuel) s) as (s1 & -> & H1);
    [lia|].
  cbn [mbind option_bind]. lazy zeta.
  destruct (same_input_chars _ _ (same_input_begin_token s1))
    as (Hc & Hn & He & _).
  set (s2 := begin_token s1) in *.
  destruct (eof_flag s2) eqn:Heof; cbn [negb].
  - (* the end of the file *)
    do 2 eexists. split; [reflexivity|]. cbn [current_token set_current_token].
    split; [chars|]. left. split; reflexivity.
  - assert (Hscan : exists s3,
               (if isalpha (next_char s2) then scan_alpha (Datatypes.S fuel) s2
                else if isdigit (next_char s2)
                then scan_digit (Datatypes.S fuel) s2
                else scan_special_symbol (Datatypes.S fuel) s2) = Some s3
               /\ (chars_left s3 < chars_left s2)%nat).
    { destruct (isalpha (next_char s2));
        [apply scan_alpha_returns; [done|lia]|].
      destruct (isdigit (next_char s2)) eqn:Hd;
        [apply scan_digit_returns; [done|done|lia]|].
      apply scan_special_symbol_returns; [done|lia]. }
    destruct Hscan as (s3 & -> & H3). cbn [mbind option_bind].
    assert (Hplain : exists s4,
               Some (build_token s3) = Some s4
               /\ (chars_left s4 < chars_left s)%nat).
    { eexists. split; [reflexivity|].
      destruct (same_input_chars _ _
                  (same_input_build_token _ _ (same_input_refl s3)))
        as (Hc4 & _).
      chars_lia. }
    assert (Hrest : exists s4,
               match current_symbol s3 with
               | symbol.pragma_sym => parse_pragma fuel (get_token fuel) s3
               | _ => Some (build_token s3)
               end = Some s4
               /\ (chars_left s4 < chars_left s)%nat).
    { destruct (current_symbol s3); try exact Hplain.
      destruct (parse_pragma_returns (get_token fuel) (chars_left s3) fuel s3)
        as (s4 & -> & H4); [apply IH; chars_lia|lia|chars_lia|].
      exists s4. split; [done|chars_lia]. }
    destruct Hrest as (s4 & -> & H4). cbn [mbind option_bind].
    do 2 eexists. split; [reflexivity|]. split; [lia|by right].
Qed.

(** X21.  The scanner returns a token in every state, whatever the
    text: each of its loops (blanks and comments, strings, names,
    numbers, the tokens of a pragma) consumes input on every turn or
    stops at the end of a line, so a bound on the loops above the input
    that is left is enough.  get_token gives no input back, and unless
    the token is end_of_program it has consumed some. *)
Theorem get_token_returns fuel s :
  (chars_left s + 2 <= fuel)%nat ->
  exists t s',
    get_token fuel s = Some (t, s')
    /\ (chars_left s' <= chars_left s)%nat
    /\ (get_sym t = symbol.end_of_program
        \/ (chars_left s' < chars_left s)%nat).
Proof.
  intros Hfuel.
  destruct (get_token_spec fuel (chars_left s) Hfuel s) as
    (t & s' & Ht & Hle & Hend); [done|].
  exists t, s'. split; [done|]. split; [done|].
  destruct Hend as [[_ Hsym]|Hlt]; [by left|by right].
Qed.

(** X22.  Every source has an end.  Asked for more tokens than there is
    input left, the scanner answers with finitely many tokens, the last
    of which is the first end_of_program, fewer before it than there was
    input. *)
Theorem get_tokens_reach_end_of_program n fuel s :
  (chars_left s < n)%nat ->
  (chars_left s + 2 <= fuel)%nat ->
  exists front last s',
    get_tokens n fuel s = Some (front ++ [last], s')
    /\ get_sym last = symbol.end_of_program
    /\ Forall (fun t => get_sym t <> symbol.end_of_program) front
    /\ (length front < chars_left s)%nat.
Proof.
  revert s. induction n as [|n IH]; intros s Hn Hfuel; [lia|].
  cbn [get_tokens].
  destruct (get_token_spec fuel (chars_left s) Hfuel s) as
    (t & s1 & -> & Hle & Hend); [done|].
  cbn [mbind option_bind].
  destruct (symbol_eqb (get_sym t) symbol.end_of_program) eqn:Heop.
  - exists [], t, s1. split; [done|].
    split; [by apply symbol_eqb_eq|]. split; [done|].
    pose proof (chars_left_pos s). cbn [length]. lia.
  - destruct Hend as [[_ Hsym]|Hlt].
    { rewrite Hsym in Heop. done. }
    destruct (IH s1) as (front & last & s' & -> & Hlast & Hfront & Hlen);
      [lia|lia|].
    cbn [mbind option_bind].
    exists (t :: front), last, s'. split; [done|]. split; [done|].
    split; [|cbn [length]; lia].
    apply Forall_cons. split; [|done].
    intros Heq. rewrite Heq in Heop. done.
Qed.

(** *** Names *)

Lemma toupper_toupper c : toupper (toupper c) = toupper c.
Proof. by destruct c as [[] [] [] [] [] [] [] []]. Qed.

Lemma all_upper_push_back name c :
  all_upper (push_back name c) = all_upper name && Ascii.eqb (toupper c) c.
Proof.
  induction name as [|a name IH].
  - change (all_upper (String c EmptyString)
            = true && Ascii.eqb (toupper c) c).
    cbn. by destruct (Ascii.eqb _ _).
  - change (all_upper (String a (push_back name c))
            = all_upper (String a name) && Ascii.eqb (toupper c) c).
    cbn [all_upper]. rewrite IH. by rewrite andb_assoc.
Qed.

(** get_char and the reports leave what was scanned as it is. *)
Lemma get_char_scanned s :
  current_symbol (get_char s) = current_symbol s
  /\ current_identifier_name (get_char s) = current_identifier_name s
  /\ current_token (get_char s) = current_token s.
Proof.
  destruct s as [file pos line eoln eof buffer c sym cl cp ci cr cs cn ct e].
  unfold get_char, fill_buffer, get_line. cbn.
  destruct (_ <? _); [done|]. by destruct file.
Qed.

Lemma scan_flag_scanned code s :
  current_symbol (scan_flag code s) = current_symbol s
  /\ current_identifier_name (scan_flag code s) = current_identifier_name s
  /\ current_token (scan_flag code s) = current_token s.
Proof. unfold scan_flag. by destruct (error s). Qed.

Lemma scan_alpha_upper fuel s s' :
  scan_alpha fuel s = Some s' ->
  all_upper (current_identifier_name s') = true.
Proof.
  unfold scan_alpha.
  match goal with
  | |- context [while fuel ?cond ?body ?st0] =>
      destruct (while fuel cond body st0) as [st|] eqn:Hw; [|done];
      apply (while_invariant
               (fun st => all_upper (current_identifier_name st.2) = true))
        in Hw as [Hst _]
  end.
  - cbn [mbind option_bind]. intros [= <-].
    match goal with
    | |- context [if ?b then scan_flag _ _ else _] => destruct b
    end; [|done].
    change (all_upper (current_identifier_name (scan_flag 61 st.2)) = true).
    by rewrite (proj1 (proj2 (scan_flag_scanned _ _))).
  - intros [b x] [b' x'] Hx _. unfold scan_alpha_step. cbn [fst snd] in *.
    intros [= _ <-].
    rewrite (proj1 (proj2 (get_char_scanned _))). cbn.
    rewrite all_upper_push_back, Hx, toupper_toupper.
    by rewrite Ascii.eqb_refl.
  - cbn [snd]. rewrite (proj1 (proj2 (get_char_scanned _))).
    change (all_upper (push_back EmptyString (toupper (next_char s)))
            = true).
    by rewrite all_upper_push_back, toupper_toupper, Ascii.eqb_refl.
Qed.

Lemma scan_string_symbol fuel s s' :
  scan_string fuel s = Some s' -> current_symbol s' = symbol.strng.
Proof.
  unfold scan_string. destruct (while _ _ _ _); [|done].
  cbn [mbind option_bind]. by intros [= <-].
Qed.

Lemma scan_digit_symbol fuel s s' :
  scan_digit fuel s = Some s' -> current_symbol s' <> symbol.identifier.
Proof.
  unfold scan_digit. intros Hs.
  repeat match type of Hs with
         | context [scan_digits ?f ?st] =>
             destruct (scan_digits f st) as [[? ?]|]; [|done]
         | context [if ?b then _ else _] => destruct b
         | context [match ?o with Some _ => _ | None => _ end] =>
             destruct o
         | _ => progress (cbn [mbind option_bind negb] in Hs;
                          lazy beta iota zeta in Hs)
         end;
    by injection Hs as <-.
Qed.

Lemma scan_special_symbol_symbol fuel s s' :
  scan_special_symbol fuel s = Some s' ->
  current_symbol s' <> symbol.identifier.
Proof.
  unfold scan_special_symbol, scan_two_chars.
  destruct (next_char s) as [[] [] [] [] [] [] [] []];
    try (by intros ->%scan_string_symbol);
    repeat match goal with
           | |- context [if ?b then _ else _] => destruct b
           end;
    intros [= <-];
    rewrite ?(proj1 (get_char_scanned _)), ?(proj1 (scan_flag_scanned _ _));
    cbn; rewrite ?(proj1 (get_char_scanned _)); by cbn.
Qed.

Lemma build_token_upper s :
  (current_symbol s = symbol.identifier ->
   all_upper (current_identifier_name s) = true) ->
  upper_case_token (build_token s).
Proof.
  intros Hs. unfold upper_case_token, build_token.
  destruct (current_symbol s); cbn; auto; done.
Qed.

Lemma pragma_skip_upper g fuel s s' :
  (forall s t s', g s = Some (t, s') -> upper_case_token s') ->
  pragma_skip fuel g s = Some s' -> upper_case_token s'.
Proof.
  intros Hg. revert s. induction fuel as [|fuel IH]; intros s;
    cbn [pragma_skip]; destruct (g s) as [[t s1]|] eqn:Hs1; try done;
    cbn [mbind option_bind snd];
    destruct (symbol_eqb _ _); try (intros [= <-]; by eapply Hg);
    destruct (negb _); try done; try (intros [= <-]; by eapply Hg).
  apply IH.
Qed.

Lemma parse_pragma_upper g fuel s s' :
  (forall s t s', g s = Some (t, s') -> upper_case_token s') ->
  parse_pragma fuel g s = Some s' -> upper_case_token s'.
Proof.
  intros Hg. unfold parse_pragma.
  destruct (g s) as [[t1 s1]|]; [|done]. cbn [mbind option_bind snd].
  lazy zeta.
  destruct (g _) as [[t2 s2]|]; [|done]. cbn [mbind option_bind snd].
  destruct (pragma_skip _ _ _) as [s3|] eqn:Hs3; [|done].
  apply pragma_skip_upper in Hs3; [|done].
  cbn [mbind option_bind].
  match goal with
  | |- context [if ?b then Some _ else _] => destruct b
  end.
  - intros [= <-]. unfold upper_case_token.
    by rewrite (proj2 (proj2 (scan_flag_scanned _ _))).
  - destruct (g s3) as [[t4 s4]|] eqn:Hs4; [|done].
    cbn [mbind option_bind snd]. intros [= <-]. by eapply Hg.
Qed.

Lemma get_token_upper_step k (pragma : scanner -> option scanner) s t s' :
  (forall x x', pragma x = Some x' -> upper_case_token x') ->
  (s ← skip_blanks k s;
   let s := begin_token s in
   if negb (eof_flag s) then
     s ← (if isalpha (next_char s) then scan_alpha k s
          else if isdigit (next_char s) then scan_digit k s
          else scan_special_symbol k s);
     s ← match current_symbol s with
         | symbol.pragma_sym => pragma s
         | _ => Some (build_token s)
         end;
     Some (current_token s, s)
   else
     let s := set_current_token
                (new_token symbol.end_of_program (line_number s)
                   (pos_on_line s)) s in
     Some (current_token s, s)) = Some (t, s') ->
  t = current_token s' /\ upper_case_token s'.
Proof.
  intros Hpragma.
  destruct (skip_blanks k s) as [s1|]; [|done].
  cbn [mbind option_bind]. lazy zeta. set (s2 := begin_token s1).
  destruct (negb (eof_flag s2));
    [|intros [= <- <-]; split; [done|]; by intros [=]].
  assert (Hscan : forall s3,
            (if isalpha (next_char s2) then scan_alpha k s2
             else if isdigit (next_char s2) then scan_digit k s2
             else scan_special_symbol k s2) = Some s3 ->
            current_symbol s3 = symbol.identifier ->
            all_upper (current_identifier_name s3) = true).
  { intros s3 Hs3 Hid. destruct (isalpha _);
      [by eapply scan_alpha_upper|].
    destruct (isdigit _);
      [by apply scan_digit_symbol in Hs3
      |by apply scan_special_symbol_symbol in Hs3]. }
  match goal with
  | |- context [?scan ≫= _] =>
      lazymatch scan with
      | if _ then _ else _ => destruct scan as [s3|] eqn:Hs3; [|done]
      end
  end.
  specialize (Hscan s3 eq_refl). cbn [mbind option_bind].
  destruct (current_symbol s3) eqn:Hsym;
    try (cbn [mbind option_bind]; intros [= <- <-]; (split; [done|]);
         apply build_token_upper; by rewrite Hsym).
  destruct (pragma s3) as [s4|] eqn:Hs4; [|done].
  cbn [mbind option_bind]. intros [= <- <-]. split; [done|].
  by eapply Hpragma.
Qed.

Lemma get_token_upper fuel s t s' :
  get_token fuel s = Some (t, s') ->
  t = current_token s' /\ upper_case_token s'.
Proof.
  revert s t s'. induction fuel as [|fuel IH]; intros s t s' Ht.
  - by eapply (get_token_upper_step 0 (fun _ => None)); [|exact Ht].
  - eapply (get_token_upper_step (Datatypes.S fuel)
              (parse_pragma fuel (get_token fuel))); [|exact Ht].
    intros x x' Hx. eapply parse_pragma_upper; [|exact Hx].
    intros y t' y' Hy. by apply IH in Hy as [_ Hy].
Qed.

(** X23.  Names are kept in upper case.  Whatever the text and the
    bound on the loops, an identifier token that get_token returns,
    also after a pragma, carries a name without a lower-case letter:
    scan_alpha stores toupper of every character, so the symbol table
    and the emitter see one spelling of a name. *)
Theorem identifiers_are_upper_case fuel s t s' :
  get_token fuel s = Some (t, s') ->
  get_sym t = symbol.identifier ->
  all_upper (get_identifier_value t) = true.
Proof.
  intros Ht Hid. apply get_token_upper in Ht as [-> Hup]. by apply Hup.
Qed.
End Compiler.

(** * The properties on the sample inputs *)

#[local] Existing Instance lexeme_floats.

(** check_binary on unknown + integer: the report 116. *)
Lemma check_binary_unknown_operand_witness :
  (type_unknown = type_unknown \/ type_integer = type_unknown)
  /\ check_binary type_unknown symbol.plus_sym type_integer sample_token
       sample_semantics
     = (type_unknown, sem_flag sample_token 116 sample_semantics).
Proof.
  split; [left; reflexivity|].
  apply (check_binary_unknown_operand type_unknown type_integer
           symbol.plus_sym sample_token sample_semantics).
  left; reflexivity.
Defined.

(** check_assignment on a name that is not declared, on the constant K,
    and on the variable X with an integer and with a string. *)
Lemma check_assignment_rules_witness :
  (lookup "Y" (id_tab sample_semantics) = None
   /\ check_assignment "Y" type_integer sample_token sample_semantics
      = sem_flag sample_token 81 sample_semantics)
  /\ (lookup "K" (id_tab sample_semantics) = Some 5%N
      /\ deref 5%N sample_semantics
         = Some (mk_record "K" type_integer lille_kind.constant)
      /\ check_assignment "K" type_integer sample_token sample_semantics
         = sem_flag sample_token 85 sample_semantics)
  /\ (lookup "X" (id_tab sample_semantics) = Some 4%N
      /\ deref 4%N sample_semantics
         = Some (mk_record "X" type_integer lille_kind.variable)
      /\ lille_kind.variable <> lille_kind.constant
      /\ check_assignment "X" type_integer sample_token sample_semantics
         = sample_semantics
      /\ check_assignment "X" type_string sample_token sample_semantics
         = sem_flag sample_token 93 sample_semantics).
Proof.
  assert (lookup "Y" (id_tab sample_semantics) = None) as HY
    by (vm_compute; reflexivity).
  assert (lookup "K" (id_tab sample_semantics) = Some 5%N) as HK
    by (vm_compute; reflexivity).
  assert (deref 5%N sample_semantics
          = Some (mk_record "K" type_integer lille_kind.constant)) as HKrec
    by (vm_compute; reflexivity).
  assert (lookup "X" (id_tab sample_semantics) = Some 4%N) as HX
    by (vm_compute; reflexivity).
  assert (deref 4%N sample_semantics
          = Some (mk_record "X" type_integer lille_kind.variable)) as HXrec
    by (vm_compute; reflexivity).
  assert (lille_kind.variable <> lille_kind.constant) as Hvar
    by discriminate.
  split; [|split].
  - split; [exact HY|].
    exact (proj1 (check_assignment_rules "Y" type_integer sample_token
                    sample_semantics) HY).
  - split; [exact HK|]. split; [exact HKrec|].
    exact (proj1 (proj2 (check_assignment_rules "K" type_integer
                           sample_token sample_semantics)
                    5%N _ HK HKrec) eq_refl).
  - split; [exact HX|]. split; [exact HXrec|]. split; [exact Hvar|]. split.
    + apply (proj1 (proj2 (proj2 (check_assignment_rules "X" type_integer
                                    sample_token sample_semantics)
                             4%N _ HX HXrec) Hvar)).
      left. reflexivity.
    + apply (proj2 (proj2 (proj2 (check_assignment_rules "X" type_string
                                    sample_token sample_semantics)
                             4%N _ HX HXrec) Hvar)).
      intros [Heq|[[Heq _]|[Heq|Heq]]]; discriminate Heq.
Defined.

(** The scope stack of the sample, through three close_scope calls and
    one open_scope. *)
Lemma scopes_never_empty_witness :
  scopes (id_tab sample_semantics) <> []
  /\ (2 <= length (scopes (id_tab sample_semantics)))%nat
  /\ scopes (run_scope_calls
               [call_close_scope; call_close_scope; call_open_scope;
                call_close_scope]
               (id_tab sample_semantics)) <> []
  /\ store (close_scope (id_tab sample_semantics)) !! 4%N = None
  /\ is_Some (store (close_scope (id_tab sample_semantics)) !! 0%N)
  /\ (length (scopes id_table_new) = 1%nat
      /\ close_scope id_table_new = id_table_new).
Proof.
  assert (2 <= length (scopes (id_tab sample_semantics)))%nat as Hlen
    by (vm_compute; lia).
  assert (scopes (id_tab sample_semantics) <> []) as Hne.
  { intros Hnil. rewrite Hnil in Hlen. simpl in Hlen. lia. }
  assert (last (scopes (id_tab sample_semantics))
          = Some (default ∅ (last (scopes (id_tab sample_semantics)))))
    as Htop by (vm_compute; reflexivity).
  destruct (scopes_never_empty
              [call_close_scope; call_close_scope; call_open_scope;
               call_close_scope] (id_tab sample_semantics) Hne)
    as [[Hrun _] [_ Hpop]].
  destruct (Hpop _ Hlen Htop) as (_ & _ & Hstore).
  split; [exact Hne|]. split; [exact Hlen|]. split; [exact Hrun|].
  split; [|split].
  - rewrite (Hstore 4%N). vm_compute. reflexivity.
  - rewrite (Hstore 0%N). vm_compute. eexists. reflexivity.
  - split; [reflexivity|].
    assert (scopes id_table_new <> []) as Hglobal by discriminate.
    exact (proj1 (proj2 (scopes_never_empty [] id_table_new Hglobal))
             eq_refl).
Defined.

(** finalize on a jump to a label that is never placed: no failure, and a
    record whose second operand is the label itself; so it is not the case
    that finalize fails whenever an instruction refers to a label that was
    never placed. *)
Lemma finalize_unplaced_label_returns :
  (instructions sample_jump = [mk_Instruction "JMP" 0 "L0" "Jump."]
   /\ is_label "L0" = true
   /\ label_addresses sample_jump !! "L0" = None
   /\ finalize true sample_jump
      = Returned ["JMP  0     L0           (1) Jump."])
  /\ ~ (forall (c : code_gen) (instr : Instruction),
          instr ∈ instructions c ->
          is_label (operand2 instr) = true ->
          label_addresses c !! operand2 instr = None ->
          exists what, finalize true c = Thrown what).
Proof.
  split; [repeat split; vm_compute; reflexivity|].
  intros Hfails.
  destruct (Hfails sample_jump (mk_Instruction "JMP" 0 "L0" "Jump."))
    as [what Hthrown].
  - apply list_elem_of_here.
  - vm_compute. reflexivity.
  - vm_compute. reflexivity.
  - discriminate Hthrown.
Qed.

Lemma finalize_writes_unplaced_label_as_is_witness :
  (instructions sample_jump !! 0%nat
     = Some (mk_Instruction "JMP" 0 "L0" "Jump.")
   /\ is_label "L0" = true
   /\ label_addresses sample_jump !! "L0" = None
   /\ exists records,
        finalize true sample_jump = Returned records
        /\ records !! 0%nat
           = Some (format_record 1 (mk_Instruction "JMP" 0 "L0" "Jump.")
                     "L0"))
  /\ (instructions sample_placed_jump !! 0%nat
       = Some (mk_Instruction "JMP" 0 "L0" "Jump.")
      /\ label_addresses sample_placed_jump !! "L0" = Some 2
      /\ exists records,
           finalize true sample_placed_jump = Returned records
           /\ records !! 0%nat
              = Some (format_record 1 (mk_Instruction "JMP" 0 "L0" "Jump.")
                        "2")).
Proof.
  assert (instructions sample_jump !! 0%nat
          = Some (mk_Instruction "JMP" 0 "L0" "Jump.")) as Hinstr
    by (vm_compute; reflexivity).
  assert (is_label "L0" = true) as Hlabel by (vm_compute; reflexivity).
  assert (label_addresses sample_jump !! "L0" = None) as Hunplaced
    by (vm_compute; reflexivity).
  assert (instructions sample_placed_jump !! 0%nat
          = Some (mk_Instruction "JMP" 0 "L0" "Jump.")) as Hinstr'
    by (vm_compute; reflexivity).
  assert (label_addresses sample_placed_jump !! "L0" = Some 2) as Hplaced
    by (vm_compute; reflexivity).
  split.
  - destruct (finalize_writes_unplaced_label_as_is sample_jump)
      as [_ (records & Hfinal & _ & Hrecords)].
    split; [exact Hinstr|]. split; [exact Hlabel|].
    split; [exact Hunplaced|].
    exists records. split; [exact Hfinal|].
    exact (proj1 (Hrecords 0%nat _ Hinstr Hlabel) Hunplaced).
  - destruct (finalize_writes_unplaced_label_as_is sample_placed_jump)
      as [_ (records & Hfinal & _ & Hrecords)].
    split; [exact Hinstr'|]. split; [exact Hplaced|].
    exists records. split; [exact Hfinal|].
    exact (proj2 (Hrecords 0%nat _ Hinstr' Hlabel) 2 Hplaced).
Defined.

(** The driver on a parse without errors, and on a parse with one. *)
Lemma finalize_iff_no_errors_witness :
  (completes (main_after_parse true "out.pal" [] sample_jump)
   /\ error_count [] = 0
   /\ code_file (main_after_parse true "out.pal" [] sample_jump)
      = Some (write_records (label_addresses sample_jump) 1
                (instructions sample_jump)))
  /\ (error_count [mk_diagnostic 1 0 93] <> 0
      /\ finalize_result
           (main_after_parse true "out.pal" [mk_diagnostic 1 0 93]
              sample_jump) = None
      /\ code_file
           (main_after_parse true "out.pal" [mk_diagnostic 1 0 93]
              sample_jump) = None).
Proof.
  assert (completes (main_after_parse true "out.pal" [] sample_jump))
    as Hdone by reflexivity.
  assert (error_count [] = 0) as Hzero by reflexivity.
  assert (error_count [mk_diagnostic 1 0 93] <> 0) as Hone
    by (vm_compute; discriminate).
  split.
  - split; [exact Hdone|]. split; [exact Hzero|].
    exact (proj2 (proj1 (proj2 (finalize_iff_no_errors true "out.pal" []
                                  sample_jump)) Hdone) Hzero).
  - split; [exact Hone|].
    destruct (proj2 (proj2 (finalize_iff_no_errors true "out.pal"
                              [mk_diagnostic 1 0 93] sample_jump)) Hone)
      as (Hnone & Hfile & _).
    split; [exact Hnone|exact Hfile].
Defined.


(** synchronize on the tokens of [odd "x"] with the follow set of a
    semicolon: no token is in the set, and the helper stops at the end of
    the program with the flag cleared. *)
Lemma synchronize_clears_recovering_witness :
  (forall t,
     t ∈ look sample_odd_parser :: sc sample_odd_parser ->
     existsb (fun f => symbol_eqb (get_sym t) f) [symbol.semicolon_sym]
     = false)
  /\ S (synchronize [symbol.semicolon_sym] sample_odd_parser)
     = symbol.end_of_program
  /\ recovering (synchronize [symbol.semicolon_sym] sample_odd_parser)
     = false.
Proof.
  assert (forall t,
            t ∈ look sample_odd_parser :: sc sample_odd_parser ->
            existsb (fun f => symbol_eqb (get_sym t) f)
              [symbol.semicolon_sym] = false) as Hnone.
  { intros t Hin. vm_compute in Hin.
    apply elem_of_cons in Hin as [->|Hin]; [reflexivity|].
    apply elem_of_cons in Hin as [->|Hin]; [reflexivity|].
    by apply elem_of_nil in Hin. }
  split; [exact Hnone|].
  exact (proj2 (proj2 (synchronize_clears_recovering
                         [symbol.semicolon_sym] sample_odd_parser))
           Hnone).
Defined.

(** The scanner on [. x], a dot that no dot follows, and on the digit of
    [1..10]. *)
Lemma lone_dot_never_a_token_witness :
  (eof_flag (scanner_at_start ". x") = false
   /\ next_char (scanner_at_start ". x") = "."%char
   /\ exists s',
        get_token 4 (scanner_at_start ". x")
        = Some (new_token symbol.nul 1 0, s')
        /\ error s' = Some [mk_diagnostic 1 0 22])
  /\ (scan_digits 8 (EmptyString, scanner_at_start "1..10")
      = Some ("1", get_char (scanner_at_start "1..10"))
      /\ next_char (get_char (scanner_at_start "1..10")) = "."%char
      /\ following_char (get_char (scanner_at_start "1..10")) = "."%char
      /\ exists s2,
           scan_digit 8 (scanner_at_start "1..10") = Some s2
           /\ current_symbol s2 = symbol.integer
           /\ next_char s2 = "."%char).
Proof.
  assert (eof_flag (scanner_at_start ". x") = false) as Heof
    by (vm_compute; reflexivity).
  assert (next_char (scanner_at_start ". x") = "."%char) as Hdot
    by (vm_compute; reflexivity).
  assert (scan_digits 8 (EmptyString, scanner_at_start "1..10")
          = Some ("1", get_char (scanner_at_start "1..10"))) as Hdigits
    by (vm_compute; reflexivity).
  assert (next_char (get_char (scanner_at_start "1..10")) = "."%char)
    as Hfirst by (vm_compute; reflexivity).
  assert (following_char (get_char (scanner_at_start "1..10")) = "."%char)
    as Hsecond by (vm_compute; reflexivity).
  destruct lone_dot_never_a_token as (_ & Hrange & Hlone).
  split.
  - split; [exact Heof|]. split; [exact Hdot|].
    destruct (Hlone 4%nat _ Heof Hdot) as (s' & Htoken & Herror).
    exists s'. split; [exact Htoken|exact Herror].
  - split; [exact Hdigits|]. split; [exact Hfirst|].
    split; [exact Hsecond|].
    destruct (Hrange 8%nat _ _ _ Hdigits Hfirst Hsecond)
      as (s2 & Hscan & Hsym & Hnext & _).
    exists s2. split; [exact Hscan|]. split; [exact Hsym|exact Hnext].
Defined.

(** odd applied to the string "x": the factor is boolean and the error
    handler stays empty; so it is not the case that odd on an operand that
    is not an integer adds a diagnostic. *)
Lemma odd_of_a_string_is_accepted :
  (S sample_odd_parser = symbol.odd_sym
   /\ exists q,
        primary 1 (advance sample_odd_parser) = Some (type_string, q)
        /\ factor 1 sample_odd_parser
           = Some (type_boolean, with_cg gen_odd q)
        /\ error_count (err (sem (with_cg gen_odd q))) = 0)
  /\ ~ (forall fuel (p : Parser) base q t q',
          S p = symbol.odd_sym ->
          primary fuel (advance p) = Some (base, q) ->
          base <> type_integer ->
          factor fuel p = Some (t, q') ->
          error_count (err (sem q)) < error_count (err (sem q'))).
Proof.
  assert (S sample_odd_parser = symbol.odd_sym
          /\ exists q,
               primary 1 (advance sample_odd_parser) = Some (type_string, q)
               /\ factor 1 sample_odd_parser
                  = Some (type_boolean, with_cg gen_odd q)
               /\ error_count (err (sem (with_cg gen_odd q))) = 0)
    as Hrun.
  { split; [vm_compute; reflexivity|].
    eexists. split; [vm_compute; reflexivity|].
    split; vm_compute; reflexivity. }
  split; [exact Hrun|].
  intros Hreports. destruct Hrun as (Hodd & q & Hoperand & Hfactor & _).
  assert (type_string <> type_integer) as Hstring by discriminate.
  pose proof (Hreports 1%nat sample_odd_parser type_string q type_boolean
                (with_cg gen_odd q) Hodd Hoperand Hstring Hfactor) as Hmore.
  change (sem (with_cg gen_odd q)) with (sem q) in Hmore. lia.
Qed.

Lemma unary_operator_typing_witness :
  (S sample_odd_parser = symbol.odd_sym
   /\ (tokens_left sample_odd_parser <= 3)%nat
   /\ exists q, factor 2 sample_odd_parser = Some (type_boolean, q))
  /\ (S (sample_unary_parser symbol.not_sym (new_token symbol.true_sym 1 4))
      = symbol.not_sym
      /\ exists r,
           factor 2 (sample_unary_parser symbol.not_sym
                       (new_token symbol.true_sym 1 4)) = Some r)
  /\ (S (sample_unary_parser symbol.minus_sym
           (set_integer_value 7 (new_token symbol.integer 1 4)))
      = symbol.minus_sym
      /\ exists r,
           factor 2 (sample_unary_parser symbol.minus_sym
                       (set_integer_value 7 (new_token symbol.integer 1 4)))
           = Some r)
  /\ (symbol.minus_sym = symbol.plus_sym
      \/ symbol.minus_sym = symbol.minus_sym)
  /\ check_unary symbol.minus_sym type_string sample_token sample_semantics
     = (type_unknown, sem_flag sample_token 116 sample_semantics).
Proof.
  assert (S sample_odd_parser = symbol.odd_sym) as Hodd
    by (vm_compute; reflexivity).
  assert (forall op operand,
            (tokens_left (sample_unary_parser op operand) <= 3)%nat)
    as Hleft.
  { intros op operand. unfold tokens_left.
    destruct (symbol_eqb _ _); vm_compute; lia. }
  destruct unary_operator_typing as (Hfactor & Hnot & Hsigns & _ & Hsign).
  split; [|split; [|split; [|split]]].
  - split; [exact Hodd|]. split; [apply Hleft|].
    destruct (Hfactor 2%nat _ Hodd (Hleft _ _)) as (base & q & _ & Hq & _).
    eexists. exact Hq.
  - split; [vm_compute; reflexivity|].
    destruct (Hnot 2%nat (sample_unary_parser symbol.not_sym
                            (new_token symbol.true_sym 1 4)))
      as (base & q & _ & Hq); [vm_compute; reflexivity|apply Hleft|].
    eexists. exact Hq.
  - split; [vm_compute; reflexivity|].
    destruct (Hsigns 2%nat
                (sample_unary_parser symbol.minus_sym
                   (set_integer_value 7 (new_token symbol.integer 1 4))))
      as (base & q & _ & Hq);
      [right; vm_compute; reflexivity|apply Hleft|].
    eexists. exact Hq.
  - right. reflexivity.
  - apply (Hsign symbol.minus_sym type_string sample_token sample_semantics).
    right. reflexivity.
Defined.

(** * The further properties on sample inputs *)

(** X1 on the scope of a program with a variable that is declared and
    looked up. *)
Lemma analyzer_pointers_stay_valid_witness :
  (forall name r,
     lookup name
       (id_tab (run_sem_calls (call_sem_open_scope :: sample_calls)
                  (mk_semantics id_table_new []))) = Some r ->
     exists rec,
       deref r (run_sem_calls (call_sem_open_scope :: sample_calls)
                  (mk_semantics id_table_new [])) = Some rec
       /\ get_name rec = name)
  /\ (forall a rec,
        deref a (run_sem_calls (call_sem_open_scope :: sample_calls)
                   (mk_semantics id_table_new [])) = Some rec ->
        exists i frame,
          scopes (id_tab (run_sem_calls (call_sem_open_scope :: sample_calls)
                            (mk_semantics id_table_new [])))
            !! i = Some frame
          /\ frame !! get_name rec = Some a).
Proof.
  exact (analyzer_pointers_stay_valid []
           (call_sem_open_scope :: sample_calls)).
Defined.

(** X2 on the fresh table. *)
Lemma enter_then_lookup_witness :
  scopes id_table_new <> []
  /\ lookup "X" (enter "X" id_table_new).2 = Some (enter "X" id_table_new).1
  /\ enter "X" (enter "X" id_table_new).2 = enter "X" id_table_new.
Proof.
  assert (Hne : scopes id_table_new <> []) by (vm_compute; discriminate).
  split; [exact Hne|].
  destruct (enter_then_lookup "X" id_table_new Hne)
    as (_ & Hlookup & _ & _ & Hagain).
  split; [exact Hlookup|exact Hagain].
Defined.

(** X3 on a scope in which X is declared and looked up. *)
Lemma scope_round_trip_witness :
  scopes (id_tab (mk_semantics id_table_new [])) <> []
  /\ forallb (fun c => negb (is_scope_call c)) sample_calls = true
  /\ id_tab (close_scope_and_dump
               (run_sem_calls sample_calls
                  (sem_open_scope (mk_semantics id_table_new [])))).2
     = id_table_new.
Proof.
  assert (Hne : scopes (id_tab (mk_semantics id_table_new [])) <> [])
    by (vm_compute; discriminate).
  assert (Hcalls : forallb (fun c => negb (is_scope_call c)) sample_calls
                   = true) by reflexivity.
  split; [exact Hne|]. split; [exact Hcalls|].
  exact (scope_round_trip sample_calls (mk_semantics id_table_new [])
           Hne Hcalls).
Defined.

(** X4 on X, declared in the scope of a program. *)
Lemma declaration_then_use_witness :
  (scopes (id_tab sample_scope) <> []
   /\ lookup_local "X" (id_tab sample_scope) = None
   /\ is_builtin_name "X" = false)
  /\ lookup_type "X" sample_token
       (declare_var "X" type_integer sample_token sample_scope)
     = (type_integer, declare_var "X" type_integer sample_token sample_scope)
  /\ check_assignment "X" type_real sample_token
       (declare_const "X" type_integer sample_token sample_scope)
     = sem_flag sample_token 85
         (declare_const "X" type_integer sample_token sample_scope).
Proof.
  assert (Hne : scopes (id_tab sample_scope) <> [])
    by (vm_compute; discriminate).
  assert (Hnew : lookup_local "X" (id_tab sample_scope) = None)
    by (vm_compute; reflexivity).
  assert (Hname : is_builtin_name "X" = false) by reflexivity.
  split; [split; [exact Hne|split; [exact Hnew|exact Hname]]|].
  destruct (declaration_then_use "X" type_integer type_real sample_token
              sample_token sample_scope Hne Hnew Hname)
    as [[Hvar _] [_ Hconst]].
  split; [exact Hvar|exact Hconst].
Defined.

(** X5 on a constant X declared after a variable X. *)
Lemma redeclaration_is_refused_witness :
  scopes (id_tab sample_scope) <> []
  /\ declare_const "X" type_real sample_token
       (declare_var "X" type_integer sample_token sample_scope)
     = sem_flag sample_token 82
         (declare_var "X" type_integer sample_token sample_scope).
Proof.
  assert (Hne : scopes (id_tab sample_scope) <> [])
    by (vm_compute; discriminate).
  split; [exact Hne|].
  exact (redeclaration_is_refused false true "X" type_integer type_real
           sample_token sample_token sample_scope Hne).
Defined.

(** X7 on a label placed after a jump. *)
Lemma label_is_next_instruction_witness :
  exists a,
    label_addresses
      (push_instruction (mk_Instruction "OPR" 0 "0" "Procedure return.")
         (gen_label "L0"
            (run_cg_calls [call_gen_jump "L0"] (code_gen_new "out.pal"))))
      !! "L0" = Some a
    /\ 1 <= a.
Proof.
  destruct (label_is_next_instruction "out.pal" [call_gen_jump "L0"] "L0"
              (mk_Instruction "OPR" 0 "0" "Procedure return."))
    as (a & Ha & Hpos & _).
  exists a. split; [exact Ha|exact Hpos].
Defined.

(** X10 on the text of 42. *)
Lemma stoi_of_to_string_witness :
  0 <= 42 /\ stoi (to_string 42) = Some 42.
Proof.
  split; [lia|]. exact (stoi_of_to_string 42 ltac:(lia)).
Defined.



(** X13 on a call of INT2REAL right after the start of the program. *)
Lemma builtin_call_reaches_its_conversion_witness :
  conversion_of "INT2REAL" = Some 25
  /\ exists a conv,
       1 <= a
       /\ instructions (gen_program_start "P" (code_gen_new "out.pal"))
            !! Z.to_nat a = Some conv
       /\ (opcode conv, operand1 conv, operand2 conv)
          = ("OPR", 0, to_string 25).
Proof.
  assert (Hk : conversion_of "INT2REAL" = Some 25) by reflexivity.
  split; [exact Hk|].
  destruct (builtin_call_reaches_its_conversion "out.pal" "P" "INT2REAL"
              [] 1 1 25 Hk)
    as (a & call & load & conv & ret & _ & _ & Hpos & _ & _ & Hconv & Hop & _).
  exists a, conv. split; [exact Hpos|]. split; [exact Hconv|exact Hop].
Defined.

(** X14 on the scanner of an empty source. *)
Lemma get_token_at_end_of_file_witness :
  eof_flag (scanner_at_start EmptyString) = true
  /\ exists s',
       get_token 1 (scanner_at_start EmptyString)
       = Some (new_token symbol.end_of_program
                 (line_number (scanner_at_start EmptyString))
                 (pos_on_line (scanner_at_start EmptyString)), s')
       /\ eof_flag s' = true.
Proof.
  assert (Heof : eof_flag (scanner_at_start EmptyString) = true)
    by (vm_compute; reflexivity).
  split; [exact Heof|].
  destruct (get_token_at_end_of_file 1 1 (scanner_at_start EmptyString) Heof)
    as (s' & Htoken & Heof' & _).
  exists s'. split; [exact Htoken|exact Heof'].
Defined.

(** X15 to X18 on [program p is begin null; end;]. *)
Lemma parse_program_returns_witness :
  (input_left sample_program_parser < 10)%nat
  /\ exists out q,
       parse_program 10 sample_program_parser = Some (out, q)
       /\ current_level q = 0.
Proof.
  assert (Hfuel : (input_left sample_program_parser < 10)%nat)
    by (vm_compute; lia).
  split; [exact Hfuel|].
  destruct (parse_program_returns 10 sample_program_parser Hfuel)
    as (out & q & Hq & Hlevel & _).
  exists out, q. split; [exact Hq|exact Hlevel].
Defined.

Lemma parse_program_closes_its_scopes_witness :
  (scopes (id_tab (sem sample_program_parser)) <> []
   /\ (input_left sample_program_parser < 10)%nat)
  /\ exists out q,
       parse_program 10 sample_program_parser = Some (out, q)
       /\ id_tab (sem q) = id_tab (sem sample_program_parser).
Proof.
  assert (Hne : scopes (id_tab (sem sample_program_parser)) <> [])
    by (vm_compute; discriminate).
  assert (Hfuel : (input_left sample_program_parser < 10)%nat)
    by (vm_compute; lia).
  split; [split; [exact Hne|exact Hfuel]|].
  destruct (parse_program_closes_its_scopes 10 sample_program_parser
              Hne Hfuel)
    as (out & q & Hq & Htab & _).
  exists out, q. split; [exact Hq|exact Htab].
Defined.

Lemma parse_program_places_every_label_witness :
  (cg sample_program_parser = Some (code_gen_new "out.pal")
   /\ instructions (code_gen_new "out.pal") = []
   /\ loop_exit_labels sample_program_parser = []
   /\ (input_left sample_program_parser < 10)%nat)
  /\ exists out q c',
       parse_program 10 sample_program_parser = Some (out, q)
       /\ cg q = Some c'
       /\ forall instr,
            instr ∈ instructions c' ->
            operand_ok (fun _ => False) (label_addresses c')
              (operand2 instr).
Proof.
  assert (Hcg : cg sample_program_parser = Some (code_gen_new "out.pal"))
    by reflexivity.
  assert (Hnone : instructions (code_gen_new "out.pal") = [])
    by reflexivity.
  assert (Hloops : loop_exit_labels sample_program_parser = [])
    by reflexivity.
  assert (Hfuel : (input_left sample_program_parser < 10)%nat)
    by (vm_compute; lia).
  split; [split; [exact Hcg|split; [exact Hnone|split;
                                    [exact Hloops|exact Hfuel]]]|].
  destruct (parse_program_places_every_label 10 sample_program_parser
              (code_gen_new "out.pal") Hcg Hnone Hloops Hfuel)
    as (out & q & c' & Hq & Hc' & _ & Hops).
  exists out, q, c'. split; [exact Hq|]. split; [exact Hc'|exact Hops].
Defined.

Lemma parse_program_keeps_diagnostics_witness :
  (input_left sample_program_parser < 10)%nat
  /\ exists out q,
       parse_program 10 sample_program_parser = Some (out, q)
       /\ err (sem sample_program_parser) `prefix_of` err (sem q).
Proof.
  assert (Hfuel : (input_left sample_program_parser < 10)%nat)
    by (vm_compute; lia).
  split; [exact Hfuel|].
  exact (parse_program_keeps_diagnostics 10 sample_program_parser Hfuel).
Defined.

(** X19 on [null;]. *)
Lemma statement_consumes_and_restores_witness :
  ((input_left sample_statement_parser < 3)%nat
   /\ starts_stmt sample_statement_parser = true)
  /\ exists out q,
       stmt 3 sample_statement_parser = Some (out, q)
       /\ (input_left q < input_left sample_statement_parser)%nat
       /\ current_level q = current_level sample_statement_parser.
Proof.
  assert (Hfuel : (input_left sample_statement_parser < 3)%nat)
    by (vm_compute; lia).
  assert (Hstart : starts_stmt sample_statement_parser = true)
    by reflexivity.
  split; [split; [exact Hfuel|exact Hstart]|].
  destruct (statement_consumes_and_restores 3 sample_statement_parser Hfuel)
    as (out & q & Hq & Hlt & Hlevel & _).
  exists out, q. split; [exact Hq|]. split; [exact (Hlt Hstart)|exact Hlevel].
Defined.

(** X20 on [x : integer;] in the scope of a program. *)
Lemma declarations_stay_in_their_scope_witness :
  ((input_left sample_declaration_parser < 6)%nat
   /\ inner_frame id_table_new (id_tab (sem sample_declaration_parser)))
  /\ exists out q,
       decls 6 sample_declaration_parser = Some (out, q)
       /\ inner_frame id_table_new (id_tab (sem q)).
Proof.
  assert (Hfuel : (input_left sample_declaration_parser < 6)%nat)
    by (vm_compute; lia).
  assert (Hin : inner_frame id_table_new
                  (id_tab (sem sample_declaration_parser)))
    by exact (inner_frame_open id_table_new).
  split; [split; [exact Hfuel|exact Hin]|].
  destruct (declarations_stay_in_their_scope 6 sample_declaration_parser
              id_table_new Hfuel Hin)
    as (out & q & Hq & Hin' & _).
  exists out, q. split; [exact Hq|exact Hin'].
Defined.

(** X8 on the first two labels of an emitter. *)
Lemma new_labels_are_distinct_witness :
  label_counter
    (run_cg_calls []
       (gen_new_label (run_cg_calls [] (code_gen_new "out.pal"))).2)
    < 2147483647
  /\ is_label (gen_new_label (code_gen_new "out.pal")).1 = true
  /\ (gen_new_label (code_gen_new "out.pal")).1
     <> (gen_new_label (gen_new_label (code_gen_new "out.pal")).2).1.
Proof.
  assert (Hint : label_counter
                   (run_cg_calls []
                      (gen_new_label
                         (run_cg_calls [] (code_gen_new "out.pal"))).2)
                 < 2147483647) by (vm_compute; reflexivity).
  split; [exact Hint|].
  destruct (new_labels_are_distinct "out.pal" [] [] Hint)
    as (Hlabel & Hnew & _).
  split; [exact Hlabel|exact Hnew].
Defined.

(** X9 on the string literal 'L0' where L0 is a placed label. *)
Lemma numbers_and_strings_are_not_labels_witness :
  resolve_operand (label_addresses sample_placed_jump) ("'" +:+ "L0" +:+ "'")
  = "'" +:+ "L0" +:+ "'".
Proof.
  exact (proj1 (proj2 (numbers_and_strings_are_not_labels
                         (label_addresses sample_placed_jump)
                         "LIT" 0 0 "L0" EmptyString "out.pal"
                         sample_placed_jump))).
Defined.

(** X21 and X22 on the scanner at the start of [ab]. *)
Lemma get_token_returns_witness :
  (chars_left (scanner_at_start "ab") + 2 <= 10)%nat
  /\ exists t s',
       get_token 10 (scanner_at_start "ab") = Some (t, s')
       /\ (chars_left s' <= chars_left (scanner_at_start "ab"))%nat.
Proof.
  assert (Hfuel : (chars_left (scanner_at_start "ab") + 2 <= 10)%nat)
    by (vm_compute; lia).
  split; [exact Hfuel|].
  destruct (get_token_returns 10 (scanner_at_start "ab") Hfuel)
    as (t & s' & Ht & Hle & _).
  exists t, s'. split; [exact Ht|exact Hle].
Defined.

Lemma get_tokens_reach_end_of_program_witness :
  ((chars_left (scanner_at_start "ab") < 10)%nat
   /\ (chars_left (scanner_at_start "ab") + 2 <= 10)%nat)
  /\ exists front last s',
       get_tokens 10 10 (scanner_at_start "ab") = Some (front ++ [last], s')
       /\ get_sym last = symbol.end_of_program.
Proof.
  assert (Hn : (chars_left (scanner_at_start "ab") < 10)%nat)
    by (vm_compute; lia).
  assert (Hfuel : (chars_left (scanner_at_start "ab") + 2 <= 10)%nat)
    by (vm_compute; lia).
  split; [split; [exact Hn|exact Hfuel]|].
  destruct (get_tokens_reach_end_of_program 10 10 (scanner_at_start "ab")
              Hn Hfuel)
    as (front & last & s' & Hts & Hlast & _).
  exists front, last, s'. split; [exact Hts|exact Hlast].
Defined.

(** X23 on the token of [ab]. *)
Lemma identifiers_are_upper_case_witness :
  exists t s',
    get_token 5 (scanner_at_start "ab") = Some (t, s')
    /\ get_sym t = symbol.identifier
    /\ all_upper (get_identifier_value t) = true.
Proof.
  destruct (get_token 5 (scanner_at_start "ab")) as [[t s']|] eqn:Ht.
  - assert (Hid : get_sym t = symbol.identifier).
    { vm_compute in Ht. injection Ht as <- _. reflexivity. }
    exists t, s'. split; [reflexivity|]. split; [exact Hid|].
    exact (identifiers_are_upper_case 5 (scanner_at_start "ab") t s' Ht Hid).
  - vm_compute in Ht. discriminate.
Defined.
